(** * htmlfy utilities: protection / ignore pipeline and configuration model

    A shallow embedding of [node_modules/htmlfy/src/utils.js] and of the
    constants it imports ([CONFIG], [ATTRIBUTE_IGNORE_STRING]).

    - JavaScript strings are lists of UTF-16 code units ([N]).
    - The regular expressions of the source are written as terms of [regex]
      and run by a backtracking matcher with the priorities of
      ECMAScript (greedy and lazy quantifiers, alternation left to right).
    - [String.prototype.replace] is embedded in its three forms used by the
      source: global regex with a callback, global regex with a replacement
      template, string pattern with a callback (first occurrence only).
    - Configuration objects are trees of JavaScript values; the argument
      of [validateConfig] also has a prototype chain and property
      attributes.  The caller's object and the shared [CONFIG] constant
      live in an explicit store, in which the argument may be the constant
      itself. *)

From Stdlib Require Import List NArith ZArith Bool String Ascii Lia QArith Qcanon Qround.
Import ListNotations.

Set Implicit Arguments.
Local Open Scope N_scope.
Local Open Scope list_scope.

(** ** Code units and character classes *)

Module Chars.

Definition char := N.
Definition jsstring := list char.

Fixpoint str (s : string) : jsstring :=
  match s with
  | EmptyString => []
  | String a s' => N_of_ascii a :: str s'
  end.

Definition LT : char := 60.      (* < *)
Definition GT : char := 62.      (* > *)
Definition SLASH : char := 47.   (* / *)
Definition NL : char := 10.      (* \n *)
Definition CR : char := 13.      (* \r *)
Definition SP : char := 32.      (* space *)
Definition TAB : char := 9.      (* \t *)
Definition DASH : char := 45.    (* - *)
Definition BANG : char := 33.    (* ! *)
Definition DOLLAR : char := 36.  (* $ *)
Definition POUND : char := 163.  (* the pound sign, U+00A3 *)
Definition QUOTE : char := 34.   (* the double quote *)

Definition in_range (lo hi c : char) : bool := (lo <=? c) && (c <=? hi).

(** [\s]: WhiteSpace and LineTerminator of ECMAScript. *)
Definition is_space (c : char) : bool :=
  in_range 9 13 c || (c =? 32) || (c =? 160) || (c =? 5760)
  || in_range 8192 8202 c || (c =? 8232) || (c =? 8233) || (c =? 8239)
  || (c =? 8287) || (c =? 12288) || (c =? 65279).

(** [\w]: ASCII letters, digits and underscore. *)
Definition is_word (c : char) : bool :=
  in_range 65 90 c || in_range 97 122 c || in_range 48 57 c || (c =? 95).

(** [.] without the s flag: anything but a line terminator. *)
Definition is_dot (c : char) : bool :=
  negb ((c =? 10) || (c =? 13) || (c =? 8232) || (c =? 8233)).

(** [[\w:\-]] *)
Definition is_name_char (c : char) : bool :=
  is_word c || (c =? 58) || (c =? 45).

Definition is_not (x : char) (c : char) : bool := negb (c =? x).

Definition str_eqb (a b : jsstring) : bool :=
  if list_eq_dec N.eq_dec a b then true else false.

Fixpoint prefixb (p s : jsstring) : bool :=
  match p, s with
  | [], _ => true
  | _ :: _, [] => false
  | a :: p', b :: s' => (a =? b) && prefixb p' s'
  end.

Definition EQUALS : char := 61.  (* = *)
Definition DOT : char := 46.     (* . *)
Definition UNDERSCORE : char := 95.

(** [[A-Za-z]], [[A-Za-z0-9]], [[a-z]] *)
Definition is_alpha (c : char) : bool := in_range 65 90 c || in_range 97 122 c.
Definition is_alnum (c : char) : bool := is_alpha c || in_range 48 57 c.
Definition is_lower (c : char) : bool := in_range 97 122 c.

(** [[a-z0-9._]] and [[a-z0-9._-]] *)
Definition is_custom_char (c : char) : bool :=
  is_lower c || in_range 48 57 c || (c =? DOT) || (c =? UNDERSCORE).
Definition is_custom_tail (c : char) : bool := is_custom_char c || (c =? DASH).

(** [[A-Za-z0-9_-]] *)
Definition is_attr_char (c : char) : bool := is_word c || (c =? DASH).

End Chars.
Import Chars.

(** ** Regular expressions and the backtracking matcher *)

Module Regex.

Inductive regex : Type :=
| Eps
| Chr (c : char)
| Cls (p : char -> bool)
| Seq (r1 r2 : regex)
| Alt (r1 r2 : regex)
| Star (greedy : bool) (r : regex)
| Group (i : nat) (r : regex).

(** [x+] is [x x*]. *)
Definition Plus (greedy : bool) (r : regex) : regex := Seq r (Star greedy r).

Fixpoint Lit (s : jsstring) : regex :=
  match s with
  | [] => Eps
  | c :: s' => Seq (Chr c) (Lit s')
  end.

(** Captures: the newest binding of a group index comes first. *)
Definition caps := list (nat * jsstring).

Fixpoint cap_get (i : nat) (cs : caps) : option jsstring :=
  match cs with
  | [] => None
  | (j, v) :: cs' => if Nat.eqb i j then Some v else cap_get i cs'
  end.

Definition result := (jsstring * caps)%type.
Definition cont := jsstring -> caps -> option result.

Definition orelse (a b : option result) : option result :=
  match a with Some _ => a | None => b end.

(** [m r s cs k]: match [r] at the front of [s], then continue with [k] on
    what is left; the first success in priority order wins.  An iteration
    of a quantifier that consumes nothing is rejected, as in ECMAScript. *)
Fixpoint m (r : regex) : jsstring -> caps -> cont -> option result :=
  match r with
  | Eps => fun s cs k => k s cs
  | Chr c => fun s cs k =>
      match s with
      | a :: s' => if a =? c then k s' cs else None
      | [] => None
      end
  | Cls p => fun s cs k =>
      match s with
      | a :: s' => if p a then k s' cs else None
      | [] => None
      end
  | Seq r1 r2 => fun s cs k => m r1 s cs (fun s1 cs1 => m r2 s1 cs1 k)
  | Alt r1 r2 => fun s cs k => orelse (m r1 s cs k) (m r2 s cs k)
  | Star greedy r1 => fun s cs k =>
      (fix loop (fuel : nat) (s : jsstring) (cs : caps) {struct fuel}
         : option result :=
         let again :=
           match fuel with
           | O => None
           | S fuel' =>
               m r1 s cs (fun s1 cs1 =>
                 if (List.length s1 <? List.length s)%nat then loop fuel' s1 cs1
                 else None)
           end in
         if greedy then orelse again (k s cs) else orelse (k s cs) again)
        (List.length s) s cs
  | Group i r1 => fun s cs k =>
      m r1 s cs (fun s1 cs1 =>
        k s1 ((i, firstn (List.length s - List.length s1) s) :: cs1))
  end.

(** One match attempt at the front of [s]. *)
Record hit := Hit { matched : jsstring; groups : caps; after : jsstring }.

(** The continuation that ends a match. *)
Definition K0 : cont := fun s cs => Some (s, cs).

Definition exec (r : regex) (s : jsstring) : option hit :=
  match m r s [] K0 with
  | Some (s', cs) => Some (Hit (firstn (List.length s - List.length s') s) cs s')
  | None => None
  end.

Definition group (i : nat) (h : hit) : jsstring :=
  match cap_get i (groups h) with Some v => v | None => [] end.

(** The global scan of [String.prototype.replace] with a [g] regex: matches
    are found left to right and do not overlap; after an empty match the
    scan moves on by one code unit. *)
Inductive segment : Type :=
| Keep (c : char)
| Found (before : jsstring) (h : hit).

Fixpoint scan (r : regex) (skip : nat) (before s : jsstring) : list segment :=
  match s with
  | [] =>
      match skip with
      | O => match exec r [] with
             | Some h => [Found before h]
             | None => []
             end
      | S _ => []
      end
  | c :: s' =>
      match skip with
      | S n => scan r n (before ++ [c]) s'
      | O =>
          match exec r s with
          | Some h =>
              match List.length (matched h) with
              | O => Found before h :: Keep c :: scan r 0 (before ++ [c]) s'
              | S n => Found before h :: scan r n (before ++ [c]) s'
              end
          | None => Keep c :: scan r 0 (before ++ [c]) s'
          end
      end
  end.

Definition segments (r : regex) (s : jsstring) : list segment := scan r 0 [] s.

(** [s.replace(/r/g, (match, p1, ...) => f match p1 ...)] *)
Definition replace_fn (r : regex) (f : hit -> jsstring) (s : jsstring) : jsstring :=
  flat_map (fun g => match g with Keep c => [c] | Found _ h => f h end)
           (segments r s).

(** The replacement template of [replace] with a string as second argument:
    [$$], [$&], [$`], [$'] and [$1]..[$9]; a [$] followed by anything else,
    or naming a group the regex does not have, stands for itself. *)
Definition digit_of (c : char) : option nat :=
  if in_range 49 57 c then Some (N.to_nat (c - 48)) else None.

Fixpoint expand (ngroups : nat) (before : jsstring) (h : hit) (t : jsstring)
  : jsstring :=
  match t with
  | [] => []
  | c :: t' =>
      if c =? DOLLAR then
        match t' with
        | d :: t'' =>
            if d =? DOLLAR then DOLLAR :: expand ngroups before h t''
            else if d =? 38 then matched h ++ expand ngroups before h t''
            else if d =? 96 then before ++ expand ngroups before h t''
            else if d =? 39 then after h ++ expand ngroups before h t''
            else match digit_of d with
                 | Some i =>
                     if (i <=? ngroups)%nat
                     then group i h ++ expand ngroups before h t''
                     else c :: expand ngroups before h t'
                 | None => c :: expand ngroups before h t'
                 end
        | [] => [c]
        end
      else c :: expand ngroups before h t'
  end.

(** [s.replace(/r/g, template)] for a regex with [ngroups] groups. *)
Definition replace_tpl (r : regex) (ngroups : nat) (t : jsstring) (s : jsstring)
  : jsstring :=
  flat_map (fun g => match g with
                     | Keep c => [c]
                     | Found b h => expand ngroups b h t
                     end)
           (segments r s).

(** [s.replace(pattern, f)] with a string pattern: only the first
    occurrence of [pattern] in [s] is replaced, by [f pattern]. *)
Fixpoint replace_first (pat : jsstring) (f : jsstring -> jsstring) (s : jsstring)
  : jsstring :=
  if prefixb pat s then f pat ++ skipn (List.length pat) s
  else match s with
       | [] => []
       | c :: s' => c :: replace_first pat f s'
       end.

(** [r.test(s)] for a regex without the [g] and [y] flags: a match is
    looked for at index 0, then one code unit further, up to the end of the
    string.  [attempt r k] is the try at one index of [r] followed by what
    [k] still asks for. *)
Definition attempt (r : regex) (k : cont) (s : jsstring) : bool :=
  match m r s [] k with Some _ => true | None => false end.

Fixpoint search (a : jsstring -> bool) (s : jsstring) : bool :=
  a s || match s with [] => false | _ :: s' => search a s' end.

(** A backreference to group [i] followed by [r], as what is left to
    match: the text the group holds, or nothing when the group is not
    set, then [r]. *)
Definition backref (i : nat) (r : regex) (k : cont) : cont :=
  fun s cs =>
    match cap_get i cs with
    | Some v => m (Seq (Lit v) r) s cs k
    | None => m r s cs k
    end.

(** [new RegExp(source)] for a source made of ordinary characters only.  A
    source with a pattern character is outside the modelled fragment. *)
Definition is_syntax_char (c : char) : bool :=
  existsb (N.eqb c) [92; 94; 36; 46; 124; 63; 42; 43; 40; 41; 91; 93; 123; 125].

Definition plain (s : jsstring) : bool := forallb (fun c => negb (is_syntax_char c)) s.

End Regex.
Import Regex.

(** ** constants.js *)

Module Constants.

(** [ATTRIBUTE_IGNORE_STRING = '!i-£___£%_'] *)
Definition ATTRIBUTE_IGNORE_STRING : jsstring :=
  str "!i-" ++ [POUND] ++ str "___" ++ [POUND] ++ str "%_".

(** The default [ignore_with] of [CONFIG]: ['_!i-£___£%_']. *)
Definition DEFAULT_IGNORE_WITH : jsstring := str "_" ++ ATTRIBUTE_IGNORE_STRING.

End Constants.
Import Constants.

(** ** The string transforms of utils.js *)

Module Utils.

(** The typed view of a validated configuration, as far as the string
    transforms read it. *)
Record Config := mkConfig { ignore : list jsstring; ignore_with : jsstring }.

(** [new RegExp(src, "g")] *)
Definition RegExp (src : jsstring) : option regex :=
  if plain src then Some (Lit src) else None.

(** [/<[\w:\-]+([^>]*[^\/])>/g] *)
Definition attr_re : regex :=
  Seq (Chr LT)
   (Seq (Plus true (Cls is_name_char))
     (Seq (Group 1 (Seq (Star true (Cls (is_not GT))) (Cls (is_not SLASH))))
          (Chr GT))).

Definition protect_capture (x : jsstring) : jsstring :=
  replace_tpl (Cls is_space) 0 (ATTRIBUTE_IGNORE_STRING ++ str "ws!")
   (replace_tpl (Chr CR) 0 (ATTRIBUTE_IGNORE_STRING ++ str "cr!")
     (replace_tpl (Chr NL) 0 (ATTRIBUTE_IGNORE_STRING ++ str "nl!") x)).

Definition protectAttributes (html : jsstring) : jsstring :=
  replace_fn attr_re
    (fun h => replace_first (group 1 h) protect_capture (matched h)) html.

Definition unprotect_capture (x : jsstring) : jsstring :=
  replace_tpl (Lit (ATTRIBUTE_IGNORE_STRING ++ str "ws!")) 0 [SP]
   (replace_tpl (Lit (ATTRIBUTE_IGNORE_STRING ++ str "cr!")) 0 [CR]
     (replace_tpl (Lit (ATTRIBUTE_IGNORE_STRING ++ str "nl!")) 0 [NL] x)).

Definition unprotectAttributes (html : jsstring) : jsstring :=
  replace_fn attr_re
    (fun h => replace_first (group 1 h) unprotect_capture (matched h)) html.

(** [new RegExp(`<${tag}[^>]*>((.|\n)*?)<\/${tag}>`, "g")] with the tag text
    spliced into the pattern. *)
Definition ignore_re (tag : jsstring) : regex :=
  Seq (Chr LT)
   (Seq (Lit tag)
     (Seq (Star true (Cls (is_not GT)))
       (Seq (Chr GT)
         (Seq (Group 1 (Star false (Group 2 (Alt (Cls is_dot) (Chr NL)))))
           (Seq (Chr LT) (Seq (Chr SLASH) (Seq (Lit tag) (Chr GT)))))))).

Definition RegExp_ignore (tag : jsstring) : option regex :=
  if plain tag then Some (ignore_re tag) else None.

Definition token (ignore_string cls : jsstring) : jsstring :=
  DASH :: ignore_string ++ cls ++ [DASH].

Definition ignore_capture (ignore_string x : jsstring) : jsstring :=
  replace_tpl (Cls is_space) 0 (token ignore_string (str "ws"))
   (replace_tpl (Chr CR) 0 (token ignore_string (str "cr"))
     (replace_tpl (Chr NL) 0 (token ignore_string (str "nl"))
       (replace_tpl (Chr GT) 0 (token ignore_string (str "gt"))
         (replace_tpl (Chr LT) 0 (token ignore_string (str "lt")) x)))).

(** The [for] loop over [config.ignore]; [None] when a tag is outside the
    modelled pattern fragment. *)
Fixpoint setIgnoreElement_loop (ignore_string : jsstring) (tags : list jsstring)
  (html : jsstring) : option jsstring :=
  match tags with
  | [] => Some html
  | tag :: rest =>
      match RegExp_ignore tag with
      | Some regex =>
          setIgnoreElement_loop ignore_string rest
            (replace_fn regex
               (fun h => replace_first (group 1 h)
                           (ignore_capture ignore_string) (matched h))
               html)
      | None => None
      end
  end.

Definition setIgnoreElement (html : jsstring) (config : Config) : option jsstring :=
  setIgnoreElement_loop (ignore_with config) (ignore config) html.

(** The five decoding replacements; each pattern is built by [new RegExp]. *)
Definition unignore_step (ignore_string cls : jsstring) (to : char)
  (x : option jsstring) : option jsstring :=
  match x, RegExp (token ignore_string cls) with
  | Some y, Some r => Some (replace_tpl r 0 [to] y)
  | _, _ => None
  end.

Definition unignore_capture (ignore_string x : jsstring) : option jsstring :=
  unignore_step ignore_string (str "ws") SP
   (unignore_step ignore_string (str "cr") CR
     (unignore_step ignore_string (str "nl") NL
       (unignore_step ignore_string (str "gt") GT
         (unignore_step ignore_string (str "lt") LT (Some x))))).

(** The callback of [unsetIgnoreElement] throws (here: [None]) as soon as it
    runs with a sentinel outside the pattern fragment; when no element
    matches it never runs. *)
Definition unignore_hits (ignore_string : jsstring) (segs : list segment)
  : option jsstring :=
  fold_right
    (fun g acc =>
       match acc with
       | None => None
       | Some tl =>
           match g with
           | Keep c => Some (c :: tl)
           | Found _ h =>
               match unignore_capture ignore_string (group 1 h) with
               | Some d =>
                   Some (replace_first (group 1 h) (fun _ => d) (matched h) ++ tl)
               | None => None
               end
           end
       end)
    (Some []) segs.

Fixpoint unsetIgnoreElement_loop (ignore_string : jsstring) (tags : list jsstring)
  (html : jsstring) : option jsstring :=
  match tags with
  | [] => Some html
  | tag :: rest =>
      match RegExp_ignore tag with
      | Some regex =>
          match unignore_hits ignore_string (segments regex html) with
          | Some html' => unsetIgnoreElement_loop ignore_string rest html'
          | None => None
          end
      | None => None
      end
  end.

Definition unsetIgnoreElement (html : jsstring) (config : Config) : option jsstring :=
  unsetIgnoreElement_loop (ignore_with config) (ignore config) html.

(** [new RegExp(`(<${tag}[^>]*>)\\s+`, "g")] *)
Definition leading_whitespace (tag : jsstring) : regex :=
  Seq (Group 1 (Seq (Chr LT) (Seq (Lit tag)
                 (Seq (Star true (Cls (is_not GT))) (Chr GT)))))
      (Plus true (Cls is_space)).

(** [new RegExp(`\\s+(</${tag}>)`, "g")] *)
Definition trailing_whitespace (tag : jsstring) : regex :=
  Seq (Plus true (Cls is_space))
      (Group 1 (Seq (Chr LT) (Seq (Chr SLASH) (Seq (Lit tag) (Chr GT))))).

(** The [for] loop over [trim].  [None] when a tag name holds a pattern
    character: [new RegExp] reads such a name as a pattern of its own,
    which is outside the modelled fragment; the theorems on [trimify] take
    tag names without pattern characters. *)
Fixpoint trimify (html : jsstring) (trim : list jsstring) : option jsstring :=
  match trim with
  | [] => Some html
  | tag :: rest =>
      if plain tag then
        trimify
          (replace_tpl (trailing_whitespace tag) 1 (str "$1")
             (replace_tpl (leading_whitespace tag) 1 (str "$1") html))
          rest
      else None
  end.

(** *** isHtml *)

(** The tag name of the first two patterns: [[A-Za-z]+] followed by
    [[A-Za-z0-9]*], in a group that does not capture. *)
Definition html_name : regex :=
  Seq (Plus true (Cls is_alpha)) (Star true (Cls is_alnum)).

(** [[a-z][a-z0-9._]*-[a-z0-9._-]+] *)
Definition custom_name : regex :=
  Seq (Cls is_lower)
   (Seq (Star true (Cls is_custom_char))
     (Seq (Chr DASH) (Plus true (Cls is_custom_tail)))).

(** [(?:\s+.*?)*?] *)
Definition tag_attrs : regex :=
  Star false (Seq (Plus true (Cls is_space)) (Star false (Cls is_dot))).

(** The first pattern: [<], the tag name, [(?:\s+.*?)*?], [>]. *)
Definition open_tag_re : regex :=
  Seq (Chr LT) (Seq html_name (Seq tag_attrs (Chr GT))).

(** [<(?<Element>name)(?:\s+.*?)*?>(?:.|\n)*?<\/{1}], the part of the
    second and third pattern before the backreference; the named group is
    group 1. *)
Definition element_re (name : regex) : regex :=
  Seq (Chr LT)
   (Seq (Group 1 name)
     (Seq tag_attrs
       (Seq (Chr GT)
         (Seq (Star false (Alt (Cls is_dot) (Chr NL)))
           (Seq (Chr LT) (Chr SLASH)))))).

(** [\k<Element>>], what follows it. *)
Definition element_close : cont := backref 1 (Chr GT) K0.

Definition isHtml (content : jsstring) : bool :=
  search (attempt open_tag_re K0) content
  || search (attempt (element_re html_name) element_close) content
  || search (attempt (element_re custom_name) element_close) content.

(** *** setIgnoreAttribute, unsetIgnoreAttribute *)

(** One attribute of the list: [\s+], a name [[A-Za-z0-9_-]+], [=], and
    a value between double quotes that holds no double quote. *)
Definition quoted_attr : regex :=
  Seq (Plus true (Cls is_space))
   (Seq (Plus true (Cls is_attr_char))
     (Seq (Chr EQUALS)
       (Seq (Chr QUOTE) (Seq (Star true (Cls (is_not QUOTE))) (Chr QUOTE))))).

(** The second group of the pattern: [\s*[a-z]*], any number of
    attributes, [\s*[a-z]*]. *)
Definition attr_list : regex :=
  Seq (Star true (Cls is_space))
   (Seq (Star true (Cls is_lower))
     (Seq (Star true quoted_attr)
       (Seq (Star true (Cls is_space)) (Star true (Cls is_lower))))).

(** The pattern of [setIgnoreAttribute] (flag [g]): [<], group 1 (an
    HTML tag name [[A-Za-z][A-Za-z0-9]*] or else a custom element name),
    group 2 (the attribute list), [>]. *)
Definition set_attr_re : regex :=
  Seq (Chr LT)
   (Seq (Group 1 (Alt (Seq (Cls is_alpha) (Star true (Cls is_alnum))) custom_name))
     (Seq (Group 2 attr_list) (Chr GT))).

Definition set_attr_capture (x : jsstring) : jsstring :=
  replace_tpl (Chr GT) 0 (ATTRIBUTE_IGNORE_STRING ++ str "gt!")
   (replace_tpl (Chr LT) 0 (ATTRIBUTE_IGNORE_STRING ++ str "lt!") x).

Definition setIgnoreAttribute (html : jsstring) : jsstring :=
  replace_fn set_attr_re
    (fun h => replace_first (group 2 h) set_attr_capture (matched h)) html.

(** The pattern of [unsetIgnoreAttribute] (flag [g]): [<], [[\w:\-]+],
    group 1 [[^>]*], [>]. *)
Definition unset_attr_re : regex :=
  Seq (Chr LT)
   (Seq (Plus true (Cls is_name_char))
     (Seq (Group 1 (Star true (Cls (is_not GT)))) (Chr GT))).

Definition unset_attr_capture (x : jsstring) : jsstring :=
  replace_tpl (Lit (ATTRIBUTE_IGNORE_STRING ++ str "gt!")) 0 [GT]
   (replace_tpl (Lit (ATTRIBUTE_IGNORE_STRING ++ str "lt!")) 0 [LT] x).

Definition unsetIgnoreAttribute (html : jsstring) : jsstring :=
  replace_fn unset_attr_re
    (fun h => replace_first (group 1 h) unset_attr_capture (matched h)) html.

End Utils.
Import Utils.

(** ** JavaScript values and the configuration store *)

Module Values.

(** A number is given by its exact value: a finite double is the rational
    it denotes, [Finite 0] is +0. *)
Inductive number : Type :=
| NaN
| Infinity (negative : bool)
| NegZero
| Finite (q : Qc).

#[warnings="-register-all"]
Inductive value : Type :=
| VUndefined
| VNull
| VBool (b : bool)
| VNumber (n : number)
| VString (s : jsstring)
| VArray (xs : list value)
| VObject (props : list (jsstring * value)).

Definition props := list (jsstring * value).

Inductive jstype : Type := TUndefined | TObject | TBoolean | TNumber | TString.

Definition typeof (v : value) : jstype :=
  match v with
  | VUndefined => TUndefined
  | VNull | VArray _ | VObject _ => TObject
  | VBool _ => TBoolean
  | VNumber _ => TNumber
  | VString _ => TString
  end.

Definition is_object_type (v : value) : bool :=
  match typeof v with TObject => true | _ => false end.

Definition is_string_type (v : value) : bool :=
  match typeof v with TString => true | _ => false end.

Definition truthy (v : value) : bool :=
  match v with
  | VUndefined | VNull => false
  | VBool b => b
  | VNumber NaN | VNumber NegZero => false
  | VNumber (Infinity _) => true
  | VNumber (Finite q) => negb (Qeq_bool q 0)
  | VString s => match s with [] => false | _ => true end
  | VArray _ | VObject _ => true
  end.

Definition isArray (v : value) : bool :=
  match v with VArray _ => true | _ => false end.

(** Own properties, in insertion order. *)
Fixpoint lookup (k : jsstring) (o : props) : option value :=
  match o with
  | [] => None
  | (k', v) :: o' => if str_eqb k k' then Some v else lookup k o'
  end.

Fixpoint set (k : jsstring) (v : value) (o : props) : props :=
  match o with
  | [] => [(k, v)]
  | (k', v') :: o' =>
      if str_eqb k k' then (k', v) :: o' else (k', v') :: set k v o'
  end.

(** The decimal property name of an array index. *)
Fixpoint digits (fuel : nat) (n : N) (acc : jsstring) : jsstring :=
  match fuel with
  | O => acc
  | S f =>
      let acc' := (48 + n mod 10) :: acc in
      if n <? 10 then acc' else digits f (n / 10) acc'
  end.

Definition index_key (i : nat) : jsstring := digits (S i) (N.of_nat i) [].

Fixpoint indexed (i : nat) (xs : list value) : props :=
  match xs with
  | [] => []
  | x :: xs' => (index_key i, x) :: indexed (S i) xs'
  end.

(** [Object.keys(v)] paired with [v[key]]: the own enumerable properties. *)
Definition entries (v : value) : props :=
  match v with
  | VObject o => o
  | VArray xs => indexed 0 xs
  | VString s => indexed 0 (map (fun c => VString [c]) s)
  | _ => []
  end.

(** *** Objects with a prototype and property attributes

    The [props] of a [VObject] are its own enumerable properties, in
    property order: what [Object.keys] lists.  A [shape] holds what an
    ordinary object with data properties is beyond that: its own
    properties that are not enumerable, the data properties its prototype
    chain provides (nearest first; the members of Object.prototype are not
    listed), the names of its own properties and of the inherited ones
    that are not writable, and whether properties can be added to it.  Only a [VObject] has a shape: arrays and
    primitives are taken without properties of their own beyond elements. *)
Record shape := mkShape {
  hidden : props;
  inherited : props;
  readonly : list jsstring;
  readonly_inherited : list jsstring;
  extensible : bool
}.

(** An object literal, a parsed JSON object: every property is an own,
    enumerable, writable one. *)
Definition plain_shape : shape := mkShape [] [] [] [] true.

Definition mem (k : jsstring) (ks : list jsstring) : bool := existsb (str_eqb k) ks.

(** The own property [k] of [v], enumerable or not. *)
Definition own_property (v : value) (s : shape) (k : jsstring) : option value :=
  match v with
  | VObject o =>
      match lookup k o with
      | Some x => Some x
      | None => lookup k (hidden s)
      end
  | _ => None
  end.

(** [Object.hasOwn(v, k)] for a recognized configuration key [k] (never an
    index, never ["length"]) of an object without properties that are not
    enumerable; [None] is the TypeError on null and undefined. *)
Definition hasOwn (v : value) (k : jsstring) : option bool :=
  match v with
  | VUndefined | VNull => None
  | VObject o => Some (match lookup k o with Some _ => true | None => false end)
  | _ => Some false
  end.

(** [Object.hasOwn(v, k)] for an object of any shape. *)
Definition hasOwn_in (v : value) (s : shape) (k : jsstring) : option bool :=
  match v with
  | VUndefined | VNull => None
  | _ => Some (match own_property v s k with Some _ => true | None => false end)
  end.

(** [v.k] for a recognized configuration key [k]: the own property, or
    else the one the prototype chain provides, or else undefined. *)
Definition get (v : value) (s : shape) (k : jsstring) : value :=
  match own_property v s k with
  | Some x => x
  | None =>
      match v with
      | VObject _ => match lookup k (inherited s) with Some x => x | None => VUndefined end
      | _ => VUndefined
      end
  end.

(** [v.k = x] in strict code (a module is strict code): the own property
    is overwritten if it is writable; where there is none, one is created,
    enumerable and writable, unless the inherited property of that name is
    not writable or the object is not extensible.  [None] is the TypeError
    of a refused assignment.  Only a value whose [k] is truthy is ever
    written to, and only a [VObject] has one. *)
Definition put (v : value) (s : shape) (k : jsstring) (x : value)
  : option (value * shape) :=
  match v with
  | VObject o =>
      match lookup k o with
      | Some _ => if mem k (readonly s) then None else Some (VObject (set k x o), s)
      | None =>
          match lookup k (hidden s) with
          | Some _ =>
              if mem k (readonly s) then None
              else Some (v, mkShape (set k x (hidden s)) (inherited s) (readonly s)
                                    (readonly_inherited s) (extensible s))
          | None =>
              if match lookup k (inherited s) with
                 | Some _ => mem k (readonly_inherited s)
                 | None => false
                 end
                 || negb (extensible s)
              then None
              else Some (VObject (set k x o), s)
          end
      end
  | _ => Some (v, s)
  end.

(** [structuredClone]: a deep copy; values are trees, so the copy is the
    value itself, held at a fresh place. *)
Definition structuredClone (v : value) : value := v.

(** [xs.concat(u)] *)
Definition concat (xs : list value) (u : value) : list value :=
  match u with
  | VArray ys => xs ++ ys
  | _ => xs ++ [u]
  end.

Definition Qc_is_integer (q : Qc) : bool := (Qden (this q) =? 1)%positive.

Definition MAX_SAFE_INTEGER : Z := 9007199254740991.   (* 2^53 - 1 *)

(** [Number.isSafeInteger] *)
Definition isSafeInteger (v : value) : bool :=
  match v with
  | VNumber NegZero => true
  | VNumber (Finite q) =>
      Qc_is_integer q && (Z.abs (Qnum (this q)) <=? MAX_SAFE_INTEGER)%Z
  | _ => false
  end.

(** [Math.floor] *)
Definition floor (n : number) : number :=
  match n with
  | Finite q => Finite (Q2Qc (inject_Z (Qfloor (this q))))
  | _ => n
  end.

(** [n < k] and [n > k] for an integer literal [k]. *)
Definition lt_int (n : number) (k : Z) : bool :=
  match n with
  | NaN => false
  | Infinity neg => neg
  | NegZero => (0 <? k)%Z
  | Finite q => negb (Qle_bool (inject_Z k) (this q))
  end.

Definition gt_int (n : number) (k : Z) : bool :=
  match n with
  | NaN => false
  | Infinity neg => negb neg
  | NegZero => (k <? 0)%Z
  | Finite q => negb (Qle_bool (this q) (inject_Z k))
  end.

Definition int (z : Z) : value := VNumber (Finite (Q2Qc (inject_Z z))).

End Values.
Import Values.

(** ** The configuration validator and merger *)

Module Config.

Definition K_ignore := str "ignore".
Definition K_ignore_with := str "ignore_with".
Definition K_strict := str "strict".
Definition K_tab_size := str "tab_size".
Definition K_tag_wrap := str "tag_wrap".
Definition K_tag_wrap_width := str "tag_wrap_width".
Definition K_trim := str "trim".

Definition recognized : list jsstring :=
  [K_ignore; K_ignore_with; K_strict; K_tab_size; K_tag_wrap;
   K_tag_wrap_width; K_trim].

(** The [CONFIG] constant of constants.js. *)
Definition CONFIG : value :=
  VObject
    [ (K_ignore, VArray []);
      (K_ignore_with, VString DEFAULT_IGNORE_WITH);
      (K_strict, VBool false);
      (K_tab_size, int 2);
      (K_tag_wrap, VBool false);
      (K_tag_wrap_width, int 80);
      (K_trim, VArray []) ].

(** The thrown errors, one constructor per [throw] of the source (and one
    for the native TypeError of [Object.hasOwn] on null). *)
Inductive error : Type :=
| Config_must_be_an_object
| Native_TypeError
| Tab_size_must_be_a_number (t : jstype)
| Tab_size_is_not_safe (v : value)
| Tab_size_out_of_range
| Ignore_must_be_an_array_of_strings
| Ignore_with_must_be_a_string (t : jstype)
| Strict_must_be_a_boolean (t : jstype)
| Tag_wrap_must_be_a_boolean (t : jstype)
| Tag_wrap_width_must_be_a_number (t : jstype)
| Trim_must_be_an_array_of_strings
| Both_current_and_updates_must_be_passed_in.

Inductive outcome (A : Type) : Type :=
| Return (a : A)
| Throw (e : error).
Arguments Return {A} a.
Arguments Throw {A} e.

(** [mergeObjects(current, updates)].  An object is the list of its own
    enumerable properties in the order of their creation, and [merged[key]]
    is read and written as an own property.  JavaScript departs from that
    for a key that names a property of [Object.prototype]: it reads the
    inherited value, and for [__proto__] the assignment runs a setter and
    creates no property; and it lists integer-like keys first.  The
    theorems on the merge speak of lookups, not of the order of the keys,
    and say where they leave [__proto__] out. *)
Fixpoint mergeObjects (current updates : value) {struct updates} : outcome value :=
  if negb (truthy current) || negb (truthy updates)
  then Throw Both_current_and_updates_must_be_passed_in
  else
    match current with
    | VArray xs => Return (VArray (concat xs updates))
    | VObject cur =>
        let step (rec : value -> outcome value) (merged : props)
                 (key : jsstring) (u : value) : outcome props :=
          if negb (is_object_type u) then Return (set key u merged)
          else
            let target := match lookup key merged with
                          | Some x => if truthy x then x else VObject []
                          | None => VObject []
                          end in
            match rec target with
            | Return x => Return (set key x merged)
            | Throw e => Throw e
            end in
        match updates with
        | VObject ups =>
            (fix loop (merged : props) (l : props) {struct l} : outcome value :=
               match l with
               | [] => Return (VObject merged)
               | (key, u) :: l' =>
                   match step (fun t => mergeObjects t u) merged key u with
                   | Return merged' => loop merged' l'
                   | Throw e => Throw e
                   end
               end) cur ups
        | VArray ys =>
            (fix loop (merged : props) (i : nat) (l : list value) {struct l}
               : outcome value :=
               match l with
               | [] => Return (VObject merged)
               | u :: l' =>
                   match step (fun t => mergeObjects t u) merged (index_key i) u with
                   | Return merged' => loop merged' (S i) l'
                   | Throw e => Throw e
                   end
               end) cur 0%nat ys
        | VString s =>
            Return (VObject
                      (fold_left (fun merged kv => set (fst kv) (snd kv) merged)
                                 (entries updates) cur))
        | _ => Return (VObject cur)
        end
    | _ => Return VUndefined
    end.

(** [mergeConfig(dconfig, config)] *)
Definition mergeConfig (dconfig config : value) : outcome value :=
  mergeObjects (structuredClone dconfig) config.

(** What the caller passes to [validateConfig]: a value of its own, with
    its shape, or the shared [CONFIG] constant of the module itself. *)
Inductive argument : Type :=
| Passed (v : value) (s : shape)
| TheConstant.

(** The store: what the binding [config] of the call refers to, and the
    shared [CONFIG] constant of the module. *)
Record store := Store { arg : argument; shared : value }.

(** The store of a call with a plain object (or any other value) of the
    caller's own. *)
Definition mkStore (v sh : value) : store := Store (Passed v plain_shape) sh.

(** The object behind the binding [config] (its own enumerable
    properties) and its shape; the constant is a plain object. *)
Definition caller (st : store) : value :=
  match arg st with Passed v _ => v | TheConstant => shared st end.

Definition shape_of (st : store) : shape :=
  match arg st with Passed _ s => s | TheConstant => plain_shape end.

(** What [validateConfig] returns: the shared constant itself, or a fresh
    value. *)
Inductive returned : Type :=
| TheShared
| Fresh (v : value).

Definition deref (st : store) (r : returned) : value :=
  match r with TheShared => shared st | Fresh v => v end.

Definition M (A : Type) : Type := store -> outcome A * store.

Definition ret {A} (a : A) : M A := fun st => (Return a, st).
Definition throw {A} (e : error) : M A := fun st => (Throw e, st).
Definition bind {A B} (x : M A) (f : A -> M B) : M B :=
  fun st => match x st with
            | (Return a, st') => f a st'
            | (Throw e, st') => (Throw e, st')
            end.
Definition read_config : M value := fun st => (Return (caller st), st).
Definition read_CONFIG : M value := fun st => (Return (shared st), st).

(** [config.k] *)
Definition get_config (k : jsstring) : M value :=
  fun st => (Return (get (caller st) (shape_of st) k), st).

(** [config.k = x]: written to the caller's object, or to the constant
    when that is what the caller passed. *)
Definition write_config (k : jsstring) (x : value) : M unit :=
  fun st =>
    match put (caller st) (shape_of st) k x with
    | Some (v', s') =>
        (Return tt,
         match arg st with
         | Passed _ _ => Store (Passed v' s') (shared st)
         | TheConstant => Store TheConstant v'
         end)
    | None => (Throw Native_TypeError, st)
    end.
Definition lift {A} (o : outcome A) : M A := fun st => (o, st).
Definition check (bad : bool) (e : error) : M unit :=
  if bad then throw e else ret tt.

Notation "x <- c ;; k" := (bind c (fun x => k))
  (at level 61, c at next level, right associativity).
Notation "c ;;; k" := (bind c (fun _ => k))
  (at level 61, right associativity).

(** [Object.hasOwn(config, k)] *)
Definition has (k : jsstring) : M bool :=
  fun st =>
    match hasOwn_in (caller st) (shape_of st) k with
    | Some b => (Return b, st)
    | None => (Throw Native_TypeError, st)
    end.

(** [Object.hasOwn(..) || Object.hasOwn(..) || ...], left to right, short
    circuit. *)
Fixpoint has_any (ks : list jsstring) : M bool :=
  match ks with
  | [] => ret false
  | k :: ks' => b <- has k ;; if b then ret true else has_any ks'
  end.

Definition array_of_strings (v : value) : bool :=
  match v with
  | VArray xs => forallb is_string_type xs
  | _ => false
  end.

Definition is_boolean (v : value) : bool :=
  match typeof v with TBoolean => true | _ => false end.
Definition is_number (v : value) : bool :=
  match typeof v with TNumber => true | _ => false end.

(** [if (Object.hasOwn(config, k) && bad(config.k)) throw e] *)
Definition field (k : jsstring) (bad : value -> bool) (e : value -> error) : M unit :=
  b <- has k ;;
  x <- get_config k ;;
  check (b && bad x) (e x).

Definition validate_tab_size : M unit :=
  tab_size <- get_config K_tab_size ;;
  if truthy tab_size then
    check (negb (is_number tab_size)) (Tab_size_must_be_a_number (typeof tab_size)) ;;;
    check (negb (isSafeInteger tab_size)) (Tab_size_is_not_safe tab_size) ;;;
    let tab_size' := match tab_size with
                     | VNumber n => floor n
                     | _ => NaN
                     end in
    check (lt_int tab_size' 1 || gt_int tab_size' 16) Tab_size_out_of_range ;;;
    write_config K_tab_size (VNumber tab_size')
  else ret tt.

Definition validateConfig : M returned :=
  config <- read_config ;;
  check (negb (is_object_type config)) Config_must_be_an_object ;;;
  any <- has_any recognized ;;
  if negb any then ret TheShared
  else
    validate_tab_size ;;;
    field K_ignore (fun v => negb (array_of_strings v))
          (fun _ => Ignore_must_be_an_array_of_strings) ;;;
    field K_ignore_with (fun v => negb (is_string_type v))
          (fun v => Ignore_with_must_be_a_string (typeof v)) ;;;
    field K_strict (fun v => negb (is_boolean v))
          (fun v => Strict_must_be_a_boolean (typeof v)) ;;;
    field K_tag_wrap (fun v => negb (is_boolean v))
          (fun v => Tag_wrap_must_be_a_boolean (typeof v)) ;;;
    field K_tag_wrap_width (fun v => negb (is_number v))
          (fun v => Tag_wrap_width_must_be_a_number (typeof v)) ;;;
    field K_trim (fun v => negb (array_of_strings v))
          (fun _ => Trim_must_be_an_array_of_strings) ;;;
    dconfig <- read_CONFIG ;;
    config' <- read_config ;;
    merged <- lift (mergeConfig dconfig config') ;;
    ret (Fresh merged).

(** A call of [validateConfig(config)] in a program whose [CONFIG] is the
    constant of constants.js. *)
Definition call (config : value) : outcome returned * store :=
  validateConfig (mkStore config CONFIG).

(** The same for an object of any shape, and for a caller that passes the
    constant itself, [validateConfig(CONFIG)]. *)
Definition call_with (config : value) (s : shape) : outcome returned * store :=
  validateConfig (Store (Passed config s) CONFIG).

Definition call_constant : outcome returned * store :=
  validateConfig (Store TheConstant CONFIG).

(** The error taxonomy of the design (TypeKind, ValidationKind, RangeKind)
    read on the errors of the source, which are plain [Error] objects told
    apart by their message: a tab size that is not safe or out of range is
    a range error, a wrong field type a validation error, a configuration
    that is not an object a type error. *)
Inductive kind : Type := TypeKind | ValidationKind | RangeKind | Unclassified.

Definition kind_of (e : error) : kind :=
  match e with
  | Config_must_be_an_object => TypeKind
  | Tab_size_is_not_safe _ | Tab_size_out_of_range => RangeKind
  | Tab_size_must_be_a_number _
  | Ignore_must_be_an_array_of_strings
  | Ignore_with_must_be_a_string _
  | Strict_must_be_a_boolean _
  | Tag_wrap_must_be_a_boolean _
  | Tag_wrap_width_must_be_a_number _
  | Trim_must_be_an_array_of_strings => ValidationKind
  | Native_TypeError | Both_current_and_updates_must_be_passed_in => Unclassified
  end.

End Config.
Import Config.


(** ** Notions used to state the properties of the validator *)

Module ConfigSpec.

(** A computation that leaves the store as it found it. *)
Definition frame {A} (x : M A) : Prop := forall st, snd (x st) = st.

(** [config.k] read in a store, and whether [k] is an own property of the
    object behind [config]. *)
Definition read (st : store) (k : jsstring) : value :=
  get (caller st) (shape_of st) k.

Definition owns (st : store) (k : jsstring) : bool :=
  match own_property (caller st) (shape_of st) k with Some _ => true | None => false end.

(** An object that has [strict] of its own and inherits [tab_size] from
    its prototype, as [Object.assign(Object.create({ tab_size: 4 }),
    { strict: true })] builds it. *)
Definition inherits_tab_size : shape :=
  mkShape [] [(K_tab_size, int 4)] [] [] true.

Definition strict_only : value := VObject [(K_strict, VBool true)].

Definition sample_partial : value :=
  VObject [(K_tab_size, int 4); (K_ignore, VArray [VString (str "pre")])].

(** Objects and arrays: the inputs that pass [typeof config === 'object']
    and on which [Object.hasOwn] does not throw. *)
Definition object_like (v : value) : bool :=
  match v with VObject _ | VArray _ => true | _ => false end.

Definition none_recognized (v : value) : bool :=
  forallb (fun k => match hasOwn v k with Some false => true | _ => false end)
          recognized.

(** [{ tab_size: v }] *)
Definition tab_only (v : value) : value := VObject [(K_tab_size, v)].

(** The number 4.9. *)
Definition n4_9 : value := VNumber (Finite (Q2Qc (49 # 10))).

(** 2^53, the first integer that is not safe. *)
Definition n2_53 : value := int 9007199254740992.

(** [CONFIG] with [tab_size] replaced by [v]. *)
Definition CONFIG_with_tab_size (v : value) : value :=
  VObject
    [ (K_ignore, VArray []);
      (K_ignore_with, VString DEFAULT_IGNORE_WITH);
      (K_strict, VBool false);
      (K_tab_size, v);
      (K_tag_wrap, VBool false);
      (K_tag_wrap_width, int 80);
      (K_trim, VArray []) ].

(** The body of the [for] loop of [mergeObjects] on an object, and the loop
    itself, as functions of their own. *)
Definition merge_step (merged : props) (key : jsstring) (u : value) : outcome props :=
  if negb (is_object_type u) then Return (set key u merged)
  else
    match mergeObjects (match lookup key merged with
                        | Some x => if truthy x then x else VObject []
                        | None => VObject []
                        end) u with
    | Return x => Return (set key x merged)
    | Throw e => Throw e
    end.

Fixpoint merge_props (merged : props) (l : props) : outcome value :=
  match l with
  | [] => Return (VObject merged)
  | (key, u) :: l' =>
      match merge_step merged key u with
      | Return merged' => merge_props merged' l'
      | Throw e => Throw e
      end
  end.

(** A field value of a partial configuration that the merge accepts as it
    is: a primitive, or an array of strings. *)
Definition flat (v : value) : bool :=
  negb (is_object_type v) || array_of_strings v.

(** Two runs, from the stores [st1] and [st2], whose outcomes are related
    by [Q]. *)
Definition rel {A} (st1 st2 : store) (Q : outcome A -> outcome A -> Prop)
  (x : M A) : Prop :=
  Q (fst (x st1)) (fst (x st2)).

(** Two outcomes that agree on the errors of the checks: one throws such
    an error exactly when the other throws the same. *)
Definition same_checks {A} (o1 o2 : outcome A) : Prop :=
  forall e, kind_of e <> Unclassified -> (o1 = Throw e <-> o2 = Throw e).

(** The one property name an assignment does not create: on an object
    without an own property of that name, [merged["__proto__"] = v] runs
    the setter of Object.prototype. *)
Definition K_proto : jsstring := str "__proto__".

(** *** The fields of a validated configuration *)

(** An integer from 1 to 16. *)
Definition in_1_16 (v : value) : bool :=
  match v with
  | VNumber (Finite q) =>
      Qc_is_integer q && (1 <=? Qnum (this q))%Z && (Qnum (this q) <=? 16)%Z
  | _ => false
  end.

(** The type [Config] asks of a field, by key; any value for a key that
    is not one of the seven. *)
Definition field_type (k : jsstring) (v : value) : bool :=
  if str_eqb k K_ignore then array_of_strings v
  else if str_eqb k K_ignore_with then is_string_type v
  else if str_eqb k K_strict then is_boolean v
  else if str_eqb k K_tab_size then in_1_16 v
  else if str_eqb k K_tag_wrap then is_boolean v
  else if str_eqb k K_tag_wrap_width then is_number v
  else if str_eqb k K_trim then array_of_strings v
  else true.

(** What the checks of [validateConfig] let through: a field of its type,
    or a [tab_size] that is falsy. *)
Definition passes (k : jsstring) (v : value) : bool :=
  field_type k v || (str_eqb k K_tab_size && negb (truthy v)).

(** The own properties of [CONFIG]. *)
Definition CONFIG_props : props :=
  match CONFIG with VObject d => d | _ => [] end.

Definition has_recognized (o : props) : bool :=
  existsb (fun k => match lookup k o with Some _ => true | None => false end)
          recognized.

End ConfigSpec.
Import ConfigSpec.

(** ** Notions used to state the properties of the string transforms *)

Module RegexSpec.

(** The loop of a quantifier, with its fuel as a parameter. *)
Definition star_fuel (step : jsstring -> caps -> cont -> option result)
  (greedy : bool) (k : cont) : nat -> jsstring -> caps -> option result :=
  fix loop (fuel : nat) (s : jsstring) (cs : caps) {struct fuel} : option result :=
    let again :=
      match fuel with
      | O => None
      | S fuel' =>
          step s cs (fun s1 cs1 =>
            if (List.length s1 <? List.length s)%nat then loop fuel' s1 cs1
            else None)
      end in
    if greedy then orelse again (k s cs) else orelse (k s cs) again.

(** A greedy run of one character class: the longest run first, then one
    character less, and so on. *)
Fixpoint greedy_run (p : char -> bool) (k : cont) (s : jsstring) (cs : caps)
  : option result :=
  match s with
  | a :: s' => if p a then orelse (greedy_run p k s' cs) (k s cs) else k s cs
  | [] => k s cs
  end.

(** The longest prefix of characters of a class, and what follows it. *)
Fixpoint span (p : char -> bool) (s : jsstring) : jsstring * jsstring :=
  match s with
  | a :: s' => if p a then let (u, w) := span p s' in (a :: u, w) else ([], s)
  | [] => ([], [])
  end.

(** The text of a global replacement, whatever the scan has skipped. *)
Definition render (f : jsstring -> hit -> jsstring) (g : segment) : jsstring :=
  match g with Keep c => [c] | Found b h => f b h end.

Definition replaced (r : regex) (f : jsstring -> hit -> jsstring) (s : jsstring)
  : jsstring :=
  flat_map (render f) (segments r s).

Definition no_dollar (t : jsstring) : bool := forallb (fun c => negb (c =? DOLLAR)) t.

(** [attr_re] after the tag name. *)
Definition attr_rest : regex :=
  Seq (Group 1 (Seq (Star true (Cls (is_not GT))) (Cls (is_not SLASH)))) (Chr GT).

(** What [attr_re] matches at the front of a string, read off the text.
    [attr_body] is the group and the closing [>] for a given end of the
    tag name: the region runs to the first [>], takes it in when another
    [>] follows, and must not end on a slash. *)
Definition attr_last (b r3 : jsstring) : option (jsstring * jsstring) :=
  match rev b with
  | x :: _ => if x =? SLASH then None else Some (b, r3)
  | [] => None
  end.

Definition attr_body (s1 : jsstring) : option (jsstring * jsstring) :=
  let (b, r2) := span (is_not GT) s1 in
  match r2 with
  | [] => None
  | _ :: r3 =>
      match r3 with
      | g :: r4 => if g =? GT then Some (b ++ [GT], r4) else attr_last b r3
      | [] => attr_last b r3
      end
  end.

(** The tag name is the longest run of name characters, unless the tag
    closes right after it: then the last character of the run is what the
    group captures. *)
Definition attr_spec (s : jsstring) : option (jsstring * jsstring * jsstring) :=
  match s with
  | a :: t =>
      if a =? LT then
        let (n, r) := span is_name_char t in
        match n with
        | [] => None
        | _ :: _ =>
            match attr_body r with
            | Some (c, w) => Some (n, c, w)
            | None =>
                match rev n, r with
                | x :: _ :: _, g :: r3 =>
                    if g =? GT then Some (rev (tl (rev n)), [x], r3) else None
                | _, _ => None
                end
            end
        end
      else None
  | [] => None
  end.

Definition attr_hit (x : jsstring * jsstring * jsstring) : hit :=
  let '(n, c, w) := x in Hit (LT :: n ++ c ++ [GT]) [(1%nat, c)] w.

(** *** Sentinel tokens

    Both encodings write a token [d X c d]: a delimiter [d], the sentinel
    body [X], a class name [c], the delimiter again. *)
Definition tok (d : char) (X c : jsstring) : jsstring := d :: X ++ c ++ [d].

(** A code: the class names in the order of the decoding passes, the
    character each pass writes back, and the class of a character (its
    encoding pass), if it has one. *)
Record code := mkCode {
  names : list jsstring;
  decs : list char;
  class : char -> option nat
}.

(** The text after the first [j] decoding passes: a character of a class
    before [j] is decoded, one of a later class is still a token. *)
Definition stage (d : char) (X : jsstring) (cd : code) (j : nat) (a : char)
  : jsstring :=
  match class cd a with
  | Some i => if (i <? j)%nat then [nth i (decs cd) 0] else tok d X (nth i (names cd) [])
  | None => [a]
  end.

(** A string none of whose suffixes starts with [X]. *)
Fixpoint avoids (X v : jsstring) : bool :=
  negb (prefixb X v) && match v with [] => true | _ :: v' => avoids X v' end.

(** No token ends with what another token, or itself, starts with, the
    closing delimiter apart. *)
Definition border_free (d : char) (X : jsstring) (cd : code) : bool :=
  forallb (fun a =>
    forallb (fun b =>
      forallb (fun i => negb (prefixb (skipn i (tok d X b)) (tok d X a)))
              (seq 1 (List.length X + 2)))
      (names cd))
    (names cd).

(** What a code needs for its tokens to be read back without doubt. *)
Definition code_ok (d : char) (X : jsstring) (cd : code) : Prop :=
  NoDup (names cd) /\
  (forall b, In b (names cd) -> List.length b = 2%nat) /\
  List.length (decs cd) = List.length (names cd) /\
  (forall a i, class cd a = Some i -> (i < List.length (names cd))%nat) /\
  (forall c, In c (decs cd) -> ~ In c X /\ c <> DOLLAR) /\
  border_free d X cd = true.

(** A character the decoding gives back as it was. *)
Definition faithful (cd : code) (a : char) : bool :=
  match class cd a with
  | Some i => nth i (decs cd) 0 =? a
  | None => true
  end.

(** The decoding passes, [j] of them done, [n] to go. *)
Fixpoint decode_from (d : char) (X : jsstring) (cd : code) (j n : nat)
  (y : jsstring) : jsstring :=
  match n with
  | O => y
  | S n' =>
      decode_from d X cd (S j) n'
        (replace_tpl (Lit (tok d X (nth j (names cd) []))) 0 [nth j (decs cd) 0] y)
  end.

(** The matches of a global scan, in order. *)
Definition hits (r : regex) (s : jsstring) : list hit :=
  flat_map (fun g => match g with Keep _ => [] | Found _ h => [h] end) (segments r s).

(** [html.replace(attr_re, (match, capture) => match.replace(capture, g))]:
    the common shape of [protectAttributes] and [unprotectAttributes]. *)
Definition tagmap (g : jsstring -> jsstring) (html : jsstring) : jsstring :=
  replace_fn attr_re (fun h => replace_first (group 1 h) g (matched h)) html.

(** The attribute regions of a document: what the group of [attr_re]
    captures, match after match. *)
Definition attr_regions (html : jsstring) : list jsstring :=
  map (group 1) (hits attr_re html).

(** The sentinel of the attribute encoding without its leading [!]. *)
Definition ATTR_BODY : jsstring :=
  str "i-" ++ [POUND] ++ str "___" ++ [POUND] ++ str "%_".

(** The code of the attribute encoding: newline, carriage return, any
    other whitespace; the last is read back as a space. *)
Definition attr_code : code :=
  mkCode [str "nl"; str "cr"; str "ws"] [NL; CR; SP]
         (fun a => if a =? NL then Some 0%nat
                   else if a =? CR then Some 1%nat
                   else if is_space a then Some 2%nat
                   else None).

(** An attribute region the decoder gives back as it was: it does not
    spell the sentinel body, and its whitespace is made of newlines,
    carriage returns and spaces. *)
Definition attr_clean (x : jsstring) : bool :=
  avoids ATTR_BODY x && forallb (faithful attr_code) x.

(** [enc_rel P toks s s']: [s'] is [s] with some of its characters of
    class [P] replaced by tokens of [toks]. *)
Inductive enc_rel (P : char -> bool) (toks : list jsstring)
  : jsstring -> jsstring -> Prop :=
| er_nil : enc_rel P toks [] []
| er_keep a s s' : enc_rel P toks s s' -> enc_rel P toks (a :: s) (a :: s')
| er_tok a t s s' :
    P a = true -> In t toks -> enc_rel P toks s s' ->
    enc_rel P toks (a :: s) (t ++ s').

(** A region [attr_re] cannot end on: empty, or with a slash last. *)
Fixpoint ends_badly (b : jsstring) : bool :=
  match b with
  | [] => true
  | x :: b' => match b' with [] => x =? SLASH | _ :: _ => ends_badly b' end
  end.

(** The three tokens of the attribute encoding. *)
Definition attr_tokens : list jsstring :=
  map (tok BANG ATTR_BODY) (names attr_code).

(** *** What [ignore_re] matches *)

(** [</tag>] *)
Definition close_tag (tag : jsstring) : jsstring := LT :: SLASH :: tag ++ [GT].

(** [(.|\n)]: anything but a carriage return, U+2028 and U+2029. *)
Definition is_any (c : char) : bool := is_dot c || (c =? NL).

(** The lazy run up to the first [</tag>]: the inner content and what
    follows the closing tag. *)
Fixpoint find_close (tag : jsstring) (s : jsstring) : option (jsstring * jsstring) :=
  if prefixb (close_tag tag) s
  then Some ([], skipn (List.length (close_tag tag)) s)
  else match s with
       | c :: s' =>
           if is_any c then
             match find_close tag s' with
             | Some (inner, rest) => Some (c :: inner, rest)
             | None => None
             end
           else None
       | [] => None
       end.

(** The opening tag, the inner content and what follows the match. *)
Definition ignore_spec (tag : jsstring) (s : jsstring)
  : option (jsstring * jsstring * jsstring) :=
  match s with
  | a :: u =>
      if a =? LT then
        if prefixb tag u then
          let (y, r2) := span (is_not GT) (skipn (List.length tag) u) in
          match r2 with
          | [] => None
          | _ :: r3 =>
              match find_close tag r3 with
              | Some (inner, rest) => Some (LT :: tag ++ y ++ [GT], inner, rest)
              | None => None
              end
          end
        else None
      else None
  | [] => None
  end.

(** The bindings of group 2 that the lazy run leaves behind. *)
Fixpoint caps2 (inner : jsstring) (cs : caps) : caps :=
  match inner with
  | [] => cs
  | c :: inner' => caps2 inner' ((2%nat, [c]) :: cs)
  end.

Definition ignore_hit (tag : jsstring) (x : jsstring * jsstring * jsstring) : hit :=
  let '(op, inner, rest) := x in
  Hit (op ++ inner ++ close_tag tag) ((1%nat, inner) :: caps2 inner []) rest.

(** The pieces of [ignore_re]. *)
Definition any_re : regex := Group 2 (Alt (Cls is_dot) (Chr NL)).

Definition close_re (tag : jsstring) : regex :=
  Seq (Chr LT) (Seq (Chr SLASH) (Seq (Lit tag) (Chr GT))).

(** The characters the element encoding replaces. *)
Definition raw (c : char) : bool := (c =? LT) || (c =? GT) || is_space c.

Definition raw_free (s : jsstring) : bool := forallb (fun c => negb (raw c)) s.

(** The code of the element encoding; generic whitespace is read back as
    a space. *)
Definition ignore_code : code :=
  mkCode [str "lt"; str "gt"; str "nl"; str "cr"; str "ws"] [LT; GT; NL; CR; SP]
         (fun a => if a =? LT then Some 0%nat
                   else if a =? GT then Some 1%nat
                   else if a =? NL then Some 2%nat
                   else if a =? CR then Some 3%nat
                   else if is_space a then Some 4%nat
                   else None).

(** What the element encoding writes for one character: the token of
    its class for [<], [>], a newline, a carriage return and any other
    whitespace character, in the order of the five replacements, and the
    character itself for any other. *)
Definition ignore_encoded (X : jsstring) (c : char) : jsstring :=
  if c =? LT then token X (str "lt")
  else if c =? GT then token X (str "gt")
  else if c =? NL then token X (str "nl")
  else if c =? CR then token X (str "cr")
  else if is_space c then token X (str "ws")
  else [c].

(** [pat], placed after [pre], does not occur in [pre ++ pat ++ post]
    before its own place. *)
Definition occurs_first (pre pat post : jsstring) : bool :=
  forallb (fun i => negb (prefixb pat (skipn i (pre ++ pat ++ post))))
          (seq 0 (List.length pre)).

(** The callback of [setIgnoreElement] for one match. *)
Definition ignore_callback (ignore_string : jsstring) (h : hit) : jsstring :=
  replace_first (group 1 h) (ignore_capture ignore_string) (matched h).

Definition TAG_SCRIPT : jsstring := str "script".

Definition doc_script_body : jsstring :=
  str "var a = " ++ [QUOTE] ++ str "<b>" ++ [QUOTE] ++ str ";".

Definition doc_script : jsstring :=
  str "<script>" ++ doc_script_body ++ str "</script>".

Definition doc_script_attr : jsstring := str "<script defer> </script>".

Definition doc_script_tab : jsstring := str "<script>" ++ [TAB] ++ str "</script>".

(** *** What [leading_whitespace] matches

    The opening tag (any text from [<tag] to the first [>]), the run of
    whitespace after it, and what follows. *)
Definition lead_spec (tag : jsstring) (s : jsstring)
  : option (jsstring * jsstring * jsstring) :=
  match s with
  | a :: u =>
      if a =? LT then
        if prefixb tag u then
          let (y, r2) := span (is_not GT) (skipn (List.length tag) u) in
          match r2 with
          | [] => None
          | _ :: r3 =>
              let (w, rest) := span is_space r3 in
              match w with
              | [] => None
              | _ :: _ => Some (LT :: tag ++ y ++ [GT], w, rest)
              end
          end
        else None
      else None
  | [] => None
  end.

Definition lead_hit (x : jsstring * jsstring * jsstring) : hit :=
  let '(op, w, rest) := x in Hit (op ++ w) [(1%nat, op)] rest.

(** [html.replace(leading_whitespace, '$1')] *)
Definition trim_leading (tag html : jsstring) : jsstring :=
  replace_tpl (leading_whitespace tag) 1 (str "$1") html.

Definition doc_pre : jsstring := str "<pre class=x>  code  </pre><p> a </p>".

Definition doc_pre_trimmed : jsstring := str "<pre class=x>code  </pre><p>a</p>".

(** *** One ignored tag *)

(** The five decoding replacements of [unsetIgnoreElement]. *)
Definition ignore_decode (ignore_string y : jsstring) : jsstring :=
  decode_from DASH ignore_string ignore_code 0 5 y.

(** [setIgnoreElement] and [unsetIgnoreElement] for one tag, as scans. *)
Definition encode_tag (tag X : jsstring) (html : jsstring) : jsstring :=
  replaced (ignore_re tag) (fun _ hit => ignore_callback X hit) html.

Definition decode_tag (tag X : jsstring) (html : jsstring) : jsstring :=
  replaced (ignore_re tag)
    (fun _ hit => replace_first (group 1 hit) (ignore_decode X) (matched hit)) html.

(** The matched elements of a document: opening tag and inner content. *)
Definition element_of (tag : jsstring) (h : hit) : jsstring * jsstring :=
  (firstn (List.length (matched h) - List.length (group 1 h)
           - List.length (close_tag tag)) (matched h),
   group 1 h).

Definition elements (tag html : jsstring) : list (jsstring * jsstring) :=
  map (element_of tag) (hits (ignore_re tag) html).

(** A sentinel the model covers and the encoding can be read back with:
    made of ordinary pattern characters, without [<], [>] or whitespace,
    and with tokens that do not overlap. *)
Definition sentinel_ok (X : jsstring) : bool :=
  plain X && raw_free X && border_free DASH X ignore_code.

(** An element the round trip gives back: its inner content does not
    spell the sentinel, its whitespace is made of newlines and spaces, and
    either it holds nothing to encode (an empty element, for one) or
    neither the inner content nor its encoding occurs in the element
    before the place of the inner content. *)
Definition element_ok (tag X : jsstring) (e : jsstring * jsstring) : bool :=
  let (op, inner) := e in
  avoids X inner && forallb (faithful ignore_code) inner
  && (raw_free inner
      || (occurs_first op inner (close_tag tag)
          && occurs_first op (ignore_capture X inner) (close_tag tag))).

Definition doc_two_scripts : jsstring :=
  str "<p>a</p><script type=module>if (a < b) { x(); }" ++ [NL]
  ++ str "</script><b> </b><script>y > 1</script>".

(** [contains pat s]: [pat] occurs somewhere in [s]. *)
Fixpoint contains (pat s : jsstring) : bool :=
  prefixb pat s || match s with [] => false | _ :: s' => contains pat s' end.

(** Sample documents. *)
Definition doc_div : jsstring :=
  str "<div title=" ++ [QUOTE] ++ str "a" ++ [NL] ++ str "b" ++ [QUOTE]
  ++ str ">text</div>".

Definition doc_div_protected : jsstring :=
  str "<div" ++ ATTRIBUTE_IGNORE_STRING ++ str "ws!title=" ++ [QUOTE] ++ str "a"
  ++ ATTRIBUTE_IGNORE_STRING ++ str "nl!b" ++ [QUOTE] ++ str ">text</div>".

Definition doc_tab : jsstring := str "<a" ++ [TAB] ++ str "b>".

Definition doc_fragment : jsstring :=
  str "<a" ++ [CR] ++ ATTR_BODY ++ str "nl!>".

Definition doc_img : jsstring :=
  str "<img alt=" ++ [QUOTE] ++ str "a b" ++ [QUOTE] ++ str "/>".

Definition tag_br : jsstring := str "<br class=" ++ [QUOTE] ++ str "a b" ++ [QUOTE].

(** *** What a regex matches

    [parse r w cs cs']: [r] matches the text [w], and the captures [cs]
    become [cs'].  An iteration of a quantifier matches a text that is
    not empty. *)
Inductive parse : regex -> jsstring -> caps -> caps -> Prop :=
| p_eps cs : parse Eps [] cs cs
| p_chr c cs : parse (Chr c) [c] cs cs
| p_cls (p : char -> bool) a cs : p a = true -> parse (Cls p) [a] cs cs
| p_seq r1 r2 w1 w2 cs cs1 cs2 :
    parse r1 w1 cs cs1 -> parse r2 w2 cs1 cs2 ->
    parse (Seq r1 r2) (w1 ++ w2) cs cs2
| p_alt_l r1 r2 w cs cs1 : parse r1 w cs cs1 -> parse (Alt r1 r2) w cs cs1
| p_alt_r r1 r2 w cs cs1 : parse r2 w cs cs1 -> parse (Alt r1 r2) w cs cs1
| p_star_nil g r cs : parse (Star g r) [] cs cs
| p_star_cons g r w1 w2 cs cs1 cs2 :
    w1 <> [] -> parse r w1 cs cs1 -> parse (Star g r) w2 cs1 cs2 ->
    parse (Star g r) (w1 ++ w2) cs cs2
| p_group i r w cs cs1 :
    parse r w cs cs1 -> parse (Group i r) w cs ((i, w) :: cs1).

(** *** What [isHtml] looks for *)

(** An HTML tag name: a letter, then letters and digits. *)
Definition html_nameb (n : jsstring) : bool :=
  match n with
  | a :: v => is_alpha a && forallb is_alnum v
  | [] => false
  end.

(** A custom element name: a lower-case letter, characters of
    [[a-z0-9._]], a hyphen, and at least one character of [[a-z0-9._-]]. *)
Definition custom_name_text (n : jsstring) : Prop :=
  exists a u t,
    n = a :: u ++ DASH :: t /\ is_lower a = true
    /\ forallb is_custom_char u = true /\ t <> [] /\ forallb is_custom_tail t = true.

(** What may stand between the tag name and the closing [>]: nothing, or
    any text that starts with a whitespace character. *)
Definition starts_blank (a : jsstring) : bool :=
  match a with [] => true | x :: _ => is_space x end.

(** [removes P s s']: [s'] is [s] without some of its characters of
    class [P]; nothing is added, changed or moved. *)
Inductive removes (P : char -> bool) : jsstring -> jsstring -> Prop :=
| rm_nil : removes P [] []
| rm_keep c s s' : removes P s s' -> removes P (c :: s) (c :: s')
| rm_drop c s s' : P c = true -> removes P s s' -> removes P (c :: s) s'.

(** A regex without a capturing group. *)
Fixpoint group_free (r : regex) : bool :=
  match r with
  | Eps | Chr _ | Cls _ => true
  | Seq r1 r2 | Alt r1 r2 => group_free r1 && group_free r2
  | Star _ r1 => group_free r1
  | Group _ _ => false
  end.

(** What [setIgnoreAttribute] writes for one match: the tag with its
    attribute list encoded. *)
Definition set_attr_tag (h : hit) : jsstring :=
  LT :: group 1 h ++ set_attr_capture (group 2 h) ++ [GT].

(** *** Text with some of its brackets encoded

    A marked text: each character with a flag that tells whether the
    bracket encoding of [setIgnoreAttribute] has replaced it. *)
Definition marked := list (char * bool).

Definition bracket_token (c : char) : jsstring :=
  ATTRIBUTE_IGNORE_STRING ++ (if c =? LT then str "lt!" else str "gt!").

(** The text before the encoding, and after it. *)
Definition orig (mu : marked) : jsstring := map fst mu.

Definition encd (mu : marked) : jsstring :=
  flat_map (fun ce : char * bool => if snd ce then bracket_token (fst ce) else [fst ce]) mu.

Definition is_bracket (c : char) : bool := (c =? LT) || (c =? GT).

(** Only brackets are encoded, and no [>] is left as it is. *)
Definition well_marked (mu : marked) : bool :=
  forallb (fun ce : char * bool =>
             if snd ce then is_bracket (fst ce) else is_not GT (fst ce)) mu.

(** A text as it is, and a text with all its brackets encoded. *)
Definition plain_marks (x : jsstring) : marked := map (fun c => (c, false)) x.
Definition bracket_marks (x : jsstring) : marked := map (fun c => (c, is_bracket c)) x.

(** Code points that stand for the encoded brackets of a marked text: they
    lie above every character of the text and of the sentinel. *)
Definition fresh_base (mu : marked) : N := 1 + fold_right N.max 65535 (orig mu).

Definition raise (M : N) (ce : char * bool) : char :=
  if snd ce then M + fst ce else fst ce.

(** The code of the bracket encoding over the raised text. *)
Definition bracket_code (M : N) : code :=
  mkCode [str "lt"; str "gt"] [LT; GT]
         (fun a => if a =? M + LT then Some 0%nat
                   else if a =? M + GT then Some 1%nat
                   else None).

(** What [unsetIgnoreAttribute] needs after a [<]: a name character. *)
Definition starts_name (x : jsstring) : bool :=
  match x with a :: _ => is_name_char a | [] => false end.

(** No encoded bracket comes before a [<] that a name character follows,
    either in the marked text or in its encoding. *)
Fixpoint guarded (mu : marked) : bool :=
  match mu with
  | [] => true
  | ce :: mu' =>
      negb (snd ce) && (((fst ce =? LT) && starts_name (encd mu')) || guarded mu')
  end.

(** A tag with brackets in a quoted attribute value, after a stray [<]. *)
Definition doc_quoted : jsstring :=
  str "1 <a <img alt=" ++ [QUOTE] ++ str "a>b<c" ++ [QUOTE] ++ str " hidden> 2 > 1".

(** A character of the tag names of [setIgnoreAttribute]: of
    [[A-Za-z0-9]] or of [[a-z0-9._-]]. *)
Definition is_tag_name_char (c : char) : bool := is_alnum c || is_custom_tail c.

(** Neither [<] nor [>]. *)
Definition no_bracket (c : char) : bool := negb (c =? LT) && negb (c =? GT).

(** [sub v s]: the text [v] is a part of [s]. *)
Definition sub (v s : jsstring) : Prop := exists a b, s = a ++ v ++ b.

(** *** What [trimify] leaves

    [trims s o]: [o] is [s] without some runs of whitespace, each of them
    directly after a [>] or directly before a [<]; nothing else is
    removed, and nothing is added or moved. *)
Inductive trims : jsstring -> jsstring -> Prop :=
| tr_nil : trims [] []
| tr_keep c s o : trims s o -> trims (c :: s) (c :: o)
| tr_after w s o :
    forallb is_space w = true -> trims s o -> trims (GT :: w ++ s) (GT :: o)
| tr_before w s o :
    forallb is_space w = true -> trims (LT :: s) o -> trims (w ++ LT :: s) o.

Definition starts_space (s : jsstring) : bool :=
  match s with a :: _ => is_space a | [] => false end.

(** [s] starts with an opening tag that begins with [<t] (the text from
    [<t] to the first [>]) and a whitespace character follows the tag. *)
Definition starts_untrimmed (t s : jsstring) : Prop :=
  exists x post,
    s = LT :: t ++ x ++ GT :: post
    /\ forallb (is_not GT) x = true /\ starts_space post = true.

(** Somewhere in [s] an opening tag that begins with [<t] is directly
    followed by whitespace. *)
Definition untrimmed (t s : jsstring) : Prop :=
  exists pre rest, s = pre ++ rest /\ starts_untrimmed t rest.

(** *** Where [protectAttributes] writes

    [protects s o]: [o] is [s] with some attribute regions encoded.  An
    encoded region [cp] stands between a tag name [n] that follows a [<]
    and a [>]; it is not empty and does not end on a slash.  Every other
    character is copied. *)
Inductive protects : jsstring -> jsstring -> Prop :=
| pr_nil : protects [] []
| pr_keep c s o : protects s o -> protects (c :: s) (c :: o)
| pr_tag n cp s o :
    n <> [] -> forallb is_name_char n = true -> ends_badly cp = false ->
    protects s o ->
    protects (LT :: n ++ cp ++ GT :: s) (LT :: n ++ protect_capture cp ++ GT :: o).

Definition starts_gt (w : jsstring) : bool :=
  match w with g :: _ => g =? GT | [] => false end.

(** Text with whitespace before, between and after the tags. *)
Definition doc_p : jsstring := str "a b <p id=x  class=y> c d </p> e".

Definition doc_p_protected : jsstring :=
  str "a b <p" ++ ATTRIBUTE_IGNORE_STRING ++ str "ws!id=x"
  ++ ATTRIBUTE_IGNORE_STRING ++ str "ws!" ++ ATTRIBUTE_IGNORE_STRING
  ++ str "ws!class=y> c d </p> e".

(** *** A document laid out as text and elements

    Text, then an element [<t y>inner</t>], then text, and so on. *)
Record element := mkElement {
  el_tag : jsstring;
  el_attrs : jsstring;
  el_inner : jsstring
}.

Inductive layout :=
| Last (u : jsstring)
| Piece (u : jsstring) (e : element) (rest : layout).

Definition open_tag (e : element) : jsstring :=
  LT :: el_tag e ++ el_attrs e ++ [GT].

(** The element as it stands when the elements of the tags of [done] are
    encoded. *)
Definition written (X : jsstring) (done : list jsstring) (e : element) : jsstring :=
  open_tag e
  ++ (if existsb (str_eqb (el_tag e)) done
      then ignore_capture X (el_inner e) else el_inner e)
  ++ close_tag (el_tag e).

Fixpoint doc_of (X : jsstring) (done : list jsstring) (L : layout) : jsstring :=
  match L with
  | Last u => u
  | Piece u e rest => u ++ written X done e ++ doc_of X done rest
  end.

(** A tag name: not empty, made of name characters. *)
Definition tag_name (t : jsstring) : bool :=
  match t with [] => false | _ :: _ => forallb is_name_char t end.

(** No ignored tag name follows a [<] in the text. *)
Definition text_ok (tags : list jsstring) (u : jsstring) : bool :=
  forallb (fun t => negb (contains (LT :: t) u)) tags.

(** An element among the ignored tags [tags]: its opening tag holds no
    bracket of its own; no other ignored tag name starts its opening tag
    or follows a [<] in its inner content; its inner content is made of
    characters that [(.|\n)] matches and its closing tag is the first one
    after the opening tag; and it is an element the round trip of its
    own tag gives back. *)
Definition element_fits (tags : list jsstring) (X : jsstring) (e : element) : bool :=
  tag_name (el_tag e)
  && forallb no_bracket (el_attrs e)
  && forallb (fun t => str_eqb t (el_tag e)
                       || (negb (prefixb t (el_tag e ++ el_attrs e))
                           && negb (contains (LT :: t) (el_inner e)))) tags
  && forallb is_any (el_inner e)
  && occurs_first (el_inner e) (close_tag (el_tag e)) []
  && element_ok (el_tag e) X (open_tag e, el_inner e).

Fixpoint layout_ok (tags : list jsstring) (X : jsstring) (L : layout) : bool :=
  match L with
  | Last u => text_ok tags u
  | Piece u e rest => text_ok tags u && element_fits tags X e && layout_ok tags X rest
  end.

(** Two scripts, one of them empty, a style sheet and other markup. *)
Definition layout_sample : layout :=
  Piece (str "<p>x</p> ")
    (mkElement (str "script") (str " defer") (str "if (a < b) x();" ++ [NL]))
    (Piece (str " <i> y </i>")
       (mkElement (str "script") (str " src=a.js") [])
       (Piece []
          (mkElement (str "style") [] (str "a > b { }"))
          (Last (str " end")))).

(** An [a] element that starts inside a [b] element. *)
Definition doc_two_tags : jsstring := str "<b><a </b><a></a>".

End RegexSpec.
Import RegexSpec.

(** * Properties of the configuration validator *)

Unset Implicit Arguments.

Section Frame.

Lemma frame_ret A (a : A) : frame (ret a).
Proof. intro st; reflexivity. Qed.

Lemma frame_throw A (e : error) : frame (@throw A e).
Proof. intro st; reflexivity. Qed.

Lemma frame_lift A (o : outcome A) : frame (lift o).
Proof. intro st; reflexivity. Qed.

Lemma frame_read_config : frame read_config.
Proof. intro st; reflexivity. Qed.

Lemma frame_read_CONFIG : frame read_CONFIG.
Proof. intro st; reflexivity. Qed.

Lemma frame_check b e : frame (check b e).
Proof. destruct b; intro st; reflexivity. Qed.

Lemma frame_bind A B (x : M A) (f : A -> M B) :
  frame x -> (forall a, frame (f a)) -> frame (bind x f).
Proof.
  intros Hx Hf st. unfold bind.
  specialize (Hx st). destruct (x st) as [[a|e] st']; simpl in Hx; subst st'.
  - apply Hf.
  - reflexivity.
Qed.

Lemma frame_has k : frame (has k).
Proof.
  intro st. unfold has. destruct (hasOwn_in (caller st) (shape_of st) k); reflexivity.
Qed.

Lemma frame_has_any ks : frame (has_any ks).
Proof.
  induction ks as [|k ks IH]; simpl; [apply frame_ret|].
  apply frame_bind; [apply frame_has|]. intros [|]; [apply frame_ret | exact IH].
Qed.

Lemma frame_get_config k : frame (get_config k).
Proof. intro st; reflexivity. Qed.

Lemma frame_field k bad e : frame (field k bad e).
Proof.
  unfold field. apply frame_bind; [apply frame_has|]. intro b.
  apply frame_bind; [apply frame_get_config|]. intro v. apply frame_check.
Qed.

End Frame.

Lemma str_eqb_eq a b : str_eqb a b = true <-> a = b.
Proof. unfold str_eqb. destruct (list_eq_dec N.eq_dec a b); split; congruence. Qed.

Lemma str_eqb_refl a : str_eqb a a = true.
Proof. apply str_eqb_eq; reflexivity. Qed.

Lemma str_eqb_neq a b : a <> b -> str_eqb a b = false.
Proof. unfold str_eqb. destruct (list_eq_dec N.eq_dec a b); congruence. Qed.

Lemma set_same k v o : lookup k o = Some v -> set k v o = o.
Proof.
  induction o as [|[k' v'] o IH]; simpl; [discriminate|].
  destruct (str_eqb k k') eqn:E.
  - intros [= ->]. reflexivity.
  - intro H. rewrite (IH H). reflexivity.
Qed.

Lemma lookup_set_same k v o : lookup k (set k v o) = Some v.
Proof.
  induction o as [|[k' v'] o IH]; simpl.
  - rewrite str_eqb_refl. reflexivity.
  - destruct (str_eqb k k') eqn:E; simpl; rewrite E; [reflexivity | exact IH].
Qed.

Lemma lookup_set_other k k' v o : k <> k' -> lookup k (set k' v o) = lookup k o.
Proof.
  intro Hne. induction o as [|[k2 v2] o IH]; simpl.
  - rewrite (str_eqb_neq _ _ Hne). reflexivity.
  - destruct (str_eqb k' k2) eqn:E; simpl.
    + apply str_eqb_eq in E. subst k2. rewrite (str_eqb_neq _ _ Hne). reflexivity.
    + destruct (str_eqb k k2); [reflexivity | exact IH].
Qed.

Lemma set_absent k v o : lookup k o = None -> set k v o = o ++ [(k, v)].
Proof.
  induction o as [|[k' v'] o IH]; simpl; [reflexivity|].
  destruct (str_eqb k k'); [discriminate|]. intro H. rewrite (IH H). reflexivity.
Qed.

Lemma lookup_app k o o' :
  lookup k (o ++ o') = match lookup k o with Some v => Some v | None => lookup k o' end.
Proof.
  induction o as [|[k' v'] o IH]; simpl; [reflexivity|].
  destruct (str_eqb k k'); [reflexivity | exact IH].
Qed.

(** [Math.floor] leaves a safe integer as it is. *)
Lemma Q2Qc_integer (q : Qc) :
  Qc_is_integer q = true -> Q2Qc (inject_Z (Qfloor (this q))) = q.
Proof.
  unfold Qc_is_integer. intro H. apply Pos.eqb_eq in H.
  apply Qc_is_canon. unfold Q2Qc. cbn [this].
  rewrite (Qred_correct (inject_Z (Qfloor (this q)))).
  destruct q as [[n d] Hc]. cbn [this Qden Qnum] in *. subst d.
  unfold Qfloor. rewrite Z.div_1_r. reflexivity.
Qed.

Lemma floor_safe n : isSafeInteger (VNumber n) = true -> floor n = n.
Proof.
  destruct n as [| |  |q]; simpl; try discriminate; [reflexivity|].
  intro H. apply andb_true_iff in H. destruct H as [H _].
  rewrite (Q2Qc_integer _ H). reflexivity.
Qed.

Lemma this_int z : this (Q2Qc (inject_Z z)) = inject_Z z.
Proof.
  unfold Q2Qc. cbn [this]. apply Qred_identity. cbn [inject_Z Qnum Qden].
  apply Z.gcd_1_r.
Qed.

(** ** Plain objects: every property an own, writable, enumerable one *)

Lemma own_property_plain o k : own_property (VObject o) plain_shape k = lookup k o.
Proof. cbn [own_property plain_shape hidden lookup]. destruct (lookup k o); reflexivity. Qed.

Lemma get_plain o k :
  get (VObject o) plain_shape k
  = match lookup k o with Some x => x | None => VUndefined end.
Proof.
  unfold get. rewrite own_property_plain. destruct (lookup k o); reflexivity.
Qed.

Lemma get_plain_other v k :
  match v with VObject _ => False | _ => True end -> get v plain_shape k = VUndefined.
Proof. destruct v; intro H; try reflexivity. destruct H. Qed.

Lemma hasOwn_in_plain v k : hasOwn_in v plain_shape k = hasOwn v k.
Proof.
  destruct v; try reflexivity. unfold hasOwn_in. rewrite own_property_plain. reflexivity.
Qed.

Lemma has_plain k v sh :
  has k (mkStore v sh)
  = (match hasOwn v k with Some b => Return b | None => Throw Native_TypeError end,
     mkStore v sh).
Proof.
  unfold has. cbn [mkStore caller shape_of arg]. rewrite hasOwn_in_plain.
  destruct (hasOwn v k); reflexivity.
Qed.

Lemma get_config_plain k o sh :
  get_config k (mkStore (VObject o) sh)
  = (Return (match lookup k o with Some x => x | None => VUndefined end),
     mkStore (VObject o) sh).
Proof.
  unfold get_config. cbn [mkStore caller shape_of arg]. rewrite get_plain. reflexivity.
Qed.

Lemma read_plain o sh k :
  read (mkStore (VObject o) sh) k
  = match lookup k o with Some x => x | None => VUndefined end.
Proof. unfold read. cbn [mkStore caller shape_of arg]. apply get_plain. Qed.

Lemma write_config_plain o sh k x :
  write_config k x (mkStore (VObject o) sh) = (Return tt, mkStore (VObject (set k x o)) sh).
Proof.
  unfold write_config. cbn [mkStore caller shape_of arg shared].
  cbn [put plain_shape readonly hidden inherited readonly_inherited extensible
       mem existsb lookup negb orb].
  destruct (lookup k o); reflexivity.
Qed.

Lemma put_plain o k x :
  put (VObject o) plain_shape k x = Some (VObject (set k x o), plain_shape).
Proof.
  cbn [put plain_shape readonly hidden inherited readonly_inherited extensible
       mem existsb lookup negb orb].
  destruct (lookup k o); reflexivity.
Qed.

(** ** The one assignment of [validateConfig] *)

Lemma shape_eta s :
  mkShape (hidden s) (inherited s) (readonly s) (readonly_inherited s) (extensible s) = s.
Proof. destruct s; reflexivity. Qed.

(** Writing to an own property the value it has changes nothing, when the
    assignment is not refused. *)
Lemma put_own_same v s k x y :
  own_property v s k = Some x -> put v s k x = Some y -> y = (v, s).
Proof.
  destruct v as [| | | | | |o]; cbn [own_property put]; try discriminate.
  destruct (lookup k o) as [x'|] eqn:Hl.
  - intros [= ->]. destruct (mem k (readonly s)); [discriminate|].
    intros [= <-]. rewrite (set_same _ _ _ Hl). reflexivity.
  - intro Hh. rewrite Hh. destruct (mem k (readonly s)); [discriminate|].
    intros [= <-]. rewrite (set_same _ _ _ Hh), shape_eta. reflexivity.
Qed.

Lemma store_eta st :
  match arg st with
  | Passed _ _ => Store (Passed (caller st) (shape_of st)) (shared st)
  | TheConstant => Store TheConstant (caller st)
  end = st.
Proof. destruct st as [[v s|] sh]; reflexivity. Qed.

(** What the tab size checks let through to the assignment: a safe
    integer, which [Math.floor] leaves as it is. *)
Lemma validate_tab_size_run st :
  validate_tab_size st
  = (if truthy (read st K_tab_size) then
       if negb (is_number (read st K_tab_size))
       then (Throw (Tab_size_must_be_a_number (typeof (read st K_tab_size))), st)
       else if negb (isSafeInteger (read st K_tab_size))
       then (Throw (Tab_size_is_not_safe (read st K_tab_size)), st)
       else
         match read st K_tab_size with
         | VNumber n =>
             if lt_int n 1 || gt_int n 16 then (Throw Tab_size_out_of_range, st)
             else write_config K_tab_size (VNumber n) st
         | _ => (Throw Tab_size_out_of_range, st)
         end
     else (Return tt, st)).
Proof.
  unfold validate_tab_size, bind, get_config, check. fold (read st K_tab_size).
  destruct (truthy (read st K_tab_size)); [|reflexivity].
  destruct (negb (is_number (read st K_tab_size))); [reflexivity|]. cbv [ret].
  destruct (isSafeInteger (read st K_tab_size)) eqn:Hs; cbn [negb]; [|reflexivity].
  destruct (read st K_tab_size) as [| | |n| | |]; try discriminate Hs.
  rewrite (floor_safe _ Hs).
  destruct (lt_int n 1 || gt_int n 16); reflexivity.
Qed.

Lemma read_own st k :
  owns st k = true -> own_property (caller st) (shape_of st) k = Some (read st k).
Proof.
  unfold owns, read, get.
  destruct (own_property (caller st) (shape_of st) k); [reflexivity | discriminate].
Qed.

(** The assignment leaves the store as it was when [tab_size] is an own
    property, or is falsy. *)
Lemma validate_tab_size_keeps st :
  owns st K_tab_size = true \/ truthy (read st K_tab_size) = false ->
  snd (validate_tab_size st) = st.
Proof.
  intro H. rewrite validate_tab_size_run.
  destruct (truthy (read st K_tab_size)) eqn:Ht; [|reflexivity].
  destruct H as [Ho|H]; [|discriminate].
  destruct (negb (is_number (read st K_tab_size))); [reflexivity|].
  destruct (negb (isSafeInteger (read st K_tab_size))); [reflexivity|].
  pose proof (read_own st K_tab_size Ho) as Hown.
  destruct (read st K_tab_size) as [| | |n| | |]; try reflexivity.
  destruct (lt_int n 1 || gt_int n 16); [reflexivity|].
  unfold write_config.
  destruct (put (caller st) (shape_of st) K_tab_size (VNumber n)) as [[v' s']|] eqn:Hp;
    [|reflexivity].
  pose proof (put_own_same _ _ _ _ _ Hown Hp) as [= -> ->]. cbn [snd].
  apply store_eta.
Qed.

(** A truthy [tab_size] that is only inherited is written back as a new
    own property, the last of the object. *)
Lemma validate_tab_size_inherited st st' :
  owns st K_tab_size = false -> truthy (read st K_tab_size) = true ->
  validate_tab_size st = (Return tt, st') ->
  exists o,
    caller st = VObject o
    /\ st' = Store (Passed (VObject (o ++ [(K_tab_size, read st K_tab_size)])) (shape_of st))
               (shared st).
Proof.
  intros Ho Ht. rewrite validate_tab_size_run, Ht.
  destruct (negb (is_number (read st K_tab_size))); [discriminate|].
  destruct (negb (isSafeInteger (read st K_tab_size))); [discriminate|].
  destruct (read st K_tab_size) as [| | |n| | |] eqn:Hr; try discriminate.
  destruct (lt_int n 1 || gt_int n 16); [discriminate|].
  unfold write_config. unfold owns in Ho. unfold read, get in Hr.
  destruct st as [[v s|] sh]; cbn [caller shape_of arg shared] in *.
  - destruct v as [| | | | | |o]; cbn [own_property] in Ho, Hr; try discriminate Hr.
    cbn [put]. destruct (lookup K_tab_size o) eqn:Hl; [discriminate Ho|].
    destruct (lookup K_tab_size (hidden s)); [discriminate Ho|].
    destruct (lookup K_tab_size (inherited s)); [|discriminate Hr].
    match goal with |- context [if ?c then _ else _] => destruct c end; [discriminate|].
    intros [= <-]. exists o. split; [reflexivity|].
    rewrite (set_absent _ _ _ Hl). reflexivity.
  - destruct sh as [| | | | | |o]; cbn [own_property plain_shape hidden inherited] in Ho, Hr;
      try discriminate Hr.
    destruct (lookup K_tab_size o); [discriminate Ho | discriminate Hr].
Qed.

(** The checks after the tab size leave the store alone, so the store of a
    call that returns is the one the tab size check has left. *)
Lemma validateConfig_after st r st' :
  validateConfig st = (Return r, st') ->
  (r = TheShared /\ st' = st)
  \/ (exists x, r = Fresh x) /\ validate_tab_size st = (Return tt, st').
Proof.
  unfold validateConfig. unfold bind at 1. unfold read_config at 1.
  unfold bind at 1. destruct (negb (is_object_type (caller st))); [discriminate|].
  cbn [check]. unfold ret at 1. unfold bind at 1.
  pose proof (frame_has_any recognized st) as Fa.
  destruct (has_any recognized st) as [[any|e] st0]; cbn [snd] in Fa; subst st0;
    [|discriminate].
  destruct any; cbn [negb].
  2:{ intros [= <- <-]. left. split; reflexivity. }
  unfold bind at 1.
  destruct (validate_tab_size st) as [[[]|e] st1]; [|discriminate].
  intro H. right.
  set (rest := (field K_ignore (fun v => negb (array_of_strings v))
                      (fun _ => Ignore_must_be_an_array_of_strings) ;;;
                field K_ignore_with (fun v => negb (is_string_type v))
                      (fun v => Ignore_with_must_be_a_string (typeof v)) ;;;
                field K_strict (fun v => negb (is_boolean v))
                      (fun v => Strict_must_be_a_boolean (typeof v)) ;;;
                field K_tag_wrap (fun v => negb (is_boolean v))
                      (fun v => Tag_wrap_must_be_a_boolean (typeof v)) ;;;
                field K_tag_wrap_width (fun v => negb (is_number v))
                      (fun v => Tag_wrap_width_must_be_a_number (typeof v)) ;;;
                field K_trim (fun v => negb (array_of_strings v))
                      (fun _ => Trim_must_be_an_array_of_strings) ;;;
                dconfig <- read_CONFIG ;;
                config' <- read_config ;;
                merged <- lift (mergeConfig dconfig config') ;;
                ret (Fresh merged))) in H.
  assert (F : frame rest).
  { unfold rest.
    repeat (apply frame_bind; [apply frame_field|]; intros _).
    apply frame_bind; [apply frame_read_CONFIG|]. intro d.
    apply frame_bind; [apply frame_read_config|]. intro c.
    apply frame_bind; [apply frame_lift|]. intro mg. apply frame_ret. }
  pose proof (F st1) as F1. rewrite H in F1. cbn [snd] in F1. subst st'.
  split; [|reflexivity].
  assert (R : forall st2 r2 st3, rest st2 = (Return r2, st3) -> exists x, r2 = Fresh x).
  { clear. intros st2 r2 st3. unfold rest.
    repeat (unfold bind at 1;
            match goal with
            | |- context [field ?k ?b ?e st2] =>
                let F := fresh "F" in
                pose proof (frame_field k b e st2) as F;
                destruct (field k b e st2) as [[[]|?] ?]; cbn [snd] in F; subst;
                [|discriminate]
            end).
    unfold bind, read_CONFIG, read_config, lift, ret.
    destruct (mergeConfig (shared st2) (caller st2)); [|discriminate].
    intros [= <- _]. eexists. reflexivity. }
  exact (R _ _ _ H).
Qed.

(** Whatever the outcome, the store after a call is the one it started
    with, or the one the tab size check has left. *)
Lemma validateConfig_store st :
  snd (validateConfig st) = st \/ snd (validateConfig st) = snd (validate_tab_size st).
Proof.
  destruct (validateConfig st) as [out st'] eqn:E. cbn [snd]. revert E.
  unfold validateConfig. unfold bind at 1. unfold read_config at 1.
  unfold bind at 1.
  destruct (negb (is_object_type (caller st))); [intros [= _ <-]; left; reflexivity|].
  cbn [check]. unfold ret at 1. unfold bind at 1.
  pose proof (frame_has_any recognized st) as Fa.
  destruct (has_any recognized st) as [[any|e] st0]; cbn [snd] in Fa; subst st0;
    [|intros [= _ <-]; left; reflexivity].
  destruct any; cbn [negb]; [|intros [= _ <-]; left; reflexivity].
  unfold bind at 1.
  destruct (validate_tab_size st) as [[[]|e] st1]; [|intros [= _ <-]; right; reflexivity].
  intro E. right. cbn [snd].
  match type of E with ?rest st1 = _ => assert (F : frame rest) end.
  { repeat (apply frame_bind; [apply frame_field|]; intros _).
    apply frame_bind; [apply frame_read_CONFIG|]. intro d.
    apply frame_bind; [apply frame_read_config|]. intro c.
    apply frame_bind; [apply frame_lift|]. intro mg. apply frame_ret. }
  pose proof (F st1) as F1. rewrite E in F1. exact F1.
Qed.

Lemma owns_or_falsy_plain v sh :
  owns (mkStore v sh) K_tab_size = true
  \/ truthy (read (mkStore v sh) K_tab_size) = false.
Proof.
  unfold owns, read, get. cbn [mkStore caller shape_of arg].
  destruct v as [| | | | | |o]; try (right; reflexivity).
  rewrite own_property_plain. cbn [plain_shape inherited lookup].
  destruct (lookup K_tab_size o); [left; reflexivity | right; reflexivity].
Qed.

(** A call with a plain object leaves the store alone. *)
Lemma frame_validateConfig_plain v sh :
  snd (validateConfig (mkStore v sh)) = mkStore v sh.
Proof.
  destruct (validateConfig_store (mkStore v sh)) as [H|H]; [exact H|].
  rewrite H. apply validate_tab_size_keeps. apply owns_or_falsy_plain.
Qed.

(** C3, as the code has it.  A call that [validateConfig] accepts never
    changes the shared default configuration, not even when the caller
    passes that very constant, and every property of the caller's object
    reads the same value after the call as before it.  When [tab_size] is
    an own property of the input, or is falsy, or the input has no
    recognized key of its own, the store is left as it was.  But a truthy
    [tab_size] that the input only inherits is assigned to the input, which
    gains [tab_size] as a new own property. *)
Theorem C3_validateConfig_writes_tab_size_back :
  forall (st st' : store) (r : returned),
    validateConfig st = (Return r, st') ->
    shared st' = shared st
    /\ (forall k, read st' k = read st k)
    /\ (r = TheShared -> st' = st)
    /\ (owns st K_tab_size = true \/ truthy (read st K_tab_size) = false -> st' = st)
    /\ (r <> TheShared ->
        owns st K_tab_size = false -> truthy (read st K_tab_size) = true ->
        exists o,
          caller st = VObject o
          /\ arg st'
             = Passed (VObject (o ++ [(K_tab_size, read st K_tab_size)])) (shape_of st)).
Proof.
  intros st st' r H.
  destruct (validateConfig_after st r st' H) as [[-> ->]|[[x ->] Hv]].
  - repeat split; try reflexivity. intro Hne. congruence.
  - assert (Hcases : st' = st
                     \/ (owns st K_tab_size = false /\ truthy (read st K_tab_size) = true)).
    { destruct (owns st K_tab_size) eqn:Ho.
      - left. pose proof (validate_tab_size_keeps st (or_introl Ho)) as K.
        rewrite Hv in K. exact K.
      - destruct (truthy (read st K_tab_size)) eqn:Ht; [right; split; reflexivity|].
        left. pose proof (validate_tab_size_keeps st (or_intror Ht)) as K.
        rewrite Hv in K. exact K. }
    destruct Hcases as [->|[Ho Ht]].
    + repeat split; try reflexivity. intros _ Ho Ht.
      pose proof (validate_tab_size_inherited st st Ho Ht Hv) as (o & Hc & Hst).
      exfalso. apply (f_equal arg) in Hst. cbn [arg] in Hst.
      destruct st as [[v s|] sh]; cbn [caller shape_of arg] in *; [|discriminate].
      subst v. injection Hst as Hst. clear -Hst.
      apply (f_equal (@List.length _)) in Hst. rewrite length_app in Hst.
      cbn [List.length] in Hst. lia.
    + destruct (validate_tab_size_inherited st st' Ho Ht Hv) as (o & Hc & ->).
      cbn [shared arg]. split; [reflexivity|]. split; [|split; [discriminate|split]].
      * intro k.
        change (read (Store (Passed (VObject (o ++ [(K_tab_size, read st K_tab_size)]))
                               (shape_of st)) (shared st)) k)
          with (get (VObject (o ++ [(K_tab_size, read st K_tab_size)])) (shape_of st) k).
        unfold owns in Ho. rewrite Hc in Ho. unfold read in Ht |- *. rewrite Hc in Ht |- *.
        unfold get in *. cbn [own_property] in *. rewrite lookup_app.
        destruct (lookup k o) as [y|] eqn:Hl; [reflexivity|].
        cbn [lookup]. destruct (str_eqb k K_tab_size) eqn:E; [|reflexivity].
        apply str_eqb_eq in E. subst k. rewrite Hl in Ho |- *.
        destruct (lookup K_tab_size (hidden (shape_of st))); [discriminate Ho|].
        reflexivity.
      * intros [Ho'|Ht']; congruence.
      * intros _ _ _. exists o. split; [exact Hc | reflexivity].
Qed.

Lemma C3_witness :
  (exists r st',
      call_with strict_only inherits_tab_size = (Return r, st')
      /\ shared st' = CONFIG
      /\ read st' K_tab_size = int 4
      /\ arg st' = Passed (VObject [(K_strict, VBool true); (K_tab_size, int 4)])
                          inherits_tab_size)
  /\ (exists r st', call_constant = (Return r, st') /\ st' = Store TheConstant CONFIG).
Proof.
  split.
  - destruct (call_with strict_only inherits_tab_size) as [[r|e] st'] eqn:E.
    + exists r, st'. split; [reflexivity|].
      destruct (C3_validateConfig_writes_tab_size_back _ _ _ E) as (H1 & H2 & _ & _ & H5).
      split; [exact H1|]. split; [rewrite H2; reflexivity|].
      destruct H5 as (o & Ho & Hst).
      * intros ->. vm_compute in E. discriminate E.
      * reflexivity.
      * reflexivity.
      * cbn [caller arg strict_only] in Ho. injection Ho as <-. exact Hst.
    + vm_compute in E. discriminate.
  - destruct call_constant as [[r|e] st'] eqn:E.
    + exists r, st'. split; [reflexivity|].
      destruct (C3_validateConfig_writes_tab_size_back _ _ _ E) as (_ & _ & _ & H4 & _).
      apply H4. left. reflexivity.
    + vm_compute in E. discriminate.
Defined.

(** C3, the claim as worded, fails: an accepted call changes the caller's
    object when its [tab_size] is inherited.  The object of
    [Object.assign(Object.create({ tab_size: 4 }), { strict: true })] has
    the one own key [strict] before the call and the own keys [strict] and
    [tab_size] after it. *)
Lemma C3_counterexample :
  exists r st',
    call_with strict_only inherits_tab_size = (Return r, st')
    /\ caller st' = VObject [(K_strict, VBool true); (K_tab_size, int 4)]
    /\ caller st' <> strict_only
    /\ hasOwn_in strict_only inherits_tab_size K_tab_size = Some false
    /\ hasOwn_in (caller st') (shape_of st') K_tab_size = Some true.
Proof.
  eexists. eexists. split; [reflexivity|]. cbn [caller arg shape_of].
  split; [reflexivity|]. split; [discriminate|]. split; reflexivity.
Qed.

(** ** The shortcut for inputs without a recognized key *)

Lemma has_any_false v sh ks :
  forallb (fun k => match hasOwn v k with Some false => true | _ => false end) ks = true ->
  has_any ks (mkStore v sh) = (Return false, mkStore v sh).
Proof.
  induction ks as [|k ks IH]; simpl; [reflexivity|].
  intro H. apply andb_true_iff in H. destruct H as [Hk Hks].
  unfold bind. rewrite has_plain.
  destruct (hasOwn v k) as [[|]|]; try discriminate. exact (IH Hks).
Qed.

(** C5: for every object-like input without any of the seven recognized
    keys (the empty object among them) [validateConfig] returns the shared
    default configuration itself, and leaves the store alone. *)
Theorem C5_validateConfig_default :
  forall (v sh : value),
    object_like v = true -> none_recognized v = true ->
    validateConfig (mkStore v sh) = (Return TheShared, mkStore v sh) /\
    deref (snd (call v)) TheShared = CONFIG.
Proof.
  intros v sh Hobj Hnone.
  assert (Ht : is_object_type v = true) by (destruct v; try discriminate; reflexivity).
  assert (G : forall s, validateConfig (mkStore v s) = (Return TheShared, mkStore v s)).
  { intro s. unfold validateConfig. unfold bind at 1. unfold read_config at 1.
    change (caller (mkStore v s)) with v. rewrite Ht. cbn [negb check].
    unfold bind at 1. unfold ret at 1. unfold bind at 1.
    rewrite (has_any_false v s recognized Hnone). reflexivity. }
  split; [apply G|]. unfold call. rewrite G. reflexivity.
Qed.

Lemma C5_witness :
  validateConfig (mkStore (VObject []) CONFIG) = (Return TheShared, mkStore (VObject []) CONFIG)
  /\ deref (snd (call (VObject []))) TheShared = CONFIG.
Proof. apply (C5_validateConfig_default (VObject []) CONFIG); reflexivity. Defined.

(** ** The tab size checks *)

Lemma truthy_int z : truthy (int z) = negb (z =? 0)%Z.
Proof.
  unfold int, truthy. rewrite this_int. unfold Qeq_bool. simpl.
  rewrite Z.mul_1_r. destruct z; reflexivity.
Qed.

Lemma isSafeInteger_int z : isSafeInteger (int z) = (Z.abs z <=? MAX_SAFE_INTEGER)%Z.
Proof.
  unfold int, isSafeInteger, Qc_is_integer. rewrite this_int. reflexivity.
Qed.

Lemma lt_int_int z k : lt_int (Finite (Q2Qc (inject_Z z))) k = (z <? k)%Z.
Proof.
  unfold lt_int. rewrite this_int. unfold Qle_bool. simpl.
  rewrite !Z.mul_1_r. rewrite Z.ltb_antisym. reflexivity.
Qed.

Lemma gt_int_int z k : gt_int (Finite (Q2Qc (inject_Z z))) k = (k <? z)%Z.
Proof.
  unfold gt_int. rewrite this_int. unfold Qle_bool. simpl.
  rewrite !Z.mul_1_r. rewrite Z.ltb_antisym. reflexivity.
Qed.

Lemma floor_int z : floor (Finite (Q2Qc (inject_Z z))) = Finite (Q2Qc (inject_Z z)).
Proof. unfold floor. rewrite this_int, Qfloor_Z. reflexivity. Qed.

Lemma has_true o sh k v :
  lookup k o = Some v ->
  has k (mkStore (VObject o) sh) = (Return true, mkStore (VObject o) sh).
Proof.
  intro H. rewrite has_plain. cbn [hasOwn]. rewrite H. reflexivity.
Qed.

Lemma has_any_true o sh ks k v :
  In k ks -> lookup k o = Some v ->
  has_any ks (mkStore (VObject o) sh) = (Return true, mkStore (VObject o) sh).
Proof.
  intros Hin Hl. induction ks as [|k' ks IH]; [destruct Hin|].
  simpl. unfold bind.
  pose proof (frame_has k' (mkStore (VObject o) sh)) as F.
  destruct (has k' (mkStore (VObject o) sh)) as [[b|e] st'] eqn:E; simpl in F; subst st'.
  - destruct b; [reflexivity|]. destruct Hin as [->|Hin]; [|exact (IH Hin)].
    rewrite (has_true _ _ _ _ Hl) in E. discriminate.
  - rewrite has_plain in E. cbn [hasOwn] in E. discriminate.
Qed.

Lemma K_tab_size_recognized : In K_tab_size recognized.
Proof. simpl. tauto. Qed.

(** The run of [validateConfig] up to and including the tab size checks. *)
Lemma validateConfig_tab_size_throws o sh v e :
  lookup K_tab_size o = Some v ->
  validate_tab_size (mkStore (VObject o) sh) = (Throw e, mkStore (VObject o) sh) ->
  validateConfig (mkStore (VObject o) sh) = (Throw e, mkStore (VObject o) sh).
Proof.
  intros Hl Hv. unfold validateConfig. unfold bind at 1. unfold read_config at 1.
  change (caller (mkStore (VObject o) sh)) with (VObject o).
  cbn [is_object_type typeof negb check]. unfold bind at 1. unfold ret at 1.
  unfold bind at 1.
  rewrite (has_any_true o sh recognized K_tab_size v K_tab_size_recognized Hl).
  cbn [negb]. unfold bind at 1. rewrite Hv. reflexivity.
Qed.

Lemma tab_size_not_safe o sh n :
  lookup K_tab_size o = Some (VNumber n) ->
  truthy (VNumber n) = true -> isSafeInteger (VNumber n) = false ->
  validateConfig (mkStore (VObject o) sh)
  = (Throw (Tab_size_is_not_safe (VNumber n)), mkStore (VObject o) sh).
Proof.
  intros Hl Ht Hs. apply (validateConfig_tab_size_throws _ _ _ _ Hl).
  rewrite validate_tab_size_run, read_plain, Hl, Ht.
  cbn [is_number typeof negb]. rewrite Hs. reflexivity.
Qed.

Lemma tab_size_out_of_range o sh z :
  lookup K_tab_size o = Some (int z) ->
  (Z.abs z <= MAX_SAFE_INTEGER)%Z -> (z < 0 \/ 16 < z)%Z ->
  validateConfig (mkStore (VObject o) sh)
  = (Throw Tab_size_out_of_range, mkStore (VObject o) sh).
Proof.
  intros Hl Hs Hr. apply (validateConfig_tab_size_throws _ _ _ _ Hl).
  rewrite validate_tab_size_run, read_plain, Hl.
  rewrite truthy_int. replace (z =? 0)%Z with false by (symmetry; apply Z.eqb_neq; lia).
  cbn [negb]. rewrite isSafeInteger_int.
  replace (Z.abs z <=? MAX_SAFE_INTEGER)%Z with true by (symmetry; apply Z.leb_le; exact Hs).
  unfold int. cbn [is_number typeof negb].
  rewrite lt_int_int, gt_int_int.
  replace ((z <? 1)%Z || (16 <? z)%Z) with true; [reflexivity|].
  symmetry. apply orb_true_iff. destruct Hr; [left; apply Z.ltb_lt | right; apply Z.ltb_lt]; lia.
Qed.

Local Arguments Q2Qc : simpl never.

Lemma tab_size_accepted z :
  (1 <= z <= 16)%Z ->
  call (tab_only (int z))
  = (Return (Fresh (CONFIG_with_tab_size (int z))), mkStore (tab_only (int z)) CONFIG).
Proof.
  intro Hr.
  assert (Hv : validate_tab_size (mkStore (tab_only (int z)) CONFIG)
               = (Return tt, mkStore (tab_only (int z)) CONFIG)).
  { rewrite validate_tab_size_run. unfold tab_only. rewrite read_plain.
    change (lookup K_tab_size [(K_tab_size, int z)]) with (Some (int z)).
    cbv beta iota. rewrite truthy_int.
    replace (z =? 0)%Z with false by (symmetry; apply Z.eqb_neq; lia).
    cbn [negb]. rewrite isSafeInteger_int.
    replace (Z.abs z <=? MAX_SAFE_INTEGER)%Z with true
      by (symmetry; apply Z.leb_le; unfold MAX_SAFE_INTEGER; lia).
    unfold int. cbn [is_number typeof negb].
    rewrite lt_int_int, gt_int_int.
    replace ((z <? 1)%Z || (16 <? z)%Z) with false
      by (symmetry; apply orb_false_iff; split; apply Z.ltb_ge; lia).
    rewrite write_config_plain. cbn [set]. rewrite str_eqb_refl. reflexivity. }
  unfold call, validateConfig. unfold bind at 1. unfold read_config at 1.
  change (caller (mkStore (tab_only (int z)) CONFIG)) with (tab_only (int z)).
  cbn [is_object_type typeof negb check tab_only]. unfold bind at 1. unfold ret at 1.
  unfold bind at 1. unfold tab_only in Hv |- *.
  rewrite (has_any_true [(K_tab_size, int z)] CONFIG recognized K_tab_size (int z)
             K_tab_size_recognized) by reflexivity.
  cbn [negb]. unfold bind at 1.
  rewrite Hv. unfold int. simpl. reflexivity.
Qed.

(** C4, as the code has it: 4.9 is rejected as not safe (only an integer
    value reaches the floor, which leaves it as it is, so 4.0 is accepted
    as 4); 17 is rejected as out of range; a numeric tab size that is not a
    safe integer (2^53 for one) is rejected; all three errors are range
    errors. *)
Theorem C4_tab_size_range :
  (fst (call (tab_only n4_9)) = Throw (Tab_size_is_not_safe n4_9)
   /\ kind_of (Tab_size_is_not_safe n4_9) = RangeKind) /\
  (fst (call (tab_only (int 17))) = Throw Tab_size_out_of_range
   /\ kind_of Tab_size_out_of_range = RangeKind) /\
  fst (call (tab_only (int 4))) = Return (Fresh (CONFIG_with_tab_size (int 4))) /\
  fst (call (tab_only n2_53)) = Throw (Tab_size_is_not_safe n2_53) /\
  (forall o n,
      lookup K_tab_size o = Some (VNumber n) ->
      truthy (VNumber n) = true -> isSafeInteger (VNumber n) = false ->
      exists e, fst (call (VObject o)) = Throw e /\ kind_of e = RangeKind) /\
  (forall o z,
      lookup K_tab_size o = Some (int z) ->
      (Z.abs z <= MAX_SAFE_INTEGER)%Z -> (z < 0 \/ 16 < z)%Z ->
      exists e, fst (call (VObject o)) = Throw e /\ kind_of e = RangeKind) /\
  (forall z, (1 <= z <= 16)%Z ->
      fst (call (tab_only (int z))) = Return (Fresh (CONFIG_with_tab_size (int z)))).
Proof.
  split; [split; reflexivity|]. split; [split; reflexivity|].
  split; [reflexivity|]. split; [reflexivity|]. split; [|split].
  - intros o n Hl Ht Hs. exists (Tab_size_is_not_safe (VNumber n)).
    unfold call. rewrite (tab_size_not_safe _ _ _ Hl Ht Hs). split; reflexivity.
  - intros o z Hl Hs Hr. exists Tab_size_out_of_range.
    unfold call. rewrite (tab_size_out_of_range _ _ _ Hl Hs Hr). split; reflexivity.
  - intros z Hr. rewrite (tab_size_accepted _ Hr). reflexivity.
Qed.

Lemma C4_witness :
  (exists e, fst (call (tab_only n4_9)) = Throw e /\ kind_of e = RangeKind) /\
  (exists e, fst (call (tab_only (int (-3)))) = Throw e /\ kind_of e = RangeKind) /\
  fst (call (tab_only (int 16))) = Return (Fresh (CONFIG_with_tab_size (int 16))).
Proof.
  destruct C4_tab_size_range as (_ & _ & _ & _ & H1 & H2 & H3).
  split; [|split].
  - apply (H1 [(K_tab_size, n4_9)] (Finite (Q2Qc (49 # 10)))); reflexivity.
  - apply (H2 [(K_tab_size, int (-3))] (-3)%Z);
      [reflexivity | unfold MAX_SAFE_INTEGER; lia | lia].
  - apply (H3 16%Z). lia.
Defined.

(** C4, the claim as worded, fails twice: 4.9 is not accepted (the call
    throws), and 0 is not rejected (the call returns a configuration whose
    tab size is 0). *)
Lemma C4_counterexample :
  (forall r, fst (call (tab_only n4_9)) <> Return r) /\
  fst (call (tab_only (int 0))) = Return (Fresh (CONFIG_with_tab_size (int 0))).
Proof. split; [intros r H; vm_compute in H; discriminate | reflexivity]. Qed.

(** ** The merge *)

Lemma mergeObjects_object cur ups :
  mergeObjects (VObject cur) (VObject ups) = merge_props cur ups.
Proof.
  cbn [mergeObjects truthy negb orb].
  revert cur. induction ups as [|[key u] ups IH]; intro cur; [reflexivity|].
  cbn [merge_props]. unfold merge_step at 1.
  destruct (negb (is_object_type u)).
  - apply IH.
  - destruct (mergeObjects _ u); [apply IH | reflexivity].
Qed.

Lemma lookup_None_notin k o : lookup k o = None <-> ~ In k (map fst o).
Proof.
  induction o as [|[k' v'] o IH]; simpl; [tauto|].
  destruct (str_eqb k k') eqn:E.
  - apply str_eqb_eq in E. subst. split; [discriminate | tauto].
  - assert (k' <> k) by (intro; subst; rewrite str_eqb_refl in E; discriminate).
    tauto.
Qed.

Lemma merge_step_keys m k u m' :
  merge_step m k u = Return m' ->
  forall k', k' <> k -> lookup k' m' = lookup k' m.
Proof.
  unfold merge_step. intros H k' Hne.
  destruct (negb (is_object_type u)).
  - injection H as <-. apply lookup_set_other; exact Hne.
  - destruct (mergeObjects _ u); [|discriminate].
    injection H as <-. apply lookup_set_other; exact Hne.
Qed.

Lemma merge_props_keys l : forall m r,
  merge_props m l = Return r ->
  exists r', r = VObject r' /\
             forall k, ~ In k (map fst l) -> lookup k r' = lookup k m.
Proof.
  induction l as [|[key u] l IH]; intros m r H; simpl in H.
  - injection H as <-. exists m. split; [reflexivity | intros; reflexivity].
  - destruct (merge_step m key u) as [m'|e] eqn:E; [|discriminate].
    destruct (IH _ _ H) as (r' & -> & Hr'). exists r'. split; [reflexivity|].
    intros k Hk. simpl in Hk. rewrite Hr' by tauto.
    apply (merge_step_keys _ _ _ _ E). intro; subst; tauto.
Qed.

Lemma merge_props_app l l' : forall m,
  merge_props m (l ++ l') =
  match merge_props m l with
  | Return (VObject r) => merge_props r l'
  | other => other
  end.
Proof.
  induction l as [|[key u] l IH]; intro m; simpl; [reflexivity|].
  destruct (merge_step m key u); [apply IH | reflexivity].
Qed.

(** Copying the elements of an array of strings into an object never
    throws. *)
Lemma mergeObjects_strings_into_object ys cur :
  forallb is_string_type ys = true ->
  exists r, mergeObjects (VObject cur) (VArray ys) = Return r.
Proof.
  cbn [mergeObjects truthy negb orb]. generalize 0%nat. revert cur.
  induction ys as [|y ys IH]; intros cur i H; [eexists; reflexivity|].
  simpl in H. apply andb_true_iff in H. destruct H as [Hy Hys].
  assert (Ho : is_object_type y = false)
    by (unfold is_string_type, is_object_type in *; destruct (typeof y); congruence).
  rewrite Ho. cbn [negb]. apply IH. exact Hys.
Qed.

Lemma merge_step_flat m k u :
  flat u = true ->
  exists x, merge_step m k u = Return (set k x m) /\
            (is_object_type u = false -> x = u) /\
            (forall xs ys, u = VArray ys -> lookup k m = Some (VArray xs) ->
                           x = VArray (xs ++ ys)).
Proof.
  unfold flat, merge_step. intro H.
  destruct (is_object_type u) eqn:Ho; cbn [negb] in *.
  - simpl in H. destruct u as [| | | | |ys|]; try discriminate. simpl in H.
    set (target := match lookup k m with
                   | Some x => if truthy x then x else VObject []
                   | None => VObject []
                   end).
    assert (Ht : truthy target = true).
    { unfold target. destruct (lookup k m) as [x|]; [|reflexivity].
      destruct (truthy x) eqn:E; [exact E | reflexivity]. }
    destruct target as [| | | | |xs|cur] eqn:Et; try discriminate.
    + exists VUndefined. cbn [mergeObjects]. rewrite Ht. simpl.
      split; [reflexivity|]. split; [discriminate|].
      intros xs ys' _ Hl. unfold target in Et. rewrite Hl in Et. discriminate.
    + exists VUndefined. cbn [mergeObjects]. rewrite Ht. simpl.
      split; [reflexivity|]. split; [discriminate|].
      intros xs ys' _ Hl. unfold target in Et. rewrite Hl in Et. discriminate.
    + exists VUndefined. cbn [mergeObjects]. rewrite Ht. simpl.
      split; [reflexivity|]. split; [discriminate|].
      intros xs ys' _ Hl. unfold target in Et. rewrite Hl in Et. discriminate.
    + exists (VArray (xs ++ ys)). simpl. split; [reflexivity|]. split; [discriminate|].
      intros xs' ys' [= <-] Hl. unfold target in Et. rewrite Hl in Et. simpl in Et.
      injection Et as ->. reflexivity.
    + destruct (mergeObjects_strings_into_object ys cur H) as [r Hr].
      exists r. rewrite Hr. split; [reflexivity|]. split; [discriminate|].
      intros xs ys' _ Hl. unfold target in Et. rewrite Hl in Et. discriminate.
  - exists u. split; [reflexivity|]. split; [reflexivity|].
    intros xs ys -> _. discriminate.
Qed.

Lemma merge_props_flat l : forall m,
  (forall k v, In (k, v) l -> flat v = true) ->
  NoDup (map fst l) ->
  exists r, merge_props m l = Return (VObject r) /\
    (forall k, ~ In k (map fst l) -> lookup k r = lookup k m) /\
    (forall k v, In (k, v) l ->
       (is_object_type v = false -> lookup k r = Some v) /\
       (forall xs ys, v = VArray ys -> lookup k m = Some (VArray xs) ->
                      lookup k r = Some (VArray (xs ++ ys)))).
Proof.
  induction l as [|[key u] l IH]; intros m Hflat Hnd.
  - exists m. split; [reflexivity|]. split; [reflexivity|]. intros k v [].
  - simpl in Hnd. inversion Hnd as [|? ? Hnotin Hnd']; subst.
    destruct (merge_step_flat m key u (Hflat key u (or_introl eq_refl)))
      as (x & Hx & Hprim & Harr).
    destruct (IH (set key x m) (fun k v H => Hflat k v (or_intror H)) Hnd')
      as (r & Hr & Hout & Hin).
    exists r. simpl. rewrite Hx. split; [exact Hr|]. split.
    + intros k Hk. simpl in Hk. rewrite Hout by tauto.
      apply lookup_set_other. intro; subst; tauto.
    + intros k v [[= <- <-]|Hkv].
      * rewrite (Hout key Hnotin), lookup_set_same. split.
        -- intro Ho. rewrite (Hprim Ho). reflexivity.
        -- intros xs ys Hu Hl. rewrite (Harr xs ys Hu Hl). reflexivity.
      * destruct (Hin k v Hkv) as [H1 H2]. split; [exact H1|].
        intros xs ys Hv Hl. apply (H2 xs ys Hv).
        rewrite lookup_set_other; [exact Hl|].
        intro; subst. apply Hnotin. apply (in_map fst) in Hkv. exact Hkv.
Qed.

(** C6: merging a valid partial configuration onto a default concatenates
    an array-valued field after the elements of the default's array and
    replaces a scalar field; [{ ignore: ["foo"] }] onto a default whose
    ignore is [[]] gives [["foo"]], onto one whose ignore is [["bar"]] gives
    [["bar", "foo"]]. *)
Theorem C6_merge_concatenates_arrays :
  (forall d u,
      (forall k v, In (k, v) u -> flat v = true) ->
      NoDup (map fst u) ->
      exists r, mergeConfig (VObject d) (VObject u) = Return (VObject r) /\
        (forall k, lookup k u = None -> lookup k r = lookup k d) /\
        (forall k v, In (k, v) u ->
           (is_object_type v = false -> lookup k r = Some v) /\
           (forall xs ys, v = VArray ys -> lookup k d = Some (VArray xs) ->
                          lookup k r = Some (VArray (xs ++ ys))))) /\
  fst (call (VObject [(K_ignore, VArray [VString (str "foo")])]))
  = Return (Fresh (VObject
      [ (K_ignore, VArray [VString (str "foo")]);
        (K_ignore_with, VString DEFAULT_IGNORE_WITH);
        (K_strict, VBool false); (K_tab_size, int 2); (K_tag_wrap, VBool false);
        (K_tag_wrap_width, int 80); (K_trim, VArray []) ])) /\
  mergeConfig (VObject [(K_ignore, VArray [VString (str "bar")])])
              (VObject [(K_ignore, VArray [VString (str "foo")])])
  = Return (VObject [(K_ignore, VArray [VString (str "bar"); VString (str "foo")])]).
Proof.
  split; [|split; reflexivity].
  intros d u Hflat Hnd. unfold mergeConfig, structuredClone.
  rewrite mergeObjects_object.
  destruct (merge_props_flat u d Hflat Hnd) as (r & Hr & Hout & Hin).
  exists r. split; [exact Hr|]. split; [|exact Hin].
  intros k Hk. apply Hout. apply lookup_None_notin. exact Hk.
Qed.

Lemma C6_witness :
  exists r,
    mergeConfig CONFIG (VObject [(K_trim, VArray [VString (str "p")]); (K_strict, VBool true)])
    = Return (VObject r)
    /\ lookup K_trim r = Some (VArray [VString (str "p")])
    /\ lookup K_strict r = Some (VBool true).
Proof.
  destruct (proj1 C6_merge_concatenates_arrays
              [ (K_ignore, VArray []); (K_ignore_with, VString DEFAULT_IGNORE_WITH);
                (K_strict, VBool false); (K_tab_size, int 2); (K_tag_wrap, VBool false);
                (K_tag_wrap_width, int 80); (K_trim, VArray []) ]
              [(K_trim, VArray [VString (str "p")]); (K_strict, VBool true)])
    as (r & Hr & _ & Hin).
  - intros k v [[= <- <-]|[[= <- <-]|[]]]; reflexivity.
  - repeat constructor; simpl; intuition discriminate.
  - exists r. split; [exact Hr|]. split.
    + apply (proj2 (Hin K_trim _ (or_introl eq_refl)) [] _ eq_refl). reflexivity.
    + apply (proj1 (Hin K_strict _ (or_intror (or_introl eq_refl)))). reflexivity.
Defined.

(** * Properties of the matcher and of the global scan *)

Unset Implicit Arguments.

Lemma m_star_fuel r greedy s cs k :
  m (Star greedy r) s cs k = star_fuel (m r) greedy k (List.length s) s cs.
Proof. reflexivity. Qed.

Lemma greedy_cls_fuel p k : forall s cs fuel,
  (List.length s <= fuel)%nat ->
  star_fuel (m (Cls p)) true k fuel s cs = greedy_run p k s cs.
Proof.
  induction s as [|a s IH]; intros cs fuel Hf.
  - destruct fuel; reflexivity.
  - destruct fuel as [|fuel]; [simpl in Hf; lia|].
    cbn [star_fuel m greedy_run]. destruct (p a); [|reflexivity].
    replace (List.length s <? List.length (a :: s))%nat with true
      by (symmetry; apply Nat.ltb_lt; simpl; lia).
    fold (star_fuel (m (Cls p)) true k).
    rewrite IH by (simpl in Hf; lia). reflexivity.
Qed.

Lemma m_greedy_cls p k s cs :
  m (Star true (Cls p)) s cs k = greedy_run p k s cs.
Proof. rewrite m_star_fuel. apply greedy_cls_fuel. lia. Qed.

(** A greedy run followed by something that cannot start with a character
    of the class stops at the end of the run. *)
Lemma greedy_run_stop p k :
  (forall a s cs, p a = true -> k (a :: s) cs = None) ->
  forall s cs, greedy_run p k s cs = k (snd (span p s)) cs.
Proof.
  intros Hk. induction s as [|a s IH]; intro cs; [reflexivity|].
  simpl. destruct (p a) eqn:E; [|reflexivity].
  rewrite IH. destruct (span p s) as [u w]. simpl.
  rewrite (Hk a s cs E). destruct (k w cs); reflexivity.
Qed.

Lemma forallb_impl (p q : char -> bool) l :
  (forall a, p a = true -> q a = true) -> forallb p l = true -> forallb q l = true.
Proof.
  intros Hpq H. apply forallb_forall. intros a Ha.
  apply Hpq. exact (proj1 (forallb_forall _ _) H a Ha).
Qed.

Lemma span_app p s : fst (span p s) ++ snd (span p s) = s.
Proof.
  induction s as [|a s IH]; [reflexivity|]. simpl.
  destruct (p a); [|reflexivity]. destruct (span p s) as [u w]. simpl in *.
  rewrite IH. reflexivity.
Qed.

Lemma span_all p s : forallb p (fst (span p s)) = true.
Proof.
  induction s as [|a s IH]; [reflexivity|]. simpl.
  destruct (p a) eqn:E; [|reflexivity]. destruct (span p s) as [u w]. simpl in *.
  rewrite E, IH. reflexivity.
Qed.

Lemma span_stops p s :
  match snd (span p s) with a :: _ => p a = false | [] => True end.
Proof.
  induction s as [|a s IH]; [exact I|]. simpl.
  destruct (p a) eqn:E; [|exact E]. destruct (span p s) as [u w]. exact IH.
Qed.

Lemma span_eq p u w :
  forallb p u = true ->
  match w with a :: _ => p a = false | [] => True end ->
  span p (u ++ w) = (u, w).
Proof.
  intros Hu Hw. induction u as [|a u IH]; simpl.
  - destruct w as [|a w]; [reflexivity|]. simpl. rewrite Hw. reflexivity.
  - simpl in Hu. apply andb_true_iff in Hu. destruct Hu as [Ha Hu].
    rewrite Ha, (IH Hu). reflexivity.
Qed.

Lemma m_lit t k : forall s cs,
  m (Lit t) s cs k = if prefixb t s then k (skipn (List.length t) s) cs else None.
Proof.
  induction t as [|c t IH]; intros s cs; [reflexivity|].
  cbn [Lit m]. destruct s as [|a s]; [reflexivity|].
  simpl. rewrite (N.eqb_sym c a). destruct (a =? c); [apply IH | reflexivity].
Qed.

Lemma m_seq_lit t r k s cs :
  m (Seq (Lit t) r) s cs k
  = if prefixb t s then m r (skipn (List.length t) s) cs k else None.
Proof. cbn [m]. apply m_lit. Qed.

Lemma prefixb_app t s : prefixb t (t ++ s) = true.
Proof. induction t as [|c t IH]; [reflexivity|]. simpl. rewrite N.eqb_refl. exact IH. Qed.

Lemma prefixb_true t s : prefixb t s = true -> s = t ++ skipn (List.length t) s.
Proof.
  revert s. induction t as [|c t IH]; intros s H; [reflexivity|].
  destruct s as [|a s]; [discriminate|]. simpl in H.
  apply andb_true_iff in H. destruct H as [Ha Ht]. apply N.eqb_eq in Ha. subst a.
  simpl. f_equal. apply IH. exact Ht.
Qed.

Lemma skipn_app_exact (t s : jsstring) : skipn (List.length t) (t ++ s) = s.
Proof. induction t; [reflexivity | assumption]. Qed.

Lemma firstn_app_exact (t s : jsstring) : firstn (List.length t) (t ++ s) = t.
Proof. induction t as [|a t IH]; [reflexivity|]. simpl. rewrite IH. reflexivity. Qed.

Lemma firstn_matched (u w : jsstring) :
  firstn (List.length (u ++ w) - List.length w) (u ++ w) = u.
Proof.
  rewrite length_app. replace (List.length u + List.length w - List.length w)%nat
    with (List.length u) by lia. apply firstn_app_exact.
Qed.

Lemma matched_eq (s u w : jsstring) :
  s = u ++ w -> firstn (List.length s - List.length w) s = u.
Proof. intros ->. apply firstn_matched. Qed.

(** ** The scan *)

Lemma scan_before r f : forall s n b b',
  (forall b1 b2 h, f b1 h = f b2 h) ->
  flat_map (render f) (scan r n b s) = flat_map (render f) (scan r n b' s).
Proof.
  intros s n b b' Hf. revert n b b'.
  induction s as [|c s IH]; intros n b b'.
  - simpl. destruct n; [|reflexivity]. destruct (exec r []); [|reflexivity].
    simpl. rewrite (Hf b b'). reflexivity.
  - simpl. destruct n as [|n]; [|apply IH].
    destruct (exec r (c :: s)) as [h|].
    + destruct (List.length (matched h)); simpl;
        rewrite (Hf b b'), (IH _ _ (b' ++ [c])); reflexivity.
    + simpl. rewrite (IH _ _ (b' ++ [c])). reflexivity.
Qed.

Lemma scan_skip r : forall u n b s,
  List.length u = n -> scan r n b (u ++ s) = scan r 0 (b ++ u) s
  \/ (u = [] /\ n = 0%nat).
Proof.
  induction u as [|c u IH]; intros n b s Hn.
  - right. simpl in Hn. auto.
  - left. simpl in Hn. subst n. simpl.
    destruct (IH (List.length u) (b ++ [c]) s eq_refl) as [H|[-> _]].
    + rewrite H, <- app_assoc. reflexivity.
    + reflexivity.
Qed.

Section Scan.

Variables (r : regex) (f : jsstring -> hit -> jsstring).
Hypothesis f_before : forall b1 b2 h, f b1 h = f b2 h.

Lemma replaced_nil : exec r [] = None -> replaced r f [] = [].
Proof. unfold replaced, segments. simpl. intros ->. reflexivity. Qed.

Lemma replaced_miss c s :
  exec r (c :: s) = None -> replaced r f (c :: s) = c :: replaced r f s.
Proof.
  unfold replaced, segments. simpl. intros ->. simpl. f_equal.
  apply scan_before. exact f_before.
Qed.

Lemma replaced_hit s h u w :
  exec r s = Some h -> matched h = u -> u <> [] -> s = u ++ w ->
  replaced r f s = f [] h ++ replaced r f w.
Proof.
  intros He Hm Hu Hs. unfold replaced, segments.
  destruct u as [|c u]; [congruence|]. subst s. simpl in *. rewrite He, Hm. simpl.
  f_equal. destruct (scan_skip r u (List.length u) [c] w eq_refl) as [H|[-> _]].
  - rewrite H. apply scan_before. exact f_before.
  - simpl. apply scan_before. exact f_before.
Qed.

(** A stretch of the input at no position of which the regex matches is
    copied. *)
Lemma replaced_copy u : forall w,
  (forall i, (i < List.length u)%nat -> exec r (skipn i u ++ w) = None) ->
  replaced r f (u ++ w) = u ++ replaced r f w.
Proof.
  induction u as [|c u IH]; intros w H; [reflexivity|].
  simpl. rewrite replaced_miss.
  - f_equal. apply IH. intros i Hi. apply (H (S i)). simpl. lia.
  - apply (H 0%nat). simpl. lia.
Qed.

End Scan.

(** ** Greedy runs with backtracking *)

Section GreedyRun.

Variables (p : char -> bool) (k : cont) (cs : caps).

Lemma greedy_run_first u r x :
  forallb p u = true -> k r cs = Some x ->
  match r with a :: _ => p a = false | [] => True end ->
  greedy_run p k (u ++ r) cs = Some x.
Proof.
  intros Hu Hk Hr. induction u as [|a u IH]; simpl.
  - destruct r as [|a r]; [exact Hk|]. simpl. rewrite Hr. exact Hk.
  - simpl in Hu. apply andb_true_iff in Hu. destruct Hu as [Ha Hu].
    rewrite Ha, (IH Hu). reflexivity.
Qed.

Lemma greedy_run_none u r :
  forallb p u = true ->
  match r with a :: _ => p a = false | [] => True end ->
  (forall i, (i <= List.length u)%nat -> k (skipn i u ++ r) cs = None) ->
  greedy_run p k (u ++ r) cs = None.
Proof.
  intros Hu Hr Hk. induction u as [|a u IH]; simpl.
  - specialize (Hk 0%nat (Nat.le_refl _)). simpl in Hk.
    destruct r as [|a r]; [exact Hk|]. simpl. rewrite Hr. exact Hk.
  - simpl in Hu. apply andb_true_iff in Hu. destruct Hu as [Ha Hu].
    rewrite Ha, (IH Hu).
    + simpl. apply (Hk 0%nat). lia.
    + intros i Hi. apply (Hk (S i)). simpl. lia.
Qed.

Lemma greedy_run_second u x r y :
  forallb p (u ++ [x]) = true ->
  match r with a :: _ => p a = false | [] => True end ->
  k r cs = None -> k (x :: r) cs = Some y ->
  greedy_run p k ((u ++ [x]) ++ r) cs = Some y.
Proof.
  intros Hu Hr H0 H1. induction u as [|a u IH]; simpl.
  - simpl in Hu. apply andb_true_iff in Hu. destruct Hu as [Hx _]. rewrite Hx.
    replace (greedy_run p k r cs) with (@None result).
    + simpl. exact H1.
    + symmetry. destruct r as [|a r]; [exact H0|]. simpl. rewrite Hr. exact H0.
  - simpl in Hu. apply andb_true_iff in Hu. destruct Hu as [Ha Hu].
    rewrite Ha, (IH Hu). reflexivity.
Qed.

Lemma greedy_run_last u x r :
  (forall a y w, p y = true -> k (a :: y :: w) cs = None) ->
  forallb p (u ++ [x]) = true ->
  match r with a :: _ => p a = false | [] => True end ->
  greedy_run p k ((u ++ [x]) ++ r) cs = orelse (k r cs) (k (x :: r) cs).
Proof.
  intros Hk Hu Hr.
  assert (H0 : greedy_run p k r cs = k r cs).
  { destruct r as [|a r]; [reflexivity|]. simpl. rewrite Hr. reflexivity. }
  induction u as [|a u IH]; simpl.
  - simpl in Hu. apply andb_true_iff in Hu. destruct Hu as [Hx _].
    rewrite Hx, H0. reflexivity.
  - simpl in Hu. apply andb_true_iff in Hu. destruct Hu as [Ha Hu].
    rewrite Ha, (IH Hu).
    assert (Hn : k (a :: (u ++ [x]) ++ r) cs = None).
    { destruct u as [|y u]; simpl in *.
      - apply Hk. apply andb_true_iff in Hu. tauto.
      - apply Hk. apply andb_true_iff in Hu. tauto. }
    rewrite Hn. destruct (orelse (k r cs) (k (x :: r) cs)); reflexivity.
Qed.

End GreedyRun.

(** ** What [attr_re] matches *)

Lemma m_seq r1 r2 s cs k :
  m (Seq r1 r2) s cs k = m r1 s cs (fun s1 cs1 => m r2 s1 cs1 k).
Proof. reflexivity. Qed.

Lemma m_group i r s cs k :
  m (Group i r) s cs k
  = m r s cs (fun s1 cs1 => k s1 ((i, firstn (List.length s - List.length s1) s) :: cs1)).
Proof. reflexivity. Qed.

Lemma m_chr c a s cs k :
  m (Chr c) (a :: s) cs k = if a =? c then k s cs else None.
Proof. reflexivity. Qed.

Lemma m_cls p a s cs k :
  m (Cls p) (a :: s) cs k = if p a then k s cs else None.
Proof. reflexivity. Qed.

Lemma is_not_false x a : is_not x a = false -> a = x.
Proof. unfold is_not. intro H. apply negb_false_iff in H. apply N.eqb_eq in H. exact H. Qed.

Lemma forallb_skipn {A} (p : A -> bool) i (l : list A) :
  forallb p l = true -> forallb p (skipn i l) = true.
Proof.
  revert l. induction i as [|i IH]; intros l H; [exact H|].
  destruct l as [|a l]; [reflexivity|]. simpl in *.
  apply andb_true_iff in H. apply IH. tauto.
Qed.

Lemma attr_body_ok s1 :
  m attr_rest s1 [] K0
  = match attr_body s1 with
    | Some (c, w) => Some (w, [(1%nat, c)])
    | None => None
    end.
Proof.
  unfold attr_rest. rewrite m_seq, m_group, m_seq, m_greedy_cls.
  set (k := fun (s0 : jsstring) (cs1 : caps) => m (Cls (is_not SLASH)) s0 cs1 _).
  assert (k2 : forall x y w cs, is_not GT y = true -> k (x :: y :: w) cs = None).
  { intros x y w cs Hy. unfold k. cbn [m]. destruct (is_not SLASH x); [|reflexivity].
    unfold is_not in Hy. apply negb_true_iff in Hy. rewrite Hy. reflexivity. }
  assert (k1 : forall x cs, k [x] cs = None).
  { intros x cs. unfold k. cbn [m]. destruct (is_not SLASH x); reflexivity. }
  assert (k0 : forall cs, k [] cs = None) by reflexivity.
  unfold attr_body.
  pose proof (span_app (is_not GT) s1) as Happ.
  pose proof (span_all (is_not GT) s1) as Hall.
  pose proof (span_stops (is_not GT) s1) as Hstop.
  destruct (span (is_not GT) s1) as [b r2]. simpl in Happ, Hall, Hstop.
  subst s1.
  destruct r2 as [|g r3].
  - apply greedy_run_none; [exact Hall | exact I |].
    intros i _. rewrite app_nil_r.
    pose proof (forallb_skipn _ i _ Hall) as Hs.
    destruct (skipn i (b ++ [])) as [|x [|y w]] eqn:E; rewrite app_nil_r in E;
      rewrite E in *; [apply k0 | apply k1 | apply k2].
    simpl in Hs. apply andb_true_iff in Hs. destruct Hs as [_ Hs].
    apply andb_true_iff in Hs. tauto.
  - apply is_not_false in Hstop. subst g.
    assert (Hcap : forall u w, firstn (List.length (u ++ w) - List.length w) (u ++ w) = u)
      by apply firstn_matched.
    destruct r3 as [|g r4].
    + (* the tag closes at the end of the input *)
      assert (Hr : k [GT] [] = None) by apply k1.
      unfold attr_last. destruct (rev b) as [|x l] eqn:Eb.
      * apply (f_equal (@rev char)) in Eb. rewrite rev_involutive in Eb. subst b.
        simpl. exact Hr.
      * apply (f_equal (@rev char)) in Eb. rewrite rev_involutive in Eb. simpl in Eb.
        subst b. rewrite (greedy_run_last _ _ _ _ _ _ (fun a y w => k2 a y w []) Hall)
          by reflexivity.
        rewrite Hr. cbn [orelse]. unfold k. cbn [m].
        unfold is_not at 1. destruct (x =? SLASH); [reflexivity|]. cbn [negb].
        rewrite N.eqb_refl. unfold K0.
        rewrite (Hcap (rev l ++ [x]) [GT]). reflexivity.
    + destruct (g =? GT) eqn:Eg.
      * apply N.eqb_eq in Eg. subst g.
        apply greedy_run_first; [exact Hall | | reflexivity].
        unfold k. cbn [m]. change (is_not SLASH GT) with true. cbn iota.
        rewrite N.eqb_refl. unfold K0.
        replace (b ++ GT :: GT :: r4) with ((b ++ [GT]) ++ GT :: r4)
          by (rewrite <- app_assoc; reflexivity).
        rewrite (Hcap (b ++ [GT]) (GT :: r4)). reflexivity.
      * assert (Hr : k (GT :: g :: r4) [] = None).
        { unfold k. cbn [m]. change (is_not SLASH GT) with true. cbn iota.
          rewrite Eg. reflexivity. }
        unfold attr_last. destruct (rev b) as [|x l] eqn:Eb.
        -- apply (f_equal (@rev char)) in Eb. rewrite rev_involutive in Eb. subst b.
           simpl. exact Hr.
        -- apply (f_equal (@rev char)) in Eb. rewrite rev_involutive in Eb.
           simpl in Eb. subst b.
           rewrite (greedy_run_last _ _ _ _ _ _ (fun a y w => k2 a y w []) Hall)
             by reflexivity.
           rewrite Hr. cbn [orelse]. unfold k. cbn [m].
           unfold is_not at 1. destruct (x =? SLASH); [reflexivity|]. cbn [negb].
           rewrite N.eqb_refl. unfold K0.
           rewrite (Hcap (rev l ++ [x]) (GT :: g :: r4)). reflexivity.
Qed.

Lemma name_char_cases a :
  is_name_char a = true ->
  (65 <= a <= 90 \/ 97 <= a <= 122 \/ 48 <= a <= 57 \/ a = 95 \/ a = 58 \/ a = 45)%N.
Proof.
  unfold is_name_char, is_word, in_range. intro H.
  repeat (apply orb_true_iff in H; destruct H as [H|H]);
    try (apply andb_true_iff in H; destruct H as [H1 H2];
         apply N.leb_le in H1; apply N.leb_le in H2);
    try apply N.eqb_eq in H; lia.
Qed.

Lemma name_char_plain a : is_name_char a = true -> negb (is_syntax_char a) = true.
Proof.
  intro H. apply name_char_cases in H. unfold is_syntax_char. cbn [existsb].
  repeat match goal with
         | |- context [a =? ?k] =>
             replace (a =? k) with false by (symmetry; apply N.eqb_neq; lia)
         end.
  reflexivity.
Qed.

Lemma name_not_gt a : is_name_char a = true -> is_not GT a = true.
Proof.
  intro H. apply name_char_cases in H. unfold is_not, GT.
  apply negb_true_iff. apply N.eqb_neq. lia.
Qed.

Lemma name_not_slash a : is_name_char a = true -> (a =? SLASH) = false.
Proof. intro H. apply name_char_cases in H. apply N.eqb_neq. unfold SLASH. lia. Qed.

Lemma names_not_gt v : forallb is_name_char v = true -> forallb (is_not GT) v = true.
Proof.
  induction v as [|a v IH]; [reflexivity|]. simpl. intro H.
  apply andb_true_iff in H. destruct H as [Ha Hv].
  rewrite (name_not_gt a Ha), (IH Hv). reflexivity.
Qed.

Lemma span_app_all p v r :
  forallb p v = true ->
  span p (v ++ r) = (v ++ fst (span p r), snd (span p r)).
Proof.
  intro H. induction v as [|a v IH]; simpl.
  - destruct (span p r); reflexivity.
  - simpl in H. apply andb_true_iff in H. destruct H as [Ha Hv].
    rewrite Ha, (IH Hv). reflexivity.
Qed.

Lemma attr_last_shape b r3 c w : attr_last b r3 = Some (c, w) -> c = b /\ w = r3 /\ b <> [].
Proof.
  unfold attr_last. destruct (rev b) as [|x l] eqn:E; [discriminate|].
  destruct (x =? SLASH); [discriminate|]. intros [= <- <-].
  repeat split. intro; subst; discriminate.
Qed.

Lemma attr_body_shape r c w :
  attr_body r = Some (c, w) -> r = c ++ GT :: w /\ c <> [].
Proof.
  unfold attr_body.
  pose proof (span_app (is_not GT) r) as Happ.
  pose proof (span_stops (is_not GT) r) as Hstop.
  destruct (span (is_not GT) r) as [b r2]. simpl in *.
  destruct r2 as [|g r3]; [discriminate|].
  apply is_not_false in Hstop. subst g. subst r.
  destruct r3 as [|g r4].
  - intro H. apply attr_last_shape in H. destruct H as (-> & -> & Hb). tauto.
  - destruct (g =? GT) eqn:Eg.
    + apply N.eqb_eq in Eg. subst g. intros [= <- <-].
      rewrite <- app_assoc. split; [reflexivity|]. destruct b; discriminate.
    + intro H. apply attr_last_shape in H. destruct H as (-> & -> & Hb). tauto.
Qed.

Lemma attr_last_app v b r3 :
  b <> [] -> attr_last b r3 = None -> attr_last (v ++ b) r3 = None.
Proof.
  unfold attr_last. intros Hb. rewrite rev_app_distr.
  destruct (rev b) as [|x l] eqn:E.
  - apply (f_equal (@rev char)) in E. rewrite rev_involutive in E. contradiction.
  - simpl. destruct (x =? SLASH); [reflexivity | discriminate].
Qed.

(** Giving name characters back to the region does not help when the
    region, from the end of the name, is not empty. *)
Lemma attr_body_prefix v r :
  forallb is_name_char v = true ->
  match r with g :: _ => g <> GT | [] => True end ->
  attr_body r = None -> attr_body (v ++ r) = None.
Proof.
  intros Hv Hr. unfold attr_body.
  rewrite (span_app_all _ v r (names_not_gt v Hv)).
  pose proof (span_stops (is_not GT) r) as Hstop.
  destruct (span (is_not GT) r) as [b r2] eqn:Es. simpl in *.
  destruct r2 as [|g r3]; [reflexivity|].
  apply is_not_false in Hstop. subst g.
  assert (Hb : b <> []).
  { intro. subst b. destruct r as [|g r]; [discriminate|]. simpl in Es.
    destruct (is_not GT g) eqn:Eg.
    - destruct (span (is_not GT) r); discriminate.
    - apply is_not_false in Eg. contradiction. }
  destruct r3 as [|g r4].
  - apply attr_last_app; exact Hb.
  - destruct (g =? GT); [discriminate|]. apply attr_last_app; exact Hb.
Qed.

Lemma attr_body_giveback x r3 :
  is_name_char x = true -> attr_body (GT :: r3) = None ->
  attr_body (x :: GT :: r3) = Some ([x], r3).
Proof.
  intros Hx. unfold attr_body. simpl. rewrite (name_not_gt x Hx).
  change (is_not GT GT) with false. cbn iota.
  unfold attr_last. simpl. rewrite (name_not_slash x Hx).
  destruct r3 as [|g r4]; [reflexivity|]. destruct (g =? GT); [discriminate | reflexivity].
Qed.

Lemma exec_attr_re s :
  exec attr_re s = option_map attr_hit (attr_spec s).
Proof.
  unfold exec, attr_re. destruct s as [|a t]; [reflexivity|].
  rewrite m_seq, m_chr. cbn [attr_spec]. destruct (a =? LT) eqn:Ea; [|reflexivity].
  apply N.eqb_eq in Ea. subst a.
  unfold Plus. fold attr_rest. rewrite !m_seq.
  destruct t as [|c t']; [reflexivity|]. rewrite m_cls. cbn [span].
  destruct (is_name_char c) eqn:Ec; [|reflexivity].
  rewrite m_greedy_cls.
  pose proof (span_app is_name_char t') as Happ.
  pose proof (span_all is_name_char t') as Hall.
  pose proof (span_stops is_name_char t') as Hstop.
  destruct (span is_name_char t') as [n' r]. simpl in Happ, Hall, Hstop. subst t'.
  set (k := fun (s1 : jsstring) (cs1 : caps) => m attr_rest s1 cs1 K0).
  assert (Hk : forall s1, k s1 [] = match attr_body s1 with
                                    | Some (c, w) => Some (w, [(1%nat, c)])
                                    | None => None
                                    end) by (intro; apply attr_body_ok).
  destruct (attr_body r) as [[cp w]|] eqn:Eb.
  - rewrite (greedy_run_first _ k [] n' r (w, [(1%nat, cp)]) Hall);
      [| rewrite Hk, Eb; reflexivity | exact Hstop].
    apply attr_body_shape in Eb. destruct Eb as [-> _].
    cbn [option_map attr_hit]. f_equal. f_equal.
    apply matched_eq. simpl. rewrite <- !app_assoc. reflexivity.
  - assert (Hnogt : forall g r3, r = g :: r3 -> g <> GT ->
                                 greedy_run is_name_char k (n' ++ r) [] = None).
    { intros g r3 -> Hg. apply greedy_run_none; [exact Hall | exact Hstop |].
      intros i _. rewrite Hk, attr_body_prefix; [reflexivity | | exact Hg | exact Eb].
      apply forallb_skipn. exact Hall. }
    destruct (rev n') as [|x l] eqn:En.
    + apply (f_equal (@rev char)) in En. rewrite rev_involutive in En. subst n'.
      simpl. replace (greedy_run is_name_char k r []) with (k r []).
      * rewrite Hk, Eb. reflexivity.
      * destruct r as [|g r]; [reflexivity|]. simpl. rewrite Hstop. reflexivity.
    + apply (f_equal (@rev char)) in En. rewrite rev_involutive in En. simpl in En.
      subst n'. cbn [rev]. rewrite rev_app_distr, rev_involutive. cbn [rev app].
      destruct r as [|g r3].
      * rewrite greedy_run_none; [destruct (l ++ [c]); reflexivity | exact Hall | exact I |].
        intros i _. rewrite Hk, attr_body_prefix; [reflexivity | | exact I | exact Eb].
        apply forallb_skipn. exact Hall.
      * destruct (g =? GT) eqn:Eg.
        -- apply N.eqb_eq in Eg. subst g.
           assert (Hx : is_name_char x = true).
           { rewrite forallb_app in Hall. apply andb_true_iff in Hall.
             destruct Hall as [_ Hx]. simpl in Hx. apply andb_true_iff in Hx. tauto. }
           rewrite (greedy_run_second _ k [] (rev l) x (GT :: r3) (r3, [(1%nat, [x])]) Hall);
             [| reflexivity | rewrite Hk, Eb; reflexivity
              | rewrite Hk, (attr_body_giveback x r3 Hx Eb); reflexivity].
           destruct (l ++ [c]) as [|y l'] eqn:El; [destruct l; discriminate|].
           rewrite <- El. cbn [option_map attr_hit tl]. f_equal. f_equal.
           rewrite rev_app_distr. cbn [rev app].
           apply matched_eq. simpl. rewrite <- !app_assoc. reflexivity.
        -- rewrite (Hnogt g r3 eq_refl) by (apply N.eqb_neq; exact Eg).
           destruct (l ++ [c]); reflexivity.
Qed.

(** * Properties of the string transforms *)

Unset Implicit Arguments.

(** ** Replacing the first occurrence of a string *)

Lemma prefixb_split pat : forall u z,
  prefixb pat (u ++ z) = true ->
  (exists u', u = pat ++ u') \/ (exists pat', pat = u ++ pat' /\ prefixb pat' z = true).
Proof.
  induction pat as [|c pat IH]; intros u z H.
  - left. exists u. reflexivity.
  - destruct u as [|a u].
    + right. exists (c :: pat). split; [reflexivity | exact H].
    + simpl in H. apply andb_true_iff in H. destruct H as [Hc H].
      apply N.eqb_eq in Hc. subst a.
      destruct (IH u z H) as [[u' ->]|[pat' [-> Hp]]].
      * left. exists u'. reflexivity.
      * right. exists pat'. split; [reflexivity | exact Hp].
Qed.

(** A string that occurs again before its own place, shifted over text
    without a marked character, has no marked character either. *)
Lemma shifted_occurrence (P : char -> bool) (u post : jsstring) :
  u <> [] -> forallb (fun c => negb (P c)) u = true ->
  forall n pat, (List.length pat <= n)%nat ->
    prefixb pat (u ++ pat ++ post) = true ->
    forallb (fun c => negb (P c)) pat = true.
Proof.
  intros Hu Hnp. induction n as [|n IH]; intros pat Hn H.
  - destruct pat; [reflexivity | simpl in Hn; lia].
  - destruct (prefixb_split pat u (pat ++ post) H) as [[u' ->]|[pat' [-> Hp]]].
    + rewrite forallb_app in Hnp. apply andb_true_iff in Hnp. tauto.
    + rewrite forallb_app, Hnp. simpl. apply IH.
      * rewrite length_app in Hn. destruct u; [contradiction | simpl in Hn; lia].
      * rewrite <- app_assoc in Hp. exact Hp.
Qed.

Lemma replace_first_here pat f post :
  replace_first pat f (pat ++ post) = f pat ++ post.
Proof.
  destruct pat as [|c pat].
  - destruct post; reflexivity.
  - cbn [replace_first app]. change (c :: pat ++ post) with ((c :: pat) ++ post).
    rewrite prefixb_app, skipn_app_exact. reflexivity.
Qed.

(** When the pattern holds a marked character and the text before it does
    not, the first occurrence of the pattern is the one after that text. *)
Lemma replace_first_at (P : char -> bool) f pre pat post :
  forallb (fun c => negb (P c)) pre = true -> existsb P pat = true ->
  replace_first pat f (pre ++ pat ++ post) = pre ++ f pat ++ post.
Proof.
  intros Hpre Hpat. induction pre as [|a pre IH]; [exact (replace_first_here pat f post)|].
  simpl in Hpre. apply andb_true_iff in Hpre. destruct Hpre as [Ha Hpre].
  cbn [app replace_first].
  destruct (prefixb pat (a :: pre ++ pat ++ post)) eqn:E.
  - exfalso.
    assert (Hno : forallb (fun c => negb (P c)) pat = true).
    { apply (shifted_occurrence P (a :: pre) post) with (n := List.length pat).
      - discriminate.
      - simpl. rewrite Ha, Hpre. reflexivity.
      - lia.
      - exact E. }
    clear -Hpat Hno. induction pat as [|c pat IH]; [discriminate|].
    simpl in *. apply andb_true_iff in Hno. destruct Hno as [Hc Hno].
    apply negb_true_iff in Hc. rewrite Hc in Hpat. simpl in Hpat. auto.
  - rewrite (IH Hpre). reflexivity.
Qed.

(** A callback that leaves the pattern as it is leaves the string as it
    is, wherever the first occurrence lies. *)
Lemma replace_first_id pat f : f pat = pat -> forall s, replace_first pat f s = s.
Proof.
  intros Hf. induction s as [|c s IH].
  - simpl. destruct (prefixb pat []) eqn:E; [|reflexivity].
    destruct pat; [rewrite Hf; reflexivity | discriminate].
  - cbn [replace_first]. destruct (prefixb pat (c :: s)) eqn:E.
    + rewrite Hf. symmetry. apply prefixb_true. exact E.
    + rewrite IH. reflexivity.
Qed.

(** ** Replacing every character of a class *)

Lemma expand_no_dollar n b h t : no_dollar t = true -> expand n b h t = t.
Proof.
  induction t as [|c t IH]; [reflexivity|]. cbn [no_dollar forallb]. intro H.
  apply andb_true_iff in H. destruct H as [Hc Ht]. apply negb_true_iff in Hc.
  cbn [expand]. rewrite Hc. rewrite (IH Ht). reflexivity.
Qed.

Lemma replace_tpl_const r n t s :
  no_dollar t = true -> replace_tpl r n t s = replaced r (fun _ _ => t) s.
Proof.
  intro H. unfold replace_tpl, replaced. apply flat_map_ext.
  intros [c|b h]; [reflexivity|]. apply expand_no_dollar. exact H.
Qed.

Lemma exec_cls p a s :
  exec (Cls p) (a :: s) = if p a then Some (Hit [a] [] s) else None.
Proof.
  unfold exec. rewrite m_cls. destruct (p a); [|reflexivity]. unfold K0.
  f_equal. f_equal. apply matched_eq. reflexivity.
Qed.

Lemma exec_chr c a s :
  exec (Chr c) (a :: s) = if a =? c then Some (Hit [a] [] s) else None.
Proof.
  unfold exec. rewrite m_chr. destruct (a =? c); [|reflexivity]. unfold K0.
  f_equal. f_equal. apply matched_eq. reflexivity.
Qed.

Lemma replace_cls p t x :
  no_dollar t = true ->
  replace_tpl (Cls p) 0 t x = flat_map (fun a => if p a then t else [a]) x.
Proof.
  intro H. rewrite (replace_tpl_const _ _ _ _ H).
  induction x as [|a x IH]; [reflexivity|]. cbn [flat_map].
  destruct (p a) eqn:E.
  - rewrite (replaced_hit (Cls p) (fun _ _ => t) (fun _ _ _ => eq_refl) (a :: x) (Hit [a] [] x) [a] x);
      [rewrite IH; reflexivity | rewrite exec_cls, E; reflexivity | reflexivity
       | discriminate | reflexivity].
  - rewrite replaced_miss; [rewrite IH; reflexivity | intros; reflexivity |].
    rewrite exec_cls, E. reflexivity.
Qed.

Lemma replace_chr c t x :
  no_dollar t = true ->
  replace_tpl (Chr c) 0 t x = flat_map (fun a => if a =? c then t else [a]) x.
Proof.
  intro H. rewrite (replace_tpl_const _ _ _ _ H).
  induction x as [|a x IH]; [reflexivity|]. cbn [flat_map].
  destruct (a =? c) eqn:E.
  - rewrite (replaced_hit (Chr c) (fun _ _ => t) (fun _ _ _ => eq_refl) (a :: x) (Hit [a] [] x) [a] x);
      [rewrite IH; reflexivity | rewrite exec_chr, E; reflexivity | reflexivity
       | discriminate | reflexivity].
  - rewrite replaced_miss; [rewrite IH; reflexivity | intros; reflexivity |].
    rewrite exec_chr, E. reflexivity.
Qed.

(** ** Reading sentinel tokens back *)

Lemma exec_lit t s :
  exec (Lit t) s
  = if prefixb t s then Some (Hit t [] (skipn (List.length t) s)) else None.
Proof.
  unfold exec. rewrite m_lit. destruct (prefixb t s) eqn:E; [|reflexivity].
  unfold K0. f_equal. f_equal. apply matched_eq. apply prefixb_true. exact E.
Qed.

Lemma prefixb_length t s : prefixb t s = true -> (List.length t <= List.length s)%nat.
Proof.
  intro H. apply prefixb_true in H. apply (f_equal (@List.length char)) in H.
  rewrite length_app in H. lia.
Qed.

Lemma prefixb_same_length t s :
  prefixb t s = true -> List.length t = List.length s -> t = s.
Proof.
  intros H Hl. apply prefixb_true in H. rewrite H in Hl. rewrite length_app in Hl.
  destruct (skipn (List.length t) s) as [|x l]; [|simpl in Hl; lia].
  rewrite app_nil_r in H. congruence.
Qed.

Lemma avoids_head X v : avoids X v = true -> prefixb X v = false.
Proof.
  destruct v; simpl; intro H; apply andb_true_iff in H; destruct H as [H _];
    apply negb_true_iff in H; exact H.
Qed.

Lemma avoids_tail X a v : avoids X (a :: v) = true -> avoids X v = true.
Proof. cbn [avoids]. intro H. apply andb_true_iff in H. tauto. Qed.

Section Codec.

Variables (d : char) (X : jsstring) (cd : code).
Hypothesis ok : code_ok d X cd.

Let T (c : jsstring) : jsstring := tok d X c.

Lemma tok_length c : In c (names cd) -> List.length (T c) = (List.length X + 4)%nat.
Proof.
  intro H. destruct ok as (_ & Hl & _). unfold T, tok. simpl.
  rewrite !length_app, (Hl c H). simpl. lia.
Qed.

Lemma tok_inj a b : T a = T b -> a = b.
Proof.
  unfold T, tok. intros [= H]. apply app_inv_head in H.
  apply app_inv_tail in H. exact H.
Qed.

Lemma nth_name i : (i < List.length (names cd))%nat -> In (nth i (names cd) []) (names cd).
Proof. intro H. apply nth_In. exact H. Qed.

Lemma nth_dec i : (i < List.length (names cd))%nat -> In (nth i (decs cd) 0) (decs cd).
Proof.
  intro H. destruct ok as (_ & _ & Hd & _). apply nth_In. rewrite Hd. exact H.
Qed.

Lemma border a b i :
  In a (names cd) -> In b (names cd) -> (1 <= i <= List.length X + 2)%nat ->
  prefixb (skipn i (T b)) (T a) = false.
Proof.
  intros Ha Hb Hi. destruct ok as (_ & _ & _ & _ & _ & Hbf).
  unfold border_free in Hbf. rewrite forallb_forall in Hbf.
  specialize (Hbf a Ha). rewrite forallb_forall in Hbf.
  specialize (Hbf b Hb). rewrite forallb_forall in Hbf.
  specialize (Hbf i). apply negb_true_iff. apply Hbf.
  apply in_seq. lia.
Qed.

(** In the text after [j] passes, the sentinel body followed by a class
    name and a delimiter can only be spelled by characters of the input
    itself. *)
Lemma body_from_input j a X1 : forall v X2,
  X = X1 ++ X2 -> In a (names cd) ->
  prefixb (X2 ++ a ++ [d]) (flat_map (stage d X cd j) v) = true ->
  prefixb X2 v = true.
Proof.
  destruct ok as (_ & Hlen & _ & Hcls & Hdec & _).
  intros v. revert X1. induction v as [|a0 v IH]; intros X1 X2 HX Ha H.
  - simpl in H. destruct X2 as [|x X2]; [reflexivity|]. discriminate.
  - destruct X2 as [|x X2]; [reflexivity|].
    cbn [flat_map] in H. unfold stage at 1 in H.
    destruct (class cd a0) as [i|] eqn:Ec.
    + pose proof (Hcls _ _ Ec) as Hi.
      destruct (i <? j)%nat.
      * (* a decoded character is not one of the sentinel *)
        exfalso. cbn [app prefixb] in H. apply andb_true_iff in H.
        destruct H as [Hx _]. apply N.eqb_eq in Hx.
        destruct (Hdec _ (nth_dec i Hi)) as [Hnot _]. apply Hnot.
        rewrite HX, <- Hx. apply in_or_app. right. left. reflexivity.
      * (* a token cannot spell the rest of another token *)
        exfalso. fold (T (nth i (names cd) [])) in H.
        set (b := nth i (names cd) []) in *.
        assert (Hb : In b (names cd)) by (apply nth_name; exact Hi).
        set (pat := (x :: X2) ++ a ++ [d]) in *.
        assert (Hp : pat = skipn (S (List.length X1)) (T a)).
        { unfold T, tok, pat. cbn [skipn]. rewrite HX, <- app_assoc.
          rewrite skipn_app_exact. reflexivity. }
        assert (Hpl : (List.length pat < List.length (T b))%nat).
        { rewrite (tok_length b Hb). unfold pat. rewrite !length_app, (Hlen a Ha).
          rewrite HX, length_app. simpl. lia. }
        destruct (prefixb_split pat (T b) _ H) as [[u' Hu]|[pat' [Hu _]]].
        -- assert (Hpre : prefixb pat (T b) = true) by (rewrite Hu; apply prefixb_app).
           rewrite Hp in Hpre.
           rewrite (border b a (S (List.length X1)) Hb Ha) in Hpre; [discriminate|].
           rewrite HX, length_app. simpl. lia.
        -- rewrite Hu, length_app in Hpl. lia.
    + (* a character of the input *)
      cbn [app prefixb] in H. apply andb_true_iff in H. destruct H as [Hx H].
      cbn [prefixb]. rewrite Hx. cbn [andb].
      apply (IH (X1 ++ [x]) X2); [rewrite <- app_assoc; exact HX | exact Ha | exact H].
Qed.

(** After a delimiter, a token does not start. *)
Lemma no_token_after_delimiter j a v rest :
  In a (names cd) -> avoids X v = true -> rest = flat_map (stage d X cd j) v ->
  forall x, prefixb (T a) (x :: rest) = false.
Proof.
  intros Ha Hv -> x. destruct (prefixb (T a) (x :: flat_map (stage d X cd j) v)) eqn:E;
    [exfalso | reflexivity].
  unfold T, tok in E. cbn [prefixb] in E. apply andb_true_iff in E.
  destruct E as [_ E].
  pose proof (body_from_input j a [] v X eq_refl Ha E) as Hp.
  rewrite (avoids_head _ _ Hv) in Hp. discriminate.
Qed.

Lemma skipn_tok_last b :
  In b (names cd) -> skipn (List.length X + 3) (T b) = [d].
Proof.
  intro Hb. destruct ok as (_ & Hlen & _). unfold T, tok.
  replace (List.length X + 3)%nat with (S (List.length X + 2)) by lia. cbn [skipn].
  replace (List.length X + 2)%nat with (List.length (X ++ b))
    by (rewrite length_app, (Hlen b Hb); lia).
  rewrite app_assoc. apply skipn_app_exact.
Qed.

(** A token of another class is copied by the pass of class [a]. *)
Lemma no_token_inside j a b v rest i :
  In a (names cd) -> In b (names cd) -> a <> b ->
  avoids X v = true -> rest = flat_map (stage d X cd j) v ->
  (i < List.length (T b))%nat ->
  prefixb (T a) (skipn i (T b) ++ rest) = false.
Proof.
  intros Ha Hb Hab Hv Hr Hi. rewrite (tok_length b Hb) in Hi.
  destruct (Nat.eq_dec i 0) as [->|Hi0].
  - cbn [skipn]. destruct (prefixb (T a) (T b ++ rest)) eqn:E; [exfalso | reflexivity].
    apply Hab. apply tok_inj.
    destruct (prefixb_split _ _ _ E) as [[u' Hu]|[pat' [Hu _]]].
    + apply (f_equal (@List.length char)) in Hu as Hl.
      rewrite length_app, (tok_length a Ha), (tok_length b Hb) in Hl.
      destruct u'; [|simpl in Hl; lia]. rewrite app_nil_r in Hu. congruence.
    + apply (f_equal (@List.length char)) in Hu as Hl.
      rewrite length_app, (tok_length a Ha), (tok_length b Hb) in Hl.
      destruct pat'; [|simpl in Hl; lia]. rewrite app_nil_r in Hu. congruence.
  - destruct (Nat.eq_dec i (List.length X + 3)) as [->|Hi3].
    + rewrite (skipn_tok_last b Hb). cbn [app].
      apply (no_token_after_delimiter j a v rest Ha Hv Hr).
    + destruct (prefixb (T a) (skipn i (T b) ++ rest)) eqn:E; [exfalso | reflexivity].
      assert (Hl : List.length (skipn i (T b)) = (List.length X + 4 - i)%nat)
        by (rewrite length_skipn, (tok_length b Hb); reflexivity).
      destruct (prefixb_split _ _ _ E) as [[u' Hu]|[pat' [Hu _]]].
      * apply (f_equal (@List.length char)) in Hu.
        rewrite Hl, length_app, (tok_length a Ha) in Hu. lia.
      * assert (Hp : prefixb (skipn i (T b)) (T a) = true)
          by (rewrite Hu; apply prefixb_app).
        rewrite (border a b i Ha Hb) in Hp; [discriminate | lia].
Qed.

(** One decoding pass takes the text of stage [j] to that of stage
    [S j]. *)
Lemma decode_pass j : (j < List.length (names cd))%nat -> forall v,
  avoids X v = true ->
  replace_tpl (Lit (T (nth j (names cd) []))) 0 [nth j (decs cd) 0]
    (flat_map (stage d X cd j) v)
  = flat_map (stage d X cd (S j)) v.
Proof.
  intros Hj. destruct ok as (Hnd & Hlen & Hdl & Hcls & Hdec & _).
  set (a := nth j (names cd) []). set (c := nth j (decs cd) 0).
  assert (Ha : In a (names cd)) by (apply nth_name; exact Hj).
  assert (Hc : no_dollar [c] = true).
  { simpl. destruct (Hdec c (nth_dec j Hj)) as [_ Hne].
    apply N.eqb_neq in Hne. rewrite Hne. reflexivity. }
  intros v Hv. rewrite (replace_tpl_const _ _ _ _ Hc).
  assert (Hnil : exec (Lit (T a)) [] = None) by reflexivity.
  induction v as [|a0 v IH]; [apply replaced_nil; exact Hnil|].
  pose proof (avoids_tail _ _ _ Hv) as Hv'. specialize (IH Hv').
  cbn [flat_map]. unfold stage at 1 3.
  destruct (class cd a0) as [i|] eqn:Ec.
  - pose proof (Hcls _ _ Ec) as Hi.
    destruct (Nat.lt_trichotomy i j) as [Hlt|[->|Hgt]].
    + (* decoded by an earlier pass *)
      replace (i <? j)%nat with true by (symmetry; apply Nat.ltb_lt; exact Hlt).
      replace (i <? S j)%nat with true by (symmetry; apply Nat.ltb_lt; lia).
      cbn [app]. rewrite replaced_miss; [rewrite IH; reflexivity | intros; reflexivity |].
      rewrite exec_lit.
      rewrite (no_token_after_delimiter j a v _ Ha Hv' eq_refl). reflexivity.
    + (* the token of this pass *)
      replace (j <? j)%nat with false by (symmetry; apply Nat.ltb_ge; lia).
      replace (j <? S j)%nat with true by (symmetry; apply Nat.ltb_lt; lia).
      fold a. fold (T a). fold c.
      rewrite (replaced_hit (Lit (T a)) (fun _ _ => [c]) (fun _ _ _ => eq_refl)
                 (T a ++ flat_map (stage d X cd j) v)
                 (Hit (T a) [] (flat_map (stage d X cd j) v))
                 (T a) (flat_map (stage d X cd j) v));
        [rewrite IH; reflexivity | | reflexivity | discriminate | reflexivity].
      rewrite exec_lit, prefixb_app, skipn_app_exact. reflexivity.
    + (* the token of a later pass *)
      replace (i <? j)%nat with false by (symmetry; apply Nat.ltb_ge; lia).
      replace (i <? S j)%nat with false by (symmetry; apply Nat.ltb_ge; lia).
      fold (T (nth i (names cd) [])). set (b := nth i (names cd) []).
      assert (Hb : In b (names cd)) by (apply nth_name; exact Hi).
      assert (Hab : a <> b).
      { unfold a, b. intro Heq.
        apply (proj1 (NoDup_nth (names cd) []) Hnd j i Hj Hi) in Heq. lia. }
      rewrite replaced_copy; [rewrite IH; reflexivity | intros; reflexivity |].
      intros k Hk. rewrite exec_lit.
      rewrite (no_token_inside j a b v _ k Ha Hb Hab Hv' eq_refl Hk). reflexivity.
  - cbn [app]. rewrite replaced_miss; [rewrite IH; reflexivity | intros; reflexivity |].
    rewrite exec_lit.
    rewrite (no_token_after_delimiter j a v _ Ha Hv' eq_refl). reflexivity.
Qed.

Lemma decode_from_stage n : forall j v,
  (j + n = List.length (names cd))%nat -> avoids X v = true ->
  decode_from d X cd j n (flat_map (stage d X cd j) v)
  = flat_map (stage d X cd (List.length (names cd))) v.
Proof.
  induction n as [|n IH]; intros j v Hn Hv.
  - simpl. replace j with (List.length (names cd)) by lia. reflexivity.
  - cbn [decode_from]. fold (T (nth j (names cd) [])).
    rewrite decode_pass by (exact Hv || lia). apply IH; [lia | exact Hv].
Qed.

Lemma stage_last v :
  forallb (faithful cd) v = true ->
  flat_map (stage d X cd (List.length (names cd))) v = v.
Proof.
  destruct ok as (_ & _ & _ & Hcls & _).
  induction v as [|a v IH]; [reflexivity|]. cbn [forallb flat_map]. intro H.
  apply andb_true_iff in H. destruct H as [Ha Hv]. rewrite (IH Hv).
  unfold stage, faithful in *. destruct (class cd a) as [i|] eqn:Ec; [|reflexivity].
  replace (i <? List.length (names cd))%nat with true
    by (symmetry; apply Nat.ltb_lt; apply (Hcls _ _ Ec)).
  apply N.eqb_eq in Ha. rewrite Ha. reflexivity.
Qed.

(** The decoding passes give back a string whose characters are all
    faithful and which avoids the sentinel body. *)
Lemma decode_encode v :
  avoids X v = true -> forallb (faithful cd) v = true ->
  decode_from d X cd 0 (List.length (names cd)) (flat_map (stage d X cd 0) v) = v.
Proof.
  intros Hv Hf. rewrite decode_from_stage by (exact Hv || reflexivity).
  apply stage_last. exact Hf.
Qed.

End Codec.

(** ** The scan of [attr_re] *)

Lemma hits_before r : forall s n b b', 
  flat_map (fun g => match g with Keep _ => [] | Found _ h => [h] end) (scan r n b s)
  = flat_map (fun g => match g with Keep _ => [] | Found _ h => [h] end) (scan r n b' s).
Proof.
  induction s as [|c s IH]; intros n b b'.
  - simpl. destruct n; [|reflexivity]. destruct (exec r []); reflexivity.
  - simpl. destruct n as [|n]; [|apply IH].
    destruct (exec r (c :: s)) as [h|].
    + destruct (List.length (matched h)); simpl; rewrite (IH _ _ (b' ++ [c])); reflexivity.
    + simpl. apply IH.
Qed.

Lemma hits_nil r : exec r [] = None -> hits r [] = [].
Proof. unfold hits, segments. simpl. intros ->. reflexivity. Qed.

Lemma hits_miss r c s : exec r (c :: s) = None -> hits r (c :: s) = hits r s.
Proof. unfold hits, segments. simpl. intros ->. simpl. apply hits_before. Qed.

Lemma hits_hit r s h u w :
  exec r s = Some h -> matched h = u -> u <> [] -> s = u ++ w ->
  hits r s = h :: hits r w.
Proof.
  intros He Hm Hu Hs. unfold hits, segments.
  destruct u as [|c u]; [congruence|]. subst s. simpl in *. rewrite He, Hm. simpl.
  f_equal. destruct (scan_skip r u (List.length u) [c] w eq_refl) as [H|[-> _]].
  - rewrite H. apply hits_before.
  - simpl. apply hits_before.
Qed.

Lemma attr_spec_shape s n cp w :
  attr_spec s = Some (n, cp, w) ->
  s = LT :: n ++ cp ++ GT :: w /\ forallb is_name_char n = true /\ n <> [] /\ cp <> [].
Proof.
  unfold attr_spec. destruct s as [|a t]; [discriminate|].
  destruct (a =? LT) eqn:Ea; [|discriminate]. apply N.eqb_eq in Ea. subst a.
  pose proof (span_app is_name_char t) as Happ.
  pose proof (span_all is_name_char t) as Hall.
  destruct (span is_name_char t) as [n0 r]. simpl in Happ, Hall. subst t.
  destruct n0 as [|c0 n1]; [discriminate|].
  destruct (attr_body r) as [[c1 w1]|] eqn:Eb.
  - intros [= <- <- <-]. apply attr_body_shape in Eb. destruct Eb as [-> Hc].
    repeat split; [exact Hall | discriminate | exact Hc].
  - destruct (rev (c0 :: n1)) as [|x [|y l]] eqn:Er; try discriminate.
    destruct r as [|g r3]; [discriminate|].
    destruct (g =? GT) eqn:Eg; [|discriminate]. apply N.eqb_eq in Eg. subst g.
    intros [= <- <- <-]. cbn [tl].
    apply (f_equal (@rev char)) in Er. rewrite rev_involutive in Er.
    change (rev (x :: y :: l)) with (rev (y :: l) ++ [x]) in Er.
    rewrite Er in *.
    split; [f_equal; symmetry; apply app_assoc|].
    split; [rewrite forallb_app in Hall; apply andb_true_iff in Hall; tauto|].
    split; [|discriminate].
    cbn [rev]. destruct (rev l); discriminate.
Qed.

Lemma exec_attr_nil : exec attr_re [] = None.
Proof. reflexivity. Qed.

Lemma tagmap_replaced g s :
  tagmap g s = replaced attr_re (fun _ h => replace_first (group 1 h) g (matched h)) s.
Proof. reflexivity. Qed.

Lemma tagmap_nil g : tagmap g [] = [].
Proof. reflexivity. Qed.

Lemma tagmap_miss g c s :
  attr_spec (c :: s) = None -> tagmap g (c :: s) = c :: tagmap g s.
Proof.
  intro H. rewrite !tagmap_replaced. apply replaced_miss; [intros; reflexivity|].
  rewrite exec_attr_re, H. reflexivity.
Qed.

Lemma tagmap_hit g s n cp w :
  attr_spec s = Some (n, cp, w) ->
  tagmap g s = replace_first cp g (LT :: n ++ cp ++ [GT]) ++ tagmap g w.
Proof.
  intro H. destruct (attr_spec_shape _ _ _ _ H) as (Hs & _).
  rewrite !tagmap_replaced.
  rewrite (replaced_hit attr_re
             (fun _ h => replace_first (group 1 h) g (matched h))
             (fun _ _ _ => eq_refl) s (attr_hit (n, cp, w))
             (LT :: n ++ cp ++ [GT]) w).
  - reflexivity.
  - rewrite exec_attr_re, H. reflexivity.
  - reflexivity.
  - discriminate.
  - rewrite Hs. simpl. rewrite <- !app_assoc. reflexivity.
Qed.

Lemma attr_regions_miss c s :
  attr_spec (c :: s) = None -> attr_regions (c :: s) = attr_regions s.
Proof.
  intro H. unfold attr_regions. rewrite hits_miss; [reflexivity|].
  rewrite exec_attr_re, H. reflexivity.
Qed.

Lemma attr_regions_hit s n cp w :
  attr_spec s = Some (n, cp, w) -> attr_regions s = cp :: attr_regions w.
Proof.
  intro H. destruct (attr_spec_shape _ _ _ _ H) as (Hs & _).
  unfold attr_regions.
  rewrite (hits_hit attr_re s (attr_hit (n, cp, w)) (LT :: n ++ cp ++ [GT]) w).
  - reflexivity.
  - rewrite exec_attr_re, H. reflexivity.
  - reflexivity.
  - discriminate.
  - rewrite Hs. simpl. rewrite <- !app_assoc. reflexivity.
Qed.

Lemma protect_is_tagmap s : protectAttributes s = tagmap protect_capture s.
Proof. reflexivity. Qed.

Lemma unprotect_is_tagmap s : unprotectAttributes s = tagmap unprotect_capture s.
Proof. reflexivity. Qed.

(** ** The attribute encoding as a code *)

Lemma flat_map_flat_map {A B C} (f : A -> list B) (g : B -> list C) (l : list A) :
  flat_map g (flat_map f l) = flat_map (fun a => flat_map g (f a)) l.
Proof.
  induction l as [|a l IH]; [reflexivity|]. simpl.
  rewrite flat_map_app, IH. reflexivity.
Qed.

Lemma protect_capture_stage x :
  protect_capture x = flat_map (stage BANG ATTR_BODY attr_code 0) x.
Proof.
  unfold protect_capture.
  rewrite (replace_chr NL) by reflexivity.
  rewrite (replace_chr CR) by reflexivity.
  rewrite (replace_cls is_space) by reflexivity.
  rewrite !flat_map_flat_map. apply flat_map_ext. intro a.
  unfold stage, attr_code, class.
  destruct (a =? NL) eqn:E1; [reflexivity|].
  cbn [flat_map app]. destruct (a =? CR) eqn:E2; [reflexivity|].
  cbn [flat_map app]. destruct (is_space a); reflexivity.
Qed.

Lemma unprotect_capture_decode y :
  unprotect_capture y = decode_from BANG ATTR_BODY attr_code 0 3 y.
Proof. reflexivity. Qed.

Lemma attr_code_ok : code_ok BANG ATTR_BODY attr_code.
Proof.
  unfold code_ok. split; [|split; [|split; [|split; [|split]]]].
  - repeat constructor; simpl; intuition discriminate.
  - intros b [<-|[<-|[<-|[]]]]; reflexivity.
  - reflexivity.
  - intros a i. simpl.
    destruct (a =? NL); [intros [= <-]; lia|].
    destruct (a =? CR); [intros [= <-]; lia|].
    destruct (is_space a); [intros [= <-]; lia | discriminate].
  - intros c [<-|[<-|[<-|[]]]]; split; try discriminate;
      simpl; intuition discriminate.
  - reflexivity.
Qed.

Lemma capture_roundtrip x :
  attr_clean x = true -> unprotect_capture (protect_capture x) = x.
Proof.
  unfold attr_clean. intro H. apply andb_true_iff in H. destruct H as [Ha Hf].
  rewrite protect_capture_stage, unprotect_capture_decode.
  apply (decode_encode BANG ATTR_BODY attr_code attr_code_ok x Ha Hf).
Qed.

(** ** Text with some whitespace replaced by tokens *)

Section EncRel.

Variables (P : char -> bool) (toks : list jsstring).

Local Abbreviation R := (enc_rel P toks).

Lemma enc_rel_refl s : R s s.
Proof. induction s; constructor; assumption. Qed.

Lemma enc_rel_app s1 s1' s2 s2' : R s1 s1' -> R s2 s2' -> R (s1 ++ s2) (s1' ++ s2').
Proof.
  intros H1 H2. induction H1; simpl.
  - exact H2.
  - constructor. exact IHenc_rel.
  - rewrite <- app_assoc. constructor; assumption.
Qed.

Lemma enc_rel_nil s' : R [] s' -> s' = [].
Proof. intro H. inversion H. reflexivity. Qed.

Lemma enc_rel_keep a s s' :
  R (a :: s) s' -> P a = false -> exists s1, s' = a :: s1 /\ R s s1.
Proof.
  intros H Ha. inversion H; subst.
  - eexists. split; [reflexivity | assumption].
  - congruence.
Qed.

(** Tokens are not empty and start with a character [Q] rejects, and [Q]
    rejects the characters of class [P]: then a run of [Q] characters is
    the same on both sides. *)
Lemma enc_rel_span (Q : char -> bool) :
  (forall a, P a = true -> Q a = false) ->
  (forall t, In t toks -> exists x t', t = x :: t' /\ Q x = false) ->
  forall s s', R s s' ->
    exists r', span Q s' = (fst (span Q s), r') /\ R (snd (span Q s)) r'.
Proof.
  intros HP Ht s s' H. induction H.
  - exists []. split; [reflexivity | constructor].
  - simpl. destruct (Q a) eqn:E.
    + destruct IHenc_rel as (r' & Hs & Hr). rewrite Hs.
      destruct (span Q s) as [u w]. simpl in *. exists r'. split; [reflexivity | exact Hr].
    + exists (a :: s'). split; [reflexivity|]. simpl. constructor. exact H.
  - destruct (Ht t H0) as (x & t' & -> & Hx). simpl. rewrite Hx, (HP a H).
    exists (x :: t' ++ s'). split; [reflexivity|]. simpl.
    change (x :: t' ++ s') with ((x :: t') ++ s'). constructor; assumption.
Qed.

(** All characters of the tokens satisfy [Q], and so do those of class
    [P]: then a run of [Q] characters is encoded into a run. *)
Lemma enc_rel_span_in (Q : char -> bool) :
  (forall a, P a = true -> Q a = true) ->
  (forall t, In t toks -> forallb Q t = true) ->
  forall s s', R s s' ->
    exists b' r', span Q s' = (b', r') /\ R (fst (span Q s)) b' /\ R (snd (span Q s)) r'.
Proof.
  intros HP Ht s s' H. induction H.
  - exists [], []. repeat split; constructor.
  - simpl. destruct (Q a) eqn:E.
    + destruct IHenc_rel as (b' & r' & Hs & Hb & Hr). rewrite Hs.
      destruct (span Q s) as [u w]. simpl in *.
      exists (a :: b'), r'. repeat split; [constructor; exact Hb | exact Hr].
    + exists [], (a :: s'). repeat split; [constructor | constructor; exact H].
  - destruct IHenc_rel as (b' & r' & Hs & Hb & Hr).
    simpl. rewrite (HP a H).
    exists (t ++ b'), r'. split; [|split].
    + rewrite (span_app_all Q t s' (Ht t H0)), Hs. reflexivity.
    + destruct (span Q s) as [u w]. simpl in *. constructor; assumption.
    + destruct (span Q s) as [u w]. simpl in *. exact Hr.
Qed.

End EncRel.

(** ** The attribute scan does not see the encoding *)

Lemma ends_badly_app t s : s <> [] -> ends_badly (t ++ s) = ends_badly s.
Proof.
  intro Hs. induction t as [|x t IH]; [reflexivity|].
  cbn [app ends_badly]. destruct (t ++ s) eqn:E; [|exact IH].
  destruct t; [contradiction | discriminate].
Qed.

Lemma attr_last_ends b w :
  attr_last b w = if ends_badly b then None else Some (b, w).
Proof.
  unfold attr_last. induction b as [|x b IH] using rev_ind; [reflexivity|].
  rewrite rev_app_distr. cbn [rev app].
  destruct b as [|y b].
  - simpl. reflexivity.
  - rewrite ends_badly_app by discriminate. simpl. reflexivity.
Qed.

Lemma space_cases a :
  is_space a = true ->
  (9 <= a <= 13 \/ a = 32 \/ a = 160 \/ a = 5760 \/ 8192 <= a <= 8202 \/ a = 8232
   \/ a = 8233 \/ a = 8239 \/ a = 8287 \/ a = 12288 \/ a = 65279)%N.
Proof.
  unfold is_space, in_range. intro H.
  repeat (apply orb_true_iff in H; destruct H as [H|H]);
    try (apply andb_true_iff in H; destruct H as [H1 H2];
         apply N.leb_le in H1; apply N.leb_le in H2);
    try apply N.eqb_eq in H; lia.
Qed.

Lemma space_not_name a : is_space a = true -> is_name_char a = false.
Proof.
  intro H. apply space_cases in H.
  destruct (is_name_char a) eqn:E; [|reflexivity].
  apply name_char_cases in E. lia.
Qed.

Lemma space_not_gt a : is_space a = true -> is_not GT a = true.
Proof.
  intro H. apply space_cases in H. unfold is_not, GT.
  apply negb_true_iff, N.eqb_neq. lia.
Qed.

Lemma space_not_slash a : is_space a = true -> (a =? SLASH) = false.
Proof. intro H. apply space_cases in H. apply N.eqb_neq. unfold SLASH. lia. Qed.

Lemma name_not_space a : is_name_char a = true -> is_space a = false.
Proof.
  intro H. destruct (is_space a) eqn:E; [|reflexivity].
  rewrite (space_not_name a E) in H. discriminate.
Qed.

Lemma attr_token_facts t :
  In t attr_tokens ->
  (exists t', t = BANG :: t') /\ forallb (is_not GT) t = true
  /\ ends_badly t = false /\ existsb (fun c => c =? BANG) t = true.
Proof.
  intros [<-|[<-|[<-|[]]]]; (split; [eexists; reflexivity|]); repeat split.
Qed.

Local Abbreviation Ra := (enc_rel is_space attr_tokens).

Lemma Ra_empty s s' : Ra s s' -> (s = [] <-> s' = []).
Proof.
  intro H. inversion H; subst; split; try reflexivity; try discriminate.
  destruct (attr_token_facts t H1) as ((t' & ->) & _). discriminate.
Qed.

Lemma Ra_ends_badly b b' : Ra b b' -> ends_badly b' = ends_badly b.
Proof.
  intro H. induction H; [reflexivity| |].
  - cbn [ends_badly]. pose proof (Ra_empty _ _ H) as He.
    destruct s as [|y s]; destruct s' as [|y' s']; try reflexivity.
    + destruct He as [He _]. specialize (He eq_refl). discriminate.
    + destruct He as [_ He]. specialize (He eq_refl). discriminate.
    + exact IHenc_rel.
  - destruct (attr_token_facts t H0) as (_ & _ & Hb & _).
    pose proof (Ra_empty _ _ H1) as He.
    destruct s as [|y s].
    + destruct He as [He _]. rewrite (He eq_refl), app_nil_r. rewrite Hb.
      simpl. symmetry. apply space_not_slash. exact H.
    + assert (Hs' : s' <> []) by (intro E; apply He in E; discriminate).
      rewrite (ends_badly_app t s' Hs'). cbn [ends_badly]. exact IHenc_rel.
Qed.

(** The first character of the encoded text is that of the text, or the
    [!] of a token written for it. *)
Lemma Ra_head a s s' :
  Ra (a :: s) s' ->
  exists a' s1, s' = a' :: s1 /\ (a' = a \/ (a' = BANG /\ is_space a = true)).
Proof.
  intro H. inversion H; subst.
  - eexists _, _. split; [reflexivity|]. left; reflexivity.
  - destruct (attr_token_facts t H3) as ((t' & ->) & _).
    eexists _, _. split; [reflexivity|]. right. split; [reflexivity | assumption].
Qed.

Lemma Ra_span_not_gt r r' :
  Ra r r' ->
  exists b' r2', span (is_not GT) r' = (b', r2')
                 /\ Ra (fst (span (is_not GT) r)) b' /\ Ra (snd (span (is_not GT) r)) r2'.
Proof.
  apply enc_rel_span_in.
  - apply space_not_gt.
  - intros t Ht. apply (attr_token_facts t Ht).
Qed.

Lemma Ra_span_name t t' :
  Ra t t' ->
  exists r', span is_name_char t' = (fst (span is_name_char t), r')
             /\ Ra (snd (span is_name_char t)) r'.
Proof.
  apply enc_rel_span.
  - apply space_not_name.
  - intros x Hx. destruct (attr_token_facts x Hx) as ((x' & ->) & _).
    eexists _, _. split; reflexivity.
Qed.

Lemma Ra_gt s s' : Ra (GT :: s) s' -> exists s1, s' = GT :: s1 /\ Ra s s1.
Proof. intro H. apply (enc_rel_keep _ _ _ _ _ H). reflexivity. Qed.

Lemma Ra_starts_gt s s' :
  Ra s s' ->
  match s with g :: _ => (g =? GT) = false | [] => True end ->
  match s' with g :: _ => (g =? GT) = false | [] => True end.
Proof.
  intros H Hs. destruct s as [|a s].
  - apply enc_rel_nil in H. subst. exact I.
  - destruct (Ra_head _ _ _ H) as (a' & s1 & -> & [->|[-> _]]); [exact Hs | reflexivity].
Qed.

Lemma attr_body_none r r' : Ra r r' -> attr_body r = None -> attr_body r' = None.
Proof.
  intros H. unfold attr_body.
  destruct (Ra_span_not_gt r r' H) as (b' & r2' & Hs & Hb & Hr).
  pose proof (span_stops (is_not GT) r) as Hstop.
  rewrite Hs. destruct (span (is_not GT) r) as [b r2]. simpl in *.
  destruct r2 as [|g r3].
  - apply enc_rel_nil in Hr. subst. reflexivity.
  - apply is_not_false in Hstop. subst g.
    destruct (Ra_gt _ _ Hr) as (r3' & -> & Hr3).
    rewrite !attr_last_ends, (Ra_ends_badly _ _ Hb).
    destruct r3 as [|g r4].
    + apply enc_rel_nil in Hr3. subst. destruct (ends_badly b); [reflexivity | discriminate].
    + destruct (g =? GT) eqn:Eg; [discriminate|].
      pose proof (Ra_starts_gt _ _ Hr3 Eg) as Hg.
      destruct r3' as [|g' r4']; [|rewrite Hg];
        (destruct (ends_badly b); [reflexivity | discriminate]).
Qed.

(** Where [attr_re] does not match, it does not match the encoded text
    either. *)
Lemma attr_spec_none s s' : Ra s s' -> attr_spec s = None -> attr_spec s' = None.
Proof.
  intros H. destruct s as [|a t].
  - apply enc_rel_nil in H. subst. reflexivity.
  - cbn [attr_spec]. destruct (a =? LT) eqn:Ea.
    + apply N.eqb_eq in Ea. subst a.
      destruct (enc_rel_keep _ _ _ _ _ H eq_refl) as (t' & -> & Ht).
      cbn [attr_spec]. change (LT =? LT) with true. cbn iota.
      destruct (Ra_span_name t t' Ht) as (r' & Hs & Hr).
      pose proof (span_stops is_name_char t) as Hstop.
      rewrite Hs. destruct (span is_name_char t) as [n r]. simpl in *.
      destruct n as [|c n]; [reflexivity|].
      destruct (attr_body r) as [[cp w]|] eqn:Eb; [discriminate|].
      rewrite (attr_body_none r r' Hr Eb).
      destruct (rev (c :: n)) as [|x [|y l]]; try reflexivity.
      destruct r as [|g r3].
      * apply enc_rel_nil in Hr. subst. reflexivity.
      * destruct (g =? GT) eqn:Eg; [discriminate|]. intros _.
        pose proof (Ra_starts_gt _ _ Hr Eg) as Hg.
        destruct r' as [|g' r3']; [reflexivity|]. rewrite Hg. reflexivity.
    + intros _. destruct (Ra_head _ _ _ H) as (a' & s1 & -> & [->|[-> _]]);
        cbn [attr_spec]; [rewrite Ea|]; reflexivity.
Qed.

Lemma protect_capture_Ra x : Ra x (protect_capture x).
Proof.
  rewrite protect_capture_stage. induction x as [|a x IH]; [constructor|].
  cbn [flat_map]. unfold stage at 1, attr_code, class.
  destruct (a =? NL) eqn:E1.
  - apply N.eqb_eq in E1. subst a. apply er_tok; [reflexivity | simpl; tauto | exact IH].
  - destruct (a =? CR) eqn:E2.
    + apply N.eqb_eq in E2. subst a. apply er_tok; [reflexivity | simpl; tauto | exact IH].
    + destruct (is_space a) eqn:E3.
      * apply er_tok; [exact E3 | simpl; tauto | exact IH].
      * apply er_keep. exact IH.
Qed.

Lemma protect_capture_app x y :
  protect_capture (x ++ y) = protect_capture x ++ protect_capture y.
Proof. rewrite !protect_capture_stage. apply flat_map_app. Qed.

Lemma protect_capture_plain x :
  existsb is_space x = false -> protect_capture x = x.
Proof.
  rewrite protect_capture_stage. induction x as [|a x IH]; [reflexivity|].
  cbn [existsb flat_map]. intro H. apply orb_false_iff in H. destruct H as [Ha Hx].
  rewrite (IH Hx). unfold stage, attr_code, class.
  destruct (a =? NL) eqn:E1; [apply N.eqb_eq in E1; subst a; discriminate|].
  destruct (a =? CR) eqn:E2; [apply N.eqb_eq in E2; subst a; discriminate|].
  rewrite Ha. reflexivity.
Qed.

Lemma Ra_has_bang x x' :
  Ra x x' -> existsb is_space x = true ->
  existsb (fun c => c =? BANG) x' = true \/ existsb is_space x' = true.
Proof.
  intro H. induction H; [discriminate| |].
  - cbn [existsb]. intro Hx. apply orb_true_iff in Hx. destruct Hx as [Ha|Hs].
    + right. rewrite Ha. reflexivity.
    + destruct (IHenc_rel Hs) as [Hb|Hb]; rewrite Hb; [left | right];
        apply orb_true_r.
  - intros _. left. rewrite existsb_app. apply orb_true_iff. left.
    destruct (attr_token_facts t H0) as (_ & _ & _ & Hb). exact Hb.
Qed.

Lemma protect_capture_no_space x : existsb is_space (protect_capture x) = false.
Proof.
  rewrite protect_capture_stage. induction x as [|a x IH]; [reflexivity|].
  cbn [flat_map]. rewrite existsb_app, IH, orb_false_r.
  unfold stage, attr_code, class.
  destruct (a =? NL); [reflexivity|]. destruct (a =? CR); [reflexivity|].
  destruct (is_space a) eqn:E; [reflexivity|]. simpl. rewrite E. reflexivity.
Qed.

Lemma protect_capture_has_bang x :
  existsb is_space x = true -> existsb (fun c => c =? BANG) (protect_capture x) = true.
Proof.
  intro H. destruct (Ra_has_bang _ _ (protect_capture_Ra x) H) as [Hb|Hs]; [exact Hb|].
  rewrite protect_capture_no_space in Hs. discriminate.
Qed.

Lemma Ra_not_gt b b' :
  Ra b b' -> forallb (is_not GT) b = true -> forallb (is_not GT) b' = true.
Proof.
  intro H. induction H; [reflexivity| |]; cbn [forallb]; intro Hb;
    apply andb_true_iff in Hb; destruct Hb as [Ha Hs].
  - rewrite Ha, (IHenc_rel Hs). reflexivity.
  - rewrite forallb_app, (IHenc_rel Hs).
    destruct (attr_token_facts t H0) as (_ & Hg & _). rewrite Hg. reflexivity.
Qed.

Lemma tag_start_plain (P : char -> bool) n :
  P LT = false -> (forall a, is_name_char a = true -> P a = false) ->
  forallb is_name_char n = true ->
  forallb (fun c => negb (P c)) (LT :: n) = true.
Proof.
  intros HL HP Hn. cbn [forallb]. rewrite HL. cbn [negb andb].
  induction n as [|a n IH]; [reflexivity|]. cbn [forallb] in *.
  apply andb_true_iff in Hn. destruct Hn as [Ha Hn].
  rewrite (HP a Ha), (IH Hn). reflexivity.
Qed.

(** A match of [protectAttributes] writes the encoded region in the place
    of the region. *)
Lemma protect_hit s n cp w :
  attr_spec s = Some (n, cp, w) ->
  protectAttributes s = LT :: n ++ protect_capture cp ++ GT :: protectAttributes w.
Proof.
  intro H. destruct (attr_spec_shape _ _ _ _ H) as (_ & Hn & _ & _).
  rewrite !protect_is_tagmap, (tagmap_hit _ _ _ _ _ H).
  destruct (existsb is_space cp) eqn:E.
  - change (LT :: n ++ cp ++ [GT]) with ((LT :: n) ++ cp ++ [GT]).
    rewrite (replace_first_at is_space); [| |exact E].
    + simpl. rewrite <- !app_assoc. reflexivity.
    + apply tag_start_plain; [reflexivity | apply name_not_space | exact Hn].
  - rewrite replace_first_id by (apply protect_capture_plain; exact E).
    rewrite (protect_capture_plain _ E). simpl. rewrite <- !app_assoc. reflexivity.
Qed.

Lemma protect_Ra : forall k s, (List.length s <= k)%nat -> Ra s (protectAttributes s).
Proof.
  induction k as [|k IH]; intros s Hk.
  - destruct s; [constructor | simpl in Hk; lia].
  - destruct s as [|c s]; [constructor|].
    destruct (attr_spec (c :: s)) as [[[n cp] w]|] eqn:E.
    + rewrite (protect_hit _ _ _ _ E).
      destruct (attr_spec_shape _ _ _ _ E) as (Hs & _). rewrite Hs.
      apply er_keep. apply enc_rel_app; [apply enc_rel_refl|].
      apply enc_rel_app; [apply protect_capture_Ra|].
      apply er_keep. apply IH.
      apply (f_equal (@List.length char)) in Hs. simpl in Hs, Hk.
      rewrite !length_app in Hs. simpl in Hs. lia.
    + rewrite protect_is_tagmap, (tagmap_miss _ _ _ E). apply er_keep.
      apply IH. simpl in Hk. lia.
Qed.

Lemma name_not_bang a : is_name_char a = true -> (a =? BANG) = false.
Proof. intro H. apply name_char_cases in H. apply N.eqb_neq. unfold BANG. lia. Qed.

(** Where [attr_re] matches, it matches the encoded text at the same tag,
    with the encoded region as its group. *)
Lemma attr_spec_encoded s n cp w w' :
  attr_spec s = Some (n, cp, w) -> Ra w w' ->
  attr_spec (LT :: n ++ protect_capture cp ++ GT :: w') = Some (n, protect_capture cp, w').
Proof.
  intros H Hw. pose proof H as H0. revert H. unfold attr_spec at 1.
  destruct s as [|a t]; [discriminate|].
  destruct (a =? LT) eqn:Ea; [|discriminate]. apply N.eqb_eq in Ea. subst a.
  pose proof (span_app is_name_char t) as Happ.
  pose proof (span_all is_name_char t) as Hall.
  pose proof (span_stops is_name_char t) as Hstop.
  destruct (span is_name_char t) as [n0 r]. simpl in Happ, Hall, Hstop. subst t.
  destruct n0 as [|c0 n1]; [discriminate|].
  destruct (attr_body r) as [[c1 w1]|] eqn:Eb.
  - intros [= <- <- <-].
    destruct (attr_body_shape _ _ _ Eb) as [Hr Hc].
    set (E := protect_capture c1).
    assert (HE : Ra c1 E) by apply protect_capture_Ra.
    (* the name is read as before *)
    assert (Hspan : span is_name_char ((c0 :: n1) ++ E ++ GT :: w')
                    = (c0 :: n1, E ++ GT :: w')).
    { apply span_eq; [exact Hall|].
      destruct c1 as [|a1 c1]; [contradiction|]. subst r. simpl in Hstop.
      destruct (Ra_head _ _ _ HE) as (a' & E1 & -> & [->|[-> _]]); [exact Hstop | reflexivity]. }
    cbn [attr_spec]. change (LT =? LT) with true. cbn iota. rewrite Hspan.
    (* and so is the region *)
    assert (Hbody : attr_body (E ++ GT :: w') = Some (E, w')).
    { revert Eb. unfold attr_body.
      pose proof (span_app (is_not GT) r) as Happ2.
      pose proof (span_all (is_not GT) r) as Hall2.
      pose proof (span_stops (is_not GT) r) as Hstop2.
      destruct (span (is_not GT) r) as [b r2]. simpl in Happ2, Hall2, Hstop2.
      destruct r2 as [|g r3]; [discriminate|].
      apply is_not_false in Hstop2. subst g.
      assert (HA : forall r4, r3 = GT :: r4 -> Some (b ++ [GT], r4) = Some (c1, w1) ->
                              (let (b0, r0) := span (is_not GT) (E ++ GT :: w') in
                               match r0 with
                               | [] => None
                               | _ :: r5 =>
                                   match r5 with
                                   | [] => attr_last b0 r5
                                   | g :: r6 =>
                                       if g =? GT then Some (b0 ++ [GT], r6)
                                       else attr_last b0 r5
                                   end
                               end) = Some (E, w')).
      { intros r4 -> [= <- <-]. unfold E. rewrite protect_capture_app.
        change (protect_capture [GT]) with [GT]. rewrite <- app_assoc. cbn [app].
        rewrite (span_eq (is_not GT) (protect_capture b) (GT :: GT :: w'));
          [reflexivity | | reflexivity].
        apply (Ra_not_gt b); [apply protect_capture_Ra | exact Hall2]. }
      assert (HB : match r3 with g :: _ => (g =? GT) = false | [] => True end ->
                   attr_last b r3 = Some (c1, w1) ->
                   (let (b0, r0) := span (is_not GT) (E ++ GT :: w') in
                    match r0 with
                    | [] => None
                    | _ :: r5 =>
                        match r5 with
                        | [] => attr_last b0 r5
                        | g :: r6 =>
                            if g =? GT then Some (b0 ++ [GT], r6)
                            else attr_last b0 r5
                        end
                    end) = Some (E, w')).
      { intros Hg Hl. rewrite attr_last_ends in Hl.
        destruct (ends_badly b) eqn:Ebad; [discriminate|]. injection Hl as <- <-.
        rewrite (span_eq (is_not GT) E (GT :: w'));
          [| apply (Ra_not_gt b); [exact HE | exact Hall2] | reflexivity].
        pose proof (Ra_starts_gt _ _ Hw Hg) as Hg'.
        rewrite !attr_last_ends, (Ra_ends_badly _ _ HE), Ebad.
        destruct w' as [|g' w'']; [reflexivity|]. rewrite Hg'. reflexivity. }
      destruct r3 as [|g r4].
      - intro Hl. apply HB; [exact I | exact Hl].
      - destruct (g =? GT) eqn:Eg.
        + apply N.eqb_eq in Eg. subst g. intro Hl. apply (HA r4 eq_refl Hl).
        + intro Hl. apply HB; [reflexivity | exact Hl]. }
    rewrite Hbody. reflexivity.
  - destruct (rev (c0 :: n1)) as [|x [|y l]] eqn:Er; try discriminate.
    destruct r as [|g r3]; [discriminate|].
    destruct (g =? GT) eqn:Eg; [|discriminate]. apply N.eqb_eq in Eg. subst g.
    intros [= <- <- <-]. cbn [tl].
    apply (f_equal (@rev char)) in Er. rewrite rev_involutive in Er.
    change (rev (x :: y :: l)) with (rev (y :: l) ++ [x]) in Er.
    rewrite Er in Hall. rewrite forallb_app in Hall. apply andb_true_iff in Hall.
    destruct Hall as [Hn Hx]. simpl in Hx. apply andb_true_iff in Hx. destruct Hx as [Hx _].
    rewrite (protect_capture_plain [x])
      by (simpl; rewrite (name_not_space x Hx); reflexivity).
    cbn [attr_spec]. change (LT =? LT) with true. cbn iota.
    change (rev (y :: l)) with (rev l ++ [y]) in *.
    rewrite (app_assoc (rev l ++ [y]) [x] (GT :: w')).
    rewrite (span_eq is_name_char ((rev l ++ [y]) ++ [x]) (GT :: w'));
      [| rewrite forallb_app, Hn; simpl; rewrite Hx; reflexivity | reflexivity].
    assert (Hnone : attr_body (GT :: w') = None).
    { apply (attr_body_none (GT :: r3)); [apply er_keep; exact Hw | exact Eb]. }
    rewrite Hnone.
    destruct ((rev l ++ [y]) ++ [x]) as [|z zs] eqn:Ez;
      [destruct (rev l); discriminate|].
    rewrite <- Ez. rewrite !rev_app_distr, rev_involutive. cbn [rev app tl].
    change (GT =? GT) with true. reflexivity.
Qed.

(** ** The round trip of the attribute encoding *)

Lemma unprotect_protect_bounded : forall k h,
  (List.length h <= k)%nat ->
  (forall x, In x (attr_regions h) -> attr_clean x = true) ->
  unprotectAttributes (protectAttributes h) = h.
Proof.
  induction k as [|k IH]; intros h Hk Hclean.
  - destruct h; [reflexivity | simpl in Hk; lia].
  - destruct h as [|c s]; [reflexivity|].
    destruct (attr_spec (c :: s)) as [[[n cp] w]|] eqn:E.
    + destruct (attr_spec_shape _ _ _ _ E) as (Hs & Hn & _ & _).
      assert (Hlen : (List.length w <= k)%nat).
      { apply (f_equal (@List.length char)) in Hs. simpl in Hs, Hk.
        rewrite !length_app in Hs. simpl in Hs. lia. }
      rewrite (attr_regions_hit _ _ _ _ E) in Hclean.
      assert (Hcp : attr_clean cp = true) by (apply Hclean; left; reflexivity).
      assert (Hw : unprotectAttributes (protectAttributes w) = w)
        by (apply IH; [exact Hlen | intros x Hx; apply Hclean; right; exact Hx]).
      rewrite (protect_hit _ _ _ _ E).
      pose proof (attr_spec_encoded _ _ _ _ _ E (protect_Ra _ w (Nat.le_refl _))) as E'.
      rewrite unprotect_is_tagmap, (tagmap_hit _ _ _ _ _ E'), <- unprotect_is_tagmap, Hw.
      rewrite Hs. destruct (existsb is_space cp) eqn:Esp.
      * change (LT :: n ++ protect_capture cp ++ [GT])
          with ((LT :: n) ++ protect_capture cp ++ [GT]).
        rewrite (replace_first_at (fun c => c =? BANG));
          [| apply tag_start_plain; [reflexivity | apply name_not_bang | exact Hn]
           | apply protect_capture_has_bang; exact Esp].
        rewrite (capture_roundtrip cp Hcp). simpl. rewrite <- !app_assoc. reflexivity.
      * rewrite (protect_capture_plain cp Esp).
        rewrite replace_first_id.
        -- simpl. rewrite <- !app_assoc. reflexivity.
        -- rewrite <- (protect_capture_plain cp Esp) at 1. apply capture_roundtrip. exact Hcp.
    + rewrite (attr_regions_miss _ _ E) in Hclean.
      rewrite protect_is_tagmap, (tagmap_miss _ _ _ E), <- protect_is_tagmap.
      assert (E' : attr_spec (c :: protectAttributes s) = None).
      { apply (attr_spec_none (c :: s)); [|exact E].
        apply er_keep. apply (protect_Ra _ s (Nat.le_refl _)). }
      rewrite unprotect_is_tagmap, (tagmap_miss _ _ _ E'), <- unprotect_is_tagmap.
      f_equal. apply IH; [simpl in Hk; lia | exact Hclean].
Qed.

(** C1, as the code has it: when no attribute region of [h] spells the
    sentinel body (the sentinel without its leading [!]) and the
    whitespace of the regions is made of newlines, carriage returns and
    spaces, [unprotectAttributes (protectAttributes h)] is [h]. *)
Theorem C1_attributes_round_trip :
  forall h,
    (forall x, In x (attr_regions h) -> attr_clean x = true) ->
    unprotectAttributes (protectAttributes h) = h.
Proof.
  intros h H. apply (unprotect_protect_bounded (List.length h) h (Nat.le_refl _) H).
Qed.

Lemma C1_witness :
  protectAttributes doc_div = doc_div_protected
  /\ unprotectAttributes (protectAttributes doc_div) = doc_div.
Proof.
  split; [vm_compute; reflexivity|].
  apply (C1_attributes_round_trip doc_div).
  intros x Hx. vm_compute in Hx. destruct Hx as [<-|[]]. vm_compute. reflexivity.
Defined.

(** C1, the claim as worded, fails: a tab inside an attribute region comes
    back as a space, although the region holds no sentinel text; and a
    region that holds a piece of the sentinel only, after a carriage
    return, does not come back either. *)
Lemma C1_counterexample :
  (forallb (fun x => negb (contains ATTRIBUTE_IGNORE_STRING x)) (attr_regions doc_tab) = true
   /\ unprotectAttributes (protectAttributes doc_tab) = str "<a b>"
   /\ unprotectAttributes (protectAttributes doc_tab) <> doc_tab)
  /\
  (forallb (fun x => negb (contains ATTRIBUTE_IGNORE_STRING x)) (attr_regions doc_fragment) = true
   /\ unprotectAttributes (protectAttributes doc_fragment) <> doc_fragment).
Proof.
  split; [split; [|split]|split].
  - vm_compute. reflexivity.
  - vm_compute. reflexivity.
  - vm_compute. discriminate.
  - vm_compute. reflexivity.
  - vm_compute. discriminate.
Qed.

(** ** Where [protectAttributes] writes *)

Lemma attr_spec_needs_lt c s : (c =? LT) = false -> attr_spec (c :: s) = None.
Proof. intro H. cbn [attr_spec]. rewrite H. reflexivity. Qed.

Lemma protect_no_tag s :
  existsb (fun c => c =? LT) s = false -> protectAttributes s = s.
Proof.
  induction s as [|c s IH]; [reflexivity|]. cbn [existsb]. intro H.
  apply orb_false_iff in H. destruct H as [Hc Hs].
  rewrite protect_is_tagmap, (tagmap_miss _ _ _ (attr_spec_needs_lt c s Hc)),
    <- protect_is_tagmap, (IH Hs). reflexivity.
Qed.

Lemma span_name_before_slash z y :
  exists n z', z = n ++ z' /\ span is_name_char (z ++ SLASH :: y) = (n, z' ++ SLASH :: y).
Proof.
  induction z as [|a z IH].
  - exists [], []. split; reflexivity.
  - simpl. destruct (is_name_char a) eqn:E.
    + destruct IH as (n & z' & -> & Hs). rewrite Hs.
      exists (a :: n), z'. split; reflexivity.
    + exists [], (a :: z). split; reflexivity.
Qed.

(** [attr_re] matches nowhere in a tag that closes with [/>]. *)
Lemma attr_spec_self_closing z w :
  forallb (is_not GT) z = true ->
  match w with g :: _ => (g =? GT) = false | [] => True end ->
  attr_spec (z ++ SLASH :: GT :: w) = None.
Proof.
  intros Hz Hw. destruct z as [|a z]; [reflexivity|].
  cbn [app attr_spec]. destruct (a =? LT); [|reflexivity].
  cbn [forallb] in Hz. apply andb_true_iff in Hz. destruct Hz as [_ Hz].
  destruct (span_name_before_slash z (GT :: w)) as (n & z' & -> & Hs). rewrite Hs.
  destruct n as [|c n]; [reflexivity|].
  rewrite forallb_app in Hz. apply andb_true_iff in Hz. destruct Hz as [_ Hz'].
  assert (Hb : attr_body (z' ++ SLASH :: GT :: w) = None).
  { unfold attr_body.
    replace (z' ++ SLASH :: GT :: w) with ((z' ++ [SLASH]) ++ GT :: w)
      by (rewrite <- app_assoc; reflexivity).
    rewrite (span_eq (is_not GT) (z' ++ [SLASH]) (GT :: w));
      [| rewrite forallb_app, Hz'; reflexivity | reflexivity].
    rewrite !attr_last_ends, (ends_badly_app z' [SLASH]) by discriminate.
    cbn [ends_badly]. change (SLASH =? SLASH) with true.
    destruct w as [|g w]; [reflexivity|]. rewrite Hw. reflexivity. }
  rewrite Hb. destruct (rev (c :: n)) as [|x [|y l]]; try reflexivity.
  destruct z' as [|g z'']; [reflexivity|]. cbn [app].
  cbn [forallb] in Hz'. apply andb_true_iff in Hz'. destruct Hz' as [Hg _].
  unfold is_not in Hg. apply negb_true_iff in Hg. rewrite Hg. reflexivity.
Qed.

Lemma protect_self_closing u w :
  forallb (is_not GT) u = true ->
  match w with g :: _ => (g =? GT) = false | [] => True end ->
  protectAttributes (u ++ SLASH :: GT :: w) = u ++ SLASH :: GT :: protectAttributes w.
Proof.
  intros Hu Hw.
  replace (u ++ SLASH :: GT :: w) with ((u ++ [SLASH; GT]) ++ w)
    by (rewrite <- app_assoc; reflexivity).
  rewrite protect_is_tagmap, tagmap_replaced, replaced_copy.
  - rewrite <- app_assoc. reflexivity.
  - intros; reflexivity.
  - intros i Hi. rewrite exec_attr_re.
    assert (Hcases : (i <= List.length u)%nat \/ i = S (List.length u)).
    { rewrite length_app in Hi. simpl in Hi. lia. }
    destruct Hcases as [Hle| ->].
    + rewrite skipn_app. replace (i - List.length u)%nat with 0%nat by lia.
      cbn [skipn]. rewrite <- app_assoc. cbn [app].
      rewrite attr_spec_self_closing; [reflexivity | | exact Hw].
      apply forallb_skipn. exact Hu.
    + rewrite skipn_app. replace (S (List.length u) - List.length u)%nat with 1%nat by lia.
      rewrite skipn_all2 by lia. reflexivity.
Qed.

Lemma protect_text t w :
  existsb (fun c => c =? LT) t = false ->
  protectAttributes (t ++ w) = t ++ protectAttributes w.
Proof.
  induction t as [|c t IH]; [reflexivity|]. cbn [existsb app]. intro H.
  apply orb_false_iff in H. destruct H as [Hc Ht].
  rewrite protect_is_tagmap, (tagmap_miss _ _ _ (attr_spec_needs_lt c (t ++ w) Hc)),
    <- protect_is_tagmap, (IH Ht). reflexivity.
Qed.

Lemma protect_stray_lt w :
  starts_name w = false -> protectAttributes (LT :: w) = LT :: protectAttributes w.
Proof.
  intro H. rewrite !protect_is_tagmap. apply tagmap_miss.
  cbn [attr_spec]. change (LT =? LT) with true. cbn iota.
  destruct w as [|a w]; [reflexivity|]. cbn [starts_name] in H. cbn [span].
  rewrite H. reflexivity.
Qed.

Lemma protect_unterminated s :
  forallb (is_not GT) s = true -> protectAttributes s = s.
Proof.
  induction s as [|c s IH]; [reflexivity|]. intro H.
  assert (E : attr_spec (c :: s) = None).
  { destruct (attr_spec (c :: s)) as [[[n cp] w]|] eqn:E; [|reflexivity]. exfalso.
    destruct (attr_spec_shape _ _ _ _ E) as (Hs & _). rewrite Hs in H.
    cbn [forallb] in H. rewrite !forallb_app in H. cbn [forallb] in H.
    change (is_not GT GT) with false in H.
    rewrite andb_false_l, !andb_false_r in H. discriminate H. }
  cbn [forallb] in H. apply andb_true_iff in H.
  rewrite protect_is_tagmap, (tagmap_miss _ _ _ E), <- protect_is_tagmap,
    (IH (proj2 H)). reflexivity.
Qed.

Lemma span_tag_name n c w :
  forallb is_name_char n = true -> starts_name c = false ->
  span is_name_char (n ++ c ++ GT :: w) = (n, c ++ GT :: w).
Proof.
  intros Hn Hc. apply span_eq; [exact Hn|].
  destruct c as [|a c]; [reflexivity | exact Hc].
Qed.

Lemma attr_body_region c w :
  forallb (is_not GT) c = true ->
  attr_body (c ++ GT :: w)
  = if starts_gt w then Some (c ++ [GT], tl w)
    else if ends_badly c then None else Some (c, w).
Proof.
  intro Hc. unfold attr_body.
  rewrite (span_eq (is_not GT) c (GT :: w) Hc eq_refl).
  destruct w as [|g w]; cbn [starts_gt tl].
  - apply attr_last_ends.
  - destruct (g =? GT); [reflexivity | apply attr_last_ends].
Qed.

Lemma ends_badly_cases c :
  ends_badly c = true -> c = [] \/ exists c', c = c' ++ [SLASH].
Proof.
  induction c as [|x c IH]; [left; reflexivity|]. intro H. right.
  cbn [ends_badly] in H. destruct c as [|y c].
  - apply N.eqb_eq in H. subst x. exists []. reflexivity.
  - destruct (IH H) as [E|[c' E]]; [discriminate E|].
    exists (x :: c'). rewrite E. reflexivity.
Qed.

Lemma attr_spec_region n c w :
  n <> [] -> forallb is_name_char n = true -> starts_name c = false ->
  forallb (is_not GT) c = true ->
  (starts_gt w = true -> attr_spec (LT :: n ++ c ++ GT :: w) = Some (n, c ++ [GT], tl w))
  /\ (starts_gt w = false -> ends_badly c = false ->
      attr_spec (LT :: n ++ c ++ GT :: w) = Some (n, c, w)).
Proof.
  intros Hne Hn Hc Hgt. cbn [attr_spec]. change (LT =? LT) with true. cbn iota.
  rewrite (span_tag_name n c w Hn Hc). destruct n as [|a n]; [congruence|].
  rewrite (attr_body_region c w Hgt).
  split; [intros -> | intros -> ->]; reflexivity.
Qed.

(** A tag name alone between the brackets: the last character of the name
    may be taken for the region, and is written back as it is. *)
Lemma protect_bare_tag n w :
  forallb is_name_char n = true -> starts_gt w = false ->
  protectAttributes (LT :: n ++ GT :: w) = LT :: n ++ GT :: protectAttributes w.
Proof.
  intros Hn Hw.
  destruct (attr_spec (LT :: n ++ GT :: w)) as [[[n1 cp] w1]|] eqn:E.
  - rewrite (protect_hit _ _ _ _ E).
    pose proof E as E0. revert E. cbn [attr_spec]. change (LT =? LT) with true. cbn iota.
    pose proof (span_tag_name n [] w Hn eq_refl) as Sp. cbn [app] in Sp. rewrite Sp.
    destruct n as [|a n]; [discriminate|].
    change (attr_body (GT :: w)) with (attr_body ([] ++ GT :: w)).
    rewrite (attr_body_region [] w eq_refl), Hw. cbn [ends_badly].
    destruct (rev (a :: n)) as [|x [|y l]] eqn:Er; try discriminate.
    change (GT =? GT) with true. cbn iota. intros [= <- <- <-]. cbn [tl].
    apply (f_equal (@rev char)) in Er. rewrite rev_involutive in Er.
    change (rev (x :: y :: l)) with (rev (y :: l) ++ [x]) in Er.
    rewrite Er in *. rewrite forallb_app in Hn. apply andb_true_iff in Hn.
    destruct Hn as [_ Hx]. cbn [forallb] in Hx. rewrite andb_true_r in Hx.
    rewrite protect_capture_plain
      by (cbn [existsb]; rewrite (name_not_space x Hx); reflexivity).
    cbn [rev]. rewrite <- !app_assoc. reflexivity.
  - rewrite protect_is_tagmap, (tagmap_miss _ _ _ E), <- protect_is_tagmap.
    replace (n ++ GT :: w) with ((n ++ [GT]) ++ w) by (rewrite <- app_assoc; reflexivity).
    rewrite protect_text; [rewrite <- app_assoc; reflexivity|].
    rewrite existsb_app. cbn [existsb]. change (GT =? LT) with false.
    rewrite !orb_false_r. clear E. induction n as [|a n IH]; [reflexivity|].
    cbn [forallb] in Hn. apply andb_true_iff in Hn. destruct Hn as [Ha Hn].
    cbn [existsb]. rewrite (IH Hn), orb_false_r.
    apply name_char_cases in Ha. apply N.eqb_neq. unfold LT. lia.
Qed.

Lemma starts_gt_false w :
  starts_gt w = false -> match w with g :: _ => (g =? GT) = false | [] => True end.
Proof. destruct w; [exact (fun _ => I) | exact (fun H => H)]. Qed.

(** A tag whose region is empty or ends on a slash is left as it is. *)
Lemma protect_excluded n c w :
  forallb is_name_char n = true -> forallb (is_not GT) c = true ->
  ends_badly c = true -> starts_gt w = false ->
  protectAttributes (LT :: n ++ c ++ GT :: w) = LT :: n ++ c ++ GT :: protectAttributes w.
Proof.
  intros Hn Hc Hb Hw. destruct (ends_badly_cases c Hb) as [->|[c' ->]].
  - exact (protect_bare_tag n w Hn Hw).
  - rewrite forallb_app in Hc. apply andb_true_iff in Hc. destruct Hc as [Hc' _].
    pose proof (protect_self_closing (LT :: n ++ c') w) as P.
    cbn [app] in P. rewrite <- !app_assoc in P. rewrite <- !app_assoc. cbn [app].
    apply P; [|exact (starts_gt_false w Hw)].
    cbn [forallb]. rewrite forallb_app, (names_not_gt n Hn), Hc'. reflexivity.
Qed.

Lemma attr_body_ends r c w : attr_body r = Some (c, w) -> ends_badly c = false.
Proof.
  unfold attr_body. destruct (span (is_not GT) r) as [b r2].
  destruct r2 as [|g r3]; [discriminate|].
  assert (L : attr_last b r3 = Some (c, w) -> ends_badly c = false).
  { rewrite attr_last_ends. destruct (ends_badly b) eqn:E; [discriminate|].
    intros [= <- <-]. exact E. }
  destruct r3 as [|g4 r4]; [exact L|].
  destruct (g4 =? GT); [|exact L]. intros [= <- <-].
  rewrite ends_badly_app by discriminate. reflexivity.
Qed.

Lemma attr_spec_ends s n cp w : attr_spec s = Some (n, cp, w) -> ends_badly cp = false.
Proof.
  unfold attr_spec. destruct s as [|a t]; [discriminate|].
  destruct (a =? LT); [|discriminate].
  pose proof (span_all is_name_char t) as Hall.
  destruct (span is_name_char t) as [n0 r]. cbn [fst] in Hall.
  destruct n0 as [|c0 n1]; [discriminate|].
  destruct (attr_body r) as [[c1 w1]|] eqn:Eb.
  - intros [= <- <- <-]. exact (attr_body_ends _ _ _ Eb).
  - destruct (rev (c0 :: n1)) as [|x [|y l]] eqn:Er; try discriminate.
    destruct r as [|g r3]; [discriminate|].
    destruct (g =? GT); [|discriminate]. intros [= <- <- <-].
    apply (f_equal (@rev char)) in Er. rewrite rev_involutive in Er.
    change (rev (x :: y :: l)) with (rev (y :: l) ++ [x]) in Er.
    rewrite Er, forallb_app in Hall. apply andb_true_iff in Hall.
    destruct Hall as [_ Hx]. cbn [forallb] in Hx. rewrite andb_true_r in Hx.
    cbn [ends_badly]. exact (name_not_slash x Hx).
Qed.

Lemma protect_protects : forall k s,
  (List.length s <= k)%nat -> protects s (protectAttributes s).
Proof.
  induction k as [|k IH]; intros s Hk.
  - destruct s; [constructor | simpl in Hk; lia].
  - destruct s as [|c s]; [constructor|].
    destruct (attr_spec (c :: s)) as [[[n cp] w]|] eqn:E.
    + rewrite (protect_hit _ _ _ _ E).
      destruct (attr_spec_shape _ _ _ _ E) as (Hs & Hn & Hne & _). rewrite Hs.
      apply pr_tag; [exact Hne | exact Hn | exact (attr_spec_ends _ _ _ _ E)|].
      apply IH. apply (f_equal (@List.length char)) in Hs. simpl in Hs, Hk.
      rewrite !length_app in Hs. simpl in Hs. lia.
    + rewrite protect_is_tagmap, (tagmap_miss _ _ _ E), <- protect_is_tagmap.
      apply pr_keep. apply IH. simpl in Hk. lia.
Qed.




(** ** What [ignore_re] matches *)

Ltac norm_app := repeat (progress (rewrite <- ?app_assoc; cbn [app])).

Lemma prefixb_app_split t u : forall s,
  prefixb (t ++ u) s = prefixb t s && prefixb u (skipn (List.length t) s).
Proof.
  induction t as [|c t IH]; intro s; [reflexivity|].
  destruct s as [|a s]; [reflexivity|]. simpl. rewrite IH, andb_assoc. reflexivity.
Qed.

Lemma m_close tag s cs :
  m (close_re tag) s cs K0
  = if prefixb (close_tag tag) s
    then Some (skipn (List.length (close_tag tag)) s, cs) else None.
Proof.
  unfold close_re, close_tag. rewrite m_seq.
  destruct s as [|a s]; [reflexivity|]. rewrite m_chr. cbn [prefixb].
  rewrite (N.eqb_sym LT a). destruct (a =? LT); [|reflexivity]. cbn [andb].
  rewrite m_seq. destruct s as [|b s]; [reflexivity|]. rewrite m_chr. cbn [prefixb].
  rewrite (N.eqb_sym SLASH b). destruct (b =? SLASH); [|reflexivity]. cbn [andb].
  rewrite m_seq_lit, prefixb_app_split. destruct (prefixb tag s); [|reflexivity].
  cbn [andb]. cbn [List.length skipn]. rewrite length_app. cbn [List.length].
  destruct (skipn (List.length tag) s) as [|g z] eqn:E.
  - reflexivity.
  - rewrite m_chr. cbn [prefixb]. rewrite (N.eqb_sym GT g).
    destruct (g =? GT); [|reflexivity]. unfold K0.
    replace (List.length tag + 1)%nat with (1 + List.length tag)%nat by lia.
    rewrite <- skipn_skipn, E. reflexivity.
Qed.

Lemma m_any s cs k :
  m any_re s cs k
  = match s with
    | c :: s' => if is_any c then k s' ((2%nat, [c]) :: cs) else None
    | [] => None
    end.
Proof.
  unfold any_re. rewrite m_group. cbn [m]. destruct s as [|c s']; [reflexivity|].
  assert (Hc : firstn (List.length (c :: s') - List.length s') (c :: s') = [c])
    by (apply matched_eq; reflexivity).
  rewrite Hc. unfold is_any, is_dot.
  destruct (c =? NL) eqn:E.
  - apply N.eqb_eq in E. subst c. reflexivity.
  - rewrite orb_false_r.
    destruct (negb ((c =? 10) || (c =? 13) || (c =? 8232) || (c =? 8233))); [|reflexivity].
    destruct (k s' ((2%nat, [c]) :: cs)); reflexivity.
Qed.

Section Lazy.

Variables (tag S0 : jsstring).

Let kc : cont := fun s1 cs1 =>
  m (close_re tag) s1 ((1%nat, firstn (List.length S0 - List.length s1) S0) :: cs1) K0.

Lemma lazy_fuel : forall s fuel cs,
  (List.length s <= fuel)%nat ->
  star_fuel (m any_re) false kc fuel s cs
  = match find_close tag s with
    | Some (inner, rest) =>
        Some (rest,
              (1%nat, firstn (List.length S0
                              - (List.length (close_tag tag) + List.length rest)) S0)
                :: caps2 inner cs)
    | None => None
    end.
Proof.
  induction s as [|c s IH]; intros fuel cs Hf.
  - assert (Hp : prefixb (close_tag tag) [] = false) by reflexivity.
    cbn [find_close]. rewrite Hp.
    destruct fuel; cbn [star_fuel]; unfold kc; rewrite m_close, Hp; reflexivity.
  - destruct fuel as [|fuel]; [simpl in Hf; lia|].
    cbn [star_fuel find_close]. unfold kc at 1. rewrite m_close.
    destruct (prefixb (close_tag tag) (c :: s)) eqn:Ep.
    + cbn [orelse caps2]. f_equal. f_equal. f_equal. f_equal. f_equal.
      apply prefixb_true in Ep. rewrite Ep at 1. rewrite length_app. reflexivity.
    + cbn [orelse]. rewrite m_any. destruct (is_any c); [|reflexivity].
      replace (List.length s <? List.length (c :: s))%nat with true
        by (symmetry; apply Nat.ltb_lt; simpl; lia).
      fold (star_fuel (m any_re) false kc).
      rewrite IH by (simpl in Hf; lia).
      destruct (find_close tag s) as [[inner rest]|]; reflexivity.
Qed.

End Lazy.

Lemma find_close_shape tag : forall s inner rest,
  find_close tag s = Some (inner, rest) ->
  s = inner ++ close_tag tag ++ rest /\ forallb is_any inner = true.
Proof.
  induction s as [|c s IH]; intros inner rest H.
  - cbn [find_close] in H. destruct (prefixb (close_tag tag) []) eqn:E; discriminate.
  - cbn [find_close] in H. destruct (prefixb (close_tag tag) (c :: s)) eqn:Ep.
    + injection H as <- <-. split; [|reflexivity]. apply prefixb_true in Ep. exact Ep.
    + destruct (is_any c) eqn:Ec; [|discriminate].
      destruct (find_close tag s) as [[i r]|] eqn:Ef; [|discriminate].
      injection H as <- <-. destruct (IH _ _ eq_refl) as [-> Hi].
      split; [reflexivity|]. simpl. rewrite Ec, Hi. reflexivity.
Qed.

Lemma exec_ignore_re tag s :
  exec (ignore_re tag) s = option_map (ignore_hit tag) (ignore_spec tag s).
Proof.
  unfold exec, ignore_re. fold (close_re tag). fold any_re.
  destruct s as [|a u]; [reflexivity|].
  rewrite m_seq, m_chr. cbn [ignore_spec].
  destruct (a =? LT) eqn:Ea; [|reflexivity]. apply N.eqb_eq in Ea. subst a.
  rewrite m_seq_lit. destruct (prefixb tag u) eqn:Ep; [|reflexivity].
  apply prefixb_true in Ep. set (u1 := skipn (List.length tag) u) in *.
  rewrite m_seq, m_greedy_cls.
  rewrite greedy_run_stop.
  2:{ intros a s0 cs Ha. rewrite m_seq, m_chr. unfold is_not in Ha.
      apply negb_true_iff in Ha. rewrite Ha. reflexivity. }
  pose proof (span_app (is_not GT) u1) as Happ.
  pose proof (span_stops (is_not GT) u1) as Hstop.
  destruct (span (is_not GT) u1) as [y r2]. cbn [fst snd] in *.
  destruct r2 as [|g r3]; [reflexivity|].
  apply is_not_false in Hstop. subst g.
  rewrite m_seq, m_chr. change (GT =? GT) with true. cbn iota.
  rewrite m_seq, m_group, m_star_fuel.
  rewrite (lazy_fuel tag r3 r3 (List.length r3) [] (Nat.le_refl _)).
  destruct (find_close tag r3) as [[inner rest]|] eqn:Ef; [|reflexivity].
  destruct (find_close_shape _ _ _ _ Ef) as [Hr _].
  cbn [option_map ignore_hit]. f_equal. f_equal.
  - apply matched_eq. rewrite Ep, <- Happ, Hr. unfold close_tag. norm_app.
    reflexivity.
  - f_equal. f_equal. rewrite <- length_app. apply matched_eq. exact Hr.
Qed.

(** ** The element encoding *)

Lemma forallb_map_comp {A B} (f : B -> bool) (g : A -> B) (l : list A) :
  forallb f (map g l) = forallb (fun a => f (g a)) l.
Proof. induction l as [|a l IH]; [reflexivity|]. simpl. rewrite IH. reflexivity. Qed.

Lemma replace_first_exact pat f pre post :
  occurs_first pre pat post = true ->
  replace_first pat f (pre ++ pat ++ post) = pre ++ f pat ++ post.
Proof.
  unfold occurs_first. induction pre as [|a pre IH]; intro H.
  - exact (replace_first_here pat f post).
  - cbn [List.length seq forallb] in H. apply andb_true_iff in H.
    destruct H as [H0 H]. cbn [skipn] in H0. apply negb_true_iff in H0.
    cbn [app replace_first]. cbn [app] in H0. rewrite H0. f_equal. apply IH.
    rewrite <- seq_shift, forallb_map_comp in H. exact H.
Qed.

Lemma hits_exec r : forall s n b h,
  In h (flat_map (fun g => match g with Keep _ => [] | Found _ h => [h] end)
                 (scan r n b s)) ->
  exists s', exec r s' = Some h.
Proof.
  induction s as [|c s IH]; intros n b h.
  - simpl. destruct n; [|intros []]. destruct (exec r []) as [h0|] eqn:E; [|intros []].
    intros [<-|[]]. exists []. exact E.
  - simpl. destruct n as [|n]; [|apply IH].
    destruct (exec r (c :: s)) as [h0|] eqn:E.
    + destruct (List.length (matched h0)); simpl; intros [<-|H];
        try (exists (c :: s); exact E); apply (IH _ _ _ H).
    + simpl. apply IH.
Qed.

Lemma no_dollar_token X cls :
  no_dollar X = true -> no_dollar cls = true -> no_dollar (token X cls) = true.
Proof.
  intros HX Hc. unfold no_dollar, token in *.
  change (DASH :: X ++ cls ++ [DASH]) with ([DASH] ++ X ++ cls ++ [DASH]).
  rewrite !forallb_app. apply andb_true_iff. split; [reflexivity|].
  apply andb_true_iff. split; [exact HX|].
  apply andb_true_iff. split; [exact Hc | reflexivity].
Qed.

Lemma raw_free_token X cls :
  raw_free X = true -> raw_free cls = true -> raw_free (token X cls) = true.
Proof.
  intros HX Hc. unfold raw_free, token in *.
  change (DASH :: X ++ cls ++ [DASH]) with ([DASH] ++ X ++ cls ++ [DASH]).
  rewrite !forallb_app. apply andb_true_iff. split; [reflexivity|].
  apply andb_true_iff. split; [exact HX|].
  apply andb_true_iff. split; [exact Hc | reflexivity].
Qed.

Lemma flat_map_id {A} (g : A -> list A) (l : list A) :
  (forall a, In a l -> g a = [a]) -> flat_map g l = l.
Proof.
  induction l as [|a l IH]; intro H; [reflexivity|]. simpl.
  rewrite (H a (or_introl eq_refl)), IH; [reflexivity|].
  intros x Hx. apply H. right; exact Hx.
Qed.

Lemma pass_skips (p : char -> bool) T l :
  (forall a, p a = true -> raw a = true) -> raw_free l = true ->
  flat_map (fun a => if p a then T else [a]) l = l.
Proof.
  intros Hp Hl. apply flat_map_id. intros a Ha.
  unfold raw_free in Hl. rewrite forallb_forall in Hl. specialize (Hl a Ha).
  destruct (p a) eqn:E; [|reflexivity].
  rewrite (Hp a E) in Hl. discriminate.
Qed.

Lemma raw_eq c0 : raw c0 = true -> forall a, (a =? c0) = true -> raw a = true.
Proof. intros H a Ha. apply N.eqb_eq in Ha. subst. exact H. Qed.

Lemma raw_space a : is_space a = true -> raw a = true.
Proof. intro H. unfold raw. rewrite H. apply orb_true_r. Qed.

Lemma passes_cons {A} (g1 g2 g3 g4 g5 : A -> list A) a x :
  flat_map g5 (flat_map g4 (flat_map g3 (flat_map g2 (flat_map g1 (a :: x)))))
  = flat_map g5 (flat_map g4 (flat_map g3 (flat_map g2 (g1 a))))
    ++ flat_map g5 (flat_map g4 (flat_map g3 (flat_map g2 (flat_map g1 x)))).
Proof. simpl. rewrite !flat_map_app. reflexivity. Qed.

Lemma ignore_capture_stage X x :
  raw_free X = true -> no_dollar X = true ->
  ignore_capture X x = flat_map (stage DASH X ignore_code 0) x.
Proof.
  intros Hraw Hnd. unfold ignore_capture.
  rewrite (replace_chr LT) by (apply no_dollar_token; [exact Hnd | reflexivity]).
  rewrite (replace_chr GT) by (apply no_dollar_token; [exact Hnd | reflexivity]).
  rewrite (replace_chr NL) by (apply no_dollar_token; [exact Hnd | reflexivity]).
  rewrite (replace_chr CR) by (apply no_dollar_token; [exact Hnd | reflexivity]).
  rewrite (replace_cls is_space) by (apply no_dollar_token; [exact Hnd | reflexivity]).
  assert (Ht : forall cls, raw_free cls = true -> raw_free (token X cls) = true)
    by (intros; apply raw_free_token; assumption).
  assert (P2 : forall l T, raw_free l = true ->
                 flat_map (fun a => if a =? GT then T else [a]) l = l)
    by (intros; apply pass_skips; [apply raw_eq; reflexivity | assumption]).
  assert (P3 : forall l T, raw_free l = true ->
                 flat_map (fun a => if a =? NL then T else [a]) l = l)
    by (intros; apply pass_skips; [apply raw_eq; reflexivity | assumption]).
  assert (P4 : forall l T, raw_free l = true ->
                 flat_map (fun a => if a =? CR then T else [a]) l = l)
    by (intros; apply pass_skips; [apply raw_eq; reflexivity | assumption]).
  assert (P5 : forall l T, raw_free l = true ->
                 flat_map (fun a => if is_space a then T else [a]) l = l)
    by (intros; apply pass_skips; [apply raw_space | assumption]).
  induction x as [|a x IH]; [reflexivity|].
  rewrite (passes_cons _ _ _ _ _ a x).
  change (flat_map (stage DASH X ignore_code 0) (a :: x))
    with (stage DASH X ignore_code 0 a ++ flat_map (stage DASH X ignore_code 0) x).
  f_equal; [|exact IH].
  unfold stage, ignore_code, class. cbn [Nat.ltb Nat.leb nth names].
  change (tok DASH X) with (token X).
  destruct (a =? LT) eqn:E1.
  { rewrite P2, P3, P4, P5; try reflexivity; apply Ht; reflexivity. }
  cbn [flat_map app]. destruct (a =? GT) eqn:E2.
  { rewrite app_nil_r, P3, P4, P5; try reflexivity; apply Ht; reflexivity. }
  cbn [flat_map app]. destruct (a =? NL) eqn:E3.
  { rewrite !app_nil_r, P4, P5; try reflexivity; apply Ht; reflexivity. }
  cbn [flat_map app]. destruct (a =? CR) eqn:E4.
  { rewrite !app_nil_r, P5; try reflexivity; apply Ht; reflexivity. }
  cbn [flat_map app]. destruct (is_space a); rewrite ?app_nil_r; reflexivity.
Qed.

Lemma stage0_raw_free X x :
  raw_free X = true -> raw_free (flat_map (stage DASH X ignore_code 0) x) = true.
Proof.
  intro HX. induction x as [|a x IH]; [reflexivity|]. cbn [flat_map].
  unfold raw_free in *. rewrite forallb_app, IH, andb_true_r.
  unfold stage, ignore_code, class. cbn [Nat.ltb Nat.leb nth names].
  assert (Ht : forall cls, raw_free cls = true ->
                 forallb (fun c => negb (raw c)) (tok DASH X cls) = true)
    by (intros cls Hc; apply (raw_free_token X cls HX Hc)).
  destruct (a =? LT) eqn:E1; [apply Ht; reflexivity|].
  destruct (a =? GT) eqn:E2; [apply Ht; reflexivity|].
  destruct (a =? NL) eqn:E3; [apply Ht; reflexivity|].
  destruct (a =? CR) eqn:E4; [apply Ht; reflexivity|].
  destruct (is_space a) eqn:E5; [apply Ht; reflexivity|].
  simpl. unfold raw. rewrite E1, E2, E5. reflexivity.
Qed.

Lemma ignore_capture_raw_free X x :
  raw_free X = true -> no_dollar X = true -> raw_free (ignore_capture X x) = true.
Proof.
  intros HX Hd. rewrite (ignore_capture_stage X x HX Hd). apply stage0_raw_free. exact HX.
Qed.

Lemma setIgnoreElement_single tag X h :
  plain tag = true ->
  setIgnoreElement h (mkConfig [tag] X)
  = Some (replaced (ignore_re tag) (fun _ hit => ignore_callback X hit) h).
Proof.
  intro Hp. unfold setIgnoreElement. cbn [ignore ignore_with setIgnoreElement_loop].
  unfold RegExp_ignore. rewrite Hp. reflexivity.
Qed.

Lemma ignore_miss tag X c s :
  ignore_spec tag (c :: s) = None ->
  replaced (ignore_re tag) (fun _ hit => ignore_callback X hit) (c :: s)
  = c :: replaced (ignore_re tag) (fun _ hit => ignore_callback X hit) s.
Proof.
  intro H. apply replaced_miss; [intros; reflexivity|].
  rewrite exec_ignore_re, H. reflexivity.
Qed.

Lemma ignore_spec_shape tag s op inner rest :
  ignore_spec tag s = Some (op, inner, rest) ->
  s = op ++ inner ++ close_tag tag ++ rest
  /\ forallb is_any inner = true
  /\ exists y, op = LT :: tag ++ y ++ [GT] /\ forallb (is_not GT) y = true.
Proof.
  unfold ignore_spec. destruct s as [|a u]; [discriminate|].
  destruct (a =? LT) eqn:Ea; [|discriminate]. apply N.eqb_eq in Ea. subst a.
  destruct (prefixb tag u) eqn:Ep; [|discriminate]. apply prefixb_true in Ep.
  pose proof (span_app (is_not GT) (skipn (List.length tag) u)) as Happ.
  pose proof (span_all (is_not GT) (skipn (List.length tag) u)) as Hall.
  pose proof (span_stops (is_not GT) (skipn (List.length tag) u)) as Hstop.
  destruct (span (is_not GT) (skipn (List.length tag) u)) as [y r2]. cbn [fst snd] in *.
  destruct r2 as [|g r3]; [discriminate|].
  apply is_not_false in Hstop. subst g.
  destruct (find_close tag r3) as [[i r]|] eqn:Ef; [|discriminate].
  intros [= <- <- <-]. destruct (find_close_shape _ _ _ _ Ef) as [Hr Hi].
  split; [|split; [exact Hi | exists y; split; [reflexivity | exact Hall]]].
  rewrite Ep, <- Happ, Hr. norm_app. reflexivity.
Qed.

Lemma ignore_callback_hit tag X op inner rest :
  occurs_first op inner (close_tag tag) = true ->
  ignore_callback X (ignore_hit tag (op, inner, rest))
  = op ++ ignore_capture X inner ++ close_tag tag.
Proof.
  intro H. unfold ignore_callback, ignore_hit, group. cbn [groups cap_get Nat.eqb matched].
  apply replace_first_exact. exact H.
Qed.

Lemma stage0_encoded X a : stage DASH X ignore_code 0 a = ignore_encoded X a.
Proof.
  unfold stage, ignore_code, class, ignore_encoded. cbn [Nat.ltb Nat.leb nth names].
  change (tok DASH X) with (token X).
  destruct (a =? LT); [reflexivity|]. destruct (a =? GT); [reflexivity|].
  destruct (a =? NL); [reflexivity|]. destruct (a =? CR); [reflexivity|].
  destruct (is_space a); reflexivity.
Qed.

(** The five replacements of the callback amount to one substitution,
    character by character. *)
Lemma ignore_capture_encoded X x :
  raw_free X = true -> no_dollar X = true ->
  ignore_capture X x = flat_map (ignore_encoded X) x.
Proof.
  intros HX Hd. rewrite (ignore_capture_stage X x HX Hd).
  apply flat_map_ext. intro a. apply stage0_encoded.
Qed.

Lemma replace_first_ext pat f g :
  (forall x, f x = g x) -> forall s, replace_first pat f s = replace_first pat g s.
Proof.
  intros H s. induction s as [|c s IH]; cbn [replace_first]; rewrite H; [reflexivity|].
  rewrite IH. reflexivity.
Qed.

Lemma raw_free_fixed X x :
  raw_free x = true -> flat_map (ignore_encoded X) x = x.
Proof.
  intro H. apply flat_map_id. intros a Ha.
  unfold raw_free in H. rewrite forallb_forall in H. specialize (H a Ha).
  unfold raw in H. apply negb_true_iff in H.
  apply orb_false_iff in H. destruct H as [H H3].
  apply orb_false_iff in H. destruct H as [H1 H2].
  unfold ignore_encoded. rewrite H1, H2.
  destruct (a =? NL) eqn:E3.
  { apply N.eqb_eq in E3. subst a. discriminate H3. }
  destruct (a =? CR) eqn:E4.
  { apply N.eqb_eq in E4. subst a. discriminate H3. }
  rewrite H3. reflexivity.
Qed.

(** C7, as the code has it: with [ignore = ["script"]] and a sentinel
    that holds no [<], [>], whitespace or [$], the five replacements of
    the callback write, for every character of the captured inner content,
    the token of its class ([lt], [gt], [nl], [ws]; the character itself
    when it has none), so that the encoding holds no raw [<], [>] or
    whitespace; the encoding is written in the place of the inner content
    whenever the inner content does not occur earlier in the matched text
    or has nothing to encode; for [<script>var a = "<b>";</script>] that
    is the case. *)
Theorem C7_ignored_content_is_opaque :
  forall X,
    raw_free X = true -> no_dollar X = true ->
    (setIgnoreElement doc_script (mkConfig [TAG_SCRIPT] X)
     = Some (str "<script>" ++ flat_map (ignore_encoded X) doc_script_body
               ++ str "</script>")) /\
    (forall x, ignore_capture X x = flat_map (ignore_encoded X) x
               /\ raw_free (flat_map (ignore_encoded X) x) = true) /\
    (forall h,
        setIgnoreElement h (mkConfig [TAG_SCRIPT] X)
        = Some (replaced (ignore_re TAG_SCRIPT)
                  (fun _ hit => replace_first (group 1 hit) (flat_map (ignore_encoded X))
                                  (matched hit)) h)) /\
    (forall h hit,
        In hit (hits (ignore_re TAG_SCRIPT) h) ->
        exists op inner rest,
          hit = ignore_hit TAG_SCRIPT (op, inner, rest)
          /\ (occurs_first op inner (close_tag TAG_SCRIPT) = true \/ raw_free inner = true ->
              replace_first (group 1 hit) (flat_map (ignore_encoded X)) (matched hit)
              = op ++ flat_map (ignore_encoded X) inner ++ close_tag TAG_SCRIPT)).
Proof.
  intros X HX Hd.
  assert (Hcap : forall x, ignore_capture X x = flat_map (ignore_encoded X) x)
    by (intro x; apply ignore_capture_encoded; assumption).
  assert (Hall : forall h,
            setIgnoreElement h (mkConfig [TAG_SCRIPT] X)
            = Some (replaced (ignore_re TAG_SCRIPT)
                      (fun _ hit => replace_first (group 1 hit)
                                      (flat_map (ignore_encoded X)) (matched hit)) h)).
  { intro h. rewrite setIgnoreElement_single by reflexivity. f_equal.
    unfold replaced. apply flat_map_ext. intros [c|b hit]; [reflexivity|].
    cbn [render]. unfold ignore_callback. apply replace_first_ext. exact Hcap. }
  split; [|split; [|split]].
  - rewrite Hall. f_equal.
    assert (Hs : ignore_spec TAG_SCRIPT doc_script
                 = Some (str "<script>", doc_script_body, [])) by (vm_compute; reflexivity).
    rewrite (replaced_hit (ignore_re TAG_SCRIPT)
               (fun _ hit => replace_first (group 1 hit) (flat_map (ignore_encoded X))
                               (matched hit))
               (fun _ _ _ => eq_refl) doc_script
               (ignore_hit TAG_SCRIPT (str "<script>", doc_script_body, []))
               doc_script []);
      [| rewrite exec_ignore_re, Hs; reflexivity | vm_compute; reflexivity
       | discriminate | vm_compute; reflexivity].
    rewrite replaced_nil by reflexivity. rewrite app_nil_r.
    unfold ignore_hit, group. cbn [groups cap_get Nat.eqb matched].
    apply replace_first_exact. vm_compute. reflexivity.
  - intro x. split; [apply Hcap|]. rewrite <- Hcap.
    apply ignore_capture_raw_free; assumption.
  - exact Hall.
  - intros h hit Hin. destruct (hits_exec _ _ _ _ _ Hin) as [s' Hs'].
    rewrite exec_ignore_re in Hs'.
    destruct (ignore_spec TAG_SCRIPT s') as [[[op inner] rest]|] eqn:E; [|discriminate].
    injection Hs' as <-. exists op, inner, rest.
    split; [reflexivity|].
    unfold ignore_hit, group. cbn [groups cap_get Nat.eqb matched].
    intros [Ho|Hr]; [apply replace_first_exact; exact Ho|].
    rewrite (raw_free_fixed X inner Hr).
    apply replace_first_id. exact (raw_free_fixed X inner Hr).
Qed.

Lemma C7_witness :
  setIgnoreElement doc_script (mkConfig [TAG_SCRIPT] (str "X"))
  = Some (str "<script>" ++ flat_map (ignore_encoded (str "X")) doc_script_body
            ++ str "</script>")
  /\ raw_free (flat_map (ignore_encoded (str "X")) doc_script_body) = true.
Proof.
  destruct (C7_ignored_content_is_opaque (str "X") eq_refl eq_refl) as (H1 & H2 & _).
  split; [exact H1 | exact (proj2 (H2 doc_script_body))].
Defined.

(** C7, the claim as worded, fails: with a sentinel that is a space the
    encoded inner content holds raw spaces; and with the sentinel [X], a
    script element whose inner content (one space) also occurs in its
    opening tag keeps its inner content raw, the space of the tag being
    replaced instead. *)
Lemma C7_counterexample :
  (setIgnoreElement doc_script (mkConfig [TAG_SCRIPT] (str " "))
   = Some (str "<script>" ++ ignore_capture (str " ") doc_script_body ++ str "</script>")
   /\ existsb is_space (ignore_capture (str " ") doc_script_body) = true)
  /\
  setIgnoreElement doc_script_attr (mkConfig [TAG_SCRIPT] (str "X"))
  = Some (str "<script-Xws-defer> </script>").
Proof. split; [split|]; vm_compute; reflexivity. Qed.

(** ** The trimmer *)

Lemma exec_leading tag s :
  exec (leading_whitespace tag) s = option_map lead_hit (lead_spec tag s).
Proof.
  unfold exec, leading_whitespace, Plus.
  destruct s as [|a u]; [reflexivity|].
  rewrite m_seq, m_group, m_seq, m_chr. cbn [lead_spec].
  destruct (a =? LT) eqn:Ea; [|reflexivity]. apply N.eqb_eq in Ea. subst a.
  rewrite m_seq_lit. destruct (prefixb tag u) eqn:Ep; [|reflexivity].
  apply prefixb_true in Ep. set (u1 := skipn (List.length tag) u) in *.
  rewrite m_seq, m_greedy_cls, greedy_run_stop.
  2:{ intros a s0 cs Ha. rewrite m_chr. unfold is_not in Ha.
      apply negb_true_iff in Ha. rewrite Ha. reflexivity. }
  pose proof (span_app (is_not GT) u1) as Happ.
  pose proof (span_stops (is_not GT) u1) as Hstop.
  destruct (span (is_not GT) u1) as [y r2]. cbn [fst snd] in *.
  destruct r2 as [|g r3]; [reflexivity|].
  apply is_not_false in Hstop. subst g.
  rewrite m_chr. change (GT =? GT) with true. cbn iota.
  rewrite m_seq. destruct r3 as [|c r3']; [reflexivity|].
  rewrite m_cls. cbn [span]. destruct (is_space c) eqn:Ec; [|reflexivity].
  rewrite m_greedy_cls.
  pose proof (span_app is_space r3') as Happ2.
  pose proof (span_all is_space r3') as Hall2.
  pose proof (span_stops is_space r3') as Hstop2.
  destruct (span is_space r3') as [w rest]. cbn [fst snd] in *.
  rewrite <- Happ2 at 1.
  set (cs := [(1%nat, _)]).
  rewrite (greedy_run_first is_space K0 cs w rest (rest, cs) Hall2 eq_refl Hstop2).
  cbn [option_map lead_hit]. unfold cs. f_equal. f_equal.
  - apply matched_eq. rewrite Ep, <- Happ, <- Happ2. norm_app. reflexivity.
  - f_equal. f_equal. apply matched_eq. rewrite Ep, <- Happ. norm_app. reflexivity.
Qed.

Lemma trim_leading_replaced tag s :
  trim_leading tag s = replaced (leading_whitespace tag) (fun _ h => group 1 h ++ []) s.
Proof. reflexivity. Qed.

Lemma lead_spec_tag tag x w rest :
  forallb (is_not GT) x = true -> w <> [] -> forallb is_space w = true ->
  match rest with a :: _ => is_space a = false | [] => True end ->
  lead_spec tag (LT :: tag ++ x ++ GT :: w ++ rest)
  = Some (LT :: tag ++ x ++ [GT], w, rest).
Proof.
  intros Hx Hw Hws Hrest. cbn [lead_spec]. change (LT =? LT) with true. cbn iota.
  rewrite prefixb_app, skipn_app_exact.
  rewrite (span_eq (is_not GT) x (GT :: w ++ rest) Hx eq_refl).
  rewrite (span_eq is_space w rest Hws Hrest).
  destruct w; [contradiction | reflexivity].
Qed.


(** ** The round trip of the element encoding, one tag *)

Lemma plain_no_dollar X : plain X = true -> no_dollar X = true.
Proof.
  unfold plain, no_dollar. induction X as [|c X IH]; [reflexivity|].
  cbn [forallb]. intro H. apply andb_true_iff in H. destruct H as [Hc HX].
  rewrite (IH HX), andb_true_r. apply negb_true_iff.
  destruct (c =? DOLLAR) eqn:E; [|reflexivity].
  apply N.eqb_eq in E. subst c. discriminate.
Qed.

Lemma plain_token X cls :
  plain X = true -> plain cls = true -> plain (token X cls) = true.
Proof.
  intros HX Hc. unfold plain, token in *.
  change (DASH :: X ++ cls ++ [DASH]) with ([DASH] ++ X ++ cls ++ [DASH]).
  rewrite !forallb_app. apply andb_true_iff. split; [reflexivity|].
  apply andb_true_iff. split; [exact HX|].
  apply andb_true_iff. split; [exact Hc | reflexivity].
Qed.

Lemma unignore_capture_decode X y :
  plain X = true -> unignore_capture X y = Some (ignore_decode X y).
Proof.
  intro HX. unfold unignore_capture, unignore_step, RegExp.
  rewrite !plain_token by (exact HX || reflexivity). reflexivity.
Qed.

Lemma unignore_hits_decode X : plain X = true -> forall segs,
  unignore_hits X segs
  = Some (flat_map (render (fun _ hit =>
                      replace_first (group 1 hit) (ignore_decode X) (matched hit)))
                   segs).
Proof.
  intros HX segs. unfold unignore_hits.
  induction segs as [|g segs IH]; [reflexivity|].
  cbn [fold_right flat_map]. rewrite IH. destruct g as [c|b h]; [reflexivity|].
  rewrite (unignore_capture_decode X _ HX). cbn [render]. f_equal. f_equal.
  generalize (matched h) as s. induction s as [|c s IHs]; cbn [replace_first];
    destruct (prefixb (group 1 h) _); try reflexivity.
  rewrite IHs. reflexivity.
Qed.

Lemma unsetIgnoreElement_single tag X h :
  plain tag = true -> plain X = true ->
  unsetIgnoreElement h (mkConfig [tag] X) = Some (decode_tag tag X h).
Proof.
  intros Ht HX. unfold unsetIgnoreElement.
  cbn [ignore ignore_with unsetIgnoreElement_loop]. unfold RegExp_ignore. rewrite Ht.
  rewrite (unignore_hits_decode X HX). reflexivity.
Qed.

Lemma ignore_code_ok X :
  raw_free X = true -> border_free DASH X ignore_code = true ->
  code_ok DASH X ignore_code.
Proof.
  intros HX Hb. unfold code_ok. split; [|split; [|split; [|split; [|split]]]].
  - repeat constructor; simpl; intuition discriminate.
  - intros b [<-|[<-|[<-|[<-|[<-|[]]]]]]; reflexivity.
  - reflexivity.
  - intros a i. simpl.
    repeat match goal with
           | |- (if ?c then _ else _) = _ -> _ => destruct c; [intros [= <-]; lia|]
           end.
    discriminate.
  - intros c Hc. unfold raw_free in HX. rewrite forallb_forall in HX.
    split.
    + intro Hin. specialize (HX c Hin). apply negb_true_iff in HX.
      destruct Hc as [<-|[<-|[<-|[<-|[<-|[]]]]]]; discriminate.
    + destruct Hc as [<-|[<-|[<-|[<-|[<-|[]]]]]]; discriminate.
  - exact Hb.
Qed.

Lemma ignore_roundtrip X inner :
  plain X = true -> raw_free X = true -> border_free DASH X ignore_code = true ->
  avoids X inner = true -> forallb (faithful ignore_code) inner = true ->
  ignore_decode X (ignore_capture X inner) = inner.
Proof.
  intros Hp HX Hb Ha Hf.
  rewrite (ignore_capture_stage X inner HX (plain_no_dollar X Hp)).
  apply (decode_encode DASH X ignore_code (ignore_code_ok X HX Hb) inner Ha Hf).
Qed.

Section OneTag.

Variables (tag X : jsstring).
Hypothesis tag_no_gt : forallb (is_not GT) tag = true.
Hypothesis X_plain : plain X = true.
Hypothesis X_raw_free : raw_free X = true.
Hypothesis X_border_free : border_free DASH X ignore_code = true.

Local Abbreviation close := (close_tag tag).
Local Abbreviation enc := (ignore_capture X).
Local Abbreviation dec := (ignore_decode X).
Local Abbreviation E := (encode_tag tag X).
Local Abbreviation D := (decode_tag tag X).

Lemma encode_miss c s : ignore_spec tag (c :: s) = None -> E (c :: s) = c :: E s.
Proof. apply ignore_miss. Qed.

Lemma decode_miss c s : ignore_spec tag (c :: s) = None -> D (c :: s) = c :: D s.
Proof.
  intro H. apply replaced_miss; [intros; reflexivity|].
  rewrite exec_ignore_re, H. reflexivity.
Qed.

Lemma group1_ignore_hit op inner rest : group 1 (ignore_hit tag (op, inner, rest)) = inner.
Proof. reflexivity. Qed.

Lemma enc_fixed inner : raw_free inner = true -> enc inner = inner.
Proof.
  intro H. rewrite (ignore_capture_encoded X inner X_raw_free (plain_no_dollar X X_plain)).
  exact (raw_free_fixed X inner H).
Qed.

Lemma encode_hit s op inner rest :
  ignore_spec tag s = Some (op, inner, rest) ->
  occurs_first op inner close = true \/ raw_free inner = true ->
  E s = op ++ enc inner ++ close ++ E rest.
Proof.
  intros H Ho. destruct (ignore_spec_shape _ _ _ _ _ H) as (Hs & _ & (y & -> & _)).
  unfold encode_tag.
  rewrite (replaced_hit (ignore_re tag) (fun _ hit => ignore_callback X hit)
             (fun _ _ _ => eq_refl) s (ignore_hit tag (LT :: tag ++ y ++ [GT], inner, rest))
             ((LT :: tag ++ y ++ [GT]) ++ inner ++ close) rest);
    [| rewrite exec_ignore_re, H; reflexivity | reflexivity | discriminate
     | rewrite Hs; norm_app; reflexivity].
  cbv beta.
  assert (Hc : ignore_callback X (ignore_hit tag (LT :: tag ++ y ++ [GT], inner, rest))
               = (LT :: tag ++ y ++ [GT]) ++ enc inner ++ close).
  { destruct Ho as [Ho|Ho]; [exact (ignore_callback_hit tag X _ inner rest Ho)|].
    unfold ignore_callback. rewrite group1_ignore_hit. cbn [ignore_hit matched].
    rewrite (replace_first_id inner enc (enc_fixed inner Ho)), (enc_fixed inner Ho).
    reflexivity. }
  etransitivity; [apply (f_equal (fun z => z ++ _) Hc)|]. norm_app. reflexivity.
Qed.

Lemma decode_hit s op u rest :
  ignore_spec tag s = Some (op, u, rest) ->
  occurs_first op u close = true \/ dec u = u ->
  D s = op ++ dec u ++ close ++ D rest.
Proof.
  intros H Ho. destruct (ignore_spec_shape _ _ _ _ _ H) as (Hs & _ & (y & -> & _)).
  unfold decode_tag.
  rewrite (replaced_hit (ignore_re tag)
             (fun _ hit => replace_first (group 1 hit) dec (matched hit))
             (fun _ _ _ => eq_refl) s (ignore_hit tag (LT :: tag ++ y ++ [GT], u, rest))
             ((LT :: tag ++ y ++ [GT]) ++ u ++ close) rest);
    [| rewrite exec_ignore_re, H; reflexivity | reflexivity | discriminate
     | rewrite Hs; norm_app; reflexivity].
  cbv beta. rewrite group1_ignore_hit. cbn [ignore_hit matched].
  destruct Ho as [Ho|Ho].
  - rewrite (replace_first_exact u dec _ close Ho). norm_app. reflexivity.
  - rewrite (replace_first_id u dec Ho). rewrite Ho. norm_app. reflexivity.
Qed.

(** *** The encoded element is matched as the element was *)

Lemma raw_free_any l : raw_free l = true -> forallb is_any l = true.
Proof.
  unfold raw_free. induction l as [|a l IH]; [reflexivity|]. cbn [forallb].
  intro H. apply andb_true_iff in H. destruct H as [Ha Hl]. rewrite (IH Hl), andb_true_r.
  apply negb_true_iff in Ha. unfold raw in Ha.
  apply orb_false_iff in Ha. destruct Ha as [_ Hs].
  unfold is_any, is_dot. destruct (a =? NL) eqn:E; [apply orb_true_r|].
  rewrite orb_false_r. apply negb_true_iff.
  destruct ((a =? 10) || (a =? 13) || (a =? 8232) || (a =? 8233)) eqn:Eb; [|reflexivity].
  exfalso. repeat (apply orb_true_iff in Eb; destruct Eb as [Eb|Eb]);
    apply N.eqb_eq in Eb; subst a; discriminate.
Qed.

Lemma find_close_eq s :
  find_close tag s
  = if prefixb close s then Some ([], skipn (List.length close) s)
    else match s with
         | c :: s' =>
             if is_any c then
               match find_close tag s' with
               | Some (inner, rest) => Some (c :: inner, rest)
               | None => None
               end
             else None
         | [] => None
         end.
Proof. destruct s; reflexivity. Qed.

Lemma find_close_through u z :
  raw_free u = true -> find_close tag (u ++ close ++ z) = Some (u, z).
Proof.
  intro Hu. pose proof (raw_free_any u Hu) as Hany.
  induction u as [|a u IH].
  - cbn [app]. rewrite find_close_eq, prefixb_app, skipn_app_exact. reflexivity.
  - unfold raw_free in Hu. cbn [forallb] in Hu, Hany.
    apply andb_true_iff in Hu. destruct Hu as [Ha Hu].
    apply andb_true_iff in Hany. destruct Hany as [Hya Hany].
    cbn [app find_close].
    assert (Hp : prefixb close (a :: u ++ close ++ z) = false).
    { unfold close_tag. cbn [prefixb]. apply negb_true_iff in Ha. unfold raw in Ha.
      apply orb_false_iff in Ha. destruct Ha as [Ha _].
      apply orb_false_iff in Ha. destruct Ha as [Ha _].
      rewrite N.eqb_sym, Ha. reflexivity. }
    rewrite Hp, Hya, (IH Hu Hany). reflexivity.
Qed.

Lemma ignore_spec_encoded y u z :
  forallb (is_not GT) y = true -> raw_free u = true ->
  ignore_spec tag ((LT :: tag ++ y ++ [GT]) ++ u ++ close ++ z)
  = Some (LT :: tag ++ y ++ [GT], u, z).
Proof.
  intros Hy Hu. cbn [app ignore_spec]. change (LT =? LT) with true. cbn iota.
  rewrite <- !app_assoc, prefixb_app, skipn_app_exact. cbn [app].
  rewrite (span_eq (is_not GT) y (GT :: u ++ close ++ z) Hy eq_refl).
  rewrite (find_close_through u z Hu). reflexivity.
Qed.

(** *** A miss stays a miss *)

Lemma prefixb_close_local c' : forallb (is_not GT) c' = true ->
  forall u A B, prefixb (c' ++ [GT]) ((u ++ [GT]) ++ A) = prefixb (c' ++ [GT]) ((u ++ [GT]) ++ B).
Proof.
  induction c' as [|x c' IH]; intros Hc u A B.
  - destruct u; reflexivity.
  - cbn [forallb] in Hc. apply andb_true_iff in Hc. destruct Hc as [Hx Hc].
    destruct u as [|a u].
    + cbn [app prefixb]. unfold is_not in Hx. apply negb_true_iff in Hx.
      rewrite Hx. reflexivity.
    + cbn [app prefixb]. rewrite (IH Hc u A B). reflexivity.
Qed.

Lemma close_local u A B :
  prefixb close ((u ++ [GT]) ++ A) = prefixb close ((u ++ [GT]) ++ B).
Proof.
  unfold close_tag.
  change (LT :: SLASH :: tag ++ [GT]) with ((LT :: SLASH :: tag) ++ [GT]).
  apply prefixb_close_local. cbn [forallb]. rewrite tag_no_gt. reflexivity.
Qed.

Lemma find_close_stable : forall u2 A B,
  (u2 = [] \/ exists u', u2 = u' ++ [GT]) ->
  find_close tag (u2 ++ A) = None -> find_close tag A <> None ->
  find_close tag (u2 ++ B) = None.
Proof.
  induction u2 as [|c u2 IH]; intros A B Hu HA HnA.
  - contradiction.
  - destruct Hu as [Hu|[u' Hu]]; [discriminate|].
    cbn [app find_close] in *.
    change (c :: u2 ++ A) with ((c :: u2) ++ A) in HA.
    change (c :: u2 ++ B) with ((c :: u2) ++ B).
    rewrite Hu in *. rewrite (close_local u' B A).
    destruct (prefixb close ((u' ++ [GT]) ++ A)); [discriminate|].
    destruct (is_any c); [|reflexivity].
    destruct (find_close tag (u2 ++ A)) as [[i r]|] eqn:Ef; [discriminate|].
    rewrite (IH A B); [reflexivity | | exact Ef | exact HnA].
    destruct u' as [|c0 u'']; injection Hu as -> ->; [left; reflexivity|].
    right. exists u''. reflexivity.
Qed.

Lemma prefixb_shared t u A B :
  (List.length t <= List.length u)%nat -> prefixb t (u ++ A) = prefixb t (u ++ B).
Proof.
  revert u. induction t as [|x t IH]; intros u Hl; [reflexivity|].
  destruct u as [|a u]; [simpl in Hl; lia|].
  cbn [app prefixb]. rewrite (IH u) by (simpl in Hl; lia). reflexivity.
Qed.

Lemma miss_stable c pre y A B :
  forallb (is_not GT) y = true ->
  find_close tag A <> None ->
  ignore_spec tag (c :: pre ++ (LT :: tag ++ y ++ [GT]) ++ A) = None ->
  ignore_spec tag (c :: pre ++ (LT :: tag ++ y ++ [GT]) ++ B) = None.
Proof.
  intros Hy HA. cbn [ignore_spec]. destruct (c =? LT); [|reflexivity].
  set (op := LT :: tag ++ y ++ [GT]).
  assert (Hlen : (List.length tag <= List.length (pre ++ op))%nat).
  { unfold op. rewrite length_app. cbn [List.length]. rewrite !length_app. lia. }
  rewrite !app_assoc.
  rewrite (prefixb_shared tag (pre ++ op) B A Hlen).
  destruct (prefixb tag ((pre ++ op) ++ A)) eqn:Ep; [|reflexivity].
  rewrite (skipn_app (List.length tag) (pre ++ op) A).
  rewrite (skipn_app (List.length tag) (pre ++ op) B).
  replace (List.length tag - List.length (pre ++ op))%nat with 0%nat by lia.
  cbn [skipn].
  (* what is left of [pre ++ op] after the tag name ends with [>] *)
  assert (Hu1 : exists v, skipn (List.length tag) (pre ++ op) = v ++ [GT]).
  { unfold op.
    replace (pre ++ LT :: tag ++ y ++ [GT]) with ((pre ++ LT :: tag ++ y) ++ [GT])
      by (norm_app; reflexivity).
    rewrite skipn_app.
    replace (List.length tag - List.length (pre ++ LT :: tag ++ y))%nat with 0%nat
      by (rewrite length_app; cbn [List.length]; rewrite length_app; lia).
    cbn [skipn]. eexists. reflexivity. }
  destruct Hu1 as [v Hv]. rewrite Hv.
  (* the first [>] of it *)
  pose proof (span_app (is_not GT) v) as Happ.
  pose proof (span_all (is_not GT) v) as Hall.
  pose proof (span_stops (is_not GT) v) as Hstop.
  destruct (span (is_not GT) v) as [y0 r] eqn:Es. cbn [fst snd] in *.
  assert (Hsp : forall Z, span (is_not GT) ((v ++ [GT]) ++ Z)
                          = (y0, match r with
                                 | [] => GT :: Z
                                 | _ :: _ => r ++ [GT] ++ Z
                                 end)).
  { intro Z. rewrite <- Happ. destruct r as [|g r'].
    - rewrite app_nil_r. rewrite <- app_assoc. apply span_eq; [exact Hall | reflexivity].
    - rewrite <- !app_assoc. cbn [app]. apply span_eq; [exact Hall | exact Hstop]. }
  rewrite !Hsp. destruct r as [|g r'].
  - intro H. destruct (find_close tag A) eqn:EA; [|contradiction].
    destruct p. discriminate.
  - cbn [app]. intro H.
    destruct (find_close tag (r' ++ GT :: A)) as [[i rr]|] eqn:Ef; [discriminate|].
    change (r' ++ GT :: B) with (r' ++ [GT] ++ B). rewrite app_assoc.
    rewrite (find_close_stable (r' ++ [GT]) A B); [reflexivity | | | exact HA].
    + right. exists r'. reflexivity.
    + rewrite <- app_assoc. exact Ef.
Qed.

(** *** The elements of a document along the scan *)

Lemma ignore_spec_close s op inner rest :
  ignore_spec tag s = Some (op, inner, rest) ->
  find_close tag (inner ++ close ++ rest) = Some (inner, rest).
Proof.
  unfold ignore_spec. destruct s as [|a u]; [discriminate|].
  destruct (a =? LT); [|discriminate].
  destruct (prefixb tag u); [|discriminate].
  destruct (span (is_not GT) (skipn (List.length tag) u)) as [y r2].
  destruct r2 as [|g r3]; [discriminate|].
  destruct (find_close tag r3) as [[i r]|] eqn:Ef; [|discriminate].
  intros [= <- <- <-]. destruct (find_close_shape _ _ _ _ Ef) as [Hr _].
  rewrite <- Hr. exact Ef.
Qed.

Lemma element_of_hit op inner rest :
  element_of tag (ignore_hit tag (op, inner, rest)) = (op, inner).
Proof.
  unfold element_of. rewrite group1_ignore_hit. cbn [ignore_hit matched].
  f_equal. rewrite <- Nat.sub_add_distr, <- length_app. apply matched_eq. reflexivity.
Qed.

Lemma elements_miss c s :
  ignore_spec tag (c :: s) = None -> elements tag (c :: s) = elements tag s.
Proof.
  intro H. unfold elements. rewrite hits_miss; [reflexivity|].
  rewrite exec_ignore_re, H. reflexivity.
Qed.

Lemma elements_hit s op inner rest :
  ignore_spec tag s = Some (op, inner, rest) ->
  elements tag s = (op, inner) :: elements tag rest.
Proof.
  intro H. destruct (ignore_spec_shape _ _ _ _ _ H) as (Hs & _ & (y & -> & _)).
  unfold elements.
  rewrite (hits_hit (ignore_re tag) s (ignore_hit tag (LT :: tag ++ y ++ [GT], inner, rest))
             ((LT :: tag ++ y ++ [GT]) ++ inner ++ close) rest);
    [| rewrite exec_ignore_re, H; reflexivity | reflexivity | discriminate
     | rewrite Hs; norm_app; reflexivity].
  cbn [map]. rewrite element_of_hit. reflexivity.
Qed.

Lemma element_ok_parts op inner :
  element_ok tag X (op, inner) = true ->
  avoids X inner = true /\ forallb (faithful ignore_code) inner = true
  /\ (occurs_first op inner close = true \/ raw_free inner = true)
  /\ (occurs_first op (enc inner) close = true \/ dec (enc inner) = enc inner).
Proof.
  unfold element_ok. intro H.
  apply andb_true_iff in H. destruct H as [H H3].
  apply andb_true_iff in H. destruct H as [H1 H2].
  split; [exact H1|]. split; [exact H2|].
  apply orb_true_iff in H3. destruct H3 as [Hr|Ho].
  - split; [right; exact Hr|]. right.
    rewrite (ignore_roundtrip X inner X_plain X_raw_free X_border_free H1 H2).
    symmetry. exact (enc_fixed inner Hr).
  - apply andb_true_iff in Ho. destruct Ho as [Ho Ho']. split; left; assumption.
Qed.

(** Up to its first matched element, the encoder copies the document. *)
Lemma encode_first_hit : forall s,
  (forall e, In e (elements tag s) -> element_ok tag X e = true) ->
  E s = s \/
  exists pre y inner rest,
    s = pre ++ (LT :: tag ++ y ++ [GT]) ++ inner ++ close ++ rest
    /\ forallb (is_not GT) y = true
    /\ find_close tag (inner ++ close ++ rest) <> None
    /\ E s = pre ++ (LT :: tag ++ y ++ [GT]) ++ enc inner ++ close ++ E rest.
Proof.
  induction s as [|c s IH]; intro Hok; [left; reflexivity|].
  destruct (ignore_spec tag (c :: s)) as [[[op inner] rest]|] eqn:Es.
  - right. destruct (ignore_spec_shape _ _ _ _ _ Es) as (Hs & _ & (y & -> & Hy)).
    rewrite (elements_hit _ _ _ _ Es) in Hok.
    destruct (element_ok_parts _ _ (Hok _ (or_introl eq_refl))) as (_ & _ & Ho & _).
    exists [], y, inner, rest. split; [exact Hs|]. split; [exact Hy|]. split.
    + rewrite (ignore_spec_close _ _ _ _ Es). discriminate.
    + cbn [app]. rewrite (encode_hit _ _ _ _ Es Ho). reflexivity.
  - rewrite (elements_miss _ _ Es) in Hok. rewrite (encode_miss _ _ Es).
    destruct (IH Hok) as [Heq|(pre & y & inner & rest & Hs & Hy & Hf & HE)].
    + left. rewrite Heq. reflexivity.
    + right. exists (c :: pre), y, inner, rest.
      split; [rewrite Hs; reflexivity|]. split; [exact Hy|]. split; [exact Hf|].
      rewrite HE. reflexivity.
Qed.

Lemma decode_encode_bounded : forall k h,
  (List.length h <= k)%nat ->
  (forall e, In e (elements tag h) -> element_ok tag X e = true) ->
  D (E h) = h.
Proof.
  induction k as [|k IH]; intros h Hk Hok.
  - destruct h; [reflexivity | simpl in Hk; lia].
  - destruct h as [|c s]; [reflexivity|].
    destruct (ignore_spec tag (c :: s)) as [[[op inner] rest]|] eqn:Es.
    + destruct (ignore_spec_shape _ _ _ _ _ Es) as (Hs & _ & (y & -> & Hy)).
      rewrite (elements_hit _ _ _ _ Es) in Hok.
      destruct (element_ok_parts _ _ (Hok _ (or_introl eq_refl)))
        as (Hav & Hfa & Ho & Ho').
      assert (Hrest : D (E rest) = rest).
      { apply IH; [|intros e He; apply Hok; right; exact He].
        apply (f_equal (@List.length char)) in Hs.
        rewrite !length_app in Hs. cbn [List.length] in Hs, Hk. lia. }
      rewrite (encode_hit _ _ _ _ Es Ho).
      assert (Hraw : raw_free (enc inner) = true)
        by (apply ignore_capture_raw_free; [exact X_raw_free | apply plain_no_dollar; exact X_plain]).
      pose proof (ignore_spec_encoded y (enc inner) (E rest) Hy Hraw) as Es'.
      rewrite (decode_hit _ _ _ _ Es' Ho'), Hrest.
      rewrite (ignore_roundtrip X inner X_plain X_raw_free X_border_free Hav Hfa).
      rewrite Hs. norm_app. reflexivity.
    + rewrite (elements_miss _ _ Es) in Hok. rewrite (encode_miss _ _ Es).
      assert (Es' : ignore_spec tag (c :: E s) = None).
      { destruct (encode_first_hit s Hok)
          as [Heq|(pre & y & inner & rest & Hs & Hy & Hf & HE)].
        - rewrite Heq. exact Es.
        - rewrite HE. apply (miss_stable c pre y (inner ++ close ++ rest)); [exact Hy | exact Hf|].
          rewrite <- Hs. exact Es. }
      rewrite (decode_miss _ _ Es'). f_equal.
      apply IH; [simpl in Hk; lia | exact Hok].
Qed.

End OneTag.

(** ** Several ignored tags *)

Lemma name_not_lt a : is_name_char a = true -> (a =? LT) = false.
Proof. intro H. apply name_char_cases in H. apply N.eqb_neq. unfold LT. lia. Qed.

Lemma names_not_lt v : forallb is_name_char v = true -> forallb (is_not LT) v = true.
Proof.
  apply forallb_impl. intros a Ha. unfold is_not. rewrite (name_not_lt a Ha). reflexivity.
Qed.

Lemma tag_name_parts t :
  tag_name t = true -> t <> [] /\ forallb is_name_char t = true.
Proof. destruct t; [discriminate|]. intro H. split; [discriminate | exact H]. Qed.

(** A tag name does not go past a [>]. *)
Lemma prefixb_name_gt t :
  forallb is_name_char t = true ->
  forall u z, prefixb t (u ++ GT :: z) = prefixb t u.
Proof.
  induction t as [|a t IH]; intros Ht u z; [reflexivity|].
  cbn [forallb] in Ht. apply andb_true_iff in Ht. destruct Ht as [Ha Ht].
  destruct u as [|b u]; cbn [app prefixb].
  - pose proof (name_not_gt a Ha) as Hg. unfold is_not in Hg.
    apply negb_true_iff in Hg. rewrite Hg. reflexivity.
  - rewrite (IH Ht). reflexivity.
Qed.

(** Nor past a [<]. *)
Lemma prefixb_name_lt t :
  forallb is_name_char t = true ->
  forall u w, match w with [] => True | c :: _ => c = LT end ->
              prefixb t (u ++ w) = prefixb t u.
Proof.
  induction t as [|a t IH]; intros Ht u w Hw; [reflexivity|].
  cbn [forallb] in Ht. apply andb_true_iff in Ht. destruct Ht as [Ha Ht].
  destruct u as [|b u]; cbn [app prefixb].
  - destruct w as [|c w]; [reflexivity|]. subst c. cbn [prefixb].
    rewrite (name_not_lt a Ha). reflexivity.
  - rewrite (IH Ht u w Hw). reflexivity.
Qed.

Lemma contains_no_lt t u : forallb (is_not LT) u = true -> contains (LT :: t) u = false.
Proof.
  induction u as [|c u IH]; [reflexivity|]. cbn [forallb contains prefixb]. intro H.
  apply andb_true_iff in H. destruct H as [Hc Hu]. rewrite (IH Hu), orb_false_r.
  unfold is_not in Hc. apply negb_true_iff in Hc. rewrite N.eqb_sym, Hc. reflexivity.
Qed.

Lemma raw_free_no_lt u : raw_free u = true -> forallb (is_not LT) u = true.
Proof.
  apply forallb_impl. intros a Ha. apply negb_true_iff in Ha. unfold raw in Ha.
  apply orb_false_iff in Ha. destruct Ha as [Ha _].
  apply orb_false_iff in Ha. destruct Ha as [Ha _].
  unfold is_not. rewrite Ha. reflexivity.
Qed.

Lemma no_bracket_parts y :
  forallb no_bracket y = true ->
  forallb (is_not LT) y = true /\ forallb (is_not GT) y = true.
Proof.
  intro H. split; (apply (forallb_impl no_bracket); [|exact H]); intros a Ha;
    unfold no_bracket in Ha; apply andb_true_iff in Ha; tauto.
Qed.

Lemma existsb_rev_eq {A} (f : A -> bool) l : existsb f (rev l) = existsb f l.
Proof.
  induction l as [|a l IH]; [reflexivity|]. cbn [rev existsb].
  rewrite existsb_app, IH. cbn [existsb]. rewrite orb_false_r. apply orb_comm.
Qed.

(** The closing tag of an element is found where it stands. *)
Lemma find_close_own tag : forall inner w,
  forallb is_any inner = true -> occurs_first inner (close_tag tag) [] = true ->
  find_close tag (inner ++ close_tag tag ++ w) = Some (inner, w).
Proof.
  unfold occurs_first. induction inner as [|a inner IH]; intros w Hany Ho.
  - cbn [app]. rewrite find_close_eq, prefixb_app, skipn_app_exact. reflexivity.
  - cbn [forallb] in Hany. apply andb_true_iff in Hany. destruct Hany as [Ha Hany].
    cbn [List.length seq forallb] in Ho. apply andb_true_iff in Ho.
    destruct Ho as [H0 Ho]. cbn [skipn] in H0. apply negb_true_iff in H0.
    rewrite <- seq_shift, forallb_map_comp in Ho. cbn [skipn app] in Ho.
    rewrite find_close_eq.
    assert (Hp : prefixb (close_tag tag) ((a :: inner) ++ close_tag tag ++ w) = false).
    { rewrite app_assoc.
      rewrite (prefixb_shared (close_tag tag) ((a :: inner) ++ close_tag tag) w []).
      - rewrite app_nil_r. rewrite app_nil_r in H0. exact H0.
      - rewrite length_app. lia. }
    rewrite Hp. cbn [app]. rewrite Ha, (IH w Hany Ho). reflexivity.
Qed.

Lemma ignore_spec_own tag y inner w :
  forallb (is_not GT) y = true ->
  forallb is_any inner = true -> occurs_first inner (close_tag tag) [] = true ->
  ignore_spec tag ((LT :: tag ++ y ++ [GT]) ++ inner ++ close_tag tag ++ w)
  = Some (LT :: tag ++ y ++ [GT], inner, w).
Proof.
  intros Hy Hany Ho. cbn [app ignore_spec]. change (LT =? LT) with true. cbn iota.
  rewrite <- !app_assoc, prefixb_app, skipn_app_exact. cbn [app].
  rewrite (span_eq (is_not GT) y (GT :: inner ++ close_tag tag ++ w) Hy eq_refl).
  rewrite (find_close_own tag inner w Hany Ho). reflexivity.
Qed.

(** *** One pass over text and over the elements of another tag *)

Section Pass.

Variables (t : jsstring) (f : jsstring -> hit -> jsstring).
Hypothesis f_before : forall b1 b2 h, f b1 h = f b2 h.
Hypothesis t_name : tag_name t = true.

Local Abbreviation R := (replaced (ignore_re t) f).

Lemma pass_nil : R [] = [].
Proof. apply replaced_nil. rewrite exec_ignore_re. reflexivity. Qed.

Lemma pass_miss c s : ignore_spec t (c :: s) = None -> R (c :: s) = c :: R s.
Proof.
  intro H. apply replaced_miss; [exact f_before|]. rewrite exec_ignore_re, H. reflexivity.
Qed.

Lemma pass_solid u w : forallb (is_not LT) u = true -> R (u ++ w) = u ++ R w.
Proof.
  induction u as [|c u IH]; intro H; [reflexivity|].
  cbn [forallb] in H. apply andb_true_iff in H. destruct H as [Hc Hu].
  cbn [app]. rewrite pass_miss, (IH Hu); [reflexivity|].
  cbn [ignore_spec]. unfold is_not in Hc. apply negb_true_iff in Hc.
  rewrite Hc. reflexivity.
Qed.

Lemma pass_lt z : prefixb t z = false -> R (LT :: z) = LT :: R z.
Proof.
  intro H. apply pass_miss. cbn [ignore_spec]. change (LT =? LT) with true.
  cbn iota. rewrite H. reflexivity.
Qed.

Lemma pass_text u w :
  contains (LT :: t) u = false ->
  match w with [] => True | c :: _ => c = LT end ->
  R (u ++ w) = u ++ R w.
Proof.
  intros Hc Hw. induction u as [|c u IH]; [reflexivity|].
  cbn [contains] in Hc. apply orb_false_iff in Hc. destruct Hc as [Hp Hc].
  cbn [app]. rewrite pass_miss, (IH Hc); [reflexivity|].
  cbn [ignore_spec]. destruct (c =? LT) eqn:Ec; [|reflexivity].
  apply N.eqb_eq in Ec. subst c. cbn [prefixb] in Hp.
  change (LT =? LT) with true in Hp. cbn [andb] in Hp.
  rewrite (prefixb_name_lt t (proj2 (tag_name_parts t t_name)) u w Hw), Hp.
  reflexivity.
Qed.

Lemma pass_close tag w :
  forallb is_name_char tag = true ->
  R (close_tag tag ++ w) = close_tag tag ++ R w.
Proof.
  intro Htag. unfold close_tag. cbn [app]. rewrite pass_lt.
  - f_equal. change (SLASH :: (tag ++ [GT]) ++ w) with ((SLASH :: tag ++ [GT]) ++ w).
    apply pass_solid. cbn [forallb]. rewrite forallb_app, (names_not_lt tag Htag).
    reflexivity.
  - destruct (tag_name_parts t t_name) as [Hne Hn].
    destruct t as [|a t']; [congruence|]. cbn [forallb] in Hn.
    apply andb_true_iff in Hn. cbn [prefixb].
    rewrite (name_not_slash a (proj1 Hn)). reflexivity.
Qed.

(** An element whose opening tag does not start with [<t] and whose
    content holds no [<t] is copied. *)
Lemma pass_other e body w :
  tag_name (el_tag e) = true -> forallb no_bracket (el_attrs e) = true ->
  prefixb t (el_tag e ++ el_attrs e) = false ->
  contains (LT :: t) body = false ->
  R (open_tag e ++ body ++ close_tag (el_tag e) ++ w)
  = open_tag e ++ body ++ close_tag (el_tag e) ++ R w.
Proof.
  intros He Hy Hp Hb.
  destruct (tag_name_parts _ He) as [_ Hen].
  destruct (no_bracket_parts _ Hy) as [Hylt _].
  unfold open_tag. cbn [app]. rewrite pass_lt.
  - f_equal.
    replace ((el_tag e ++ el_attrs e ++ [GT]) ++ body ++ close_tag (el_tag e) ++ w)
      with ((el_tag e ++ el_attrs e ++ [GT]) ++ (body ++ close_tag (el_tag e) ++ w))
      by reflexivity.
    rewrite pass_solid
      by (rewrite !forallb_app, (names_not_lt _ Hen), Hylt; reflexivity).
    f_equal. rewrite pass_text; [|exact Hb | reflexivity].
    f_equal. apply pass_close. exact Hen.
  - replace ((el_tag e ++ el_attrs e ++ [GT]) ++ body ++ close_tag (el_tag e) ++ w)
      with ((el_tag e ++ el_attrs e) ++ GT :: body ++ close_tag (el_tag e) ++ w)
      by (rewrite <- !app_assoc; reflexivity).
    rewrite (prefixb_name_gt t (proj2 (tag_name_parts t t_name))). exact Hp.
Qed.

End Pass.

(** *** The passes over a layout *)

Section Layout.

Variables (tags : list jsstring) (X : jsstring).
Hypothesis X_plain : plain X = true.
Hypothesis X_raw_free : raw_free X = true.
Hypothesis X_border_free : border_free DASH X ignore_code = true.

Lemma text_ok_tag t u : In t tags -> text_ok tags u = true -> contains (LT :: t) u = false.
Proof.
  intros Hin H. unfold text_ok in H. rewrite forallb_forall in H.
  apply negb_true_iff. exact (H t Hin).
Qed.

Lemma element_fits_parts e :
  element_fits tags X e = true ->
  tag_name (el_tag e) = true /\ forallb no_bracket (el_attrs e) = true
  /\ (forall t, In t tags -> str_eqb t (el_tag e) = false ->
        prefixb t (el_tag e ++ el_attrs e) = false
        /\ contains (LT :: t) (el_inner e) = false)
  /\ forallb is_any (el_inner e) = true
  /\ occurs_first (el_inner e) (close_tag (el_tag e)) [] = true
  /\ element_ok (el_tag e) X (open_tag e, el_inner e) = true.
Proof.
  unfold element_fits. intro H.
  apply andb_true_iff in H. destruct H as [H H6].
  apply andb_true_iff in H. destruct H as [H H5].
  apply andb_true_iff in H. destruct H as [H H4].
  apply andb_true_iff in H. destruct H as [H H3].
  apply andb_true_iff in H. destruct H as [H1 H2].
  repeat (split; [assumption|]). split; [|repeat (split; [assumption|]); assumption].
  intros t Hin Hne. rewrite forallb_forall in H3. specialize (H3 t Hin).
  rewrite Hne in H3. cbn [orb] in H3. apply andb_true_iff in H3.
  destruct H3 as [Ha Hb]. apply negb_true_iff in Ha, Hb. split; assumption.
Qed.

Lemma written_starts done e rest :
  match written X done e ++ rest with [] => True | c :: _ => c = LT end.
Proof. reflexivity. Qed.

Lemma written_other done t e :
  str_eqb t (el_tag e) = false -> written X (t :: done) e = written X done e.
Proof.
  intro H. unfold written. cbn [existsb].
  replace (str_eqb (el_tag e) t) with false; [reflexivity|].
  symmetry. apply str_eqb_neq. intro E. rewrite E, str_eqb_refl in H. discriminate H.
Qed.

Lemma body_quiet done t e :
  In t tags -> element_fits tags X e = true -> str_eqb t (el_tag e) = false ->
  contains (LT :: t)
    (if existsb (str_eqb (el_tag e)) done
     then ignore_capture X (el_inner e) else el_inner e) = false.
Proof.
  intros Hin He Hne. destruct (element_fits_parts e He) as (_ & _ & Ho & _).
  destruct (existsb (str_eqb (el_tag e)) done).
  - apply contains_no_lt, raw_free_no_lt.
    apply ignore_capture_raw_free; [exact X_raw_free | exact (plain_no_dollar X X_plain)].
  - exact (proj2 (Ho t Hin Hne)).
Qed.

(** The encoding pass for [t] encodes the elements of tag [t] and copies
    everything else. *)
Lemma layout_encode_pass t done : forall L,
  In t tags -> tag_name t = true -> existsb (str_eqb t) done = false ->
  layout_ok tags X L = true ->
  encode_tag t X (doc_of X done L) = doc_of X (t :: done) L.
Proof.
  intros L Hin Ht Hd. unfold encode_tag.
  induction L as [u|u e rest IH]; intro Hok; cbn [layout_ok doc_of] in *.
  - rewrite <- (app_nil_r u) at 1.
    rewrite (pass_text t (fun _ hit => ignore_callback X hit) (fun _ _ _ => eq_refl) Ht u [] (text_ok_tag t u Hin Hok) I).
    rewrite (pass_nil t (fun _ hit => ignore_callback X hit)). apply app_nil_r.
  - apply andb_true_iff in Hok. destruct Hok as [Hok Hrest].
    apply andb_true_iff in Hok. destruct Hok as [Hu He].
    rewrite (pass_text t (fun _ hit => ignore_callback X hit) (fun _ _ _ => eq_refl) Ht u
               (written X done e ++ doc_of X done rest) (text_ok_tag t u Hin Hu)
               (written_starts done e (doc_of X done rest))).
    f_equal. destruct (element_fits_parts e He) as (Hen & Hy & Ho & Hany & Hcl & Hel).
    destruct (str_eqb t (el_tag e)) eqn:Et.
    + apply str_eqb_eq in Et. subst t. unfold written. rewrite Hd.
      cbn [existsb]. rewrite str_eqb_refl. cbn [orb].
      destruct (element_ok_parts (el_tag e) X X_plain X_raw_free X_border_free _ _ Hel)
        as (_ & _ & Hplace & _).
      unfold open_tag. rewrite <- !app_assoc.
      pose proof (ignore_spec_own (el_tag e) (el_attrs e) (el_inner e)
                    (doc_of X done rest) (proj2 (no_bracket_parts _ Hy)) Hany Hcl) as Hs.
      pose proof (encode_hit (el_tag e) X X_plain X_raw_free _ _ _ _ Hs Hplace) as HE.
      unfold encode_tag in HE. rewrite HE, (IH Hrest).
      reflexivity.
    + rewrite (written_other done t e Et). unfold written at 1. rewrite <- !app_assoc.
      rewrite (pass_other t (fun _ hit => ignore_callback X hit) (fun _ _ _ => eq_refl) Ht e _ _ Hen Hy
                 (proj1 (Ho t Hin Et)) (body_quiet done t e Hin He Et)).
      rewrite (IH Hrest). unfold written. rewrite <- !app_assoc. reflexivity.
Qed.

(** The decoding pass for [t] decodes the elements of tag [t] and copies
    everything else. *)
Lemma layout_decode_pass t done : forall L,
  In t tags -> tag_name t = true -> existsb (str_eqb t) done = false ->
  layout_ok tags X L = true ->
  decode_tag t X (doc_of X (t :: done) L) = doc_of X done L.
Proof.
  intros L Hin Ht Hd. unfold decode_tag.
  induction L as [u|u e rest IH]; intro Hok; cbn [layout_ok doc_of] in *.
  - rewrite <- (app_nil_r u) at 1.
    rewrite (pass_text t (fun _ hit => replace_first (group 1 hit) (ignore_decode X) (matched hit)) (fun _ _ _ => eq_refl) Ht u [] (text_ok_tag t u Hin Hok) I).
    rewrite (pass_nil t (fun _ hit => replace_first (group 1 hit) (ignore_decode X) (matched hit))). apply app_nil_r.
  - apply andb_true_iff in Hok. destruct Hok as [Hok Hrest].
    apply andb_true_iff in Hok. destruct Hok as [Hu He].
    rewrite (pass_text t (fun _ hit => replace_first (group 1 hit) (ignore_decode X) (matched hit)) (fun _ _ _ => eq_refl) Ht u
               (written X (t :: done) e ++ doc_of X (t :: done) rest)
               (text_ok_tag t u Hin Hu) (written_starts (t :: done) e (doc_of X (t :: done) rest))).
    f_equal. destruct (element_fits_parts e He) as (Hen & Hy & Ho & Hany & Hcl & Hel).
    destruct (str_eqb t (el_tag e)) eqn:Et.
    + apply str_eqb_eq in Et. subst t. unfold written. rewrite Hd.
      cbn [existsb]. rewrite str_eqb_refl. cbn [orb].
      destruct (element_ok_parts (el_tag e) X X_plain X_raw_free X_border_free _ _ Hel)
        as (Hav & Hfa & _ & Hplace).
      unfold open_tag. rewrite <- !app_assoc.
      pose proof (ignore_spec_encoded (el_tag e) (el_attrs e)
                    (ignore_capture X (el_inner e)) (doc_of X (el_tag e :: done) rest)
                    (proj2 (no_bracket_parts _ Hy))
                    (ignore_capture_raw_free X (el_inner e) X_raw_free
                       (plain_no_dollar X X_plain))) as Hs.
      pose proof (decode_hit (el_tag e) X _ _ _ _ Hs Hplace) as HD.
      unfold decode_tag in HD. rewrite HD, (IH Hrest).
      rewrite (ignore_roundtrip X (el_inner e) X_plain X_raw_free X_border_free Hav Hfa).
      reflexivity.
    + rewrite (written_other done t e Et). unfold written at 1. rewrite <- !app_assoc.
      rewrite (pass_other t (fun _ hit => replace_first (group 1 hit) (ignore_decode X) (matched hit)) (fun _ _ _ => eq_refl) Ht e _ _ Hen Hy
                 (proj1 (Ho t Hin Et)) (body_quiet done t e Hin He Et)).
      rewrite (IH Hrest). unfold written. rewrite <- !app_assoc. reflexivity.
Qed.

Lemma tag_name_plain t : tag_name t = true -> plain t = true.
Proof.
  intro H. unfold plain.
  exact (forallb_impl _ _ _ name_char_plain (proj2 (tag_name_parts t H))).
Qed.

Lemma not_in_done t l : ~ In t l -> existsb (str_eqb t) l = false.
Proof.
  intro H. destruct (existsb (str_eqb t) l) eqn:E; [|reflexivity]. exfalso.
  apply existsb_exists in E. destruct E as (x & Hx & Ex).
  apply str_eqb_eq in Ex. subst x. exact (H Hx).
Qed.

Lemma set_loop L : layout_ok tags X L = true -> forall todo done,
  (forall t, In t todo -> In t tags /\ tag_name t = true) ->
  NoDup (todo ++ done) ->
  setIgnoreElement_loop X todo (doc_of X done L) = Some (doc_of X (rev todo ++ done) L).
Proof.
  intro Hok. induction todo as [|t todo IH]; intros done Hall Hnd; [reflexivity|].
  cbn [setIgnoreElement_loop]. unfold RegExp_ignore.
  destruct (Hall t (or_introl eq_refl)) as [Hin Ht]. rewrite (tag_name_plain t Ht).
  cbn [app] in Hnd. apply NoDup_cons_iff in Hnd. destruct Hnd as [Hnot Hnd].
  change (replace_fn (ignore_re t)
            (fun h => replace_first (group 1 h) (ignore_capture X) (matched h))
            (doc_of X done L))
    with (encode_tag t X (doc_of X done L)).
  rewrite (layout_encode_pass t done L Hin Ht) ;
    [| apply not_in_done; intro H; apply Hnot, in_or_app; right; exact H | exact Hok].
  rewrite (IH (t :: done)).
  - cbn [rev]. rewrite <- app_assoc. reflexivity.
  - intros t' Ht'. apply Hall. right. exact Ht'.
  - apply (NoDup_Add (Add_app t todo done)). split; [exact Hnd | exact Hnot].
Qed.

Lemma unset_loop L : layout_ok tags X L = true -> forall todo done,
  (forall t, In t todo -> In t tags /\ tag_name t = true) ->
  NoDup (todo ++ done) ->
  unsetIgnoreElement_loop X todo (doc_of X (todo ++ done) L) = Some (doc_of X done L).
Proof.
  intro Hok. induction todo as [|t todo IH]; intros done Hall Hnd; [reflexivity|].
  cbn [unsetIgnoreElement_loop]. unfold RegExp_ignore.
  destruct (Hall t (or_introl eq_refl)) as [Hin Ht]. rewrite (tag_name_plain t Ht).
  cbn [app] in Hnd. apply NoDup_cons_iff in Hnd. destruct Hnd as [Hnot Hnd].
  rewrite (unignore_hits_decode X X_plain).
  change (flat_map _ (segments (ignore_re t) (doc_of X ((t :: todo) ++ done) L)))
    with (decode_tag t X (doc_of X (t :: todo ++ done) L)).
  rewrite (layout_decode_pass t (todo ++ done) L Hin Ht (not_in_done _ _ Hnot) Hok).
  apply IH; [|exact Hnd]. intros t' Ht'. apply Hall. right. exact Ht'.
Qed.

Lemma doc_of_ext d1 d2 :
  (forall t, existsb (str_eqb t) d1 = existsb (str_eqb t) d2) ->
  forall L, doc_of X d1 L = doc_of X d2 L.
Proof.
  intros H L. induction L as [u|u e rest IH]; [reflexivity|].
  cbn [doc_of]. unfold written. rewrite (H (el_tag e)), IH. reflexivity.
Qed.

End Layout.

(** C2, as the code has it.  The tag names and the sentinel are made of
    ordinary pattern characters, the sentinel has no [<], [>] or
    whitespace and its tokens do not overlap.

    One ignored tag, any document: when every matched element has an
    inner content that does not spell the sentinel, whose whitespace is
    made of newlines and spaces, and that either holds nothing to encode
    (an empty element, for one) or does not occur, raw or encoded, earlier
    in the element, the decoder gives back the document.

    Several ignored tags, all different, each a run of name characters: a
    document made of text in which no ignored tag name follows a [<], and
    of elements of which each is closed by the first closing tag of its
    name, holds no bracket in its opening tag, is not entered by another
    ignored tag (neither at its opening tag nor in its inner content) and
    is given back by the round trip of its own tag.  The encoder encodes
    the inner content of every element of an ignored tag and nothing
    else, and the decoder gives back the document. *)
Theorem C2_element_round_trip :
  (forall tag X h,
      plain tag = true -> forallb (is_not GT) tag = true -> sentinel_ok X = true ->
      (forall e, In e (elements tag h) -> element_ok tag X e = true) ->
      setIgnoreElement h (mkConfig [tag] X) = Some (encode_tag tag X h)
      /\ unsetIgnoreElement (encode_tag tag X h) (mkConfig [tag] X) = Some h) /\
  (forall tags X L,
      NoDup tags -> forallb tag_name tags = true -> sentinel_ok X = true ->
      layout_ok tags X L = true ->
      setIgnoreElement (doc_of X [] L) (mkConfig tags X) = Some (doc_of X tags L)
      /\ unsetIgnoreElement (doc_of X tags L) (mkConfig tags X) = Some (doc_of X [] L)).
Proof.
  split.
  - intros tag X h Ht Hgt HX Hok. unfold sentinel_ok in HX.
    apply andb_true_iff in HX. destruct HX as [HX Hb].
    apply andb_true_iff in HX. destruct HX as [Hp Hr].
    split; [apply setIgnoreElement_single; exact Ht|].
    rewrite (unsetIgnoreElement_single tag X _ Ht Hp). f_equal.
    apply (decode_encode_bounded tag X Hgt Hp Hr Hb (List.length h) h (Nat.le_refl _) Hok).
  - intros tags X L Hnd Hnames HX Hok. unfold sentinel_ok in HX.
    apply andb_true_iff in HX. destruct HX as [HX Hb].
    apply andb_true_iff in HX. destruct HX as [Hp Hr].
    assert (Hall : forall t, In t tags -> In t tags /\ tag_name t = true).
    { intros t Hin. split; [exact Hin|]. rewrite forallb_forall in Hnames.
      exact (Hnames t Hin). }
    assert (Hnd' : NoDup (tags ++ [])) by (rewrite app_nil_r; exact Hnd).
    unfold setIgnoreElement, unsetIgnoreElement. cbn [Utils.ignore_with Utils.ignore].
    split.
    + rewrite (set_loop tags X Hp Hr Hb L Hok tags [] Hall Hnd'). f_equal.
      apply doc_of_ext. intro t. rewrite app_nil_r. apply existsb_rev_eq.
    + pose proof (unset_loop tags X Hp Hr Hb L Hok tags [] Hall Hnd') as H.
      rewrite app_nil_r in H. exact H.
Qed.

Lemma C2_witness :
  (setIgnoreElement doc_two_scripts (mkConfig [TAG_SCRIPT] DEFAULT_IGNORE_WITH)
   = Some (encode_tag TAG_SCRIPT DEFAULT_IGNORE_WITH doc_two_scripts)
   /\ unsetIgnoreElement (encode_tag TAG_SCRIPT DEFAULT_IGNORE_WITH doc_two_scripts)
        (mkConfig [TAG_SCRIPT] DEFAULT_IGNORE_WITH)
      = Some doc_two_scripts)
  /\
  (setIgnoreElement (doc_of DEFAULT_IGNORE_WITH [] layout_sample)
     (mkConfig [str "style"; TAG_SCRIPT] DEFAULT_IGNORE_WITH)
   = Some (doc_of DEFAULT_IGNORE_WITH [str "style"; TAG_SCRIPT] layout_sample)
   /\ unsetIgnoreElement (doc_of DEFAULT_IGNORE_WITH [str "style"; TAG_SCRIPT] layout_sample)
        (mkConfig [str "style"; TAG_SCRIPT] DEFAULT_IGNORE_WITH)
      = Some (doc_of DEFAULT_IGNORE_WITH [] layout_sample)).
Proof.
  split.
  - apply (proj1 C2_element_round_trip TAG_SCRIPT DEFAULT_IGNORE_WITH doc_two_scripts);
      [reflexivity | reflexivity | vm_compute; reflexivity |].
    intros e He. vm_compute in He. destruct He as [<-|[<-|[]]]; vm_compute; reflexivity.
  - apply (proj2 C2_element_round_trip [str "style"; TAG_SCRIPT] DEFAULT_IGNORE_WITH
             layout_sample);
      [| vm_compute; reflexivity | vm_compute; reflexivity | vm_compute; reflexivity].
    repeat constructor; simpl; intuition discriminate.
Defined.

(** C2, the claim as worded, fails: a tab inside an ignored element comes
    back as a space; an element whose inner content (one space) also
    occurs in its opening tag comes back with its opening tag encoded; and
    with two ignored tags, of which each alone gives the document back,
    an [a] element that starts inside a [b] element stays encoded.  The
    documents hold neither the sentinel nor a token. *)
Lemma C2_counterexample :
  (contains (str "X") doc_script_tab = false
   /\ setIgnoreElement doc_script_tab (mkConfig [TAG_SCRIPT] (str "X"))
      = Some (str "<script>-Xws-</script>")
   /\ unsetIgnoreElement (str "<script>-Xws-</script>") (mkConfig [TAG_SCRIPT] (str "X"))
      = Some (str "<script> </script>")
   /\ str "<script> </script>" <> doc_script_tab)
  /\
  (contains (str "X") doc_script_attr = false
   /\ setIgnoreElement doc_script_attr (mkConfig [TAG_SCRIPT] (str "X"))
      = Some (str "<script-Xws-defer> </script>")
   /\ unsetIgnoreElement (str "<script-Xws-defer> </script>")
        (mkConfig [TAG_SCRIPT] (str "X"))
      = Some (str "<script-Xws-defer> </script>"))
  /\
  (contains (str "X") doc_two_tags = false
   /\ setIgnoreElement doc_two_tags (mkConfig [str "a"; str "b"] (str "X"))
      = Some (str "<b>-Xlt-a-Xws-</b>-Xlt-a-Xgt-</a>")
   /\ unsetIgnoreElement (str "<b>-Xlt-a-Xws-</b>-Xlt-a-Xgt-</a>")
        (mkConfig [str "a"; str "b"] (str "X"))
      = Some (str "<b><a </b>-Xlt-a-Xgt-</a>")
   /\ str "<b><a </b>-Xlt-a-Xgt-</a>" <> doc_two_tags
   /\ setIgnoreElement doc_two_tags (mkConfig [str "a"] (str "X"))
      = Some (str "<b><a </b>-Xlt-a-Xgt-</a>")
   /\ unsetIgnoreElement (str "<b><a </b>-Xlt-a-Xgt-</a>") (mkConfig [str "a"] (str "X"))
      = Some doc_two_tags
   /\ setIgnoreElement doc_two_tags (mkConfig [str "b"] (str "X"))
      = Some (str "<b>-Xlt-a-Xws-</b><a></a>")
   /\ unsetIgnoreElement (str "<b>-Xlt-a-Xws-</b><a></a>") (mkConfig [str "b"] (str "X"))
      = Some doc_two_tags).
Proof.
  split; [split; [|split; [|split]] | split; [split; [|split] |]];
    try (vm_compute; reflexivity).
  - vm_compute. discriminate.
  - repeat split; try (vm_compute; reflexivity). vm_compute. discriminate.
Qed.

(** * Further properties of the validator and the merger *)

(** ** What [validateConfig] does with its argument *)

Lemma field_object k bad e o sh :
  field k bad e (mkStore (VObject o) sh)
  = match lookup k o with
    | Some v => if bad v then (Throw (e v), mkStore (VObject o) sh)
                else (Return tt, mkStore (VObject o) sh)
    | None => (Return tt, mkStore (VObject o) sh)
    end.
Proof.
  unfold field. unfold bind at 1. rewrite has_plain. cbn [hasOwn].
  unfold bind. rewrite get_config_plain. unfold check, ret, throw.
  destruct (lookup k o) as [v|]; cbn [andb]; [|reflexivity].
  destruct (bad v); reflexivity.
Qed.

Lemma has_any_object o sh : forall ks,
  has_any ks (mkStore (VObject o) sh)
  = (Return (existsb (fun k => match lookup k o with Some _ => true | None => false end) ks),
     mkStore (VObject o) sh).
Proof.
  induction ks as [|k ks IH]; [reflexivity|].
  cbn [has_any existsb]. unfold bind at 1. rewrite has_plain. cbn [hasOwn]. unfold ret.
  destruct (lookup k o); cbn [orb]; [reflexivity | exact IH].
Qed.

Lemma Qle_bool_int_l k (q : Qc) :
  Qc_is_integer q = true -> Qle_bool (inject_Z k) (this q) = (k <=? Qnum (this q))%Z.
Proof.
  unfold Qc_is_integer. intro H. apply Pos.eqb_eq in H.
  unfold Qle_bool. cbn [inject_Z Qnum Qden]. rewrite H, !Z.mul_1_r. reflexivity.
Qed.

Lemma Qle_bool_int_r k (q : Qc) :
  Qc_is_integer q = true -> Qle_bool (this q) (inject_Z k) = (Qnum (this q) <=? k)%Z.
Proof.
  unfold Qc_is_integer. intro H. apply Pos.eqb_eq in H.
  unfold Qle_bool. cbn [inject_Z Qnum Qden]. rewrite H, !Z.mul_1_r. reflexivity.
Qed.

Lemma truthy_integer (q : Qc) :
  truthy (VNumber (Finite q)) = negb (Qnum (this q) =? 0)%Z.
Proof.
  cbn [truthy]. unfold Qeq_bool. f_equal.
  change (this 0%Qc) with (0 # 1)%Q. cbn [Qnum Qden].
  rewrite Z.mul_1_r, Z.mul_0_l. reflexivity.
Qed.

(** The tab size checks let a value through exactly when it is falsy or
    an integer from 1 to 16. *)
Lemma validate_tab_size_object o sh :
  validate_tab_size (mkStore (VObject o) sh)
  = (Return tt, mkStore (VObject o) sh)
  <-> passes K_tab_size (get (VObject o) plain_shape K_tab_size) = true.
Proof.
  rewrite validate_tab_size_run, read_plain, get_plain.
  remember (match lookup K_tab_size o with Some x => x | None => VUndefined end)
    as t eqn:Hg.
  unfold passes. change (str_eqb K_tab_size K_tab_size) with true.
  change (field_type K_tab_size t) with (in_1_16 t). cbn [andb].
  destruct (truthy t) eqn:Ht.
  2:{ rewrite orb_true_r. split; reflexivity. }
  rewrite orb_false_r.
  destruct t as [| |b|n|s|xs|ps];
    cbn [is_number typeof negb in_1_16]; try (split; discriminate).
  destruct n as [| | |q]; cbn [isSafeInteger in_1_16 negb];
    try (split; discriminate); try discriminate Ht.
  destruct (Qc_is_integer q) eqn:Hi; cbn [andb negb]; [|split; discriminate].
  rewrite truthy_integer in Ht. apply negb_true_iff, Z.eqb_neq in Ht.
  destruct (Z.abs (Qnum (this q)) <=? MAX_SAFE_INTEGER)%Z eqn:Hs; cbn [negb].
  2:{ split; [discriminate|]. intro H. exfalso.
      apply Z.leb_gt in Hs. apply andb_true_iff in H. destruct H as [H1 H2].
      apply Z.leb_le in H1, H2. unfold MAX_SAFE_INTEGER in Hs. lia. }
  cbn [lt_int gt_int].
  rewrite (Qle_bool_int_l 1 q Hi), (Qle_bool_int_r 16 q Hi).
  destruct (1 <=? Qnum (this q))%Z, (Qnum (this q) <=? 16)%Z; cbn [negb orb andb];
    try (split; discriminate).
  rewrite write_config_plain. split; [reflexivity|]. intros _.
  destruct (lookup K_tab_size o) as [x|] eqn:Hl; [|discriminate Hg]. subst x.
  rewrite (set_same _ _ _ Hl). reflexivity.
Qed.

(** On a plain object the tab size check leaves the store alone. *)
Lemma frame_validate_tab_size_plain v sh :
  snd (validate_tab_size (mkStore v sh)) = mkStore v sh.
Proof. apply validate_tab_size_keeps. apply owns_or_falsy_plain. Qed.

(** The run of [validateConfig] on an object, check after check. *)
Lemma validateConfig_object o sh :
  validateConfig (mkStore (VObject o) sh)
  = if has_recognized o then
      match validate_tab_size (mkStore (VObject o) sh) with
      | (Throw e, st) => (Throw e, st)
      | (Return _, st) =>
          (field K_ignore (fun v => negb (array_of_strings v))
                 (fun _ => Ignore_must_be_an_array_of_strings) ;;;
           field K_ignore_with (fun v => negb (is_string_type v))
                 (fun v => Ignore_with_must_be_a_string (typeof v)) ;;;
           field K_strict (fun v => negb (is_boolean v))
                 (fun v => Strict_must_be_a_boolean (typeof v)) ;;;
           field K_tag_wrap (fun v => negb (is_boolean v))
                 (fun v => Tag_wrap_must_be_a_boolean (typeof v)) ;;;
           field K_tag_wrap_width (fun v => negb (is_number v))
                 (fun v => Tag_wrap_width_must_be_a_number (typeof v)) ;;;
           field K_trim (fun v => negb (array_of_strings v))
                 (fun _ => Trim_must_be_an_array_of_strings) ;;;
           dconfig <- read_CONFIG ;;
           config' <- read_config ;;
           merged <- lift (mergeConfig dconfig config') ;;
           ret (Fresh merged)) st
      end
    else (Return TheShared, mkStore (VObject o) sh).
Proof.
  unfold validateConfig. unfold bind at 1. unfold read_config at 1.
  unfold bind at 1. change (caller (mkStore (VObject o) sh)) with (VObject o).
  cbn [is_object_type typeof negb check].
  unfold ret at 1. unfold bind at 1. rewrite has_any_object.
  fold (has_recognized o). destruct (has_recognized o); [|reflexivity].
  cbn [negb]. unfold bind at 1.
  destruct (validate_tab_size (mkStore (VObject o) sh)) as [[[]|e] st]; reflexivity.
Qed.

(** When every check passes, what is left is the merge. *)
Lemma validateConfig_merges o sh :
  has_recognized o = true ->
  (forall k v, lookup k o = Some v -> passes k v = true) ->
  validateConfig (mkStore (VObject o) sh)
  = (match mergeConfig sh (VObject o) with
     | Return merged => Return (Fresh merged)
     | Throw e => Throw e
     end, mkStore (VObject o) sh).
Proof.
  intros Hr Hp. rewrite validateConfig_object, Hr.
  assert (Ht : validate_tab_size (mkStore (VObject o) sh)
               = (Return tt, mkStore (VObject o) sh)).
  { apply validate_tab_size_object. rewrite get_plain.
    destruct (lookup K_tab_size o) as [v|] eqn:Hl; [exact (Hp _ _ Hl)|reflexivity]. }
  rewrite Ht.
  assert (Hf : forall k, k <> K_tab_size ->
                 forall v, lookup k o = Some v -> field_type k v = true).
  { intros k Hk v Hl. pose proof (Hp _ _ Hl) as H. unfold passes in H.
    rewrite (str_eqb_neq _ _ Hk) in H. cbn [andb] in H.
    rewrite orb_false_r in H. exact H. }
  repeat (unfold bind at 1; rewrite field_object;
          match goal with
          | |- context [lookup ?K o] =>
              let v := fresh "v" in let E := fresh "E" in
              destruct (lookup K o) as [v|] eqn:E;
              [ let H := fresh "H" in
                assert (H : field_type K v = true)
                  by (apply (Hf K); [intro X; vm_compute in X; discriminate X | exact E]);
                unfold field_type in H; cbn in H; rewrite H; cbn [negb]
              | ]
          end).
  all: unfold bind, read_CONFIG, read_config, lift, ret;
    change (caller (mkStore (VObject o) sh)) with (VObject o);
    change (shared (mkStore (VObject o) sh)) with sh;
    destruct (mergeConfig sh (VObject o)); reflexivity.
Qed.

Lemma field_bind_returns A k bad e (rest : M A) o sh r st' :
  (field k bad e ;;; rest) (mkStore (VObject o) sh) = (Return r, st') ->
  (forall v, lookup k o = Some v -> bad v = false)
  /\ rest (mkStore (VObject o) sh) = (Return r, st').
Proof.
  unfold bind at 1. rewrite field_object.
  destruct (lookup k o) as [v|]; [destruct (bad v) eqn:B|].
  - discriminate.
  - intro H. split; [intros v' [= <-]; exact B | exact H].
  - intro H. split; [discriminate | exact H].
Qed.

Lemma field_type_unrecognized k v : ~ In k recognized -> field_type k v = true.
Proof.
  intro H. unfold field_type.
  repeat match goal with
         | |- context [str_eqb k ?K] =>
             let E := fresh "E" in
             destruct (str_eqb k K) eqn:E;
             [apply str_eqb_eq in E; subst k; exfalso; apply H; simpl; tauto|]
         end.
  reflexivity.
Qed.

Lemma has_recognized_false o k v :
  has_recognized o = false -> lookup k o = Some v -> ~ In k recognized.
Proof.
  unfold has_recognized. intros H Hl Hin.
  assert (T : existsb (fun k => match lookup k o with Some _ => true | None => false end)
                      recognized = true).
  { apply existsb_exists. exists k. split; [exact Hin|]. rewrite Hl. reflexivity. }
  rewrite T in H. discriminate.
Qed.

(** Whatever [validateConfig] accepts has passed every check. *)
Lemma validateConfig_returns o sh r st' :
  validateConfig (mkStore (VObject o) sh) = (Return r, st') ->
  forall k v, lookup k o = Some v -> passes k v = true.
Proof.
  intros H k v Hl. rewrite validateConfig_object in H.
  destruct (has_recognized o) eqn:Hr.
  2:{ unfold passes.
      rewrite (field_type_unrecognized k v (has_recognized_false o k v Hr Hl)).
      reflexivity. }
  destruct (validate_tab_size (mkStore (VObject o) sh)) as [[[]|e] st1] eqn:Ht;
    [|discriminate].
  pose proof (frame_validate_tab_size_plain (VObject o) sh) as F.
  rewrite Ht in F. cbn [snd] in F. subst st1.
  apply validate_tab_size_object in Ht.
  apply field_bind_returns in H. destruct H as [H1 H].
  apply field_bind_returns in H. destruct H as [H2 H].
  apply field_bind_returns in H. destruct H as [H3 H].
  apply field_bind_returns in H. destruct H as [H4 H].
  apply field_bind_returns in H. destruct H as [H5 H].
  apply field_bind_returns in H. destruct H as [H6 _].
  unfold passes, field_type.
  destruct (str_eqb k K_ignore) eqn:E1.
  { apply str_eqb_eq in E1. subst k. rewrite (proj1 (negb_false_iff _) (H1 v Hl)). reflexivity. }
  destruct (str_eqb k K_ignore_with) eqn:E2.
  { apply str_eqb_eq in E2. subst k. rewrite (proj1 (negb_false_iff _) (H2 v Hl)). reflexivity. }
  destruct (str_eqb k K_strict) eqn:E3.
  { apply str_eqb_eq in E3. subst k. rewrite (proj1 (negb_false_iff _) (H3 v Hl)). reflexivity. }
  destruct (str_eqb k K_tab_size) eqn:E4.
  { apply str_eqb_eq in E4. subst k. rewrite get_plain, Hl in Ht.
    unfold passes in Ht. change (str_eqb K_tab_size K_tab_size) with true in Ht.
    exact Ht. }
  destruct (str_eqb k K_tag_wrap) eqn:E5.
  { apply str_eqb_eq in E5. subst k. rewrite (proj1 (negb_false_iff _) (H4 v Hl)). reflexivity. }
  destruct (str_eqb k K_tag_wrap_width) eqn:E6.
  { apply str_eqb_eq in E6. subst k. rewrite (proj1 (negb_false_iff _) (H5 v Hl)). reflexivity. }
  destruct (str_eqb k K_trim) eqn:E7.
  { apply str_eqb_eq in E7. subst k. rewrite (proj1 (negb_false_iff _) (H6 v Hl)). reflexivity. }
  reflexivity.
Qed.

Lemma lookup_Some_In k v o : lookup k o = Some v -> In (k, v) o.
Proof.
  induction o as [|[k' v'] o IH]; simpl; [discriminate|].
  destruct (str_eqb k k') eqn:E.
  - apply str_eqb_eq in E. subst k'. intros [= ->]. left. reflexivity.
  - intro H. right. exact (IH H).
Qed.

Lemma In_lookup k v o : NoDup (map fst o) -> In (k, v) o -> lookup k o = Some v.
Proof.
  induction o as [|[k' v'] o IH]; simpl; intros Hnd Hin; [contradiction|].
  inversion Hnd as [|? ? Hnotin Hnd']; subst.
  destruct Hin as [[= -> ->]|Hin].
  - rewrite str_eqb_refl. reflexivity.
  - rewrite str_eqb_neq; [exact (IH Hnd' Hin)|].
    intro; subst. apply Hnotin. exact (in_map fst _ _ Hin).
Qed.

(** What a merge that returns has done with an entry that is a primitive
    or an array of strings. *)
Lemma merge_props_entry l : forall m r,
  merge_props m l = Return (VObject r) -> NoDup (map fst l) ->
  forall k v, In (k, v) l -> flat v = true ->
    (is_object_type v = false -> lookup k r = Some v) /\
    (forall xs ys, v = VArray ys -> lookup k m = Some (VArray xs) ->
                   lookup k r = Some (VArray (xs ++ ys))).
Proof.
  induction l as [|[key u] l IH]; intros m r H Hnd k v Hin Hflat; [contradiction|].
  simpl in Hnd. inversion Hnd as [|? ? Hnotin Hnd']; subst.
  simpl in H. destruct (merge_step m key u) as [m'|e] eqn:E; [|discriminate].
  destruct Hin as [[= -> ->]|Hin].
  - destruct (merge_step_flat m k v Hflat) as (x & Hx & Hprim & Harr).
    rewrite Hx in E. injection E as <-.
    destruct (merge_props_keys _ _ _ H) as (r' & [= <-] & Hout).
    rewrite (Hout k Hnotin), lookup_set_same. split.
    + intro Ho. rewrite (Hprim Ho). reflexivity.
    + intros xs ys Hv Hl. rewrite (Harr xs ys Hv Hl). reflexivity.
  - destruct (IH _ _ H Hnd' k v Hin Hflat) as [H1 H2]. split; [exact H1|].
    intros xs ys Hv Hl. apply (H2 xs ys Hv).
    rewrite (merge_step_keys _ _ _ _ E); [exact Hl|].
    intro; subst. apply Hnotin. exact (in_map fst _ _ Hin).
Qed.

(** A value of the type of a recognized field is a primitive or an array
    of strings. *)
Lemma field_type_flat k v : In k recognized -> field_type k v = true -> flat v = true.
Proof.
  intros Hin. unfold field_type, flat.
  simpl in Hin.
  destruct Hin as [<-|[<-|[<-|[<-|[<-|[<-|[<-|[]]]]]]]]; cbn;
    intro H; rewrite ?H, ?orb_true_r; try reflexivity;
    destruct v as [| | |[| | |q]| | |]; try discriminate; reflexivity.
Qed.

Lemma field_type_array k ys :
  In k recognized -> field_type k (VArray ys) = true ->
  lookup k CONFIG_props = Some (VArray []).
Proof.
  intros Hin. simpl in Hin.
  destruct Hin as [<-|[<-|[<-|[<-|[<-|[<-|[<-|[]]]]]]]]; cbn;
    intro H; try discriminate; reflexivity.
Qed.

Lemma CONFIG_typed k :
  In k recognized ->
  exists x, lookup k CONFIG_props = Some x /\ field_type k x = true.
Proof.
  intros Hin. simpl in Hin.
  destruct Hin as [<-|[<-|[<-|[<-|[<-|[<-|[<-|[]]]]]]]];
    eexists; (split; [reflexivity | vm_compute; reflexivity]).
Qed.

Lemma field_bind_outcome A k bad e0 (rest : M A) o sh x st' :
  (field k bad e0 ;;; rest) (mkStore (VObject o) sh) = (x, st') ->
  (exists v, lookup k o = Some v /\ bad v = true /\ x = Throw (e0 v))
  \/ ((forall v, lookup k o = Some v -> bad v = false)
      /\ rest (mkStore (VObject o) sh) = (x, st')).
Proof.
  unfold bind at 1. rewrite field_object.
  destruct (lookup k o) as [v|]; [destruct (bad v) eqn:B|].
  - intros [= <- <-]. left. exists v. auto.
  - intro H. right. split; [intros v' [= <-]; exact B | exact H].
  - intro H. right. split; [discriminate | exact H].
Qed.

Lemma validate_tab_size_throws o sh e st' :
  validate_tab_size (mkStore (VObject o) sh) = (Throw e, st') ->
  kind_of e = ValidationKind \/ kind_of e = RangeKind.
Proof.
  rewrite validate_tab_size_run.
  set (st := mkStore (VObject o) sh).
  destruct (truthy (read st K_tab_size)); [|discriminate].
  destruct (negb (is_number (read st K_tab_size)));
    [intros [= <- <-]; left; reflexivity|].
  destruct (negb (isSafeInteger (read st K_tab_size)));
    [intros [= <- <-]; right; reflexivity|].
  destruct (read st K_tab_size); try (intros [= <- <-]; right; reflexivity).
  match goal with |- context [if ?b then _ else _] => destruct b end;
    [intros [= <- <-]; right; reflexivity|].
  unfold st. rewrite write_config_plain. discriminate.
Qed.

(** An error is thrown by one of the checks, or every check has passed
    and it comes from the merge. *)
Lemma validateConfig_throw_origin o sh e st' :
  validateConfig (mkStore (VObject o) sh) = (Throw e, st') ->
  (kind_of e = ValidationKind \/ kind_of e = RangeKind)
  \/ (forall k v, lookup k o = Some v -> passes k v = true).
Proof.
  intros H. rewrite validateConfig_object in H.
  destruct (has_recognized o) eqn:Hr; [|discriminate].
  destruct (validate_tab_size (mkStore (VObject o) sh)) as [[[]|e1] st1] eqn:Ht.
  2:{ injection H as <- <-. left. exact (validate_tab_size_throws _ _ _ _ Ht). }
  pose proof (frame_validate_tab_size_plain (VObject o) sh) as F.
  rewrite Ht in F. cbn [snd] in F. subst st1.
  apply validate_tab_size_object in Ht.
  repeat (apply field_bind_outcome in H;
          destruct H as [(v0 & _ & _ & [= ->])|[? H]]; [left; left; reflexivity|]).
  clear H. right. intros k v Hl. unfold passes, field_type.
  repeat match goal with
         | |- context [str_eqb k ?K] =>
             let E := fresh "E" in
             destruct (str_eqb k K) eqn:E;
             [apply str_eqb_eq in E; subst k;
              first [ rewrite get_plain, Hl in Ht; unfold passes in Ht;
                      change (str_eqb K_tab_size K_tab_size) with true in Ht;
                      exact Ht
                    | match goal with
                      | Hb : forall v, lookup K o = Some v -> negb _ = false |- _ =>
                          rewrite (proj1 (negb_false_iff _) (Hb v Hl)); reflexivity
                      end ]
             |]
         end.
  reflexivity.
Qed.

(** ** The argument of [validateConfig]

    A value whose [typeof] is not ['object'] (undefined, a boolean, a
    number, a string) is refused with "Config must be an object" and
    nothing is written; [null] passes the [typeof] test and makes
    [Object.hasOwn] throw its own TypeError. *)
Theorem validateConfig_rejects_non_object :
  forall v sh,
    is_object_type v = false ->
    validateConfig (mkStore v sh) = (Throw Config_must_be_an_object, mkStore v sh)
    /\ validateConfig (mkStore VNull sh) = (Throw Native_TypeError, mkStore VNull sh).
Proof.
  intros v sh H. split; [|reflexivity].
  unfold validateConfig, bind, read_config, check.
  change (caller (mkStore v sh)) with v.
  rewrite H. reflexivity.
Qed.

Lemma validateConfig_rejects_non_object_witness :
  validateConfig (mkStore (VString (str "tab_size")) CONFIG)
  = (Throw Config_must_be_an_object, mkStore (VString (str "tab_size")) CONFIG)
  /\ validateConfig (mkStore VNull CONFIG) = (Throw Native_TypeError, mkStore VNull CONFIG).
Proof.
  apply (validateConfig_rejects_non_object (VString (str "tab_size")) CONFIG).
  reflexivity.
Defined.

(** ** Rejected fields *)

Lemma field_run k bad e st :
  field k bad e st
  = match hasOwn_in (caller st) (shape_of st) k with
    | Some b =>
        if b && bad (read st k) then (Throw (e (read st k)), st) else (Return tt, st)
    | None => (Throw Native_TypeError, st)
    end.
Proof.
  unfold field, bind, has, get_config, check, read.
  destruct (hasOwn_in (caller st) (shape_of st) k) as [b|]; [|reflexivity].
  destruct (b && bad (get (caller st) (shape_of st) k)); reflexivity.
Qed.

Lemma read_enumerable st o k v :
  caller st = VObject o -> lookup k o = Some v ->
  hasOwn_in (caller st) (shape_of st) k = Some true /\ read st k = v.
Proof.
  intros Hc Hl. unfold read, get, hasOwn_in. rewrite Hc. cbn [own_property].
  rewrite Hl. split; reflexivity.
Qed.

Lemma has_any_own st o ks k v :
  caller st = VObject o -> In k ks -> lookup k o = Some v ->
  has_any ks st = (Return true, st).
Proof.
  intros Hc Hin Hl. induction ks as [|k' ks IH]; [destruct Hin|].
  cbn [has_any]. unfold bind, has.
  destruct (hasOwn_in (caller st) (shape_of st) k') as [[|]|] eqn:E; [reflexivity| |].
  - destruct Hin as [->|Hin]; [|exact (IH Hin)].
    rewrite (proj1 (read_enumerable st o k v Hc Hl)) in E. discriminate.
  - unfold hasOwn_in in E. rewrite Hc in E. discriminate.
Qed.

(** What the tab size check lets through, and what it throws. *)
Lemma validate_tab_size_outcome st :
  match validate_tab_size st with
  | (Return _, _) => passes K_tab_size (read st K_tab_size) = true
  | (Throw e, _) =>
      passes K_tab_size (read st K_tab_size) = false
      /\ (kind_of e = ValidationKind \/ kind_of e = RangeKind)
      \/ (e = Native_TypeError
          /\ put (caller st) (shape_of st) K_tab_size (read st K_tab_size) = None)
  end.
Proof.
  rewrite validate_tab_size_run.
  remember (read st K_tab_size) as t eqn:Hg.
  unfold passes. change (str_eqb K_tab_size K_tab_size) with true.
  change (field_type K_tab_size t) with (in_1_16 t). cbn [andb].
  destruct (truthy t) eqn:Ht; [|apply orb_true_r].
  rewrite orb_false_r.
  destruct t as [| |b|n|s|xs|ps];
    cbn [is_number typeof negb in_1_16]; try (left; split; [reflexivity | left; reflexivity]).
  destruct n as [| | |q]; cbn [isSafeInteger in_1_16 negb];
    try (left; split; [reflexivity | right; reflexivity]); try discriminate Ht.
  destruct (Qc_is_integer q) eqn:Hi; cbn [andb negb];
    [|left; split; [reflexivity | right; reflexivity]].
  rewrite truthy_integer in Ht. apply negb_true_iff, Z.eqb_neq in Ht.
  destruct (Z.abs (Qnum (this q)) <=? MAX_SAFE_INTEGER)%Z eqn:Hs; cbn [negb].
  2:{ left. split; [|right; reflexivity].
      apply Z.leb_gt in Hs. apply andb_false_iff.
      destruct (1 <=? Qnum (this q))%Z eqn:E1; [right|left; reflexivity].
      apply Z.leb_le in E1. apply Z.leb_gt. unfold MAX_SAFE_INTEGER in Hs. lia. }
  cbn [lt_int gt_int].
  rewrite (Qle_bool_int_l 1 q Hi), (Qle_bool_int_r 16 q Hi).
  destruct (1 <=? Qnum (this q))%Z, (Qnum (this q) <=? 16)%Z; cbn [negb orb andb];
    try (left; split; [reflexivity | right; reflexivity]).
  unfold write_config.
  destruct (put (caller st) (shape_of st) K_tab_size (VNumber (Finite q))) as [[v' s']|];
    [reflexivity|].
  right. split; reflexivity.
Qed.

(** The own enumerable properties are still there after the tab size
    check. *)
Lemma validate_tab_size_keeps_own st st1 o :
  validate_tab_size st = (Return tt, st1) -> caller st = VObject o ->
  exists o1, caller st1 = VObject o1
             /\ forall k v, lookup k o = Some v -> lookup k o1 = Some v.
Proof.
  intros Hv Hc.
  destruct (owns st K_tab_size) eqn:Ho.
  - pose proof (validate_tab_size_keeps st (or_introl Ho)) as K.
    rewrite Hv in K. cbn [snd] in K. subst st1. exists o. split; [exact Hc | auto].
  - destruct (truthy (read st K_tab_size)) eqn:Ht.
    + destruct (validate_tab_size_inherited st st1 Ho Ht Hv) as (o' & Hc' & ->).
      rewrite Hc in Hc'. injection Hc' as <-.
      exists (o ++ [(K_tab_size, read st K_tab_size)]). split; [reflexivity|].
      intros k v Hl. rewrite lookup_app, Hl. reflexivity.
    + pose proof (validate_tab_size_keeps st (or_intror Ht)) as K.
      rewrite Hv in K. cbn [snd] in K. subst st1. exists o. split; [exact Hc | auto].
Qed.

(** An object with an own enumerable recognized field of the wrong type is
    rejected, whatever its shape. *)
Lemma validateConfig_rejects st o k v :
  caller st = VObject o -> lookup k o = Some v -> passes k v = false ->
  exists e,
    fst (validateConfig st) = Throw e
    /\ (kind_of e = ValidationKind \/ kind_of e = RangeKind
        \/ (e = Native_TypeError
            /\ put (caller st) (shape_of st) K_tab_size (read st K_tab_size) = None)).
Proof.
  intros Hc Hl Hp.
  assert (Hrec : In k recognized).
  { destruct (in_dec (list_eq_dec N.eq_dec) k recognized) as [H|H]; [exact H|].
    unfold passes in Hp. rewrite (field_type_unrecognized k v H) in Hp. discriminate. }
  unfold validateConfig. unfold bind at 1. unfold read_config at 1.
  unfold bind at 1. rewrite Hc. cbn [is_object_type typeof negb check].
  unfold ret at 1. unfold bind at 1.
  rewrite (has_any_own st o recognized k v Hc Hrec Hl). cbn [negb].
  unfold bind at 1.
  pose proof (validate_tab_size_outcome st) as Hout.
  destruct (validate_tab_size st) as [[[]|e1] st1] eqn:Hv; cbn beta iota in Hout.
  2:{ exists e1. split; [reflexivity|]. rewrite Hc in Hout. tauto. }
  destruct (validate_tab_size_keeps_own st st1 o Hv Hc) as (o1 & Hc1 & Hsub).
  assert (Hk : k <> K_tab_size).
  { intros ->. rewrite (proj2 (read_enumerable st o _ v Hc Hl)) in Hout. congruence. }
  assert (Hft : field_type k v = false).
  { unfold passes in Hp. apply orb_false_iff in Hp. tauto. }
  destruct (read_enumerable st1 o1 k v Hc1 (Hsub k v Hl)) as [Hh Hr].
  assert (Step : forall A K bad e0 (rest : M A),
            (K = k -> bad v = true) ->
            (forall x, kind_of (e0 x) = ValidationKind) ->
            (k <> K ->
             exists e, fst (rest st1) = Throw e /\ kind_of e = ValidationKind) ->
            exists e, fst ((field K bad e0 ;;; rest) st1) = Throw e
                      /\ kind_of e = ValidationKind).
  { intros A K bad e0 rest HK He Hrest. unfold bind at 1. rewrite field_run.
    destruct (hasOwn_in (caller st1) (shape_of st1) K) as [b|] eqn:Eh.
    2:{ unfold hasOwn_in in Eh. rewrite Hc1 in Eh. discriminate. }
    destruct (b && bad (read st1 K)) eqn:Eb.
    - eexists. split; [reflexivity | apply He].
    - apply Hrest. intros <-. rewrite Hh in Eh. injection Eh as <-.
      rewrite Hr, (HK eq_refl) in Eb. discriminate. }
  assert (G : exists e, fst
     ((field K_ignore (fun v => negb (array_of_strings v))
             (fun _ => Ignore_must_be_an_array_of_strings) ;;;
       field K_ignore_with (fun v => negb (is_string_type v))
             (fun v => Ignore_with_must_be_a_string (typeof v)) ;;;
       field K_strict (fun v => negb (is_boolean v))
             (fun v => Strict_must_be_a_boolean (typeof v)) ;;;
       field K_tag_wrap (fun v => negb (is_boolean v))
             (fun v => Tag_wrap_must_be_a_boolean (typeof v)) ;;;
       field K_tag_wrap_width (fun v => negb (is_number v))
             (fun v => Tag_wrap_width_must_be_a_number (typeof v)) ;;;
       field K_trim (fun v => negb (array_of_strings v))
             (fun _ => Trim_must_be_an_array_of_strings) ;;;
       dconfig <- read_CONFIG ;;
       config' <- read_config ;;
       merged <- lift (mergeConfig dconfig config') ;;
       ret (Fresh merged)) st1) = Throw e /\ kind_of e = ValidationKind).
  { assert (B : forall K, K = k -> field_type K v = false) by (intros K ->; exact Hft).
    apply Step; [intro E; specialize (B _ E); cbn in B; rewrite B; reflexivity
                | reflexivity |]; intro N1.
    apply Step; [intro E; specialize (B _ E); cbn in B; rewrite B; reflexivity
                | reflexivity |]; intro N2.
    apply Step; [intro E; specialize (B _ E); cbn in B; rewrite B; reflexivity
                | reflexivity |]; intro N3.
    apply Step; [intro E; specialize (B _ E); cbn in B; rewrite B; reflexivity
                | reflexivity |]; intro N4.
    apply Step; [intro E; specialize (B _ E); cbn in B; rewrite B; reflexivity
                | reflexivity |]; intro N5.
    apply Step; [intro E; specialize (B _ E); cbn in B; rewrite B; reflexivity
                | reflexivity |]; intro N6.
    exfalso. simpl in Hrec.
    destruct Hrec as [E|[E|[E|[E|[E|[E|[E|[]]]]]]]]; congruence. }
  destruct G as (e & He & Hkind). exists e. split; [exact He | tauto].
Qed.

(** An object with a recognized field of the wrong type among its own
    enumerable properties (for [tab_size]: a truthy value that is not an
    integer from 1 to 16) is rejected before anything is merged, whatever
    its shape: with one of the validation or range errors, or with the
    TypeError of the assignment to [tab_size] when the object refuses it.
    The caller's object is left as it was when its [tab_size] is an own
    property or is falsy; a plain object is always left as it was, and is
    rejected with a validation or range error. *)
Theorem validateConfig_rejects_ill_typed_field :
  forall o s sh k v,
    lookup k o = Some v -> passes k v = false ->
    exists e,
      fst (validateConfig (Store (Passed (VObject o) s) sh)) = Throw e
      /\ (kind_of e = ValidationKind \/ kind_of e = RangeKind
          \/ (e = Native_TypeError
              /\ put (VObject o) s K_tab_size (get (VObject o) s K_tab_size) = None))
      /\ (own_property (VObject o) s K_tab_size <> None
          \/ truthy (get (VObject o) s K_tab_size) = false ->
          snd (validateConfig (Store (Passed (VObject o) s) sh))
          = Store (Passed (VObject o) s) sh)
      /\ (s = plain_shape ->
          validateConfig (mkStore (VObject o) sh) = (Throw e, mkStore (VObject o) sh)
          /\ (kind_of e = ValidationKind \/ kind_of e = RangeKind)).
Proof.
  intros o s sh k v Hl Hp.
  set (st := Store (Passed (VObject o) s) sh).
  destruct (validateConfig_rejects st o k v eq_refl Hl Hp) as (e & He & Hk).
  exists e. split; [exact He|]. split; [exact Hk|]. split.
  - intro H. destruct (validateConfig_store st) as [K|K]; [exact K|].
    rewrite K. apply validate_tab_size_keeps. unfold owns, read.
    change (caller st) with (VObject o). change (shape_of st) with s.
    destruct H as [H|H]; [left | right; exact H].
    destruct (own_property (VObject o) s K_tab_size); [reflexivity | congruence].
  - intros ->. change (mkStore (VObject o) sh) with st. split.
    + pose proof (frame_validateConfig_plain (VObject o) sh) as F.
      change (mkStore (VObject o) sh) with st in F.
      destruct (validateConfig st) as [out st']. cbn [fst snd] in *. subst. reflexivity.
    + destruct Hk as [Hk|[Hk|[_ Hk]]]; [left; exact Hk | right; exact Hk|].
      change (caller st) with (VObject o) in Hk. change (shape_of st) with plain_shape in Hk.
      rewrite put_plain in Hk. discriminate.
Qed.

Lemma validateConfig_rejects_ill_typed_field_witness :
  exists e,
    validateConfig (mkStore (VObject [(K_trim, VArray [int 1]); (K_strict, VBool true)]) CONFIG)
    = (Throw e, mkStore (VObject [(K_trim, VArray [int 1]); (K_strict, VBool true)]) CONFIG)
    /\ (kind_of e = ValidationKind \/ kind_of e = RangeKind).
Proof.
  destruct (validateConfig_rejects_ill_typed_field
              [(K_trim, VArray [int 1]); (K_strict, VBool true)] plain_shape CONFIG
              K_trim (VArray [int 1]) eq_refl eq_refl) as (e & _ & _ & _ & H).
  exists e. exact (H eq_refl).
Defined.

Lemma has_recognized_true o k v :
  In k recognized -> lookup k o = Some v -> has_recognized o = true.
Proof.
  intros Hin Hl. unfold has_recognized. apply existsb_exists.
  exists k. split; [exact Hin|]. rewrite Hl. reflexivity.
Qed.

Lemma has_recognized_key o :
  has_recognized o = true -> exists k v, In k recognized /\ lookup k o = Some v.
Proof.
  unfold has_recognized. intro H. apply existsb_exists in H.
  destruct H as (k & Hin & H). destruct (lookup k o) as [v|] eqn:E; [|discriminate].
  exists k, v. split; [exact Hin | exact E].
Qed.

(** ** Accepted configurations

    A plain object (every property an own, enumerable, writable one, as
    in an object literal) with at least one recognized key, whose
    recognized fields have their types and whose other fields are
    primitives or arrays of strings, is accepted: the result is a fresh
    object in which a key the user did not give has the default of
    [CONFIG], a primitive given by the user under a key other than
    [__proto__] stands as given, and a recognized array ([ignore], [trim])
    is the user's array. *)
Theorem validateConfig_accepts_typed_fields :
  forall o,
    NoDup (map fst o) -> has_recognized o = true ->
    (forall k v, In (k, v) o -> field_type k v && flat v = true) ->
    exists r,
      call (VObject o) = (Return (Fresh (VObject r)), mkStore (VObject o) CONFIG)
      /\ (forall k, lookup k o = None -> lookup k r = lookup k CONFIG_props)
      /\ (forall k v, In (k, v) o -> is_object_type v = false -> k <> K_proto ->
                      lookup k r = Some v)
      /\ (forall k ys, In (k, VArray ys) o -> In k recognized ->
                       lookup k r = Some (VArray ys)).
Proof.
  intros o Hnd Hrec Hty.
  assert (Hflat : forall k v, In (k, v) o -> flat v = true).
  { intros k v Hin. pose proof (Hty k v Hin) as H.
    apply andb_true_iff in H. tauto. }
  assert (Hp : forall k v, lookup k o = Some v -> passes k v = true).
  { intros k v Hl. pose proof (Hty k v (lookup_Some_In k v o Hl)) as H.
    apply andb_true_iff in H. unfold passes. rewrite (proj1 H). reflexivity. }
  destruct (merge_props_flat o CONFIG_props Hflat Hnd) as (r & Hr & Hout & Hin).
  exists r. unfold call. rewrite (validateConfig_merges o CONFIG Hrec Hp).
  unfold mergeConfig, structuredClone.
  change CONFIG with (VObject CONFIG_props) at 1.
  rewrite mergeObjects_object, Hr.
  split; [reflexivity|]. split; [|split].
  - intros k Hk. apply Hout. apply lookup_None_notin. exact Hk.
  - intros k v Hkv Ho _. exact (proj1 (Hin k v Hkv) Ho).
  - intros k ys Hkv Hk. pose proof (Hty _ _ Hkv) as H.
    apply andb_true_iff in H. destruct H as [H _].
    apply (proj2 (Hin k (VArray ys) Hkv) [] ys eq_refl).
    exact (field_type_array k ys Hk H).
Qed.

Lemma validateConfig_accepts_typed_fields_witness :
  exists r,
    call (VObject [(K_ignore, VArray [VString (str "pre")]); (K_tab_size, int 4);
                   (str "note", VString (str "x"))])
    = (Return (Fresh (VObject r)),
       mkStore (VObject [(K_ignore, VArray [VString (str "pre")]); (K_tab_size, int 4);
                         (str "note", VString (str "x"))]) CONFIG)
    /\ lookup K_strict r = Some (VBool false)
    /\ lookup K_tab_size r = Some (int 4)
    /\ lookup K_ignore r = Some (VArray [VString (str "pre")]).
Proof.
  destruct (validateConfig_accepts_typed_fields
              [(K_ignore, VArray [VString (str "pre")]); (K_tab_size, int 4);
               (str "note", VString (str "x"))])
    as (r & Hr & Hd & Hp & Ha).
  - repeat constructor; simpl; intuition discriminate.
  - reflexivity.
  - intros k v [[= <- <-]|[[= <- <-]|[[= <- <-]|[]]]]; vm_compute; reflexivity.
  - exists r. split; [exact Hr|]. split; [|split].
    + rewrite (Hd K_strict) by reflexivity. reflexivity.
    + apply Hp; [simpl; tauto | reflexivity | discriminate].
    + apply Ha; simpl; tauto.
Defined.

(** ** The fields of the result

    Whatever [validateConfig] returns for an object (without duplicate
    keys) whose [tab_size], if given, is truthy, is an object that has
    each of the seven fields with its type: [ignore] and [trim] arrays of
    strings, [ignore_with] a string, [strict] and [tag_wrap] booleans,
    [tag_wrap_width] a number, [tab_size] an integer from 1 to 16. *)
Theorem validateConfig_result_is_typed :
  forall o ret st',
    NoDup (map fst o) ->
    (forall t, lookup K_tab_size o = Some t -> truthy t = true) ->
    call (VObject o) = (Return ret, st') ->
    exists r,
      deref st' ret = VObject r
      /\ forall k, In k recognized ->
           exists x, lookup k r = Some x /\ field_type k x = true.
Proof.
  intros o ret st' Hnd Htab H. unfold call in H.
  pose proof (validateConfig_returns o CONFIG ret st' H) as Hp.
  destruct (has_recognized o) eqn:Hrec.
  2:{ rewrite validateConfig_object, Hrec in H. injection H as <- <-.
      exists CONFIG_props. split; [reflexivity | exact CONFIG_typed]. }
  rewrite (validateConfig_merges o CONFIG Hrec Hp) in H.
  unfold mergeConfig, structuredClone in H.
  change CONFIG with (VObject CONFIG_props) in H at 1.
  rewrite mergeObjects_object in H.
  destruct (merge_props CONFIG_props o) as [m|e] eqn:Em; [|discriminate].
  injection H as <- <-.
  destruct (merge_props_keys _ _ _ Em) as (r & -> & Hout).
  exists r. split; [reflexivity|]. intros k Hk.
  destruct (lookup k o) as [x|] eqn:Hl.
  - assert (Hx : field_type k x = true).
    { pose proof (Hp k x Hl) as P. unfold passes in P.
      apply orb_true_iff in P. destruct P as [P|P]; [exact P|].
      apply andb_true_iff in P. destruct P as [Pk Pt].
      apply str_eqb_eq in Pk. subst k. rewrite (Htab x Hl) in Pt. discriminate. }
    pose proof (field_type_flat k x Hk Hx) as Hf.
    destruct (merge_props_entry o _ _ Em Hnd k x (lookup_Some_In k x o Hl) Hf)
      as [Hprim Harr].
    exists x. split; [|exact Hx].
    destruct (is_object_type x) eqn:Ho; [|exact (Hprim eq_refl)].
    unfold flat in Hf. rewrite Ho in Hf. cbn [negb orb] in Hf.
    destruct x as [| | | | |ys|]; try discriminate.
    exact (Harr [] ys eq_refl (field_type_array k ys Hk Hx)).
  - rewrite (Hout k) by (apply lookup_None_notin; exact Hl).
    exact (CONFIG_typed k Hk).
Qed.

Lemma validateConfig_result_is_typed_witness :
  exists r,
    deref (mkStore sample_partial CONFIG)
          (Fresh (VObject
             [ (K_ignore, VArray [VString (str "pre")]);
               (K_ignore_with, VString DEFAULT_IGNORE_WITH);
               (K_strict, VBool false); (K_tab_size, int 4); (K_tag_wrap, VBool false);
               (K_tag_wrap_width, int 80); (K_trim, VArray []) ]))
    = VObject r
    /\ forall k, In k recognized ->
         exists x, lookup k r = Some x /\ field_type k x = true.
Proof.
  apply (validateConfig_result_is_typed
           [(K_tab_size, int 4); (K_ignore, VArray [VString (str "pre")])]).
  - repeat constructor; simpl; intuition discriminate.
  - intros t [= <-]. reflexivity.
  - reflexivity.
Defined.

(** ** A falsy [tab_size]

    The tab size checks sit under [if (tab_size)]: a falsy value of any
    type (undefined, [false], 0, -0, NaN, the empty string) skips them,
    and the merge writes it into the result in the place of the default;
    [null] skips them too and then makes the merge throw. *)
Theorem validateConfig_falsy_tab_size_unchecked :
  forall v,
    truthy v = false ->
    call (tab_only v)
    = (if is_object_type v
       then Throw Both_current_and_updates_must_be_passed_in
       else Return (Fresh (CONFIG_with_tab_size v)),
       mkStore (tab_only v) CONFIG).
Proof.
  intros v Hv. unfold call, tab_only.
  rewrite validateConfig_merges.
  - f_equal. destruct v as [| |[]|[| | |q]|[|c s]|xs|ps]; try discriminate Hv;
      reflexivity.
  - reflexivity.
  - intros k x. cbn [lookup]. destruct (str_eqb k K_tab_size) eqn:E; [|discriminate].
    intros [= <-]. unfold passes. rewrite E, Hv. apply orb_true_r.
Qed.

Lemma validateConfig_falsy_tab_size_unchecked_witness :
  call (tab_only (VString []))
  = (Return (Fresh (CONFIG_with_tab_size (VString []))), mkStore (tab_only (VString [])) CONFIG).
Proof.
  apply (validateConfig_falsy_tab_size_unchecked (VString [])). reflexivity.
Defined.

(** ** Validating a validated configuration *)

Lemma merge_step_set m k u m' :
  merge_step m k u = Return m' -> exists x, m' = set k x m.
Proof.
  unfold merge_step. destruct (negb (is_object_type u)).
  - intros [= <-]. eexists; reflexivity.
  - destruct (mergeObjects _ u); [|discriminate]. intros [= <-]. eexists; reflexivity.
Qed.

Lemma set_keys k x m : In k (map fst m) -> map fst (set k x m) = map fst m.
Proof.
  induction m as [|[k' v'] m IH]; simpl; [contradiction|].
  destruct (str_eqb k k') eqn:E; [reflexivity|].
  intros [->|H]; [rewrite str_eqb_refl in E; discriminate|].
  simpl. rewrite (IH H). reflexivity.
Qed.

Lemma merge_props_same_keys l : forall m r,
  merge_props m l = Return (VObject r) ->
  (forall k, In k (map fst l) -> In k (map fst m)) ->
  map fst r = map fst m.
Proof.
  induction l as [|[key u] l IH]; intros m r H Hsub; simpl in H.
  - injection H as <-. reflexivity.
  - destruct (merge_step m key u) as [m'|e] eqn:E; [|discriminate].
    destruct (merge_step_set _ _ _ _ E) as [x ->].
    assert (Hk : map fst (set key x m) = map fst m)
      by (apply set_keys, Hsub; left; reflexivity).
    rewrite <- Hk. apply (IH _ _ H). intros k Hin. rewrite Hk.
    apply Hsub. right. exact Hin.
Qed.

Lemma mergeObjects_null c :
  mergeObjects c VNull = Throw Both_current_and_updates_must_be_passed_in.
Proof.
  destruct c; cbn [mergeObjects truthy negb]; rewrite orb_true_r; reflexivity.
Qed.

Lemma merge_props_no_null l : forall m r k,
  merge_props m l = Return r -> ~ In (k, VNull) l.
Proof.
  induction l as [|[key u] l IH]; intros m r k H Hin; [contradiction|].
  simpl in H. destruct (merge_step m key u) as [m'|e] eqn:E; [|discriminate].
  destruct Hin as [[= -> ->]|Hin]; [|exact (IH _ _ _ H Hin)].
  revert E. unfold merge_step. cbn [is_object_type typeof negb].
  rewrite mergeObjects_null. discriminate.
Qed.

Lemma set_middle k x y pre post :
  ~ In k (map fst pre) -> set k x (pre ++ (k, y) :: post) = pre ++ (k, x) :: post.
Proof.
  induction pre as [|[k' v'] pre IH]; simpl; intro H.
  - rewrite str_eqb_refl. reflexivity.
  - rewrite str_eqb_neq by (intro; subst; tauto). rewrite IH by tauto. reflexivity.
Qed.

Lemma lookup_middle k y pre post :
  ~ In k (map fst pre) -> lookup k (pre ++ (k, y) :: post) = Some y.
Proof.
  intro H. rewrite lookup_app.
  rewrite (proj2 (lookup_None_notin k pre) H). simpl. rewrite str_eqb_refl. reflexivity.
Qed.

(** Merging onto defaults an object that has the keys of the defaults, in
    their order, with primitives and with arrays where the default is the
    empty array, gives the object back. *)
Lemma merge_props_onto_same_keys r2 : forall pre m2,
  map fst r2 = map fst m2 -> NoDup (map fst (pre ++ r2)) ->
  (forall k x, In (k, x) r2 ->
     is_object_type x = false
     \/ exists ys, x = VArray ys /\ lookup k m2 = Some (VArray [])) ->
  NoDup (map fst m2) ->
  merge_props (pre ++ m2) r2 = Return (VObject (pre ++ r2)).
Proof.
  induction r2 as [|[k x] r2 IH]; intros pre m2 Hk Hnd Hst Hnd2.
  - destruct m2; [reflexivity | discriminate].
  - destruct m2 as [|[k' y] m2]; [discriminate|].
    simpl in Hk. injection Hk as <- Hk.
    assert (Hpre : ~ In k (map fst pre)).
    { rewrite map_app in Hnd. intro Hin.
      apply NoDup_remove_2 in Hnd. apply Hnd. simpl.
      apply in_or_app. left. exact Hin. }
    inversion Hnd2 as [|? ? Hk2 Hnd2']; subst.
    assert (Hstep : merge_step (pre ++ (k, y) :: m2) k x
                    = Return (pre ++ (k, x) :: m2)).
    { unfold merge_step. destruct (Hst k x (or_introl eq_refl)) as [Ho|(ys & -> & Hl)].
      - rewrite Ho. cbn [negb]. rewrite set_middle by exact Hpre. reflexivity.
      - cbn [is_object_type typeof negb]. rewrite lookup_middle by exact Hpre.
        simpl in Hl. rewrite str_eqb_refl in Hl. injection Hl as ->.
        cbn [truthy mergeObjects negb orb concat app].
        rewrite set_middle by exact Hpre. reflexivity. }
    cbn [merge_props]. rewrite Hstep.
    change (pre ++ (k, x) :: m2) with (pre ++ [(k, x)] ++ m2).
    change (pre ++ (k, x) :: r2) with (pre ++ [(k, x)] ++ r2).
    rewrite !app_assoc. apply IH.
    + exact Hk.
    + rewrite <- app_assoc. exact Hnd.
    + intros k1 x1 Hin. destruct (Hst k1 x1 (or_intror Hin)) as [Ho|(ys & -> & Hl)];
        [left; exact Ho|]. right. exists ys. split; [reflexivity|].
      simpl in Hl. rewrite str_eqb_neq in Hl; [exact Hl|].
      intro; subst k1. apply Hk2. rewrite <- Hk. exact (in_map fst _ _ Hin).
    + exact Hnd2'.
Qed.

Lemma recognized_NoDup : NoDup recognized.
Proof. repeat constructor; simpl; intuition discriminate. Qed.

Lemma falsy_object_is_null x : truthy x = false -> is_object_type x = true -> x = VNull.
Proof. destruct x; try discriminate; reflexivity. Qed.

Lemma CONFIG_entry_stable k x :
  lookup k CONFIG_props = Some x ->
  is_object_type x = false
  \/ exists ys, x = VArray ys /\ lookup k CONFIG_props = Some (VArray []).
Proof.
  intro H. assert (Hin : In (k, x) CONFIG_props) by exact (lookup_Some_In _ _ _ H).
  simpl in Hin.
  destruct Hin as [E|[E|[E|[E|[E|[E|[E|[]]]]]]]]; injection E as <- <-;
    first [left; reflexivity | right; exists []; split; reflexivity].
Qed.

(** The configuration that [validateConfig] returns for an object with
    recognized keys only is accepted in its turn, and comes back as it
    is: validating twice gives what validating once gives. *)
Theorem validateConfig_idempotent :
  forall o v st',
    NoDup (map fst o) ->
    (forall k, In k (map fst o) -> In k recognized) ->
    call (VObject o) = (Return (Fresh v), st') ->
    call v = (Return (Fresh v), mkStore v CONFIG).
Proof.
  intros o v st' Hnd Hsub H. unfold call in H.
  pose proof (validateConfig_returns o CONFIG _ st' H) as Hp.
  destruct (has_recognized o) eqn:Hrec.
  2:{ rewrite validateConfig_object, Hrec in H. discriminate. }
  rewrite (validateConfig_merges o CONFIG Hrec Hp) in H.
  unfold mergeConfig, structuredClone in H.
  change CONFIG with (VObject CONFIG_props) in H at 1.
  rewrite mergeObjects_object in H.
  destruct (merge_props CONFIG_props o) as [m|e] eqn:Em; [|discriminate].
  injection H as <- <-.
  destruct (merge_props_keys _ _ _ Em) as (r & -> & Hout).
  assert (Hkeys : map fst r = recognized)
    by exact (merge_props_same_keys o CONFIG_props r Em Hsub).
  assert (Hndr : NoDup (map fst r)) by (rewrite Hkeys; exact recognized_NoDup).
  assert (Hent : forall k x, In (k, x) r ->
            passes k x = true
            /\ (is_object_type x = false
                \/ exists ys, x = VArray ys /\ lookup k CONFIG_props = Some (VArray []))).
  { intros k x Hin.
    assert (Hk : In k recognized) by (rewrite <- Hkeys; exact (in_map fst _ _ Hin)).
    pose proof (In_lookup k x r Hndr Hin) as Hl.
    destruct (lookup k o) as [y|] eqn:Ho.
    - pose proof (Hp k y Ho) as Py.
      pose proof (lookup_Some_In _ _ _ Ho) as Hiny.
      assert (Hflat : flat y = true).
      { unfold passes in Py. apply orb_true_iff in Py. destruct Py as [Py|Py];
          [exact (field_type_flat k y Hk Py)|].
        apply andb_true_iff in Py. destruct Py as [_ Pt]. apply negb_true_iff in Pt.
        unfold flat. destruct (is_object_type y) eqn:Eo; [|reflexivity].
        exfalso. rewrite (falsy_object_is_null y Pt Eo) in Hiny.
        exact (merge_props_no_null o _ _ k Em Hiny). }
      destruct (merge_props_entry o _ _ Em Hnd k y Hiny Hflat) as [Hprim Harr].
      destruct (is_object_type y) eqn:Eo.
      + unfold flat in Hflat. rewrite Eo in Hflat. cbn [negb orb] in Hflat.
        destruct y as [| | | | |ys|]; try discriminate.
        assert (Ft : field_type k (VArray ys) = true).
        { unfold passes in Py. apply orb_true_iff in Py. destruct Py as [Py|Py];
            [exact Py|]. apply andb_true_iff in Py. destruct Py as [_ Pt].
          discriminate Pt. }
        pose proof (field_type_array k ys Hk Ft) as Hd.
        rewrite (Harr [] ys eq_refl Hd) in Hl. cbn [app] in Hl. injection Hl as <-.
        split; [exact Py|]. right. exists ys. split; [reflexivity | exact Hd].
      + rewrite (Hprim eq_refl) in Hl. injection Hl as <-.
        split; [exact Py | left; exact Eo].
    - rewrite (Hout k) in Hl by (apply lookup_None_notin; exact Ho).
      split; [|exact (CONFIG_entry_stable k x Hl)].
      destruct (CONFIG_typed k Hk) as (x' & Hx' & Ft). rewrite Hl in Hx'.
      injection Hx' as <-. unfold passes. rewrite Ft. reflexivity. }
  unfold call. rewrite validateConfig_merges.
  - unfold mergeConfig, structuredClone.
    change CONFIG with (VObject CONFIG_props) at 1.
    rewrite mergeObjects_object.
    change (merge_props CONFIG_props r) with (merge_props ([] ++ CONFIG_props) r).
    rewrite (merge_props_onto_same_keys r [] CONFIG_props).
    + reflexivity.
    + exact Hkeys.
    + exact Hndr.
    + intros k x Hin. exact (proj2 (Hent k x Hin)).
    + exact recognized_NoDup.
  - apply (has_recognized_true r K_ignore
             (match lookup K_ignore r with Some x => x | None => VUndefined end));
      [simpl; tauto|].
    destruct (lookup K_ignore r) eqn:E; [reflexivity|]. exfalso.
    apply lookup_None_notin in E. apply E. rewrite Hkeys. simpl. tauto.
  - intros k x Hl. exact (proj1 (Hent k x (lookup_Some_In _ _ _ Hl))).
Qed.

Lemma validateConfig_idempotent_witness :
  call (VObject
          [ (K_ignore, VArray [VString (str "pre")]);
            (K_ignore_with, VString DEFAULT_IGNORE_WITH);
            (K_strict, VBool false); (K_tab_size, int 4); (K_tag_wrap, VBool false);
            (K_tag_wrap_width, int 80); (K_trim, VArray []) ])
  = (Return (Fresh (VObject
          [ (K_ignore, VArray [VString (str "pre")]);
            (K_ignore_with, VString DEFAULT_IGNORE_WITH);
            (K_strict, VBool false); (K_tab_size, int 4); (K_tag_wrap, VBool false);
            (K_tag_wrap_width, int 80); (K_trim, VArray []) ])),
     mkStore (VObject
          [ (K_ignore, VArray [VString (str "pre")]);
            (K_ignore_with, VString DEFAULT_IGNORE_WITH);
            (K_strict, VBool false); (K_tab_size, int 4); (K_tag_wrap, VBool false);
            (K_tag_wrap_width, int 80); (K_trim, VArray []) ]) CONFIG).
Proof.
  apply (validateConfig_idempotent
           [(K_tab_size, int 4); (K_ignore, VArray [VString (str "pre")])]
           _ (mkStore sample_partial CONFIG)).
  - repeat constructor; simpl; intuition discriminate.
  - simpl. intros k [<-|[<-|[]]]; simpl; tauto.
  - reflexivity.
Defined.

(** * Keys the validator does not know *)

(** The one error of the merge. *)
Lemma mergeObjects_throws : forall u c e,
  mergeObjects c u = Throw e -> e = Both_current_and_updates_must_be_passed_in.
Proof.
  fix IH 1. intros u c e.
  destruct u as [| |b|n|s|ys|ups]; cbn [mergeObjects];
    destruct (negb (truthy c) || _); try (intros [= <-]; reflexivity);
    destruct c as [| | | | |xs|cur]; try discriminate.
  - revert cur. generalize 0%nat.
    induction ys as [|y ys IHl]; intros i cur; [discriminate|].
    destruct (negb (is_object_type y)); [apply IHl|].
    destruct (mergeObjects _ y) as [x|e'] eqn:E; [apply IHl|].
    intros [= <-]. exact (IH y _ _ E).
  - revert cur.
    induction ups as [|[key u] ups IHl]; intros cur; [discriminate|].
    destruct (negb (is_object_type u)); [apply IHl|].
    destruct (mergeObjects _ u) as [x|e'] eqn:E; [apply IHl|].
    intros [= <-]. exact (IH u _ _ E).
Qed.

Lemma same_checks_refl A (o : outcome A) : same_checks o o.
Proof. intros e _. tauto. Qed.

Section SameRecognized.

Variables (o1 o2 : props) (sh : value).
Hypothesis agree : forall K, In K recognized -> lookup K o2 = lookup K o1.

Let st1 := mkStore (VObject o1) sh.
Let st2 := mkStore (VObject o2) sh.

Lemma rel_bind A B (Q : outcome B -> outcome B -> Prop) (x : M A) (f : A -> M B) :
  snd (x st1) = st1 -> snd (x st2) = st2 -> rel st1 st2 eq x ->
  (forall e, Q (Throw e) (Throw e)) ->
  (forall a, rel st1 st2 Q (f a)) ->
  rel st1 st2 Q (bind x f).
Proof.
  unfold rel, bind. intros F1 F2 Hx Qe Hf.
  destruct (x st1) as [r1 s1]. destruct (x st2) as [r2 s2].
  cbn [fst snd] in *. subst. destruct r2 as [a|e]; [apply Hf | apply Qe].
Qed.

Lemma rel_has_any ks : incl ks recognized -> rel st1 st2 eq (has_any ks).
Proof.
  intro Hi. unfold rel, st1, st2. rewrite !has_any_object. cbn [fst]. f_equal.
  induction ks as [|K ks IH]; [reflexivity|]. cbn [existsb].
  rewrite (agree K (Hi K (or_introl eq_refl))), IH; [reflexivity|].
  intros x Hx. apply Hi. right. exact Hx.
Qed.

Lemma rel_field K bad e : In K recognized -> rel st1 st2 eq (field K bad e).
Proof.
  intro HK. unfold rel, st1, st2. rewrite !field_object, (agree K HK).
  destruct (lookup K o1) as [v|]; [destruct (bad v)|]; reflexivity.
Qed.

Lemma rel_validate_tab_size : rel st1 st2 eq validate_tab_size.
Proof.
  unfold rel, st1, st2. rewrite !validate_tab_size_run, !read_plain.
  rewrite (agree K_tab_size K_tab_size_recognized).
  set (t := match lookup K_tab_size o1 with Some x => x | None => VUndefined end).
  destruct (truthy t); [|reflexivity].
  destruct (negb (is_number t)); [reflexivity|].
  destruct (negb (isSafeInteger t)); [reflexivity|].
  destruct t; try reflexivity.
  match goal with |- context [if ?c then _ else _] => destruct c end; [reflexivity|].
  rewrite !write_config_plain. reflexivity.
Qed.

Lemma rel_merge :
  rel st1 st2 same_checks
    (bind read_CONFIG (fun dconfig =>
       bind read_config (fun config' =>
         bind (lift (mergeConfig dconfig config')) (fun merged =>
           ret (Fresh merged))))).
Proof.
  unfold rel, bind, read_CONFIG, read_config, lift, ret. cbn [fst].
  intros e He.
  assert (G : forall c u, (let (o, st') := (mergeConfig c u, mkStore u sh) in
               match o with
               | Return a => (Return (Fresh a), st')
               | Throw e0 => (@Throw returned e0, st')
               end) = (match mergeConfig c u with
                       | Return a => Return (Fresh a)
                       | Throw e0 => Throw e0
                       end, mkStore u sh))
    by (intros c u; destruct (mergeConfig c u); reflexivity).
  assert (N : forall c u, match mergeConfig c u with
                          | Return a => Return (Fresh a)
                          | Throw e0 => Throw e0
                          end <> Throw e).
  { intros c u. unfold mergeConfig.
    destruct (mergeObjects (structuredClone c) u) as [a|e0] eqn:E; [discriminate|].
    intros [= ->]. apply He. rewrite (mergeObjects_throws _ _ _ E). reflexivity. }
  unfold st1, st2.
  change (shared (mkStore (VObject o1) sh)) with sh.
  change (shared (mkStore (VObject o2) sh)) with sh.
  change (caller (mkStore (VObject o1) sh)) with (VObject o1).
  change (caller (mkStore (VObject o2) sh)) with (VObject o2).
  destruct (mergeConfig sh (VObject o1)) as [a1|e1] eqn:E1;
    destruct (mergeConfig sh (VObject o2)) as [a2|e2] eqn:E2; cbn [fst];
    split; intro H; try discriminate H; exfalso.
  - apply (N sh (VObject o2)). rewrite E2. exact H.
  - apply (N sh (VObject o1)). rewrite E1. exact H.
  - apply (N sh (VObject o1)). rewrite E1. exact H.
  - apply (N sh (VObject o2)). rewrite E2. exact H.
Qed.

Lemma has_recognized_agree : has_recognized o2 = has_recognized o1.
Proof.
  unfold has_recognized.
  assert (G : forall ks, incl ks recognized ->
            existsb (fun k => match lookup k o2 with Some _ => true | None => false end) ks
            = existsb (fun k => match lookup k o1 with Some _ => true | None => false end) ks).
  { induction ks as [|K ks IH]; intro Hi; [reflexivity|]. cbn [existsb].
    rewrite (agree K (Hi K (or_introl eq_refl))), IH; [reflexivity|].
    intros x Hx. apply Hi. right. exact Hx. }
  apply G. apply incl_refl.
Qed.

Lemma rel_validateConfig : rel st1 st2 same_checks validateConfig.
Proof.
  unfold rel, st1, st2. rewrite !validateConfig_object, has_recognized_agree.
  destruct (has_recognized o1); [|apply same_checks_refl].
  pose proof rel_validate_tab_size as Rt. unfold rel in Rt.
  pose proof (frame_validate_tab_size_plain (VObject o1) sh) as F1.
  pose proof (frame_validate_tab_size_plain (VObject o2) sh) as F2.
  fold st1 st2 in Rt, F1, F2 |- *.
  destruct (validate_tab_size st1) as [r1 s1]. destruct (validate_tab_size st2) as [r2 s2].
  cbn [fst snd] in Rt, F1, F2. subst r2 s1 s2.
  destruct r1 as [[]|e]; [|apply same_checks_refl].
  repeat (apply rel_bind;
          [apply frame_field | apply frame_field | apply rel_field; simpl; tauto
          | intro; apply same_checks_refl |];
          intros _).
  apply rel_merge.
Qed.

End SameRecognized.

(** The merge never removes a key. *)
Lemma merge_props_keeps l : forall m r K,
  merge_props m l = Return (VObject r) -> lookup K m <> None -> lookup K r <> None.
Proof.
  induction l as [|[key u] l IH]; intros m r K H HK; simpl in H.
  - injection H as <-. exact HK.
  - destruct (merge_step m key u) as [m'|e] eqn:E; [|discriminate].
    destruct (merge_step_set _ _ _ _ E) as [x ->].
    apply (IH _ _ K H).
    destruct (list_eq_dec N.eq_dec K key) as [->|Hne].
    + rewrite lookup_set_same. discriminate.
    + rewrite lookup_set_other by exact Hne. exact HK.
Qed.

(** C9, as the code has it.  The checks of [validateConfig] look at the
    seven recognized names only: two plain objects that agree on these
    names are rejected by the same check with the same error, whatever
    their other keys.  The other keys are not dropped, though: when the
    input has a recognized key, the merge copies every own key, so the
    result holds the seven fields and, with its value, every unrecognized
    key of the input whose value is a primitive (the key [__proto__]
    apart, which an assignment does not create).  Only the shortcut, for
    an input without any recognized key, returns exactly the default
    configuration. *)
Theorem C9_unrecognized_keys_are_merged :
  (forall o1 o2 e,
      (forall K, In K recognized -> lookup K o2 = lookup K o1) ->
      kind_of e <> Unclassified ->
      (fst (call (VObject o1)) = Throw e <-> fst (call (VObject o2)) = Throw e)) /\
  (forall o ret st',
      NoDup (map fst o) -> has_recognized o = true ->
      call (VObject o) = (Return ret, st') ->
      exists r,
        ret = Fresh (VObject r)
        /\ (forall K, In K recognized -> lookup K r <> None)
        /\ (forall k v, In (k, v) o -> ~ In k recognized -> is_object_type v = false ->
                        k <> K_proto -> lookup k r = Some v)) /\
  (forall o, has_recognized o = false -> fst (call (VObject o)) = Return TheShared).
Proof.
  split; [|split].
  - intros o1 o2 e Ha He. exact (rel_validateConfig o1 o2 CONFIG Ha e He).
  - intros o ret st' Hnd Hrec H. unfold call in H.
    pose proof (validateConfig_returns o CONFIG _ _ H) as Hp.
    rewrite (validateConfig_merges o CONFIG Hrec Hp) in H.
    unfold mergeConfig, structuredClone in H.
    change CONFIG with (VObject CONFIG_props) in H at 1.
    rewrite mergeObjects_object in H.
    destruct (merge_props CONFIG_props o) as [m|e] eqn:Em; [|discriminate].
    injection H as <- _.
    destruct (merge_props_keys _ _ _ Em) as (r & -> & _).
    exists r. split; [reflexivity|]. split.
    + intros K HK. apply (merge_props_keeps _ _ _ _ Em).
      destruct (CONFIG_typed K HK) as (x & Hx & _). rewrite Hx. discriminate.
    + intros k v Hin _ Ho _.
      apply (proj1 (merge_props_entry _ _ _ Em Hnd k v Hin
                      ltac:(unfold flat; rewrite Ho; reflexivity)) Ho).
  - intros o Hrec. unfold call. rewrite validateConfig_object, Hrec. reflexivity.
Qed.

Lemma C9_witness :
  exists r,
    fst (call (VObject [(K_strict, VBool true); (str "foo", int 1)]))
    = Return (Fresh (VObject r))
    /\ lookup K_tab_size r <> None
    /\ lookup (str "foo") r = Some (int 1).
Proof.
  destruct (call (VObject [(K_strict, VBool true); (str "foo", int 1)]))
    as [[ret|e] st'] eqn:E; [|vm_compute in E; discriminate E].
  destruct (proj1 (proj2 C9_unrecognized_keys_are_merged)
              [(K_strict, VBool true); (str "foo", int 1)] ret st')
    as (r & -> & HK & Hk).
  - repeat constructor; simpl; intuition discriminate.
  - reflexivity.
  - exact E.
  - exists r. split; [reflexivity|]. split.
    + apply HK. simpl. tauto.
    + apply Hk; [simpl; tauto | simpl; intuition discriminate | reflexivity | discriminate].
Defined.

(** C9, the claim as worded, fails: the configuration returned for
    [{ strict: true, foo: 1 }] has the key [foo] and eight fields; and an
    unrecognized key can make the call fail, [{ strict: true, foo: null }]
    being refused by the merge. *)
Lemma C9_counterexample :
  (exists r, fst (call (VObject [(K_strict, VBool true); (str "foo", int 1)]))
             = Return (Fresh (VObject r))
             /\ lookup (str "foo") r = Some (int 1)
             /\ List.length r = 8%nat)
  /\ fst (call (VObject [(K_strict, VBool true); (str "foo", VNull)]))
     = Throw Both_current_and_updates_must_be_passed_in.
Proof.
  split; [eexists; split; [reflexivity|]; split; reflexivity | reflexivity].
Qed.

(** * Further properties of the attribute protection *)

Lemma protect_capture_twice x : protect_capture (protect_capture x) = protect_capture x.
Proof. apply protect_capture_plain. apply protect_capture_no_space. Qed.

Lemma protect_twice_bounded : forall k h,
  (List.length h <= k)%nat ->
  protectAttributes (protectAttributes h) = protectAttributes h
  /\ attr_regions (protectAttributes h) = map protect_capture (attr_regions h).
Proof.
  induction k as [|k IH]; intros h Hk.
  - destruct h; [split; reflexivity | simpl in Hk; lia].
  - destruct h as [|c s]; [split; reflexivity|].
    destruct (attr_spec (c :: s)) as [[[n cp] w]|] eqn:E.
    + destruct (attr_spec_shape _ _ _ _ E) as (Hs & _ & _ & _).
      assert (Hlen : (List.length w <= k)%nat).
      { apply (f_equal (@List.length char)) in Hs. simpl in Hs, Hk.
        rewrite !length_app in Hs. simpl in Hs. lia. }
      destruct (IH w Hlen) as [IH1 IH2].
      pose proof (attr_spec_encoded _ _ _ _ _ E (protect_Ra _ w (Nat.le_refl _))) as E'.
      rewrite (protect_hit _ _ _ _ E). split.
      * rewrite (protect_hit _ _ _ _ E'), protect_capture_twice, IH1. reflexivity.
      * rewrite (attr_regions_hit _ _ _ _ E'), (attr_regions_hit _ _ _ _ E), IH2.
        reflexivity.
    + assert (E' : attr_spec (c :: protectAttributes s) = None).
      { apply (attr_spec_none (c :: s)); [|exact E].
        apply er_keep. apply (protect_Ra _ s (Nat.le_refl _)). }
      assert (Hlen : (List.length s <= k)%nat) by (simpl in Hk; lia).
      destruct (IH s Hlen) as [IH1 IH2].
      assert (Hm : forall u, attr_spec (c :: u) = None ->
                     protectAttributes (c :: u) = c :: protectAttributes u)
        by (intros u Hu; rewrite !protect_is_tagmap; apply tagmap_miss; exact Hu).
      rewrite (Hm s E). split.
      * rewrite (Hm _ E'), IH1. reflexivity.
      * rewrite (attr_regions_miss _ _ E'), (attr_regions_miss _ _ E). exact IH2.
Qed.

(** Protecting twice is protecting once: a protected document has no
    whitespace left in its tags, so the second pass finds the same tags and
    changes nothing. *)
Theorem protectAttributes_idempotent :
  forall h, protectAttributes (protectAttributes h) = protectAttributes h.
Proof.
  intro h. exact (proj1 (protect_twice_bounded (List.length h) h (Nat.le_refl _))).
Qed.

(** The tags of the protected document are the tags of the document, each
    region encoded: no attribute region of the result holds a whitespace
    character, whatever the document. *)
Theorem protectAttributes_regions_have_no_whitespace :
  forall h,
    attr_regions (protectAttributes h) = map protect_capture (attr_regions h)
    /\ forallb (fun x => negb (existsb is_space x)) (attr_regions (protectAttributes h))
       = true.
Proof.
  intro h.
  pose proof (proj2 (protect_twice_bounded (List.length h) h (Nat.le_refl _))) as H.
  split; [exact H|]. rewrite H, forallb_map_comp. apply forallb_forall.
  intros x _. rewrite protect_capture_no_space. reflexivity.
Qed.

(** * The decoders on a document without sentinel *)

Lemma prefixb_app_r t a b : prefixb t a = true -> prefixb t (a ++ b) = true.
Proof.
  revert a. induction t as [|x t IH]; intros a H; [reflexivity|].
  destruct a as [|y a]; [discriminate|]. simpl in *.
  apply andb_true_iff in H. destruct H as [H1 H2]. rewrite H1, (IH _ H2). reflexivity.
Qed.

Lemma contains_app X a b :
  contains X (a ++ b) = false -> contains X a = false /\ contains X b = false.
Proof.
  induction a as [|c a IH]; intro H.
  - split; [|exact H]. cbn [app] in H.
    destruct X; [destruct b; discriminate H | reflexivity].
  - cbn [app contains] in H. apply orb_false_iff in H. destruct H as [H1 H2].
    destruct (IH H2) as [Ha Hb]. split; [|exact Hb].
    cbn [contains]. rewrite Ha, orb_false_r.
    destruct (prefixb X (c :: a)) eqn:E; [|reflexivity].
    rewrite <- H1. symmetry. exact (prefixb_app_r X (c :: a) b E).
Qed.

Lemma contains_cons X c a : contains X (c :: a) = false -> contains X a = false.
Proof. intro H. exact (proj2 (contains_app X [c] a H)). Qed.

Lemma contains_longer X t s : contains (X ++ t) s = true -> contains X s = true.
Proof.
  induction s as [|c s IH]; cbn [contains]; intro H.
  - rewrite orb_false_r in *. rewrite prefixb_app_split in H.
    apply andb_true_iff in H. exact (proj1 H).
  - apply orb_true_iff in H. apply orb_true_iff. destruct H as [H|H].
    + left. rewrite prefixb_app_split in H. apply andb_true_iff in H. exact (proj1 H).
    + right. exact (IH H).
Qed.

Lemma contains_after X d t s : contains (d :: X ++ t) s = true -> contains X s = true.
Proof.
  induction s as [|c s IH]; cbn [contains]; intro H.
  - discriminate.
  - apply orb_true_iff in H. apply orb_true_iff. right. destruct H as [H|H].
    + cbn [prefixb] in H. apply andb_true_iff in H. destruct H as [_ H].
      rewrite prefixb_app_split in H. apply andb_true_iff in H.
      destruct s as [|c' s]; cbn [contains]; rewrite (proj1 H); reflexivity.
    + exact (IH H).
Qed.

Lemma contains_false_skipn t s :
  contains t s = false -> forall i, prefixb t (skipn i s) = false.
Proof.
  induction s as [|c s IH]; intros H i.
  - rewrite skipn_nil. simpl in H. rewrite orb_false_r in H. exact H.
  - cbn [contains] in H. apply orb_false_iff in H. destruct H as [H1 H2].
    destruct i as [|i]; [exact H1 | exact (IH H2 i)].
Qed.

(** A scan that finds nothing keeps every character. *)
Lemma scan_absent r : forall s b,
  (forall i, exec r (skipn i s) = None) -> scan r 0 b s = map Keep s.
Proof.
  induction s as [|c s IH]; intros b H.
  - pose proof (H 0%nat) as H0. cbn [skipn] in H0. cbn [scan]. rewrite H0. reflexivity.
  - pose proof (H 0%nat) as H0. cbn [skipn] in H0. cbn [scan]. rewrite H0.
    cbn [map]. f_equal. apply IH. intro i. exact (H (S i)).
Qed.

Lemma replace_tpl_absent r n t s :
  (forall i, exec r (skipn i s) = None) -> replace_tpl r n t s = s.
Proof.
  intro H. unfold replace_tpl, segments. rewrite (scan_absent r s [] H).
  induction s as [|c s IH]; [reflexivity|]. cbn [map flat_map app]. f_equal.
  apply IH. intro i. exact (H (S i)).
Qed.

Lemma replace_lit_absent t rep s :
  contains t s = false -> replace_tpl (Lit t) 0 rep s = s.
Proof.
  intro H. apply replace_tpl_absent. intro i. rewrite exec_lit.
  rewrite (contains_false_skipn t s H i). reflexivity.
Qed.

Lemma contains_false_longer X t s : contains X s = false -> contains (X ++ t) s = false.
Proof.
  intro H. destruct (contains (X ++ t) s) eqn:E; [|reflexivity].
  rewrite (contains_longer X t s E) in H. discriminate.
Qed.

Lemma contains_false_after X d t s : contains X s = false -> contains (d :: X ++ t) s = false.
Proof.
  intro H. destruct (contains (d :: X ++ t) s) eqn:E; [|reflexivity].
  rewrite (contains_after X d t s E) in H. discriminate.
Qed.

Lemma unprotect_capture_unmarked x :
  contains ATTRIBUTE_IGNORE_STRING x = false -> unprotect_capture x = x.
Proof.
  intro H. unfold unprotect_capture.
  rewrite (replace_lit_absent _ [NL] x) by (apply contains_false_longer; exact H).
  rewrite (replace_lit_absent _ [CR] x) by (apply contains_false_longer; exact H).
  rewrite (replace_lit_absent _ [SP] x) by (apply contains_false_longer; exact H).
  reflexivity.
Qed.

Lemma unprotect_unmarked_bounded : forall k h,
  (List.length h <= k)%nat ->
  contains ATTRIBUTE_IGNORE_STRING h = false -> unprotectAttributes h = h.
Proof.
  induction k as [|k IH]; intros h Hk Hc.
  - destruct h; [reflexivity | simpl in Hk; lia].
  - destruct h as [|c s]; [reflexivity|]. rewrite unprotect_is_tagmap.
    destruct (attr_spec (c :: s)) as [[[n cp] w]|] eqn:E.
    + destruct (attr_spec_shape _ _ _ _ E) as (Hs & _ & _ & _).
      rewrite (tagmap_hit _ _ _ _ _ E), <- unprotect_is_tagmap.
      assert (Hparts : contains ATTRIBUTE_IGNORE_STRING cp = false
                       /\ contains ATTRIBUTE_IGNORE_STRING w = false).
      { rewrite Hs in Hc.
        change (LT :: n ++ cp ++ GT :: w) with ((LT :: n) ++ cp ++ [GT] ++ w) in Hc.
        apply contains_app in Hc. destruct Hc as [_ Hc].
        apply contains_app in Hc. destruct Hc as [Hcp Hc].
        apply contains_app in Hc. tauto. }
      rewrite replace_first_id by (apply unprotect_capture_unmarked, Hparts).
      rewrite IH; [| |apply Hparts].
      * rewrite Hs. simpl. rewrite <- !app_assoc. reflexivity.
      * apply (f_equal (@List.length char)) in Hs. simpl in Hs, Hk.
        rewrite !length_app in Hs. simpl in Hs. lia.
    + rewrite (tagmap_miss _ _ _ E), <- unprotect_is_tagmap. f_equal.
      apply IH; [simpl in Hk; lia | exact (contains_cons _ _ _ Hc)].
Qed.

(** [unprotectAttributes] gives back, as it is, a document that does not
    hold the attribute sentinel. *)
Theorem unprotectAttributes_without_sentinel :
  forall h,
    contains ATTRIBUTE_IGNORE_STRING h = false -> unprotectAttributes h = h.
Proof.
  intros h H. exact (unprotect_unmarked_bounded (List.length h) h (Nat.le_refl _) H).
Qed.

Lemma unprotectAttributes_without_sentinel_witness :
  unprotectAttributes doc_div = doc_div.
Proof.
  apply (unprotectAttributes_without_sentinel doc_div). vm_compute. reflexivity.
Defined.

Lemma decode_from_unmarked d X cd y :
  contains X y = false -> forall n j, decode_from d X cd j n y = y.
Proof.
  intro H. induction n as [|n IH]; intro j; [reflexivity|].
  cbn [decode_from]. rewrite replace_lit_absent; [apply IH|].
  unfold tok. apply contains_false_after. exact H.
Qed.

Lemma decode_tag_unmarked tag X : forall k h,
  (List.length h <= k)%nat -> contains X h = false -> decode_tag tag X h = h.
Proof.
  induction k as [|k IH]; intros h Hk Hc.
  - destruct h; [|simpl in Hk; lia]. unfold decode_tag.
    apply replaced_nil. rewrite exec_ignore_re. reflexivity.
  - destruct h as [|c s].
    { unfold decode_tag. apply replaced_nil. rewrite exec_ignore_re. reflexivity. }
    destruct (ignore_spec tag (c :: s)) as [[[op inner] rest]|] eqn:E.
    + destruct (ignore_spec_shape _ _ _ _ _ E) as (Hs & _ & (y & Hop & _)).
      assert (Hparts : contains X inner = false /\ contains X rest = false).
      { rewrite Hs in Hc. apply contains_app in Hc. destruct Hc as [_ Hc].
        apply contains_app in Hc. destruct Hc as [Hi Hc].
        apply contains_app in Hc. tauto. }
      unfold decode_tag.
      rewrite (replaced_hit (ignore_re tag)
                 (fun _ hit => replace_first (group 1 hit) (ignore_decode X) (matched hit))
                 (fun _ _ _ => eq_refl) (c :: s)
                 (ignore_hit tag (op, inner, rest))
                 (op ++ inner ++ close_tag tag) rest);
        [| rewrite exec_ignore_re, E; reflexivity | reflexivity
         | rewrite Hop; discriminate
         | rewrite Hs; rewrite <- !app_assoc; reflexivity].
      fold (decode_tag tag X rest). rewrite IH; [| |apply Hparts].
      * cbn [ignore_hit matched]. change (group 1 (ignore_hit tag (op, inner, rest))) with inner.
        rewrite replace_first_id
          by (unfold ignore_decode; apply decode_from_unmarked, Hparts).
        rewrite Hs, <- !app_assoc. reflexivity.
      * apply (f_equal (@List.length char)) in Hs. rewrite Hop in Hs.
        rewrite !length_app in Hs. cbn [List.length] in Hs, Hk.
        rewrite !length_app in Hs. lia.
    + unfold decode_tag.
      rewrite (replaced_miss (ignore_re tag)
                 (fun _ hit => replace_first (group 1 hit) (ignore_decode X) (matched hit))
                 (fun _ _ _ => eq_refl))
        by (rewrite exec_ignore_re, E; reflexivity).
      fold (decode_tag tag X s). f_equal.
      apply IH; [simpl in Hk; lia | exact (contains_cons _ _ _ Hc)].
Qed.

(** [unsetIgnoreElement] gives back, as it is, a document that does not
    hold the sentinel, whatever the list of ignored tags. *)
Theorem unsetIgnoreElement_without_sentinel :
  forall tags X h,
    forallb plain tags = true -> plain X = true -> contains X h = false ->
    unsetIgnoreElement h (mkConfig tags X) = Some h.
Proof.
  intros tags X h Ht HX Hc. unfold unsetIgnoreElement. cbn [Utils.ignore_with Utils.ignore].
  induction tags as [|tag tags IH]; [reflexivity|].
  cbn [forallb] in Ht. apply andb_true_iff in Ht. destruct Ht as [Htag Ht].
  cbn [unsetIgnoreElement_loop]. unfold RegExp_ignore. rewrite Htag.
  rewrite (unignore_hits_decode X HX).
  change (flat_map _ (segments (ignore_re tag) h)) with (decode_tag tag X h).
  rewrite (decode_tag_unmarked tag X (List.length h) h (Nat.le_refl _) Hc).
  exact (IH Ht).
Qed.

Lemma unsetIgnoreElement_without_sentinel_witness :
  unsetIgnoreElement doc_two_scripts
    (mkConfig [TAG_SCRIPT; str "b"; str "p"] DEFAULT_IGNORE_WITH)
  = Some doc_two_scripts.
Proof.
  apply (unsetIgnoreElement_without_sentinel
           [TAG_SCRIPT; str "b"; str "p"] DEFAULT_IGNORE_WITH doc_two_scripts);
    vm_compute; reflexivity.
Defined.

(** * The matcher and what a regex matches *)

Lemma star_fuel_eq step g k fuel s cs :
  star_fuel step g k fuel s cs
  = let again :=
      match fuel with
      | O => None
      | S f =>
          step s cs (fun s1 cs1 =>
            if (List.length s1 <? List.length s)%nat
            then star_fuel step g k f s1 cs1 else None)
      end in
    if g then orelse again (k s cs) else orelse (k s cs) again.
Proof. destruct fuel; reflexivity. Qed.

Lemma orelse_some a b res :
  orelse a b = Some res -> a = Some res \/ (a = None /\ b = Some res).
Proof. destruct a; simpl; intro H; [left; exact H | right; split; [reflexivity | exact H]]. Qed.

Lemma orelse_not_none a b : a <> None \/ b <> None -> orelse a b <> None.
Proof. destruct a; simpl; intros [H|H]; congruence. Qed.

(** Soundness: a successful match reads a text that the regex matches,
    and goes on with what follows it. *)
Lemma m_sound : forall r s cs k res,
  m r s cs k = Some res ->
  exists w s' cs', s = w ++ s' /\ parse r w cs cs' /\ k s' cs' = Some res.
Proof.
  induction r as [|c|p|r1 IH1 r2 IH2|r1 IH1 r2 IH2|g r IH|i r IH];
    intros s cs k res H.
  - exists [], s, cs. split; [reflexivity|]. split; [constructor | exact H].
  - destruct s as [|a s]; [discriminate|]. cbn [m] in H.
    destruct (a =? c) eqn:E; [|discriminate]. apply N.eqb_eq in E. subst a.
    exists [c], s, cs. split; [reflexivity|]. split; [constructor | exact H].
  - destruct s as [|a s]; [discriminate|]. cbn [m] in H.
    destruct (p a) eqn:E; [|discriminate].
    exists [a], s, cs. split; [reflexivity|]. split; [constructor; exact E | exact H].
  - rewrite m_seq in H. apply IH1 in H. destruct H as (w1 & s1 & cs1 & -> & P1 & H).
    apply IH2 in H. destruct H as (w2 & s2 & cs2 & -> & P2 & H).
    exists (w1 ++ w2), s2, cs2. split; [rewrite app_assoc; reflexivity|].
    split; [econstructor; eassumption | exact H].
  - cbn [m] in H. apply orelse_some in H. destruct H as [H|[_ H]].
    + apply IH1 in H. destruct H as (w & s' & cs' & -> & P & H).
      exists w, s', cs'. split; [reflexivity|]. split; [apply p_alt_l; exact P | exact H].
    + apply IH2 in H. destruct H as (w & s' & cs' & -> & P & H).
      exists w, s', cs'. split; [reflexivity|]. split; [apply p_alt_r; exact P | exact H].
  - rewrite m_star_fuel in H. remember (List.length s) as n eqn:Hn. clear Hn.
    revert s cs H.
    induction n as [|f IHf]; intros s cs H; rewrite star_fuel_eq in H; cbv zeta in H.
    + assert (H' : k s cs = Some res)
        by (destruct g; apply orelse_some in H; destruct H as [H|[H1 H]];
            congruence).
      exists [], s, cs. split; [reflexivity|]. split; [constructor | exact H'].
    + assert (H' : k s cs = Some res
                   \/ m r s cs (fun s1 cs1 =>
                        if (List.length s1 <? List.length s)%nat
                        then star_fuel (m r) g k f s1 cs1 else None) = Some res).
      { destruct g; apply orelse_some in H; tauto. }
      destruct H' as [H'|H'].
      * exists [], s, cs. split; [reflexivity|]. split; [constructor | exact H'].
      * apply IH in H'. destruct H' as (w1 & s1 & cs1 & -> & P1 & H').
        destruct (List.length s1 <? List.length (w1 ++ s1))%nat eqn:El; [|discriminate].
        apply IHf in H'. destruct H' as (w2 & s2 & cs2 & -> & P2 & H').
        exists (w1 ++ w2), s2, cs2. split; [rewrite app_assoc; reflexivity|].
        split; [|exact H'].
        apply p_star_cons with (cs1 := cs1); [|exact P1|exact P2].
        intro; subst w1. apply Nat.ltb_lt in El. simpl in El. lia.
  - rewrite m_group in H. apply IH in H. destruct H as (w & s' & cs' & -> & P & H).
    rewrite firstn_matched in H.
    exists w, s', ((i, w) :: cs'). split; [reflexivity|].
    split; [constructor; exact P | exact H].
Qed.

(** Completeness: when the regex matches a text and what is left to match
    accepts what follows, the matcher finds a match (this one or one it
    tries before). *)
Lemma star_complete r g (IHr : forall w cs cs', parse r w cs cs' ->
    forall s' k, k s' cs' <> None -> m r (w ++ s') cs k <> None) :
  forall R w cs cs', parse R w cs cs' -> R = Star g r ->
  forall s' k fuel, (List.length (w ++ s') <= fuel)%nat ->
    k s' cs' <> None -> star_fuel (m r) g k fuel (w ++ s') cs <> None.
Proof.
  induction 1 as [| | | | | |g0 r0 cs|g0 r0 w1 w2 cs cs1 cs2 Hne P1 _ P2 IH2|];
    intro HR; try discriminate HR; injection HR as -> ->; intros s' k fuel Hf Hk.
  - rewrite star_fuel_eq. cbv zeta. cbn [app].
    destruct g; apply orelse_not_none; [right|left]; exact Hk.
  - rewrite star_fuel_eq. cbv zeta.
    destruct fuel as [|f].
    { destruct w1; [congruence|]. simpl in Hf. lia. }
    assert (A : m r ((w1 ++ w2) ++ s') cs (fun s1 cs1 =>
                  if (List.length s1 <? List.length ((w1 ++ w2) ++ s'))%nat
                  then star_fuel (m r) g k f s1 cs1 else None) <> None).
    { rewrite <- app_assoc. apply (IHr w1 cs cs1 P1).
      replace (List.length (w2 ++ s') <? List.length (w1 ++ w2 ++ s'))%nat with true.
      - apply (IH2 eq_refl). 
        rewrite <- app_assoc, length_app in Hf. destruct w1; [congruence|].
        simpl in Hf. lia.
        exact Hk.
      - symmetry. apply Nat.ltb_lt. rewrite (length_app w1).
        destruct w1; [congruence|]. simpl. lia. }
    destruct g; apply orelse_not_none; [left|right]; exact A.
Qed.

Lemma m_complete : forall r w cs cs',
  parse r w cs cs' ->
  forall s' k, k s' cs' <> None -> m r (w ++ s') cs k <> None.
Proof.
  induction r as [|c|p|r1 IH1 r2 IH2|r1 IH1 r2 IH2|g r IH|i r IH];
    intros w cs cs' P s' k Hk.
  - inversion P; subst. exact Hk.
  - inversion P; subst. cbn [app m]. rewrite N.eqb_refl. exact Hk.
  - inversion P as [| |p0 a cs0 Hp| | | | | |]; subst. cbn [app m]. rewrite Hp. exact Hk.
  - inversion P as [| | |? ? w1 w2 ? cs1 ? P1 P2| | | | |]; subst.
    rewrite m_seq, <- app_assoc. apply (IH1 _ _ _ P1). apply (IH2 _ _ _ P2). exact Hk.
  - cbn [m]. apply orelse_not_none.
    inversion P; subst; [left; eapply IH1 | right; eapply IH2]; eassumption.
  - rewrite m_star_fuel.
    apply (star_complete r g IH (Star g r) w cs cs' P eq_refl s' k _ (Nat.le_refl _) Hk).
  - inversion P as [| | | | | | | |? ? ? ? cs1 P1]; subst.
    rewrite m_group. apply (IH _ _ _ P1). rewrite firstn_matched. exact Hk.
Qed.

(** ** Reading a match back *)

Lemma parse_eps_inv w cs cs' : parse Eps w cs cs' -> w = [] /\ cs' = cs.
Proof. intro P. inversion P; subst. split; reflexivity. Qed.

Lemma parse_chr_inv c w cs cs' : parse (Chr c) w cs cs' -> w = [c] /\ cs' = cs.
Proof. intro P. inversion P; subst. split; reflexivity. Qed.

Lemma parse_cls_inv p w cs cs' :
  parse (Cls p) w cs cs' -> exists a, w = [a] /\ p a = true /\ cs' = cs.
Proof. intro P. inversion P; subst. eexists; split; [reflexivity|]. split; [assumption|reflexivity]. Qed.

Lemma parse_seq_inv r1 r2 w cs cs' :
  parse (Seq r1 r2) w cs cs' ->
  exists w1 w2 cs1, w = w1 ++ w2 /\ parse r1 w1 cs cs1 /\ parse r2 w2 cs1 cs'.
Proof. intro P. inversion P; subst. eauto 8. Qed.

Lemma parse_alt_inv r1 r2 w cs cs' :
  parse (Alt r1 r2) w cs cs' -> parse r1 w cs cs' \/ parse r2 w cs cs'.
Proof. intro P. inversion P; subst; tauto. Qed.

Lemma parse_group_inv i r w cs cs' :
  parse (Group i r) w cs cs' -> exists cs1, cs' = (i, w) :: cs1 /\ parse r w cs cs1.
Proof. intro P. inversion P; subst. eauto. Qed.

Lemma parse_star_inv g r w cs cs' :
  parse (Star g r) w cs cs' ->
  (w = [] /\ cs' = cs)
  \/ exists w1 w2 cs1, w = w1 ++ w2 /\ w1 <> [] /\ parse r w1 cs cs1
                       /\ parse (Star g r) w2 cs1 cs'.
Proof. intro P. inversion P; subst; [left; split; reflexivity | right; eauto 8]. Qed.

(** A run of one class. *)
Lemma parse_star_cls g p : forall w cs cs',
  parse (Star g (Cls p)) w cs cs' <-> forallb p w = true /\ cs' = cs.
Proof.
  intros w cs cs'. split.
  - intro P. remember (Star g (Cls p)) as R eqn:HR. revert HR.
    induction P as [| | | | | |g0 r0 cs|g0 r0 w1 w2 cs cs1 cs2 Hne P1 _ P2 IH2|];
      intro HR; try discriminate HR; injection HR as -> ->.
    + split; reflexivity.
    + apply parse_cls_inv in P1. destruct P1 as (a & -> & Ha & ->).
      destruct (IH2 eq_refl) as [H2 ->]. split; [|reflexivity].
      cbn [app forallb]. rewrite Ha, H2. reflexivity.
  - intros [H ->]. induction w as [|a w IH]; [constructor|].
    cbn [forallb] in H. apply andb_true_iff in H. destruct H as [Ha Hw].
    apply (@p_star_cons g (Cls p) [a] w cs cs cs);
      [discriminate | constructor; exact Ha | exact (IH Hw)].
Qed.

Lemma parse_plus_cls g p w cs cs' :
  parse (Plus g (Cls p)) w cs cs' <-> w <> [] /\ forallb p w = true /\ cs' = cs.
Proof.
  unfold Plus. split.
  - intro P. apply parse_seq_inv in P. destruct P as (w1 & w2 & cs1 & -> & P1 & P2).
    apply parse_cls_inv in P1. destruct P1 as (a & -> & Ha & ->).
    apply parse_star_cls in P2. destruct P2 as [H2 ->].
    split; [discriminate|]. split; [|reflexivity].
    cbn [app forallb]. rewrite Ha, H2. reflexivity.
  - intros (Hne & H & ->). destruct w as [|a w]; [congruence|].
    cbn [forallb] in H. apply andb_true_iff in H. destruct H as [Ha Hw].
    apply (@p_seq (Cls p) (Star g (Cls p)) [a] w cs cs cs);
      [constructor; exact Ha | apply parse_star_cls; split; [exact Hw | reflexivity]].
Qed.

Lemma parse_lit t cs : parse (Lit t) t cs cs.
Proof.
  induction t as [|c t IH]; [constructor|].
  apply (@p_seq (Chr c) (Lit t) [c] t cs cs cs); [constructor | exact IH].
Qed.

(** What the matcher captures is a part of what it reads. *)
Lemma parse_caps_sub r w cs cs' :
  parse r w cs cs' -> forall i v, In (i, v) cs' -> In (i, v) cs \/ sub v w.
Proof.
  induction 1 as [cs|c cs|p a cs Hp|r1 r2 w1 w2 cs cs1 cs2 _ IH1 _ IH2
                  |r1 r2 w cs cs1 _ IH|r1 r2 w cs cs1 _ IH|g r cs
                  |g r w1 w2 cs cs1 cs2 _ _ IH1 _ IH2|i0 r w cs cs1 _ IH];
    intros i v Hin; try (left; exact Hin); try (exact (IH i v Hin)).
  - destruct (IH2 i v Hin) as [H|(a & b & ->)].
    + destruct (IH1 i v H) as [H1|(a & b & ->)]; [left; exact H1|].
      right. exists a, (b ++ w2). rewrite <- !app_assoc. reflexivity.
    + right. exists (w1 ++ a), b. rewrite <- !app_assoc. reflexivity.
  - destruct (IH2 i v Hin) as [H|(a & b & ->)].
    + destruct (IH1 i v H) as [H1|(a & b & ->)]; [left; exact H1|].
      right. exists a, (b ++ w2). rewrite <- !app_assoc. reflexivity.
    + right. exists (w1 ++ a), b. rewrite <- !app_assoc. reflexivity.
  - destruct Hin as [[= <- <-]|Hin].
    + right. exists [], []. rewrite app_nil_r. reflexivity.
    + exact (IH i v Hin).
Qed.

(** One attempt of the scan. *)
Lemma exec_sound r s h :
  exec r s = Some h ->
  s = matched h ++ after h /\ parse r (matched h) [] (groups h).
Proof.
  unfold exec. destruct (m r s [] K0) as [[s' cs]|] eqn:E; [|discriminate].
  intros [= <-]. cbn [matched after groups].
  apply m_sound in E. destruct E as (w & s1 & cs1 & -> & P & [= <- <-]).
  rewrite firstn_matched. split; [reflexivity | exact P].
Qed.

Lemma attempt_iff r k s :
  attempt r k s = true
  <-> exists w s' cs', s = w ++ s' /\ parse r w [] cs' /\ k s' cs' <> None.
Proof.
  unfold attempt. split.
  - destruct (m r s [] k) as [res|] eqn:E; [|discriminate]. intros _.
    apply m_sound in E. destruct E as (w & s' & cs' & -> & P & Hk).
    exists w, s', cs'. split; [reflexivity|]. split; [exact P | congruence].
  - intros (w & s' & cs' & -> & P & Hk).
    pose proof (m_complete r w [] cs' P s' k Hk) as H.
    destruct (m r (w ++ s') [] k); [reflexivity | congruence].
Qed.

Lemma search_iff a s :
  search a s = true <-> exists pre u, s = pre ++ u /\ a u = true.
Proof.
  split.
  - induction s as [|c s IH]; cbn [search]; intro H.
    + rewrite orb_false_r in H. exists [], []. split; [reflexivity | exact H].
    + apply orb_true_iff in H. destruct H as [H|H].
      * exists [], (c :: s). split; [reflexivity | exact H].
      * destruct (IH H) as (pre & u & -> & Hu). exists (c :: pre), u.
        split; [reflexivity | exact Hu].
  - intros (pre & u & -> & Hu). induction pre as [|c pre IH].
    + destruct u; cbn [app search]; rewrite Hu; reflexivity.
    + cbn [app search]. rewrite IH. apply orb_true_r.
Qed.

(** * isHtml *)

Lemma alpha_alnum a : is_alpha a = true -> is_alnum a = true.
Proof. unfold is_alnum. intros ->. reflexivity. Qed.

Lemma parse_html_name n cs cs' :
  parse html_name n cs cs' <-> html_nameb n = true /\ cs' = cs.
Proof.
  unfold html_name. split.
  - intro P. apply parse_seq_inv in P. destruct P as (w1 & w2 & cs1 & -> & P1 & P2).
    apply parse_plus_cls in P1. destruct P1 as (Hne & H1 & ->).
    apply parse_star_cls in P2. destruct P2 as [H2 ->]. split; [|reflexivity].
    destruct w1 as [|a w1]; [congruence|]. cbn [forallb] in H1.
    apply andb_true_iff in H1. destruct H1 as [Ha H1].
    cbn [app html_nameb]. rewrite Ha, forallb_app, H2, andb_true_r. cbn [andb].
    apply forallb_forall. intros x Hx. apply alpha_alnum.
    exact (proj1 (forallb_forall _ _) H1 x Hx).
  - intros [H ->]. destruct n as [|a v]; [discriminate|]. cbn [html_nameb] in H.
    apply andb_true_iff in H. destruct H as [Ha Hv].
    apply (@p_seq _ _ [a] v cs cs cs).
    + apply parse_plus_cls. split; [discriminate|]. split; [|reflexivity].
      cbn [forallb]. rewrite Ha. reflexivity.
    + apply parse_star_cls. split; [exact Hv | reflexivity].
Qed.

Lemma parse_custom_name n cs cs' :
  parse custom_name n cs cs' <-> custom_name_text n /\ cs' = cs.
Proof.
  unfold custom_name. split.
  - intro P. apply parse_seq_inv in P. destruct P as (w1 & w2 & cs1 & -> & P1 & P).
    apply parse_cls_inv in P1. destruct P1 as (a & -> & Ha & ->).
    apply parse_seq_inv in P. destruct P as (u & w3 & cs1 & -> & P2 & P).
    apply parse_star_cls in P2. destruct P2 as [Hu ->].
    apply parse_seq_inv in P. destruct P as (d & t & cs1 & -> & P3 & P4).
    apply parse_chr_inv in P3. destruct P3 as [-> ->].
    apply parse_plus_cls in P4. destruct P4 as (Hne & Ht & ->).
    split; [|reflexivity]. exists a, u, t. auto.
  - intros [(a & u & t & -> & Ha & Hu & Hne & Ht) ->].
    apply (@p_seq _ _ [a] (u ++ DASH :: t) cs cs cs); [constructor; exact Ha|].
    apply (@p_seq _ _ u (DASH :: t) cs cs cs);
      [apply parse_star_cls; split; [exact Hu | reflexivity]|].
    apply (@p_seq _ _ [DASH] t cs cs cs); [constructor|].
    apply parse_plus_cls. auto.
Qed.

(** A character that [.] does not match is a line terminator, which [\s]
    matches. *)
Lemma not_dot_space a : is_dot a = false -> is_space a = true.
Proof.
  unfold is_dot. intro H. apply negb_false_iff in H.
  repeat (apply orb_true_iff in H; destruct H as [H|H]);
    apply N.eqb_eq in H; subst a; reflexivity.
Qed.

Lemma parse_blank_text g1 g2 g3 : forall k t x cs,
  (List.length t <= k)%nat -> is_space x = true ->
  parse (Star g1 (Seq (Plus g2 (Cls is_space)) (Star g3 (Cls is_dot)))) (x :: t) cs cs.
Proof.
  induction k as [|k IH]; intros t x cs Hk Hx.
  - destruct t; [|simpl in Hk; lia].
    apply (@p_star_cons _ _ [x] [] cs cs cs); [discriminate| |constructor].
    apply (@p_seq _ _ [x] [] cs cs cs).
    + apply parse_plus_cls. split; [discriminate|]. split; [|reflexivity].
      cbn [forallb]. rewrite Hx. reflexivity.
    + constructor.
  - pose proof (span_app is_dot t) as Happ. pose proof (span_all is_dot t) as Hall.
    pose proof (span_stops is_dot t) as Hstop.
    destruct (span is_dot t) as [d r]. cbn [fst snd] in *. subst t.
    change (x :: d ++ r) with ((x :: d) ++ r).
    apply (@p_star_cons _ _ (x :: d) r cs cs cs); [discriminate| |].
    + apply (@p_seq _ _ [x] d cs cs cs).
      * apply parse_plus_cls. split; [discriminate|]. split; [|reflexivity].
        cbn [forallb]. rewrite Hx. reflexivity.
      * apply parse_star_cls. split; [exact Hall | reflexivity].
    + destruct r as [|y r]; [constructor|]. apply IH.
      * rewrite length_app in Hk. simpl in Hk. lia.
      * exact (not_dot_space y Hstop).
Qed.

Lemma parse_tag_attrs a cs cs' :
  parse tag_attrs a cs cs' <-> starts_blank a = true /\ cs' = cs.
Proof.
  unfold tag_attrs. split.
  - intro P. remember (Star false (Seq (Plus true (Cls is_space)) (Star false (Cls is_dot))))
      as R eqn:HR. revert HR.
    induction P as [| | | | | |g0 r0 cs|g0 r0 w1 w2 cs cs1 cs2 Hne P1 _ P2 IH2|];
      intro HR; try discriminate HR; injection HR as -> ->.
    + split; reflexivity.
    + apply parse_seq_inv in P1. destruct P1 as (u & v & cs3 & -> & Pu & Pv).
      apply parse_plus_cls in Pu. destruct Pu as (Hu & Hsp & ->).
      apply parse_star_cls in Pv. destruct Pv as [_ ->].
      destruct (IH2 eq_refl) as [_ ->]. split; [|reflexivity].
      destruct u as [|x u]; [congruence|]. cbn [forallb] in Hsp.
      apply andb_true_iff in Hsp. exact (proj1 Hsp).
  - intros [H ->]. destruct a as [|x t]; [constructor|].
    exact (parse_blank_text false true false (List.length t) t x cs (Nat.le_refl _) H).
Qed.

Lemma parse_any_run g inner cs cs' :
  parse (Star g (Alt (Cls is_dot) (Chr NL))) inner cs cs'
  <-> forallb is_any inner = true /\ cs' = cs.
Proof.
  split.
  - intro P. remember (Star g (Alt (Cls is_dot) (Chr NL))) as R eqn:HR. revert HR.
    induction P as [| | | | | |g0 r0 cs|g0 r0 w1 w2 cs cs1 cs2 Hne P1 _ P2 IH2|];
      intro HR; try discriminate HR; injection HR as -> ->.
    + split; reflexivity.
    + destruct (IH2 eq_refl) as [H2 ->].
      apply parse_alt_inv in P1. destruct P1 as [P1|P1].
      * apply parse_cls_inv in P1. destruct P1 as (a & -> & Ha & ->).
        split; [|reflexivity]. cbn [app forallb]. unfold is_any at 1.
        rewrite Ha, H2. reflexivity.
      * apply parse_chr_inv in P1. destruct P1 as [-> ->].
        split; [|reflexivity]. cbn [app forallb]. rewrite H2. reflexivity.
  - intros [H ->]. induction inner as [|a w IH]; [constructor|].
    cbn [forallb] in H. apply andb_true_iff in H. destruct H as [Ha Hw].
    apply (@p_star_cons _ _ [a] w cs cs cs); [discriminate| |exact (IH Hw)].
    unfold is_any in Ha. apply orb_true_iff in Ha. destruct Ha as [Ha|Ha].
    + apply p_alt_l. constructor. exact Ha.
    + apply N.eqb_eq in Ha. subst a. apply p_alt_r. constructor.
Qed.

Lemma parse_open_tag w cs cs' :
  parse open_tag_re w cs cs'
  <-> exists n a, w = LT :: n ++ a ++ [GT] /\ html_nameb n = true
                  /\ starts_blank a = true /\ cs' = cs.
Proof.
  unfold open_tag_re. split.
  - intro P. apply parse_seq_inv in P. destruct P as (w1 & w2 & cs1 & -> & P1 & P).
    apply parse_chr_inv in P1. destruct P1 as [-> ->].
    apply parse_seq_inv in P. destruct P as (n & w3 & cs1 & -> & P2 & P).
    apply parse_html_name in P2. destruct P2 as [Hn ->].
    apply parse_seq_inv in P. destruct P as (a & w4 & cs1 & -> & P3 & P4).
    apply parse_tag_attrs in P3. destruct P3 as [Ha ->].
    apply parse_chr_inv in P4. destruct P4 as [-> ->].
    exists n, a. auto.
  - intros (n & a & -> & Hn & Ha & ->).
    apply (@p_seq _ _ [LT] (n ++ a ++ [GT]) cs cs cs); [constructor|].
    apply (@p_seq _ _ n (a ++ [GT]) cs cs cs); [apply parse_html_name; auto|].
    apply (@p_seq _ _ a [GT] cs cs cs); [apply parse_tag_attrs; auto | constructor].
Qed.

Section Element.

Variables (name : regex) (N : jsstring -> Prop).
Hypothesis parse_name : forall n cs cs', parse name n cs cs' <-> N n /\ cs' = cs.

Lemma parse_element w cs cs' :
  parse (element_re name) w cs cs'
  <-> exists n a inner,
        w = LT :: n ++ a ++ GT :: inner ++ [LT; SLASH] /\ N n
        /\ starts_blank a = true /\ forallb is_any inner = true
        /\ cs' = (1%nat, n) :: cs.
Proof.
  unfold element_re. split.
  - intro P. apply parse_seq_inv in P. destruct P as (w1 & w2 & cs1 & -> & P1 & P).
    apply parse_chr_inv in P1. destruct P1 as [-> ->].
    apply parse_seq_inv in P. destruct P as (n & w3 & cs1 & -> & P2 & P).
    apply parse_group_inv in P2. destruct P2 as (cs2 & -> & P2).
    apply parse_name in P2. destruct P2 as [Hn ->].
    apply parse_seq_inv in P. destruct P as (a & w4 & cs1 & -> & P3 & P).
    apply parse_tag_attrs in P3. destruct P3 as [Ha ->].
    apply parse_seq_inv in P. destruct P as (g & w5 & cs1 & -> & P4 & P).
    apply parse_chr_inv in P4. destruct P4 as [-> ->].
    apply parse_seq_inv in P. destruct P as (inner & w6 & cs1 & -> & P5 & P).
    apply parse_any_run in P5. destruct P5 as [Hi ->].
    apply parse_seq_inv in P. destruct P as (l & sl & cs1 & -> & P6 & P7).
    apply parse_chr_inv in P6. destruct P6 as [-> ->].
    apply parse_chr_inv in P7. destruct P7 as [-> ->].
    exists n, a, inner. auto.
  - intros (n & a & inner & -> & Hn & Ha & Hi & ->).
    apply (@p_seq _ _ [LT] (n ++ a ++ GT :: inner ++ [LT; SLASH]) cs cs _); [constructor|].
    apply (@p_seq _ _ n (a ++ GT :: inner ++ [LT; SLASH]) cs ((1%nat, n) :: cs) _).
    { constructor. apply parse_name. auto. }
    apply (@p_seq _ _ a (GT :: inner ++ [LT; SLASH]) _ ((1%nat, n) :: cs) _);
      [apply parse_tag_attrs; auto|].
    apply (@p_seq _ _ [GT] (inner ++ [LT; SLASH]) _ ((1%nat, n) :: cs) _); [constructor|].
    apply (@p_seq _ _ inner [LT; SLASH] _ ((1%nat, n) :: cs) _);
      [apply parse_any_run; auto|].
    apply (@p_seq _ _ [LT] [SLASH] _ ((1%nat, n) :: cs) _); constructor.
Qed.

Lemma element_close_iff n cs s' :
  element_close s' ((1%nat, n) :: cs) <> None <-> exists post, s' = n ++ GT :: post.
Proof.
  unfold element_close, backref. cbn [cap_get Nat.eqb]. rewrite m_seq_lit.
  split.
  - destruct (prefixb n s') eqn:E; [|congruence].
    apply prefixb_true in E. intro H. rewrite E.
    destruct (skipn (List.length n) s') as [|g post]; [exfalso; apply H; reflexivity|].
    rewrite m_chr in H. destruct (g =? GT) eqn:Eg; [|congruence].
    apply N.eqb_eq in Eg. subst g. exists post. reflexivity.
  - intros (post & ->). rewrite prefixb_app, skipn_app_exact, m_chr, N.eqb_refl.
    discriminate.
Qed.

Lemma attempt_element u :
  attempt (element_re name) element_close u = true
  <-> exists n a inner post,
        u = LT :: n ++ a ++ GT :: inner ++ LT :: SLASH :: n ++ GT :: post
        /\ N n /\ starts_blank a = true /\ forallb is_any inner = true.
Proof.
  rewrite attempt_iff. split.
  - intros (w & s' & cs' & -> & P & Hk). apply parse_element in P.
    destruct P as (n & a & inner & -> & Hn & Ha & Hi & ->).
    apply element_close_iff in Hk. destruct Hk as (post & ->).
    exists n, a, inner, post. split; [|auto].
    cbn [app]. rewrite <- !app_assoc. cbn [app]. rewrite <- !app_assoc. reflexivity.
  - intros (n & a & inner & post & -> & Hn & Ha & Hi).
    exists (LT :: n ++ a ++ GT :: inner ++ [LT; SLASH]), (n ++ GT :: post),
           [(1%nat, n)].
    split; [|split].
    + cbn [app]. rewrite <- !app_assoc. cbn [app]. rewrite <- !app_assoc. reflexivity.
    + apply parse_element. exists n, a, inner. auto.
    + apply element_close_iff. exists post. reflexivity.
Qed.

End Element.

Lemma attempt_open_tag u :
  attempt open_tag_re K0 u = true
  <-> exists n a post,
        u = LT :: n ++ a ++ GT :: post /\ html_nameb n = true
        /\ starts_blank a = true.
Proof.
  rewrite attempt_iff. split.
  - intros (w & s' & cs' & -> & P & _). apply parse_open_tag in P.
    destruct P as (n & a & -> & Hn & Ha & _). exists n, a, s'. split; [|auto].
    cbn [app]. rewrite <- !app_assoc. reflexivity.
  - intros (n & a & post & -> & Hn & Ha).
    exists (LT :: n ++ a ++ [GT]), post, []. split; [|split].
    + cbn [app]. rewrite <- !app_assoc. reflexivity.
    + apply parse_open_tag. exists n, a. auto.
    + discriminate.
Qed.

Lemma search_ext a b s : (forall u, a u = b u) -> search a s = search b s.
Proof.
  intro H. induction s as [|c s IH]; cbn [search]; rewrite H; [reflexivity|].
  rewrite IH. reflexivity.
Qed.

Lemma search_open_tag s :
  search (attempt open_tag_re K0) s = true
  <-> exists pre n a post,
        s = pre ++ LT :: n ++ a ++ GT :: post /\ html_nameb n = true
        /\ starts_blank a = true.
Proof.
  rewrite search_iff. split.
  - intros (pre & u & -> & Hu). apply attempt_open_tag in Hu.
    destruct Hu as (n & a & post & -> & H). exists pre, n, a, post. auto.
  - intros (pre & n & a & post & -> & H). exists pre, (LT :: n ++ a ++ GT :: post).
    split; [reflexivity|]. apply attempt_open_tag. exists n, a, post. auto.
Qed.

Lemma search_element name (N : jsstring -> Prop)
  (parse_name : forall n cs cs', parse name n cs cs' <-> N n /\ cs' = cs) s :
  search (attempt (element_re name) element_close) s = true
  <-> exists pre n a inner post,
        s = pre ++ LT :: n ++ a ++ GT :: inner ++ LT :: SLASH :: n ++ GT :: post
        /\ N n /\ starts_blank a = true /\ forallb is_any inner = true.
Proof.
  rewrite search_iff. split.
  - intros (pre & u & -> & Hu). apply (attempt_element name N parse_name) in Hu.
    destruct Hu as (n & a & inner & post & -> & H). exists pre, n, a, inner, post. auto.
  - intros (pre & n & a & inner & post & -> & H).
    exists pre, (LT :: n ++ a ++ GT :: inner ++ LT :: SLASH :: n ++ GT :: post).
    split; [reflexivity|]. apply (attempt_element name N parse_name).
    exists n, a, inner, post. auto.
Qed.

(** What [isHtml] accepts: a text that holds an opening tag with an HTML
    tag name ([<], a letter, letters and digits, then [>] at once or a
    whitespace character and, anywhere after it, a [>]), or a custom
    element with its closing tag: [<name], nothing or a text that starts
    with whitespace, [>], a content without carriage return, U+2028 and
    U+2029, and [</name>] with the same name. *)
Theorem isHtml_spec :
  forall s,
    isHtml s = true
    <-> (exists pre n a post,
           s = pre ++ LT :: n ++ a ++ GT :: post /\ html_nameb n = true
           /\ starts_blank a = true)
        \/ (exists pre n a inner post,
              s = pre ++ LT :: n ++ a ++ GT :: inner ++ LT :: SLASH :: n ++ GT :: post
              /\ custom_name_text n /\ starts_blank a = true
              /\ forallb is_any inner = true).
Proof.
  intro s. unfold isHtml. rewrite !orb_true_iff, search_open_tag.
  rewrite (search_element html_name (fun n => html_nameb n = true) parse_html_name).
  rewrite (search_element custom_name custom_name_text parse_custom_name).
  split.
  - intros [[H|H]|H]; [left; exact H | left | right; exact H].
    destruct H as (pre & n & a & inner & post & -> & Hn & Ha & _).
    exists pre, n, a, (inner ++ LT :: SLASH :: n ++ GT :: post). auto.
  - intros [H|H]; [left; left; exact H | right; exact H].
Qed.

(** The second pattern of [isHtml] (an HTML element with its closing tag)
    never decides: whatever it matches starts with an opening tag, which
    the first pattern has matched already. *)
Theorem isHtml_second_pattern_is_redundant :
  forall s,
    (search (attempt (element_re html_name) element_close) s = true ->
     search (attempt open_tag_re K0) s = true)
    /\ isHtml s
       = search (attempt open_tag_re K0) s
         || search (attempt (element_re custom_name) element_close) s.
Proof.
  intro s.
  assert (H : search (attempt (element_re html_name) element_close) s = true ->
              search (attempt open_tag_re K0) s = true).
  { rewrite search_open_tag.
    rewrite (search_element html_name (fun n => html_nameb n = true) parse_html_name).
    intros (pre & n & a & inner & post & -> & Hn & Ha & _).
    exists pre, n, a, (inner ++ LT :: SLASH :: n ++ GT :: post). auto. }
  split; [exact H|]. unfold isHtml.
  destruct (search (attempt open_tag_re K0) s); [reflexivity|].
  destruct (search (attempt (element_re html_name) element_close) s);
    [discriminate (H eq_refl) | reflexivity].
Qed.

Lemma lower_alpha a : is_lower a = true -> is_alpha a = true.
Proof. unfold is_alpha, is_lower. intros ->. apply orb_true_r. Qed.

(** Whatever [isHtml] accepts holds a [<] directly followed by a letter
    and, later, a [>]: a closing tag alone, a comparison such as [a < b]
    or a tag whose name starts with a digit is not HTML. *)
Theorem isHtml_needs_an_opening_tag :
  forall s,
    isHtml s = true ->
    exists pre x mid post,
      s = pre ++ LT :: x :: mid ++ GT :: post /\ is_alpha x = true.
Proof.
  intros s H. unfold isHtml in H. rewrite !orb_true_iff, search_open_tag in H.
  rewrite (search_element html_name (fun n => html_nameb n = true) parse_html_name) in H.
  rewrite (search_element custom_name custom_name_text parse_custom_name) in H.
  destruct H as [[(pre & n & a & post & -> & Hn & _)
                 |(pre & n & a & inner & post & -> & Hn & _)]
                |(pre & n & a & inner & post & -> & (a0 & u & t & -> & Ha0 & _) & _)].
  - destruct n as [|x v]; [discriminate|]. cbn [html_nameb] in Hn.
    apply andb_true_iff in Hn. exists pre, x, (v ++ a), post.
    split; [|exact (proj1 Hn)]. cbn [app]. rewrite <- !app_assoc. reflexivity.
  - destruct n as [|x v]; [discriminate|]. cbn [html_nameb] in Hn.
    apply andb_true_iff in Hn.
    exists pre, x, (v ++ a), (inner ++ LT :: SLASH :: (x :: v) ++ GT :: post).
    split; [|exact (proj1 Hn)]. cbn [app]. rewrite <- !app_assoc. reflexivity.
  - exists pre, a0, ((u ++ DASH :: t) ++ a),
           (inner ++ LT :: SLASH :: (a0 :: u ++ DASH :: t) ++ GT :: post).
    split; [|exact (lower_alpha a0 Ha0)]. cbn [app]. rewrite <- !app_assoc. reflexivity.
Qed.

Lemma isHtml_needs_an_opening_tag_witness :
  exists pre x mid post,
    str "a <b>c" = pre ++ LT :: x :: mid ++ GT :: post /\ is_alpha x = true.
Proof.
  apply (isHtml_needs_an_opening_tag (str "a <b>c")). vm_compute. reflexivity.
Defined.

(** * trimify only removes whitespace *)

Section Removes.

Variable P : char -> bool.

Lemma removes_refl s : removes P s s.
Proof. induction s; constructor; assumption. Qed.

Lemma removes_app s1 s1' s2 s2' :
  removes P s1 s1' -> removes P s2 s2' -> removes P (s1 ++ s2) (s1' ++ s2').
Proof.
  intros H1 H2. induction H1; cbn [app]; [exact H2 | constructor; assumption
                                         | apply rm_drop; assumption].
Qed.

Lemma removes_all w : forallb P w = true -> removes P w [].
Proof.
  induction w as [|c w IH]; [constructor|]. cbn [forallb]. intro H.
  apply andb_true_iff in H. apply rm_drop; [exact (proj1 H) | exact (IH (proj2 H))].
Qed.

Lemma removes_nil_inv s' : removes P [] s' -> s' = [].
Proof. intro H. inversion H. reflexivity. Qed.

Lemma removes_trans s1 s2 : removes P s1 s2 -> forall s3, removes P s2 s3 -> removes P s1 s3.
Proof.
  induction 1 as [|c s s' _ IH|c s s' Hc _ IH]; intros s3 H3.
  - exact H3.
  - inversion H3; subst; [apply rm_keep | apply rm_drop; [assumption|]]; apply IH; assumption.
  - apply rm_drop; [exact Hc | exact (IH _ H3)].
Qed.

(** The characters outside the class are kept, in their order. *)
Lemma removes_filter s s' :
  removes P s s' ->
  filter (fun c => negb (P c)) s' = filter (fun c => negb (P c)) s
  /\ (List.length s' <= List.length s)%nat.
Proof.
  induction 1 as [|c s s' _ [IH1 IH2]|c s s' Hc _ [IH1 IH2]]; cbn [filter List.length].
  - split; [reflexivity | lia].
  - rewrite IH1. split; [reflexivity | lia].
  - rewrite Hc. cbn [negb]. split; [exact IH1 | lia].
Qed.

(** A global replacement whose matches only lose characters of the class
    only loses characters of the class. *)
Lemma scan_removes r f :
  (forall b h s', exec r s' = Some h -> removes P (matched h) (f b h)) ->
  forall s n b, (n <= List.length s)%nat ->
    removes P (skipn n s) (flat_map (render f) (scan r n b s)).
Proof.
  intro Hf. induction s as [|c s IH]; intros n b Hn.
  - destruct n; [|simpl in Hn; lia]. cbn [scan skipn].
    destruct (exec r []) as [h|] eqn:E; [|constructor].
    cbn [flat_map render]. rewrite app_nil_r.
    pose proof (Hf b h [] E) as H. destruct (exec_sound r [] h E) as [Hs _].
    destruct (matched h); [exact H | discriminate Hs].
  - destruct n as [|n]; cbn [scan skipn].
    2:{ apply IH. simpl in Hn. lia. }
    destruct (exec r (c :: s)) as [h|] eqn:E.
    + pose proof (Hf b h _ E) as H. destruct (exec_sound r _ h E) as [Hs _].
      destruct (List.length (matched h)) as [|k] eqn:El.
      * destruct (matched h); [|discriminate El].
        apply removes_nil_inv in H. cbn [flat_map render]. rewrite H. cbn [app].
        apply rm_keep. apply (IH 0%nat). lia.
      * cbn [flat_map render]. rewrite Hs at 1.
        apply removes_app; [exact H|].
        assert (Ha : after h = skipn k s).
        { destruct (matched h) as [|x u]; [discriminate El|].
          cbn [app] in Hs. injection Hs as _ Hs. rewrite Hs.
          cbn [List.length] in El. injection El as <-.
          rewrite skipn_app_exact. reflexivity. }
        rewrite Ha. apply IH.
        apply (f_equal (@List.length char)) in Hs. rewrite length_app, El in Hs.
        simpl in Hs. lia.
    + cbn [flat_map render app]. apply rm_keep. apply (IH 0%nat). lia.
Qed.

Lemma replaced_removes r f s :
  (forall b h s', exec r s' = Some h -> removes P (matched h) (f b h)) ->
  removes P s (replaced r f s).
Proof.
  intro Hf. exact (scan_removes r f Hf s 0%nat [] (Nat.le_0_l _)).
Qed.

End Removes.

Lemma expand_group1 b h : expand 1 b h (str "$1") = group 1 h ++ [].
Proof. reflexivity. Qed.

Lemma leading_hit_removes tag b h s' :
  exec (leading_whitespace tag) s' = Some h ->
  removes is_space (matched h) (expand 1 b h (str "$1")).
Proof.
  intro E. destruct (exec_sound _ _ _ E) as [_ P]. rewrite expand_group1.
  unfold leading_whitespace in P.
  apply parse_seq_inv in P. destruct P as (w1 & w2 & cs1 & Hm & P1 & P2).
  apply parse_group_inv in P1. destruct P1 as (cs0 & -> & _).
  apply parse_plus_cls in P2. destruct P2 as (_ & Hw & Hg).
  unfold group. rewrite Hg, Hm. cbn [cap_get Nat.eqb].
  apply removes_app; [apply removes_refl | apply removes_all; exact Hw].
Qed.

Lemma trailing_hit_removes tag b h s' :
  exec (trailing_whitespace tag) s' = Some h ->
  removes is_space (matched h) (expand 1 b h (str "$1")).
Proof.
  intro E. destruct (exec_sound _ _ _ E) as [_ P]. rewrite expand_group1.
  unfold trailing_whitespace in P.
  apply parse_seq_inv in P. destruct P as (w1 & w2 & cs1 & Hm & P1 & P2).
  apply parse_plus_cls in P1. destruct P1 as (_ & Hw & ->).
  apply parse_group_inv in P2. destruct P2 as (cs0 & Hg & _).
  unfold group. rewrite Hg, Hm. cbn [cap_get Nat.eqb].
  change (w2 ++ []) with ([] ++ w2 ++ []).
  apply removes_app; [apply removes_all; exact Hw|].
  rewrite app_nil_r. apply removes_refl.
Qed.

Lemma trimify_removes : forall trim html out,
  trimify html trim = Some out -> removes is_space html out.
Proof.
  induction trim as [|tag trim IH]; intros html out H; cbn [trimify] in H.
  - injection H as <-. apply removes_refl.
  - destruct (plain tag); [|discriminate].
    apply (removes_trans is_space html
             (replace_tpl (leading_whitespace tag) 1 (str "$1") html)).
    + apply (replaced_removes is_space (leading_whitespace tag)
               (fun b h => expand 1 b h (str "$1"))).
      intros b h s'. apply leading_hit_removes.
    + apply (removes_trans is_space _
               (replace_tpl (trailing_whitespace tag) 1 (str "$1")
                  (replace_tpl (leading_whitespace tag) 1 (str "$1") html))).
      * apply (replaced_removes is_space (trailing_whitespace tag)
                 (fun b h => expand 1 b h (str "$1"))).
        intros b h s'. apply trailing_hit_removes.
      * exact (IH _ _ H).
Qed.


Lemma trimify_plain : forall trim html,
  forallb plain trim = true -> exists out, trimify html trim = Some out.
Proof.
  induction trim as [|tag trim IH]; intros html H; cbn [trimify].
  - exists html. reflexivity.
  - cbn [forallb] in H. apply andb_true_iff in H. destruct H as [Ht Hr].
    rewrite Ht. apply IH. exact Hr.
Qed.

(** For a list of tag names without a character that has a meaning in a
    regular expression, [trimify] returns a result and only takes
    whitespace away: the result is the document without some of its
    whitespace characters, so the other characters are all there, in
    their order, and the result is not longer than the document.  (A tag
    name with a pattern character is read by [new RegExp] as a pattern of
    its own and is outside the modelled fragment.) *)
Theorem trimify_only_removes_whitespace :
  forall trim html,
    forallb plain trim = true ->
    exists out,
      trimify html trim = Some out
      /\ removes is_space html out
      /\ filter (fun c => negb (is_space c)) out = filter (fun c => negb (is_space c)) html
      /\ (List.length out <= List.length html)%nat.
Proof.
  intros trim html Hp. destruct (trimify_plain trim html Hp) as [out H].
  exists out. pose proof (trimify_removes trim html out H) as R.
  split; [exact H|]. split; [exact R | exact (removes_filter is_space html out R)].
Qed.

Lemma trimify_only_removes_whitespace_witness :
  exists out,
    trimify doc_pre [str "p"; str "pre"] = Some out
    /\ removes is_space doc_pre out
    /\ filter (fun c => negb (is_space c)) out
       = filter (fun c => negb (is_space c)) doc_pre
    /\ (List.length out <= List.length doc_pre)%nat.
Proof.
  apply (trimify_only_removes_whitespace [str "p"; str "pre"] doc_pre).
  vm_compute. reflexivity.
Defined.

(** ** An element with whitespace at both ends of its content *)

Lemma parse_lit_inv t : forall w cs cs', parse (Lit t) w cs cs' -> w = t /\ cs' = cs.
Proof.
  induction t as [|c t IH]; intros w cs cs' P; cbn [Lit] in P.
  - apply parse_eps_inv in P. exact P.
  - apply parse_seq_inv in P. destruct P as (w1 & w2 & cs1 & -> & P1 & P2).
    apply parse_chr_inv in P1. destruct P1 as [-> ->].
    apply IH in P2. destruct P2 as [-> ->]. split; reflexivity.
Qed.

Lemma parse_close_tag tag w cs cs' :
  parse (Seq (Chr LT) (Seq (Chr SLASH) (Seq (Lit tag) (Chr GT)))) w cs cs'
  <-> w = close_tag tag /\ cs' = cs.
Proof.
  split.
  - intro P. apply parse_seq_inv in P. destruct P as (w1 & w2 & cs1 & -> & P1 & P).
    apply parse_chr_inv in P1. destruct P1 as [-> ->].
    apply parse_seq_inv in P. destruct P as (w3 & w4 & cs1 & -> & P2 & P).
    apply parse_chr_inv in P2. destruct P2 as [-> ->].
    apply parse_seq_inv in P. destruct P as (w5 & w6 & cs1 & -> & P3 & P4).
    apply parse_lit_inv in P3. destruct P3 as [-> ->].
    apply parse_chr_inv in P4. destruct P4 as [-> ->]. split; reflexivity.
  - intros [-> ->]. unfold close_tag.
    apply (@p_seq _ _ [LT] (SLASH :: tag ++ [GT]) cs cs cs); [constructor|].
    apply (@p_seq _ _ [SLASH] (tag ++ [GT]) cs cs cs); [constructor|].
    apply (@p_seq _ _ tag [GT] cs cs cs); [apply parse_lit | constructor].
Qed.

(** What [trailing_whitespace] matches: a run of whitespace, the longest
    there is, and the closing tag right after it. *)
Lemma exec_trailing_shape tag u h :
  exec (trailing_whitespace tag) u = Some h ->
  exists w,
    w <> [] /\ forallb is_space w = true /\ matched h = w ++ close_tag tag
    /\ group 1 h = close_tag tag /\ u = w ++ close_tag tag ++ after h.
Proof.
  intro E. destruct (exec_sound _ _ _ E) as [Hs P]. unfold trailing_whitespace in P.
  apply parse_seq_inv in P. destruct P as (w & w2 & cs1 & Hm & P1 & P2).
  apply parse_plus_cls in P1. destruct P1 as (Hne & Hw & ->).
  apply parse_group_inv in P2. destruct P2 as (cs0 & Hg & P2).
  apply parse_close_tag in P2. destruct P2 as [-> ->].
  exists w. unfold group. rewrite Hg. cbn [cap_get Nat.eqb].
  split; [exact Hne|]. split; [exact Hw|]. split; [exact Hm|]. split; [reflexivity|].
  rewrite Hs, Hm, <- app_assoc. reflexivity.
Qed.

Lemma exec_trailing_none tag u :
  match snd (span is_space u) with x :: _ => (x =? LT) = false | [] => True end ->
  exec (trailing_whitespace tag) u = None.
Proof.
  intro H. destruct (exec (trailing_whitespace tag) u) as [h|] eqn:E; [|reflexivity].
  exfalso. destruct (exec_trailing_shape tag u h E) as (w & _ & Hw & _ & _ & Hu).
  rewrite Hu in H. unfold close_tag in H. cbn [app] in H.
  rewrite (span_eq is_space w (LT :: SLASH :: (tag ++ [GT]) ++ after h) Hw eq_refl) in H.
  cbn [snd] in H. discriminate H.
Qed.

Lemma exec_trailing_hit tag w rest :
  w <> [] -> forallb is_space w = true ->
  exists h,
    exec (trailing_whitespace tag) (w ++ close_tag tag ++ rest) = Some h
    /\ matched h = w ++ close_tag tag /\ group 1 h = close_tag tag.
Proof.
  intros Hne Hw.
  assert (P : parse (trailing_whitespace tag) (w ++ close_tag tag) []
                    [(1%nat, close_tag tag)]).
  { apply (@p_seq _ _ w (close_tag tag) [] [] _).
    - apply parse_plus_cls. auto.
    - constructor. apply parse_close_tag. auto. }
  pose proof (m_complete _ _ _ _ P rest K0 ltac:(discriminate)) as Hc.
  unfold exec. rewrite app_assoc.
  destruct (m (trailing_whitespace tag) ((w ++ close_tag tag) ++ rest) [] K0)
    as [[s' cs]|] eqn:E; [|congruence].
  eexists. split; [reflexivity|].
  assert (E' : exec (trailing_whitespace tag) ((w ++ close_tag tag) ++ rest)
               = Some (Hit (firstn (List.length ((w ++ close_tag tag) ++ rest)
                                    - List.length s')
                                   ((w ++ close_tag tag) ++ rest)) cs s'))
    by (unfold exec; rewrite E; reflexivity).
  destruct (exec_trailing_shape tag _ _ E') as (w' & _ & Hw' & Hm & Hg & Hu).
  cbn [after] in Hu. rewrite Hm, Hg. split; [|reflexivity]. f_equal.
  rewrite <- app_assoc in Hu. unfold close_tag in Hu. cbn [app] in Hu.
  pose proof (span_eq is_space w (LT :: SLASH :: (tag ++ [GT]) ++ rest) Hw eq_refl) as S1.
  pose proof (span_eq is_space w' (LT :: SLASH :: (tag ++ [GT]) ++ s') Hw' eq_refl) as S2.
  rewrite Hu in S1. rewrite S1 in S2. injection S2 as <- _. reflexivity.
Qed.

Lemma exec_trailing_start tag c s :
  is_space c = false -> exec (trailing_whitespace tag) (c :: s) = None.
Proof.
  intro H. destruct (exec (trailing_whitespace tag) (c :: s)) as [h|] eqn:E; [|reflexivity].
  exfalso. destruct (exec_trailing_shape tag _ h E) as (w & Hne & Hw & _ & _ & Hu).
  destruct w as [|x w]; [congruence|]. cbn [app] in Hu. injection Hu as <- _.
  cbn [forallb] in Hw. rewrite H in Hw. discriminate Hw.
Qed.

Lemma span_stops_before (p q : char -> bool) v x s :
  forallb q v = true -> q x = true -> p x = false ->
  match snd (span p (v ++ x :: s)) with y :: _ => q y = true | [] => True end.
Proof.
  intros Hv Hx Hp. induction v as [|c v IH]; cbn [app span].
  - rewrite Hp. exact Hx.
  - cbn [forallb] in Hv. apply andb_true_iff in Hv. destruct Hv as [Hc Hv].
    destruct (p c); [|exact Hc].
    destruct (span p (v ++ x :: s)) as [a b]. exact (IH Hv).
Qed.

Section TrimElement.

Variable tag : jsstring.
Hypothesis tag_name : forallb is_name_char tag = true.
Hypothesis tag_not_empty : tag <> [].

Local Abbreviation Lead := (replace_tpl (leading_whitespace tag) 1 (str "$1")).
Local Abbreviation Trail := (replace_tpl (trailing_whitespace tag) 1 (str "$1")).

Lemma lead_miss c s : lead_spec tag (c :: s) = None -> Lead (c :: s) = c :: Lead s.
Proof.
  intro H.
  apply (replaced_miss (leading_whitespace tag) (fun _ h => group 1 h ++ [])
           (fun _ _ _ => eq_refl)).
  rewrite exec_leading, H. reflexivity.
Qed.

Lemma lead_nil : Lead [] = [].
Proof.
  apply (replaced_nil (leading_whitespace tag) (fun _ h => group 1 h ++ [])).
  rewrite exec_leading. reflexivity.
Qed.

Lemma lead_stretch u s : forallb (is_not LT) u = true -> Lead (u ++ s) = u ++ Lead s.
Proof.
  induction u as [|c u IH]; intro H; [reflexivity|].
  cbn [forallb] in H. apply andb_true_iff in H. destruct H as [Hc Hu].
  cbn [app]. rewrite lead_miss; [rewrite (IH Hu); reflexivity|].
  cbn [lead_spec]. unfold is_not in Hc. apply negb_true_iff in Hc. rewrite Hc.
  reflexivity.
Qed.

Lemma tag_not_slash s : prefixb tag (SLASH :: s) = false.
Proof.
  destruct tag as [|a t]; [congruence|]. cbn [forallb] in tag_name.
  apply andb_true_iff in tag_name. destruct tag_name as [Ha _].
  cbn [prefixb]. rewrite (name_not_slash a Ha). reflexivity.
Qed.

Lemma tag_no_lt : forallb (is_not LT) tag = true.
Proof.
  apply (forallb_impl is_name_char); [|exact tag_name].
  intros a Ha. apply name_char_cases in Ha. unfold is_not. apply negb_true_iff.
  apply N.eqb_neq. unfold LT. lia.
Qed.

Lemma lead_close : Lead (close_tag tag) = close_tag tag.
Proof.
  unfold close_tag. rewrite lead_miss.
  - f_equal. rewrite <- (app_nil_r (SLASH :: tag ++ [GT])) at 1.
    rewrite lead_stretch, lead_nil; [apply app_nil_r|].
    cbn [forallb]. rewrite forallb_app, tag_no_lt. reflexivity.
  - cbn [lead_spec]. change (LT =? LT) with true. cbn iota.
    rewrite tag_not_slash. reflexivity.
Qed.

Lemma trail_miss c s :
  exec (trailing_whitespace tag) (c :: s) = None -> Trail (c :: s) = c :: Trail s.
Proof.
  intro H.
  exact (replaced_miss (trailing_whitespace tag) (fun _ h => group 1 h ++ [])
           (fun _ _ _ => eq_refl) c s H).
Qed.

Lemma trail_nil : Trail [] = [].
Proof.
  apply (replaced_nil (trailing_whitespace tag) (fun _ h => group 1 h ++ [])).
  apply exec_trailing_none. exact I.
Qed.

(** A stretch without [<] that ends on a character that is not
    whitespace holds no match. *)
Lemma trail_solid u x s :
  forallb (is_not LT) (u ++ [x]) = true -> is_space x = false ->
  Trail ((u ++ [x]) ++ s) = (u ++ [x]) ++ Trail s.
Proof.
  intros H Hx. rewrite forallb_app in H. apply andb_true_iff in H.
  destruct H as [Hu Hxl]. cbn [forallb] in Hxl. rewrite andb_true_r in Hxl.
  induction u as [|c u IH].
  - cbn [app]. rewrite trail_miss; [reflexivity|]. apply exec_trailing_start. exact Hx.
  - cbn [forallb] in Hu. apply andb_true_iff in Hu. destruct Hu as [Hc Hu].
    cbn [app]. rewrite trail_miss; [rewrite <- (IH Hu); reflexivity|].
    apply exec_trailing_none.
    pose proof (span_stops_before is_space (is_not LT) (c :: u) x s) as S.
    rewrite <- app_assoc. cbn [app] in *.
    assert (Hcu : forallb (is_not LT) (c :: u) = true)
      by (cbn [forallb]; rewrite Hc, Hu; reflexivity).
    specialize (S Hcu Hxl Hx).
    destruct (snd (span is_space (c :: u ++ x :: s))) as [|y r]; [exact I|].
    unfold is_not in S. apply negb_true_iff in S. exact S.
Qed.

Lemma trail_close : Trail (close_tag tag) = close_tag tag.
Proof.
  unfold close_tag. rewrite trail_miss by (apply exec_trailing_start; reflexivity).
  f_equal. rewrite <- (app_nil_r (SLASH :: tag ++ [GT])) at 1.
  change (SLASH :: tag ++ [GT]) with ((SLASH :: tag) ++ [GT]) at 1.
  rewrite trail_solid, trail_nil; [apply app_nil_r| |reflexivity].
  cbn [app forallb]. rewrite forallb_app, tag_no_lt. reflexivity.
Qed.

Lemma trail_run w :
  forallb is_space w = true -> Trail (w ++ close_tag tag) = close_tag tag.
Proof.
  intro Hw. destruct w as [|a w]; [exact trail_close|].
  destruct (exec_trailing_hit tag (a :: w) [] ltac:(discriminate) Hw) as (h & E & Hm & Hg).
  rewrite app_nil_r in E.
  change (Trail ((a :: w) ++ close_tag tag))
    with (replaced (trailing_whitespace tag) (fun _ h => group 1 h ++ [])
            ((a :: w) ++ close_tag tag)).
  rewrite (replaced_hit (trailing_whitespace tag) (fun _ h => group 1 h ++ [])
             (fun _ _ _ => eq_refl) ((a :: w) ++ close_tag tag) h
             ((a :: w) ++ close_tag tag) [] E Hm);
    [|discriminate | rewrite app_nil_r; reflexivity].
  rewrite Hg, app_nil_r. apply app_nil_r.
Qed.

End TrimElement.

(** [trimify] with the tag [t] strips the whitespace at both ends of the
    content of a [t] element: for an element [<t y>w1 body w2</t>] whose
    opening tag holds no bracket of its own, whose content [body] holds no
    [<] and starts and ends with a character that is not whitespace, and
    whose [w1] and [w2] are runs of whitespace (empty or not), the result
    is [<t y>body</t>]. *)
Theorem trimify_strips_element_content :
  forall tag y w1 mid bl w2,
    tag <> [] -> forallb is_name_char tag = true ->
    forallb no_bracket y = true ->
    forallb is_space w1 = true -> forallb is_space w2 = true ->
    forallb (is_not LT) (mid ++ [bl]) = true -> is_space bl = false ->
    match mid ++ [bl] with a :: _ => is_space a = false | [] => True end ->
    trimify (LT :: tag ++ y ++ GT :: w1 ++ (mid ++ [bl]) ++ w2 ++ close_tag tag) [tag]
    = Some (LT :: tag ++ y ++ GT :: (mid ++ [bl]) ++ close_tag tag).
Proof.
  intros tag y w1 mid bl w2 Hne Hname Hy Hw1 Hw2 Hbody Hbl Hfirst.
  assert (Hplain : plain tag = true)
    by (unfold plain; exact (forallb_impl _ _ _ name_char_plain Hname)).
  assert (Hygt : forallb (is_not GT) y = true).
  { apply (forallb_impl no_bracket); [|exact Hy]. intros a Ha. unfold no_bracket in Ha.
    apply andb_true_iff in Ha. exact (proj2 Ha). }
  assert (Hylt : forallb (is_not LT) y = true).
  { apply (forallb_impl no_bracket); [|exact Hy]. intros a Ha. unfold no_bracket in Ha.
    apply andb_true_iff in Ha. exact (proj1 Ha). }
  assert (Hw2lt : forallb (is_not LT) w2 = true).
  { apply (forallb_impl is_space); [|exact Hw2]. intros a Ha.
    apply space_cases in Ha. unfold is_not. apply negb_true_iff, N.eqb_neq.
    unfold LT. lia. }
  assert (Hb0 : exists b0 r0, mid ++ [bl] = b0 :: r0 /\ is_space b0 = false).
  { destruct (mid ++ [bl]) as [|b0 r0] eqn:Eb; [destruct mid; discriminate Eb|].
    exists b0, r0. split; [reflexivity | exact Hfirst]. }
  destruct Hb0 as (b0 & r0 & Hb0 & Hb0s). clear Hfirst.
  remember (mid ++ [bl]) as body eqn:Hbd.
  set (op := LT :: tag ++ y ++ [GT]).
  (* the leading pass *)
  assert (HL : replace_tpl (leading_whitespace tag) 1 (str "$1")
                 (LT :: tag ++ y ++ GT :: w1 ++ body ++ w2 ++ close_tag tag)
               = op ++ body ++ w2 ++ close_tag tag).
  { assert (Hrest : replace_tpl (leading_whitespace tag) 1 (str "$1")
                      (body ++ w2 ++ close_tag tag)
                    = body ++ w2 ++ close_tag tag).
    { rewrite (app_assoc body w2).
      rewrite (lead_stretch tag (body ++ w2) (close_tag tag))
        by (rewrite forallb_app, Hbody, Hw2lt; reflexivity).
      rewrite (lead_close tag Hname Hne). reflexivity. }
    destruct w1 as [|a w1].
    - cbn [app]. rewrite lead_miss.
      + replace (tag ++ y ++ GT :: body ++ w2 ++ close_tag tag)
          with ((tag ++ y ++ [GT]) ++ body ++ w2 ++ close_tag tag)
          by (rewrite <- !app_assoc; reflexivity).
        rewrite (lead_stretch tag (tag ++ y ++ [GT]))
          by (rewrite !forallb_app, (tag_no_lt tag Hname), Hylt; reflexivity).
        rewrite Hrest. unfold op. cbn [app]. rewrite <- !app_assoc. reflexivity.
      + cbn [lead_spec]. change (LT =? LT) with true. cbn iota.
        rewrite prefixb_app, skipn_app_exact.
        rewrite (span_eq (is_not GT) y (GT :: body ++ w2 ++ close_tag tag) Hygt eq_refl).
        rewrite Hb0. cbn [app span]. rewrite Hb0s. reflexivity.
    - assert (Hs : lead_spec tag (LT :: tag ++ y ++ GT :: (a :: w1) ++ body ++ w2 ++ close_tag tag)
                   = Some (op, a :: w1, body ++ w2 ++ close_tag tag)).
      { apply lead_spec_tag; [exact Hygt | discriminate | exact Hw1|].
        rewrite Hb0. exact Hb0s. }
      change (replace_tpl (leading_whitespace tag) 1 (str "$1")
                (LT :: tag ++ y ++ GT :: (a :: w1) ++ body ++ w2 ++ close_tag tag))
        with (replaced (leading_whitespace tag) (fun _ h => group 1 h ++ [])
                (LT :: tag ++ y ++ GT :: (a :: w1) ++ body ++ w2 ++ close_tag tag)).
      rewrite (replaced_hit (leading_whitespace tag) (fun _ h => group 1 h ++ [])
                 (fun _ _ _ => eq_refl) _
                 (lead_hit (op, a :: w1, body ++ w2 ++ close_tag tag))
                 (op ++ a :: w1) (body ++ w2 ++ close_tag tag));
        [| rewrite exec_leading, Hs; reflexivity | reflexivity | discriminate
         | unfold op; cbn [app]; rewrite <- !app_assoc; reflexivity].
      change (replaced (leading_whitespace tag) (fun _ h => group 1 h ++ [])
                (body ++ w2 ++ close_tag tag))
        with (replace_tpl (leading_whitespace tag) 1 (str "$1")
                (body ++ w2 ++ close_tag tag)).
      rewrite Hrest. unfold lead_hit, group. cbn [groups cap_get Nat.eqb].
      rewrite app_nil_r. reflexivity. }
  (* the trailing pass *)
  assert (HT : replace_tpl (trailing_whitespace tag) 1 (str "$1")
                 (op ++ body ++ w2 ++ close_tag tag)
               = op ++ body ++ close_tag tag).
  { transitivity (replace_tpl (trailing_whitespace tag) 1 (str "$1")
                    (LT :: ((tag ++ y ++ [GT] ++ mid) ++ [bl]) ++ w2 ++ close_tag tag)).
    { apply f_equal. unfold op. rewrite Hbd. cbn [app]. rewrite <- !app_assoc.
      reflexivity. }
    rewrite (trail_miss tag) by (apply exec_trailing_start; reflexivity).
    rewrite (trail_solid tag); [| |exact Hbl].
    - rewrite (trail_run tag Hname w2 Hw2). unfold op. rewrite Hbd. cbn [app].
      rewrite <- !app_assoc. reflexivity.
    - rewrite Hbd, forallb_app in Hbody.
      apply andb_true_iff in Hbody. destruct Hbody as [Hmid Hlast].
      rewrite !forallb_app, (tag_no_lt tag Hname), Hylt, Hmid, Hlast. reflexivity. }
  cbn [trimify]. rewrite Hplain. rewrite HL, HT. unfold op. cbn [app].
  rewrite <- !app_assoc. reflexivity.
Qed.

Lemma trimify_strips_element_content_witness :
  trimify (LT :: str "pre" ++ str " class=x" ++ GT :: str "  "
             ++ (str "a  " ++ [98]) ++ [NL] ++ close_tag (str "pre"))
          [str "pre"]
  = Some (LT :: str "pre" ++ str " class=x" ++ GT :: (str "a  " ++ [98])
            ++ close_tag (str "pre")).
Proof.
  apply (trimify_strips_element_content (str "pre") (str " class=x") (str "  ")
           (str "a  ") 98 [NL]); try reflexivity; discriminate.
Defined.

(** ** What one pass removes *)

Lemma trims_app_keep u s o : trims s o -> trims (u ++ s) (u ++ o).
Proof. intro H. induction u as [|c u IH]; [exact H | apply tr_keep; exact IH]. Qed.

Lemma spaces_not_gt w : forallb is_space w = true -> forallb (is_not GT) w = true.
Proof. apply forallb_impl. exact space_not_gt. Qed.

(** The result starts with whitespace only if the text does. *)
Lemma trims_starts_space s o :
  trims s o -> starts_space o = true -> starts_space s = true.
Proof.
  induction 1 as [|c s o _ _|w s o _ _ _|w s o _ _ IH]; intro Ho.
  - discriminate Ho.
  - exact Ho.
  - discriminate Ho.
  - specialize (IH Ho). discriminate IH.
Qed.

Lemma trim_leading_nil t : trim_leading t [] = [].
Proof.
  apply (replaced_nil (leading_whitespace t) (fun _ h => group 1 h ++ [])).
  rewrite exec_leading. reflexivity.
Qed.

Lemma trim_leading_miss t c s :
  lead_spec t (c :: s) = None -> trim_leading t (c :: s) = c :: trim_leading t s.
Proof.
  intro H.
  apply (replaced_miss (leading_whitespace t) (fun _ h => group 1 h ++ [])
           (fun _ _ _ => eq_refl)).
  rewrite exec_leading, H. reflexivity.
Qed.

(** What [lead_spec] returns: the opening tag up to the first [>], the
    whole run of whitespace after it, and the rest. *)
Lemma lead_spec_shape t s op w rest :
  lead_spec t s = Some (op, w, rest) ->
  exists y,
    op = LT :: t ++ y ++ [GT] /\ forallb (is_not GT) y = true
    /\ w <> [] /\ forallb is_space w = true /\ starts_space rest = false
    /\ s = op ++ w ++ rest.
Proof.
  destruct s as [|a u]; cbn [lead_spec]; [discriminate|].
  destruct (a =? LT) eqn:Ea; [|discriminate]. apply N.eqb_eq in Ea. subst a.
  destruct (prefixb t u) eqn:Ep; [|discriminate]. apply prefixb_true in Ep.
  pose proof (span_app (is_not GT) (skipn (List.length t) u)) as A1.
  pose proof (span_all (is_not GT) (skipn (List.length t) u)) as A2.
  pose proof (span_stops (is_not GT) (skipn (List.length t) u)) as A3.
  destruct (span (is_not GT) (skipn (List.length t) u)) as [y r2]. cbn [fst snd] in *.
  destruct r2 as [|g r3]; [discriminate|]. apply is_not_false in A3. subst g.
  pose proof (span_app is_space r3) as B1.
  pose proof (span_all is_space r3) as B2.
  pose proof (span_stops is_space r3) as B3.
  destruct (span is_space r3) as [w0 rest0]. cbn [fst snd] in *.
  destruct w0 as [|x w0]; [discriminate|]. intro H. injection H as <- <- <-.
  exists y. split; [reflexivity|]. split; [exact A2|]. split; [discriminate|].
  split; [exact B2|]. split.
  - destruct rest0; [reflexivity | exact B3].
  - rewrite Ep, <- A1, <- B1. cbn [app]. rewrite <- !app_assoc. reflexivity.
Qed.

Lemma trim_leading_hit t s op w rest :
  lead_spec t s = Some (op, w, rest) -> trim_leading t s = op ++ trim_leading t rest.
Proof.
  intro Hs. destruct (lead_spec_shape _ _ _ _ _ Hs) as (y & Hop & _ & Hw & _ & _ & Hsplit).
  rewrite !trim_leading_replaced.
  rewrite (replaced_hit (leading_whitespace t) (fun _ h => group 1 h ++ [])
             (fun _ _ _ => eq_refl) s (lead_hit (op, w, rest)) (op ++ w) rest);
    [| rewrite exec_leading, Hs; reflexivity | reflexivity
     | rewrite Hop; discriminate | rewrite Hsplit, <- app_assoc; reflexivity].
  unfold lead_hit, group. cbn [groups cap_get Nat.eqb]. rewrite app_nil_r. reflexivity.
Qed.

(** The leading pass removes runs of whitespace that directly follow a
    [>], and nothing else. *)
Lemma trim_leading_trims t : forall n s,
  (List.length s <= n)%nat ->
  trims s (trim_leading t s) /\ starts_space (trim_leading t s) = starts_space s.
Proof.
  induction n as [|n IH]; intros s Hn.
  - destruct s; [|simpl in Hn; lia]. rewrite trim_leading_nil.
    split; [constructor | reflexivity].
  - destruct s as [|c s]; [rewrite trim_leading_nil; split; [constructor | reflexivity]|].
    destruct (lead_spec t (c :: s)) as [[[op w] rest]|] eqn:Hs.
    + destruct (lead_spec_shape _ _ _ _ _ Hs) as (y & Hop & _ & Hw & Hws & _ & Hsplit).
      rewrite (trim_leading_hit _ _ _ _ _ Hs). rewrite Hsplit.
      assert (Hlen : (List.length rest <= n)%nat).
      { apply (f_equal (@List.length char)) in Hsplit. rewrite Hop in Hsplit.
        simpl in Hsplit. rewrite !length_app in Hsplit. simpl in Hn. lia. }
      destruct (IH rest Hlen) as [Ht _]. split.
      * rewrite Hop.
        replace ((LT :: t ++ y ++ [GT]) ++ w ++ rest)
          with ((LT :: t ++ y) ++ GT :: w ++ rest)
          by (cbn [app]; rewrite <- !app_assoc; reflexivity).
        replace ((LT :: t ++ y ++ [GT]) ++ trim_leading t rest)
          with ((LT :: t ++ y) ++ GT :: trim_leading t rest)
          by (cbn [app]; rewrite <- !app_assoc; reflexivity).
        apply trims_app_keep. apply tr_after; assumption.
      * rewrite Hop. reflexivity.
    + rewrite (trim_leading_miss t c s Hs). simpl in Hn.
      destruct (IH s ltac:(lia)) as [Ht _].
      split; [apply tr_keep; exact Ht | reflexivity].
Qed.

(** The trailing pass removes runs of whitespace that directly precede a
    [<], and nothing else. *)
Lemma trim_trailing_trims t : forall n s,
  (List.length s <= n)%nat ->
  trims s (replace_tpl (trailing_whitespace t) 1 (str "$1") s).
Proof.
  induction n as [|n IH]; intros s Hn.
  - destruct s; [|simpl in Hn; lia].
    change (replace_tpl (trailing_whitespace t) 1 (str "$1") [])
      with (replaced (trailing_whitespace t) (fun _ h => group 1 h ++ []) []).
    destruct (exec (trailing_whitespace t) []) as [h|] eqn:E.
    + destruct (exec_sound _ _ _ E) as [Hs P]. unfold trailing_whitespace in P.
      apply parse_seq_inv in P. destruct P as (w & w2 & cs1 & Hm & P1 & _).
      apply parse_plus_cls in P1. destruct P1 as (Hne & _ & _).
      rewrite Hm in Hs. destruct w; [congruence | discriminate Hs].
    + rewrite (replaced_nil (trailing_whitespace t) (fun _ h => group 1 h ++ []) E).
      constructor.
  - destruct s as [|c s].
    { apply (IH []). simpl. lia. }
    change (replace_tpl (trailing_whitespace t) 1 (str "$1") (c :: s))
      with (replaced (trailing_whitespace t) (fun _ h => group 1 h ++ []) (c :: s)).
    destruct (exec (trailing_whitespace t) (c :: s)) as [h|] eqn:E.
    + destruct (exec_sound _ _ _ E) as [Hs P]. unfold trailing_whitespace in P.
      apply parse_seq_inv in P. destruct P as (w & w2 & cs1 & Hm & P1 & P2).
      apply parse_plus_cls in P1. destruct P1 as (Hne & Hw & ->).
      apply parse_group_inv in P2. destruct P2 as (cs0 & Hg & P2).
      apply parse_seq_inv in P2. destruct P2 as (w3 & w4 & cs2 & -> & P3 & _).
      apply parse_chr_inv in P3. destruct P3 as [-> _].
      rewrite (replaced_hit (trailing_whitespace t) (fun _ h => group 1 h ++ [])
                 (fun _ _ _ => eq_refl) (c :: s) h (matched h) (after h) E eq_refl);
        [| rewrite Hm; destruct w; [congruence | discriminate] | exact Hs].
      unfold group. rewrite Hg. cbn [cap_get Nat.eqb]. rewrite app_nil_r.
      rewrite Hs, Hm. rewrite <- app_assoc. cbn [app].
      apply tr_before; [exact Hw|].
      apply (trims_app_keep (LT :: w4) (after h)
               (replace_tpl (trailing_whitespace t) 1 (str "$1") (after h))).
      apply IH.
      apply (f_equal (@List.length char)) in Hs. rewrite Hm, !length_app in Hs.
      simpl in Hs, Hn. destruct w; [congruence|]. simpl in Hs. lia.
    + rewrite (replaced_miss (trailing_whitespace t) (fun _ h => group 1 h ++ [])
                 (fun _ _ _ => eq_refl) c s E).
      apply tr_keep. apply IH. simpl in Hn. lia.
Qed.

(** ** Opening tags that are still followed by whitespace *)

Lemma untrimmed_nil t : ~ untrimmed t [].
Proof.
  intros (pre & rest & H & x & post & -> & _). destruct pre; discriminate H.
Qed.

Lemma untrimmed_cons t c s :
  untrimmed t (c :: s) -> starts_untrimmed t (c :: s) \/ untrimmed t s.
Proof.
  intros (pre & rest & H & Hr). destruct pre as [|a pre].
  - left. cbn [app] in H. rewrite H. exact Hr.
  - right. cbn [app] in H. injection H as _ H. exists pre, rest. split; assumption.
Qed.

Lemma untrimmed_skip t u s : untrimmed t s -> untrimmed t (u ++ s).
Proof.
  intros (pre & rest & H & Hr). exists (u ++ pre), rest.
  split; [rewrite H, app_assoc; reflexivity | exact Hr].
Qed.

Lemma untrimmed_here t s : starts_untrimmed t s -> untrimmed t s.
Proof. intro H. exists [], s. split; [reflexivity | exact H]. Qed.

Lemma first_gt_unique : forall u v z z',
  forallb (is_not GT) u = true -> forallb (is_not GT) v = true ->
  u ++ GT :: z = v ++ GT :: z' -> u = v /\ z = z'.
Proof.
  induction u as [|a u IH]; intros [|b v] z z' Hu Hv H; cbn [app forallb] in *.
  - injection H as ->. split; reflexivity.
  - injection H as <- _. discriminate Hv.
  - injection H as -> _. discriminate Hu.
  - injection H as -> H. apply andb_true_iff in Hu, Hv.
    destruct (IH v z z' (proj2 Hu) (proj2 Hv) H) as [-> ->]. split; reflexivity.
Qed.

Lemma no_bracket_not_gt t : forallb no_bracket t = true -> forallb (is_not GT) t = true.
Proof.
  apply forallb_impl. intros a Ha. unfold no_bracket in Ha.
  apply andb_true_iff in Ha. exact (proj2 Ha).
Qed.

(** A text up to its first [>], followed by a text that holds no such tag
    and does not start with whitespace, holds no such tag. *)
Lemma untrimmed_stretch t :
  forallb (is_not GT) t = true ->
  forall u z,
    forallb (is_not GT) u = true -> starts_space z = false -> ~ untrimmed t z ->
    ~ untrimmed t (u ++ GT :: z).
Proof.
  intros Ht u z Hu Hz Hno. induction u as [|a u IH]; cbn [app]; intro H.
  - apply untrimmed_cons in H. destruct H as [(x & post & H & _)|H]; [|exact (Hno H)].
    discriminate H.
  - cbn [forallb] in Hu. apply andb_true_iff in Hu. destruct Hu as [_ Hu].
    apply untrimmed_cons in H. destruct H as [(x & post & H & Hx & Hp)|H];
      [|exact (IH Hu H)].
    injection H as _ H. rewrite app_assoc in H.
    apply first_gt_unique in H; [|exact Hu | rewrite forallb_app, Ht, Hx; reflexivity].
    destruct H as [_ ->]. rewrite Hp in Hz. discriminate Hz.
Qed.

(** A pass maps the text of an opening tag with whitespace after it back
    to such a text. *)
Lemma trims_tag s o :
  trims s o ->
  forall t x post,
    forallb no_bracket t = true -> forallb (is_not GT) x = true ->
    starts_space post = true -> o = t ++ x ++ GT :: post ->
    exists x0 post0,
      s = t ++ x0 ++ GT :: post0
      /\ forallb (is_not GT) x0 = true /\ starts_space post0 = true.
Proof.
  induction 1 as [|c s o Hso IH|w s o Hw Hso IH|w s o Hw Hso IH];
    intros t x post Ht Hx Hp Ho.
  - destruct t, x; discriminate Ho.
  - destruct t as [|a t].
    + destruct x as [|a x]; cbn [app] in Ho.
      * injection Ho as -> ->. exists [], s. cbn [app].
        split; [reflexivity|]. split; [reflexivity|].
        exact (trims_starts_space _ _ Hso Hp).
      * injection Ho as -> Ho. cbn [forallb] in Hx. apply andb_true_iff in Hx.
        destruct Hx as [Ha Hx].
        destruct (IH [] x post eq_refl Hx Hp Ho) as (x0 & post0 & -> & Hx0 & Hp0).
        exists (a :: x0), post0. cbn [app forallb]. rewrite Ha, Hx0.
        split; [reflexivity|]. split; [reflexivity | exact Hp0].
    + cbn [app] in Ho. injection Ho as -> Ho. cbn [forallb] in Ht.
      apply andb_true_iff in Ht. destruct Ht as [_ Ht].
      destruct (IH t x post Ht Hx Hp Ho) as (x0 & post0 & -> & Hx0 & Hp0).
      exists x0, post0. split; [reflexivity|]. split; assumption.
  - destruct t as [|a t].
    + destruct x as [|a x]; cbn [app] in Ho.
      * injection Ho as ->. exists [], (w ++ s). cbn [app].
        split; [reflexivity|]. split; [reflexivity|].
        destruct w as [|b w].
        -- exact (trims_starts_space _ _ Hso Hp).
        -- cbn [forallb] in Hw. apply andb_true_iff in Hw. exact (proj1 Hw).
      * injection Ho as <- _. discriminate Hx.
    + cbn [app] in Ho. injection Ho as <- _. discriminate Ht.
  - destruct (IH t x post Ht Hx Hp Ho) as (x0 & post0 & Hs & Hx0 & Hp0).
    destruct t as [|a t].
    + cbn [app] in Hs. exists (w ++ x0), post0. cbn [app].
      rewrite Hs, <- app_assoc. split; [reflexivity|].
      rewrite forallb_app, (spaces_not_gt w Hw), Hx0. split; [reflexivity | exact Hp0].
    + cbn [app] in Hs. injection Hs as <- _. discriminate Ht.
Qed.

(** A pass creates no opening tag followed by whitespace. *)
Lemma trims_untrimmed s o :
  trims s o ->
  forall t, forallb no_bracket t = true -> untrimmed t o -> untrimmed t s.
Proof.
  intro H. pose proof H as H0. revert H0.
  induction H as [|c s o Hso IH|w s o Hw Hso IH|w s o Hw Hso IH]; intros H0 t Ht Hu.
  - exact Hu.
  - apply untrimmed_cons in Hu. destruct Hu as [(x & post & Ho & Hx & Hp)|Hu].
    + injection Ho as -> Ho.
      destruct (trims_tag _ _ Hso t x post Ht Hx Hp Ho) as (x0 & post0 & -> & Hx0 & Hp0).
      apply untrimmed_here. exists x0, post0. split; [reflexivity|]. split; assumption.
    + apply (untrimmed_skip t [c]). exact (IH Hso t Ht Hu).
  - apply untrimmed_cons in Hu. destruct Hu as [(x & post & Ho & _)|Hu]; [discriminate Ho|].
    apply (untrimmed_skip t (GT :: w)). exact (IH Hso t Ht Hu).
  - apply (untrimmed_skip t w). exact (IH Hso t Ht Hu).
Qed.

(** After the leading pass for [t] no opening tag that begins with [<t]
    is followed by whitespace. *)
Lemma trim_leading_done t :
  forallb no_bracket t = true ->
  forall n s, (List.length s <= n)%nat -> ~ untrimmed t (trim_leading t s).
Proof.
  intros Ht. induction n as [|n IH]; intros s Hn.
  - destruct s; [|simpl in Hn; lia]. rewrite trim_leading_nil. apply untrimmed_nil.
  - destruct s as [|c s]; [rewrite trim_leading_nil; apply untrimmed_nil|].
    destruct (lead_spec t (c :: s)) as [[[op w] rest]|] eqn:Hs.
    + destruct (lead_spec_shape _ _ _ _ _ Hs) as (y & Hop & Hy & Hw & Hws & Hrest & Hsplit).
      rewrite (trim_leading_hit _ _ _ _ _ Hs), Hop.
      assert (Hlen : (List.length rest <= n)%nat).
      { apply (f_equal (@List.length char)) in Hsplit. rewrite Hop in Hsplit.
        simpl in Hsplit. rewrite !length_app in Hsplit. simpl in Hn. lia. }
      replace ((LT :: t ++ y ++ [GT]) ++ trim_leading t rest)
        with ((LT :: t ++ y) ++ GT :: trim_leading t rest)
        by (cbn [app]; rewrite <- !app_assoc; reflexivity).
      apply untrimmed_stretch.
      * exact (no_bracket_not_gt t Ht).
      * cbn [forallb]. rewrite forallb_app, (no_bracket_not_gt t Ht), Hy. reflexivity.
      * rewrite (proj2 (trim_leading_trims t (List.length rest) rest (le_n _))).
        exact Hrest.
      * exact (IH rest Hlen).
    + rewrite (trim_leading_miss t c s Hs). simpl in Hn. intro Hu.
      apply untrimmed_cons in Hu. destruct Hu as [(x & post & Ho & Hx & Hp)|Hu];
        [|exact (IH s ltac:(lia) Hu)].
      injection Ho as -> Ho.
      destruct (trims_tag _ _ (proj1 (trim_leading_trims t (List.length s) s (le_n _)))
                  t x post Ht Hx Hp Ho) as (x0 & post0 & -> & Hx0 & Hp0).
      cbn [lead_spec] in Hs. change (LT =? LT) with true in Hs. cbn iota in Hs.
      rewrite prefixb_app, skipn_app_exact in Hs.
      rewrite (span_eq (is_not GT) x0 (GT :: post0) Hx0 eq_refl) in Hs.
      destruct post0 as [|b p]; [discriminate Hp0|]. cbn [starts_space] in Hp0.
      cbn [span] in Hs. rewrite Hp0 in Hs. destruct (span is_space p). discriminate Hs.
Qed.

(** Once no opening tag that begins with [<t] is followed by whitespace,
    the passes for the other names leave it so; and the pass for [t]
    makes it so. *)
Lemma trimify_leaves t :
  forallb no_bracket t = true ->
  forall trim html out,
    trimify html trim = Some out ->
    In t trim \/ ~ untrimmed t html -> ~ untrimmed t out.
Proof.
  intro Ht. induction trim as [|tag trim IH]; intros html out H Hc; cbn [trimify] in H.
  - injection H as <-. destruct Hc as [[]|Hc]. exact Hc.
  - destruct (plain tag); [|discriminate].
    set (h1 := replace_tpl (leading_whitespace tag) 1 (str "$1") html) in *.
    set (h2 := replace_tpl (trailing_whitespace tag) 1 (str "$1") h1) in *.
    assert (T2 : ~ untrimmed t h1 -> ~ untrimmed t h2).
    { intros Hn Hu. apply Hn.
      exact (trims_untrimmed _ _ (trim_trailing_trims tag (List.length h1) h1 (le_n _))
               t Ht Hu). }
    assert (T1 : ~ untrimmed t html -> ~ untrimmed t h1).
    { intros Hn Hu. apply Hn.
      exact (trims_untrimmed _ _
               (proj1 (trim_leading_trims tag (List.length html) html (le_n _)))
               t Ht Hu). }
    destruct Hc as [[->|Hin]|Hc].
    + apply (IH h2 out H). right. apply T2.
      exact (trim_leading_done t Ht (List.length html) html (le_n _)).
    + apply (IH h2 out H). left. exact Hin.
    + apply (IH h2 out H). right. exact (T2 (T1 Hc)).
Qed.



(** * setIgnoreAttribute and unsetIgnoreAttribute *)

(** A global replacement whose callback gives every match back keeps the
    text. *)
Lemma scan_id r f : forall s n b,
  (n <= List.length s)%nat ->
  (forall b h i, exec r (skipn i s) = Some h -> f b h = matched h) ->
  flat_map (render f) (scan r n b s) = skipn n s.
Proof.
  induction s as [|c s IH]; intros n b Hn Hf.
  - destruct n; [|simpl in Hn; lia]. cbn [scan skipn].
    destruct (exec r []) as [h|] eqn:E; [|reflexivity].
    cbn [flat_map render]. rewrite app_nil_r, (Hf b h 0%nat E).
    destruct (exec_sound r [] h E) as [Hs _].
    destruct (matched h); [reflexivity | discriminate Hs].
  - assert (Hf' : forall b h i, exec r (skipn i s) = Some h -> f b h = matched h)
      by (intros b' h i; exact (Hf b' h (S i))).
    destruct n as [|n]; cbn [scan skipn].
    2:{ apply IH; [simpl in Hn; lia | exact Hf']. }
    destruct (exec r (c :: s)) as [h|] eqn:E.
    + pose proof (Hf b h 0%nat E) as H. destruct (exec_sound r _ h E) as [Hs _].
      destruct (List.length (matched h)) as [|k] eqn:El.
      * destruct (matched h); [|discriminate El].
        cbn [flat_map render]. rewrite H. cbn [app]. f_equal.
        apply (IH 0%nat); [lia | exact Hf'].
      * cbn [flat_map render]. rewrite H, IH; [| |exact Hf'].
        -- etransitivity; [|symmetry; exact Hs]. f_equal.
           destruct (matched h) as [|x u]; [discriminate El|].
           cbn [app] in Hs. injection Hs as _ Hs. rewrite Hs.
           cbn [List.length] in El. injection El as <-.
           rewrite skipn_app_exact. reflexivity.
        -- apply (f_equal (@List.length char)) in Hs. rewrite length_app, El in Hs.
           simpl in Hs. lia.
    + cbn [flat_map render app]. f_equal. apply (IH 0%nat); [lia | exact Hf'].
Qed.

Lemma cap_get_In i cs v : cap_get i cs = Some v -> In (i, v) cs.
Proof.
  induction cs as [|[j u] cs IH]; cbn [cap_get]; [discriminate|].
  destruct (Nat.eqb i j) eqn:E.
  - apply Nat.eqb_eq in E. subst j. intros [= ->]. left. reflexivity.
  - intro H. right. exact (IH H).
Qed.

Lemma contains_skipn X s i : contains X s = false -> contains X (skipn i s) = false.
Proof.
  revert i. induction s as [|c s IH]; intros i H.
  - rewrite skipn_nil. exact H.
  - destruct i as [|i]; [exact H|]. cbn [skipn]. apply IH. exact (contains_cons _ _ _ H).
Qed.

Lemma contains_nil X : X <> [] -> contains X [] = false.
Proof. destruct X; [congruence | reflexivity]. Qed.

Lemma contains_not_nil X s : contains X s = false -> X <> [].
Proof. intros H ->. destruct s; discriminate H. Qed.

(** A group of a match found in a text without [X] holds no [X]. *)
Lemma group_unmarked r X s i j h :
  contains X s = false -> exec r (skipn i s) = Some h ->
  contains X (group j h) = false.
Proof.
  intros Hc E. destruct (exec_sound r _ h E) as [Hs P]. unfold group.
  destruct (cap_get j (groups h)) as [v|] eqn:Eg;
    [|exact (contains_nil X (contains_not_nil X s Hc))].
  destruct (parse_caps_sub _ _ _ _ P j v (cap_get_In _ _ _ Eg)) as [[]|(a & b & Hm)].
  pose proof (contains_skipn X s i Hc) as H. rewrite Hs, Hm in H.
  apply contains_app in H. destruct H as [H _].
  apply contains_app in H. destruct H as [_ H].
  apply contains_app in H. tauto.
Qed.

(** The common shape of the decoders: a global scan whose callback
    rewrites one group of the match.  On a text without the sentinel, a
    rewriting that leaves such texts alone changes nothing. *)
Lemma decoder_unmarked r j g X s :
  (forall v, contains X v = false -> g v = v) ->
  contains X s = false ->
  replace_fn r (fun h => replace_first (group j h) g (matched h)) s = s.
Proof.
  intros Hg Hc.
  change (replace_fn r (fun h => replace_first (group j h) g (matched h)) s)
    with (flat_map (render (fun _ h => replace_first (group j h) g (matched h)))
            (scan r 0 [] s)).
  rewrite scan_id; [reflexivity | lia|].
  intros b h i E. apply replace_first_id. apply Hg.
  exact (group_unmarked r X s i j h Hc E).
Qed.

Lemma unset_attr_capture_unmarked x :
  contains ATTRIBUTE_IGNORE_STRING x = false -> unset_attr_capture x = x.
Proof.
  intro H. unfold unset_attr_capture.
  rewrite (replace_lit_absent _ [LT] x) by (apply contains_false_longer; exact H).
  rewrite (replace_lit_absent _ [GT] x) by (apply contains_false_longer; exact H).
  reflexivity.
Qed.

(** [unsetIgnoreAttribute] gives back, as it is, a document that does not
    hold the attribute sentinel. *)
Theorem unsetIgnoreAttribute_without_sentinel :
  forall h,
    contains ATTRIBUTE_IGNORE_STRING h = false -> unsetIgnoreAttribute h = h.
Proof.
  intros h H. unfold unsetIgnoreAttribute.
  exact (decoder_unmarked unset_attr_re 1 unset_attr_capture ATTRIBUTE_IGNORE_STRING h
           unset_attr_capture_unmarked H).
Qed.

Lemma unsetIgnoreAttribute_without_sentinel_witness :
  unsetIgnoreAttribute doc_div = doc_div.
Proof.
  apply (unsetIgnoreAttribute_without_sentinel doc_div). vm_compute. reflexivity.
Defined.

(** ** Without double quotes, nothing to protect *)

Lemma forallb_skipn_sub (p : char -> bool) s a v b :
  forallb p s = true -> s = a ++ v ++ b -> forallb p v = true.
Proof.
  intros H ->. rewrite !forallb_app in H.
  apply andb_true_iff in H. destruct H as [_ H].
  apply andb_true_iff in H. exact (proj1 H).
Qed.

Lemma parse_quoted_attr_quote w cs cs' :
  parse quoted_attr w cs cs' -> forallb (is_not QUOTE) w = false.
Proof.
  unfold quoted_attr. intro P.
  apply parse_seq_inv in P. destruct P as (w1 & w2 & cs1 & -> & _ & P).
  apply parse_seq_inv in P. destruct P as (w3 & w4 & cs2 & -> & _ & P).
  apply parse_seq_inv in P. destruct P as (w5 & w6 & cs3 & -> & _ & P).
  apply parse_seq_inv in P. destruct P as (w7 & w8 & cs4 & -> & P7 & _).
  apply parse_chr_inv in P7. destruct P7 as [-> _].
  rewrite !forallb_app. cbn [forallb]. unfold is_not at 4. rewrite N.eqb_refl.
  cbn [negb andb]. rewrite !andb_false_r. reflexivity.
Qed.

Lemma parse_quoted_attrs_none g w cs cs' :
  parse (Star g quoted_attr) w cs cs' -> forallb (is_not QUOTE) w = true -> w = [].
Proof.
  intros P H. apply parse_star_inv in P.
  destruct P as [[-> _]|(w1 & w2 & cs1 & -> & _ & P1 & _)]; [reflexivity|].
  rewrite forallb_app, (parse_quoted_attr_quote _ _ _ P1) in H. discriminate.
Qed.

Lemma space_not_bracket a : is_space a = true -> (a =? LT) = false /\ (a =? GT) = false.
Proof.
  intro H. apply space_cases in H. split; apply N.eqb_neq; unfold LT, GT; lia.
Qed.

Lemma lower_not_bracket a : is_lower a = true -> (a =? LT) = false /\ (a =? GT) = false.
Proof.
  unfold is_lower, in_range. intro H. apply andb_true_iff in H. destruct H as [H1 H2].
  apply N.leb_le in H1, H2. split; apply N.eqb_neq; unfold LT, GT; lia.
Qed.

Lemma set_attr_capture_flat x :
  set_attr_capture x
  = flat_map (fun a => if a =? GT then ATTRIBUTE_IGNORE_STRING ++ str "gt!" else [a])
      (flat_map (fun a => if a =? LT then ATTRIBUTE_IGNORE_STRING ++ str "lt!" else [a]) x).
Proof.
  unfold set_attr_capture. rewrite !replace_chr by reflexivity. reflexivity.
Qed.

Lemma set_attr_capture_plain x : forallb no_bracket x = true -> set_attr_capture x = x.
Proof.
  intro H. rewrite set_attr_capture_flat.
  rewrite (flat_map_id (fun a => if a =? LT then _ else [a]) x).
  - apply flat_map_id. intros a Ha.
    pose proof (proj1 (forallb_forall _ _) H a Ha) as Hb. unfold no_bracket in Hb.
    apply andb_true_iff in Hb. destruct Hb as [_ Hb]. apply negb_true_iff in Hb.
    rewrite Hb. reflexivity.
  - intros a Ha.
    pose proof (proj1 (forallb_forall _ _) H a Ha) as Hb. unfold no_bracket in Hb.
    apply andb_true_iff in Hb. destruct Hb as [Hb _]. apply negb_true_iff in Hb.
    rewrite Hb. reflexivity.
Qed.

Lemma space_no_bracket a : is_space a = true -> no_bracket a = true.
Proof.
  intro H. destruct (space_not_bracket a H) as [H1 H2]. unfold no_bracket.
  rewrite H1, H2. reflexivity.
Qed.

Lemma lower_no_bracket a : is_lower a = true -> no_bracket a = true.
Proof.
  intro H. destruct (lower_not_bracket a H) as [H1 H2]. unfold no_bracket.
  rewrite H1, H2. reflexivity.
Qed.

(** An attribute list without a double quote is made of whitespace and
    lower-case letters. *)
Lemma parse_attr_list_plain w cs cs' :
  parse attr_list w cs cs' -> forallb (is_not QUOTE) w = true ->
  forallb no_bracket w = true.
Proof.
  unfold attr_list. intros P H.
  apply parse_seq_inv in P. destruct P as (a & w1 & cs1 & -> & Pa & P).
  apply parse_seq_inv in P. destruct P as (b & w2 & cs2 & -> & Pb & P).
  apply parse_seq_inv in P. destruct P as (q & w3 & cs3 & -> & Pq & P).
  apply parse_seq_inv in P. destruct P as (c & d & cs4 & -> & Pc & Pd).
  apply parse_star_cls in Pa, Pb, Pc, Pd.
  rewrite !forallb_app in H.
  apply andb_true_iff in H. destruct H as [_ H].
  apply andb_true_iff in H. destruct H as [_ H].
  apply andb_true_iff in H. destruct H as [Hq _].
  rewrite (parse_quoted_attrs_none _ _ _ _ Pq Hq). cbn [app].
  rewrite !forallb_app.
  rewrite (forallb_impl _ _ a space_no_bracket (proj1 Pa)).
  rewrite (forallb_impl _ _ b lower_no_bracket (proj1 Pb)).
  rewrite (forallb_impl _ _ c space_no_bracket (proj1 Pc)).
  rewrite (forallb_impl _ _ d lower_no_bracket (proj1 Pd)).
  reflexivity.
Qed.

(** A match of the pattern of [setIgnoreAttribute]: its second group is
    an attribute list, a part of the match. *)
Lemma set_attr_hit s h :
  exec set_attr_re s = Some h ->
  exists p1 cs cs',
    matched h = LT :: p1 ++ group 2 h ++ [GT]
    /\ parse attr_list (group 2 h) cs cs'
    /\ parse (Alt (Seq (Cls is_alpha) (Star true (Cls is_alnum))) custom_name) p1 [] [].
Proof.
  intro E. destruct (exec_sound _ _ _ E) as [_ P]. unfold set_attr_re in P.
  apply parse_seq_inv in P. destruct P as (w1 & w2 & cs1 & Hm & P1 & P).
  apply parse_chr_inv in P1. destruct P1 as [-> ->].
  apply parse_seq_inv in P. destruct P as (p1 & w3 & cs1 & -> & P2 & P).
  apply parse_group_inv in P2. destruct P2 as (cs2 & -> & P2).
  apply parse_seq_inv in P. destruct P as (p2 & w4 & cs3 & -> & P3 & P4).
  apply parse_group_inv in P3. destruct P3 as (cs4 & -> & P3).
  apply parse_chr_inv in P4. destruct P4 as [-> Hg].
  assert (Hcs2 : cs2 = []).
  { apply parse_alt_inv in P2. destruct P2 as [P2|P2].
    - apply parse_seq_inv in P2. destruct P2 as (x & y & c0 & _ & Px & Py).
      apply parse_cls_inv in Px. destruct Px as (_ & _ & _ & ->).
      apply parse_star_cls in Py. exact (proj2 Py).
    - apply parse_custom_name in P2. exact (proj2 P2). }
  subst cs2.
  exists p1, ((1%nat, p1) :: []), cs4. unfold group. rewrite Hg. cbn [cap_get Nat.eqb].
  split; [exact Hm|]. split; [exact P3 | exact P2].
Qed.

(** [setIgnoreAttribute] protects the brackets of double-quoted attribute
    values only: a document without a double quote (its attribute values
    bare or between single quotes) comes back as it is. *)
Theorem setIgnoreAttribute_without_double_quote :
  forall h, forallb (is_not QUOTE) h = true -> setIgnoreAttribute h = h.
Proof.
  intros h H. unfold setIgnoreAttribute.
  change (replace_fn set_attr_re
            (fun h0 => replace_first (group 2 h0) set_attr_capture (matched h0)) h)
    with (flat_map (render (fun _ h0 =>
                      replace_first (group 2 h0) set_attr_capture (matched h0)))
            (scan set_attr_re 0 [] h)).
  rewrite scan_id; [reflexivity | lia|].
  intros b h0 i E. apply replace_first_id. apply set_attr_capture_plain.
  destruct (set_attr_hit _ _ E) as (p1 & cs & cs' & Hm & P & _).
  apply (parse_attr_list_plain _ _ _ P).
  destruct (exec_sound _ _ _ E) as [Hs _].
  apply (forallb_skipn_sub (is_not QUOTE) (skipn i h) (LT :: p1) (group 2 h0)
           ([GT] ++ after h0)).
  - apply forallb_skipn. exact H.
  - rewrite Hs, Hm. cbn [app]. rewrite <- !app_assoc. reflexivity.
Qed.

Lemma setIgnoreAttribute_without_double_quote_witness :
  setIgnoreAttribute (str "<div title='a>b' hidden>") = str "<div title='a>b' hidden>".
Proof.
  apply (setIgnoreAttribute_without_double_quote (str "<div title='a>b' hidden>")).
  vm_compute. reflexivity.
Defined.

(** ** What [setIgnoreAttribute] writes *)

Lemma parse_group_free r w cs cs' :
  parse r w cs cs' -> group_free r = true -> cs' = cs.
Proof.
  induction 1 as [cs|c cs|p a cs Hp|r1 r2 w1 w2 cs cs1 cs2 _ IH1 _ IH2
                  |r1 r2 w cs cs1 _ IH|r1 r2 w cs cs1 _ IH|g r cs
                  |g r w1 w2 cs cs1 cs2 _ _ IH1 _ IH2|i0 r w cs cs1 _ IH];
    cbn [group_free]; intro G; try reflexivity; try discriminate G.
  - apply andb_true_iff in G. rewrite (IH2 (proj2 G)). exact (IH1 (proj1 G)).
  - apply andb_true_iff in G. exact (IH (proj1 G)).
  - apply andb_true_iff in G. exact (IH (proj2 G)).
  - rewrite (IH2 G). exact (IH1 G).
Qed.

Lemma segments_exec r : forall s n b0 b h,
  In (Found b h) (scan r n b0 s) -> exists s', exec r s' = Some h.
Proof.
  induction s as [|c s IH]; intros n b0 b h Hin.
  - destruct n; cbn [scan] in Hin; [|contradiction].
    destruct (exec r []) as [h0|] eqn:E; [|contradiction].
    destruct Hin as [[= <- <-]|[]]. exists []. exact E.
  - destruct n as [|n]; cbn [scan] in Hin; [|exact (IH _ _ _ _ Hin)].
    destruct (exec r (c :: s)) as [h0|] eqn:E.
    + destruct (List.length (matched h0)).
      * destruct Hin as [[= <- <-]|[Hin|Hin]];
          [exists (c :: s); exact E | discriminate Hin | exact (IH _ _ _ _ Hin)].
      * destruct Hin as [[= <- <-]|Hin];
          [exists (c :: s); exact E | exact (IH _ _ _ _ Hin)].
    + destruct Hin as [Hin|Hin]; [discriminate Hin | exact (IH _ _ _ _ Hin)].
Qed.

(** Two callbacks that agree on every match give the same text. *)
Lemma replaced_ext r f g s :
  (forall b h s', exec r s' = Some h -> f b h = g b h) ->
  replaced r f s = replaced r g s.
Proof.
  intro H. unfold replaced, segments.
  assert (G : forall l, (forall b h, In (Found b h) l -> exists s', exec r s' = Some h) ->
                        flat_map (render f) l = flat_map (render g) l).
  { induction l as [|x l IHl]; intro Hl; [reflexivity|]. cbn [flat_map]. f_equal.
    - destruct x as [c|b h]; [reflexivity|]. cbn [render].
      destruct (Hl b h (or_introl eq_refl)) as [s' E]. exact (H b h s' E).
    - apply IHl. intros b h Hin. exact (Hl b h (or_intror Hin)). }
  apply G. intros b h Hin. exact (segments_exec r s 0%nat [] b h Hin).
Qed.

Lemma alnum_cases a :
  is_alnum a = true -> (65 <= a <= 90 \/ 97 <= a <= 122 \/ 48 <= a <= 57)%N.
Proof.
  unfold is_alnum, is_alpha, in_range. intro H.
  repeat (apply orb_true_iff in H; destruct H as [H|H]);
    apply andb_true_iff in H; destruct H as [H1 H2]; apply N.leb_le in H1, H2; lia.
Qed.

Lemma custom_tail_cases a :
  is_custom_tail a = true ->
  (97 <= a <= 122 \/ 48 <= a <= 57 \/ a = 46 \/ a = 95 \/ a = 45)%N.
Proof.
  unfold is_custom_tail, is_custom_char, is_lower, in_range, DOT, UNDERSCORE, DASH.
  intro H.
  repeat (apply orb_true_iff in H; destruct H as [H|H]);
    first [ apply N.eqb_eq in H; lia
          | apply andb_true_iff in H; destruct H as [H1 H2];
            apply N.leb_le in H1, H2; lia ].
Qed.

Lemma tag_name_char_cases a :
  is_tag_name_char a = true ->
  (65 <= a <= 90 \/ 97 <= a <= 122 \/ 48 <= a <= 57 \/ a = 46 \/ a = 95 \/ a = 45)%N.
Proof.
  unfold is_tag_name_char. intro H. apply orb_true_iff in H. destruct H as [H|H].
  - apply alnum_cases in H. lia.
  - apply custom_tail_cases in H. lia.
Qed.

Lemma tag_name_no_bracket a : is_tag_name_char a = true -> no_bracket a = true.
Proof.
  intro H. apply tag_name_char_cases in H. unfold no_bracket.
  replace (a =? LT) with false by (symmetry; apply N.eqb_neq; unfold LT; lia).
  replace (a =? GT) with false by (symmetry; apply N.eqb_neq; unfold GT; lia).
  reflexivity.
Qed.

Lemma tag_name_no_space a : is_tag_name_char a = true -> negb (is_space a) = true.
Proof.
  intro H. apply tag_name_char_cases in H. apply negb_true_iff.
  destruct (is_space a) eqn:E; [|reflexivity]. apply space_cases in E. lia.
Qed.

Lemma parse_set_name p1 cs cs' :
  parse (Alt (Seq (Cls is_alpha) (Star true (Cls is_alnum))) custom_name) p1 cs cs' ->
  forallb is_tag_name_char p1 = true /\ p1 <> [].
Proof.
  intro P. apply parse_alt_inv in P. destruct P as [P|P].
  - apply parse_seq_inv in P. destruct P as (x & y & c0 & -> & Px & Py).
    apply parse_cls_inv in Px. destruct Px as (a & -> & Ha & _).
    apply parse_star_cls in Py. destruct Py as [Hy _].
    split; [|discriminate]. cbn [app forallb]. unfold is_tag_name_char at 1.
    rewrite (alpha_alnum a Ha). cbn [orb andb].
    apply (forallb_impl is_alnum); [|exact Hy].
    intros b Hb. unfold is_tag_name_char. rewrite Hb. reflexivity.
  - apply parse_custom_name in P. destruct P as [(a & u & t & -> & Ha & Hu & _ & Ht) _].
    split; [|discriminate].
    assert (T : forall b, is_custom_tail b = true -> is_tag_name_char b = true)
      by (intros b Hb; unfold is_tag_name_char; rewrite Hb; apply orb_true_r).
    assert (C : forall b, is_custom_char b = true -> is_tag_name_char b = true)
      by (intros b Hb; apply T; unfold is_custom_tail; rewrite Hb; reflexivity).
    cbn [forallb]. rewrite forallb_app. cbn [forallb].
    rewrite (C a) by (unfold is_custom_char; rewrite Ha; reflexivity).
    rewrite (forallb_impl _ _ u C Hu), (forallb_impl _ _ t T Ht).
    rewrite (T DASH) by reflexivity. reflexivity.
Qed.

Lemma forallb_flat_map (P : char -> bool) (f : char -> jsstring) l :
  (forall a, In a l -> forallb P (f a) = true) -> forallb P (flat_map f l) = true.
Proof.
  induction l as [|a l IH]; intro H; [reflexivity|].
  cbn [flat_map]. rewrite forallb_app, (H a (or_introl eq_refl)), IH; [reflexivity|].
  intros b Hb. exact (H b (or_intror Hb)).
Qed.

Lemma set_attr_capture_no_bracket x : forallb no_bracket (set_attr_capture x) = true.
Proof.
  rewrite set_attr_capture_flat.
  set (l1 := flat_map (fun a => if a =? LT then ATTRIBUTE_IGNORE_STRING ++ str "lt!"
                                else [a]) x).
  assert (H1 : forallb (is_not LT) l1 = true).
  { apply forallb_flat_map. intros a _. destruct (a =? LT) eqn:E; [reflexivity|].
    cbn [forallb]. unfold is_not. rewrite E. reflexivity. }
  apply forallb_flat_map. intros a Ha.
  destruct (a =? GT) eqn:E; [reflexivity|].
  cbn [forallb]. unfold no_bracket. rewrite E.
  pose proof (proj1 (forallb_forall _ _) H1 a Ha) as Hl. unfold is_not in Hl.
  rewrite Hl. reflexivity.
Qed.

(** An attribute list without whitespace is a run of lower-case letters. *)
Lemma parse_attr_list_no_space w cs cs' :
  parse attr_list w cs cs' -> existsb is_space w = false ->
  forallb no_bracket w = true.
Proof.
  intros P H. apply (parse_attr_list_plain _ _ _ P).
  apply forallb_forall. intros a Ha. unfold is_not. apply negb_true_iff.
  apply N.eqb_neq. intros ->.
  (* a double quote stands in an attribute, which starts with whitespace *)
  revert P Ha. unfold attr_list. intros P Ha.
  apply parse_seq_inv in P. destruct P as (a1 & w1 & cs1 & -> & Pa & P).
  apply parse_seq_inv in P. destruct P as (b & w2 & cs2 & -> & Pb & P).
  apply parse_seq_inv in P. destruct P as (q & w3 & cs3 & -> & Pq & P).
  apply parse_seq_inv in P. destruct P as (c & d & cs4 & -> & Pc & Pd).
  apply parse_star_inv in Pq.
  destruct Pq as [[-> _]|(q1 & q2 & cs5 & -> & _ & Pq1 & _)].
  - apply parse_star_cls in Pa, Pb, Pc, Pd.
    rewrite !in_app_iff in Ha. cbn [In] in Ha.
    assert (S : forall l, forallb is_space l = true -> ~ In QUOTE l).
    { intros l Hl Hin. pose proof (proj1 (forallb_forall _ _) Hl _ Hin) as X.
      discriminate X. }
    assert (L : forall l, forallb is_lower l = true -> ~ In QUOTE l).
    { intros l Hl Hin. pose proof (proj1 (forallb_forall _ _) Hl _ Hin) as X.
      discriminate X. }
    pose proof (S _ (proj1 Pa)). pose proof (L _ (proj1 Pb)).
    pose proof (S _ (proj1 Pc)). pose proof (L _ (proj1 Pd)). tauto.
  - unfold quoted_attr in Pq1.
    apply parse_seq_inv in Pq1. destruct Pq1 as (sp & w5 & cs6 & -> & Psp & _).
    apply parse_plus_cls in Psp. destruct Psp as (Hne & Hsp & _).
    destruct sp as [|x sp]; [congruence|]. cbn [forallb] in Hsp.
    apply andb_true_iff in Hsp. destruct Hsp as [Hx _].
    rewrite !existsb_app in H. cbn [app existsb] in H. rewrite Hx in H.
    cbn [orb] in H. rewrite !orb_true_r in H. discriminate H.
Qed.

Lemma set_attr_groups s h :
  exec set_attr_re s = Some h ->
  matched h = LT :: group 1 h ++ group 2 h ++ [GT]
  /\ forallb is_tag_name_char (group 1 h) = true /\ group 1 h <> []
  /\ exists cs cs', parse attr_list (group 2 h) cs cs'.
Proof.
  intro E. destruct (exec_sound _ _ _ E) as [_ P]. unfold set_attr_re in P.
  apply parse_seq_inv in P. destruct P as (w1 & w2 & cs1 & Hm & P1 & P).
  apply parse_chr_inv in P1. destruct P1 as [-> ->].
  apply parse_seq_inv in P. destruct P as (p1 & w3 & cs1 & -> & P2 & P).
  apply parse_group_inv in P2. destruct P2 as (cs2 & -> & P2).
  apply parse_seq_inv in P. destruct P as (p2 & w4 & cs3 & -> & P3 & P4).
  apply parse_group_inv in P3. destruct P3 as (cs4 & -> & P3).
  apply parse_chr_inv in P4. destruct P4 as [-> Hg].
  pose proof (parse_group_free _ _ _ _ P3 eq_refl) as Hc. subst cs4.
  unfold group. rewrite Hg. cbn [cap_get Nat.eqb].
  destruct (parse_set_name _ _ _ P2) as [Hn Hne].
  split; [exact Hm|]. split; [exact Hn|]. split; [exact Hne|]. eauto.
Qed.

(** The replacement of the captured list lands on the list itself: the
    tag name holds no whitespace, and a list that holds none has nothing
    to encode. *)
Lemma set_attr_callback s h :
  exec set_attr_re s = Some h ->
  replace_first (group 2 h) set_attr_capture (matched h) = set_attr_tag h.
Proof.
  intro E. destruct (set_attr_groups s h E) as (Hm & Hn & _ & cs & cs' & P).
  unfold set_attr_tag. rewrite Hm.
  destruct (existsb is_space (group 2 h)) eqn:Es.
  - change (LT :: group 1 h ++ group 2 h ++ [GT])
      with ((LT :: group 1 h) ++ group 2 h ++ [GT]).
    rewrite (replace_first_at is_space); [reflexivity| |exact Es].
    cbn [forallb]. change (negb (is_space LT)) with true. cbn [andb].
    exact (forallb_impl _ _ _ tag_name_no_space Hn).
  - pose proof (set_attr_capture_plain _ (parse_attr_list_no_space _ _ _ P Es)) as Hp.
    rewrite replace_first_id by exact Hp. rewrite Hp. reflexivity.
Qed.

Lemma setIgnoreAttribute_replaced html :
  setIgnoreAttribute html = replaced set_attr_re (fun _ h => set_attr_tag h) html.
Proof.
  apply (replaced_ext set_attr_re
           (fun _ h => replace_first (group 2 h) set_attr_capture (matched h))
           (fun _ h => set_attr_tag h)).
  intros b h s' E. exact (set_attr_callback s' h E).
Qed.


(** * The element ignore pair on a document without the ignored tags *)

Lemma replace_fn_absent r f s :
  (forall i, exec r (skipn i s) = None) -> replace_fn r f s = s.
Proof.
  intro H. unfold replace_fn, segments. rewrite (scan_absent r s [] H).
  clear H. induction s as [|c s IH]; [reflexivity|]. cbn [map flat_map app]. f_equal.
  exact IH.
Qed.

Lemma unignore_hits_absent X s : unignore_hits X (map Keep s) = Some s.
Proof.
  induction s as [|c s IH]; [reflexivity|].
  cbn [map unignore_hits fold_right].
  change (fold_right _ (Some []) (map Keep s)) with (unignore_hits X (map Keep s)).
  rewrite IH. reflexivity.
Qed.

Lemma ignore_re_absent tag s :
  contains (LT :: tag) s = false -> forall i, exec (ignore_re tag) (skipn i s) = None.
Proof.
  intros H i. rewrite exec_ignore_re.
  pose proof (contains_false_skipn _ _ H i) as Hp.
  destruct (skipn i s) as [|a u]; [reflexivity|]. cbn [ignore_spec].
  cbn [prefixb] in Hp. rewrite (N.eqb_sym LT a) in Hp.
  destruct (a =? LT); [|reflexivity]. cbn [andb] in Hp. rewrite Hp. reflexivity.
Qed.

(** A document in which none of the ignored tag names follows a [<] is
    given back as it is by [setIgnoreElement] and by [unsetIgnoreElement],
    whatever the sentinel: the callbacks never run. *)
Theorem ignore_pair_without_tags :
  forall tags X h,
    forallb plain tags = true ->
    forallb (fun tag => negb (contains (LT :: tag) h)) tags = true ->
    setIgnoreElement h (mkConfig tags X) = Some h
    /\ unsetIgnoreElement h (mkConfig tags X) = Some h.
Proof.
  intros tags X h Hp Hc. unfold setIgnoreElement, unsetIgnoreElement.
  cbn [Utils.ignore_with Utils.ignore].
  induction tags as [|tag tags IH]; [split; reflexivity|].
  cbn [forallb] in Hp, Hc. apply andb_true_iff in Hp, Hc.
  destruct Hp as [Hp Hps]. destruct Hc as [Hc Hcs]. apply negb_true_iff in Hc.
  destruct (IH Hps Hcs) as [IH1 IH2].
  cbn [setIgnoreElement_loop unsetIgnoreElement_loop]. unfold RegExp_ignore. rewrite Hp.
  split.
  - rewrite (replace_fn_absent _ _ _ (ignore_re_absent tag h Hc)). exact IH1.
  - unfold segments. rewrite (scan_absent _ _ [] (ignore_re_absent tag h Hc)).
    rewrite unignore_hits_absent. exact IH2.
Qed.

Lemma ignore_pair_without_tags_witness :
  setIgnoreElement doc_div (mkConfig [TAG_SCRIPT; str "style"] (str "$1 "))
  = Some doc_div
  /\ unsetIgnoreElement doc_div (mkConfig [TAG_SCRIPT; str "style"] (str "$1 "))
     = Some doc_div.
Proof.
  apply (ignore_pair_without_tags [TAG_SCRIPT; str "style"] (str "$1 ") doc_div);
    vm_compute; reflexivity.
Defined.

(** * The bracket encoding of attribute values is read back *)

(** ** Where [unsetIgnoreAttribute] matches *)

Lemma exec_unset_shape s h :
  exec unset_attr_re s = Some h ->
  exists n b,
    s = LT :: n ++ b ++ GT :: after h /\ n <> [] /\ forallb is_name_char n = true
    /\ forallb (is_not GT) b = true.
Proof.
  intro E. destruct (exec_sound _ _ _ E) as [Hs P]. unfold unset_attr_re in P.
  apply parse_seq_inv in P. destruct P as (w1 & w2 & cs1 & Hm & P1 & P).
  apply parse_chr_inv in P1. destruct P1 as [-> ->].
  apply parse_seq_inv in P. destruct P as (n & w3 & cs1 & -> & P2 & P).
  apply parse_plus_cls in P2. destruct P2 as (Hne & Hn & ->).
  apply parse_seq_inv in P. destruct P as (b & w4 & cs3 & -> & P3 & P4).
  apply parse_group_inv in P3. destruct P3 as (cs4 & -> & P3).
  apply parse_star_cls in P3. destruct P3 as [Hb ->].
  apply parse_chr_inv in P4. destruct P4 as [-> _].
  exists n, b. split; [|auto]. rewrite Hs, Hm. cbn [app]. rewrite <- !app_assoc.
  reflexivity.
Qed.

Lemma exec_unset_not_lt c s : (c =? LT) = false -> exec unset_attr_re (c :: s) = None.
Proof.
  intro H. destruct (exec unset_attr_re (c :: s)) as [h|] eqn:E; [|reflexivity].
  destruct (exec_unset_shape _ _ E) as (n & b & Hs & _). injection Hs as -> _.
  discriminate H.
Qed.

Lemma exec_unset_no_name s :
  match s with a :: _ => is_name_char a = false | [] => True end ->
  exec unset_attr_re (LT :: s) = None.
Proof.
  intro H. destruct (exec unset_attr_re (LT :: s)) as [h|] eqn:E; [|reflexivity].
  destruct (exec_unset_shape _ _ E) as (n & b & Hs & Hne & Hn & _).
  injection Hs as ->. destruct n as [|a n]; [congruence|].
  cbn [app forallb] in *. apply andb_true_iff in Hn. rewrite H in Hn.
  destruct Hn as [Hn _]. discriminate Hn.
Qed.

Lemma exec_unset_no_gt s :
  forallb (is_not GT) s = true -> exec unset_attr_re s = None.
Proof.
  intro H. destruct (exec unset_attr_re s) as [h|] eqn:E; [|reflexivity].
  destruct (exec_unset_shape _ _ E) as (n & b & Hs & _). rewrite Hs in H.
  cbn [forallb] in H. rewrite !forallb_app in H. cbn [forallb] in H.
  unfold is_not at 4 in H. rewrite N.eqb_refl in H. cbn [negb andb] in H.
  rewrite !andb_false_r in H. discriminate H.
Qed.

(** The tag name is the longest run of name characters, the group runs
    to the first [>]. *)
Lemma exec_unset_hit n b w :
  n <> [] -> forallb is_name_char n = true -> forallb (is_not GT) b = true ->
  match b with a :: _ => is_name_char a = false | [] => True end ->
  exec unset_attr_re (LT :: n ++ b ++ GT :: w)
  = Some (Hit (LT :: n ++ b ++ [GT]) [(1%nat, b)] w).
Proof.
  intros Hne Hn Hb Hstop. destruct n as [|a n]; [congruence|].
  cbn [forallb] in Hn. apply andb_true_iff in Hn. destruct Hn as [Ha Hn].
  unfold exec, unset_attr_re, Plus.
  rewrite m_seq, m_chr. change (LT =? LT) with true. cbn iota.
  rewrite m_seq, m_seq. cbn [app]. rewrite m_cls, Ha, m_greedy_cls.
  set (k1 := fun (s1 : jsstring) (cs1 : caps) =>
               m (Seq (Group 1 (Star true (Cls (is_not GT)))) (Chr GT)) s1 cs1 K0).
  assert (Hk : k1 (b ++ GT :: w) [] = Some (w, [(1%nat, b)])).
  { unfold k1. rewrite m_seq, m_group, m_greedy_cls, greedy_run_stop.
    2:{ intros c s0 cs Hc. rewrite m_chr. unfold is_not in Hc.
        apply negb_true_iff in Hc. rewrite Hc. reflexivity. }
    rewrite (span_eq (is_not GT) b (GT :: w) Hb eq_refl). cbn [snd].
    rewrite m_chr. change (GT =? GT) with true. cbn iota. unfold K0.
    f_equal. f_equal. f_equal. f_equal.
    apply matched_eq. reflexivity. }
  rewrite (greedy_run_first is_name_char k1 [] n (b ++ GT :: w) (w, [(1%nat, b)]) Hn Hk).
  2:{ destruct b as [|c b']; [reflexivity | exact Hstop]. }
  f_equal. f_equal.
  apply (matched_eq (LT :: a :: n ++ b ++ GT :: w) (LT :: a :: n ++ b ++ [GT]) w).
  cbn [app]. rewrite <- !app_assoc. reflexivity.
Qed.

(** ** Decoding a text with some of its brackets encoded *)

Lemma unset_attr_capture_decode M y :
  unset_attr_capture y = decode_from BANG ATTR_BODY (bracket_code M) 0 2 y.
Proof. reflexivity. Qed.

Lemma bracket_code_ok M : code_ok BANG ATTR_BODY (bracket_code M).
Proof.
  unfold code_ok. split; [|split; [|split; [|split; [|split]]]].
  - repeat constructor; simpl; intuition discriminate.
  - intros b [<-|[<-|[]]]; reflexivity.
  - reflexivity.
  - intros a i. cbn [bracket_code class names List.length].
    destruct (a =? M + LT); [intros [= <-]; lia|].
    destruct (a =? M + GT); [intros [= <-]; lia | discriminate].
  - intros c [<-|[<-|[]]]; split; try discriminate;
      simpl; intuition discriminate.
  - reflexivity.
Qed.

Lemma fresh_base_bound mu :
  (65536 <= fresh_base mu) /\ forall c, In c (orig mu) -> c < fresh_base mu.
Proof.
  unfold fresh_base. induction (orig mu) as [|a l [IH1 IH2]]; cbn [fold_right].
  - split; [lia | intros c []].
  - split; [lia|]. intros c [<-|Hc]; [lia|]. specialize (IH2 c Hc). lia.
Qed.

Lemma encd_stage M mu :
  well_marked mu = true -> (forall c, In c (orig mu) -> c < M) ->
  encd mu = flat_map (stage BANG ATTR_BODY (bracket_code M) 0) (map (raise M) mu).
Proof.
  induction mu as [|[c e] mu IH]; intros Hw Hb; [reflexivity|].
  cbn [well_marked forallb] in Hw. apply andb_true_iff in Hw. destruct Hw as [Hc Hw].
  cbn [encd flat_map map]. fold (encd mu).
  rewrite (IH Hw) by (intros x Hx; apply Hb; right; exact Hx). f_equal.
  cbn [fst snd] in *. unfold stage, raise. cbn [fst snd bracket_code class names].
  destruct e.
  - unfold is_bracket in Hc. apply orb_true_iff in Hc.
    destruct Hc as [Hc|Hc]; apply N.eqb_eq in Hc; subst c.
    + rewrite N.eqb_refl. reflexivity.
    + replace (M + GT =? M + LT) with false
        by (symmetry; apply N.eqb_neq; unfold LT, GT; lia).
      rewrite N.eqb_refl. reflexivity.
  - pose proof (Hb c (or_introl eq_refl)) as Hlt.
    replace (c =? M + LT) with false by (symmetry; apply N.eqb_neq; lia).
    replace (c =? M + GT) with false by (symmetry; apply N.eqb_neq; lia).
    reflexivity.
Qed.

Lemma stage_decoded M mu :
  well_marked mu = true -> (forall c, In c (orig mu) -> c < M) ->
  flat_map (stage BANG ATTR_BODY (bracket_code M) 2) (map (raise M) mu) = orig mu.
Proof.
  induction mu as [|[c e] mu IH]; intros Hw Hb; [reflexivity|].
  cbn [well_marked forallb] in Hw. apply andb_true_iff in Hw. destruct Hw as [Hc Hw].
  cbn [flat_map map orig]. fold (orig mu).
  rewrite (IH Hw) by (intros x Hx; apply Hb; right; exact Hx).
  cbn [fst snd] in *. unfold stage, raise. cbn [fst snd bracket_code class decs].
  destruct e.
  - unfold is_bracket in Hc. apply orb_true_iff in Hc.
    destruct Hc as [Hc|Hc]; apply N.eqb_eq in Hc; subst c.
    + rewrite N.eqb_refl. reflexivity.
    + replace (M + GT =? M + LT) with false
        by (symmetry; apply N.eqb_neq; unfold LT, GT; lia).
      rewrite N.eqb_refl. reflexivity.
  - pose proof (Hb c (or_introl eq_refl)) as Hlt.
    replace (c =? M + LT) with false by (symmetry; apply N.eqb_neq; lia).
    replace (c =? M + GT) with false by (symmetry; apply N.eqb_neq; lia).
    reflexivity.
Qed.

Lemma prefixb_raise M X : forall mu,
  (forall x, In x X -> x < M) ->
  prefixb X (map (raise M) mu) = true -> prefixb X (orig mu) = true.
Proof.
  unfold orig.
  induction X as [|x X IH]; intros mu Hx H; [reflexivity|].
  destruct mu as [|[c e] mu]; [discriminate H|].
  cbn [map prefixb] in *. apply andb_true_iff in H. destruct H as [H1 H2].
  rewrite (IH mu (fun y Hy => Hx y (or_intror Hy)) H2), andb_true_r.
  unfold raise in H1. cbn [fst snd] in *. destruct e; [|exact H1].
  apply N.eqb_eq in H1. pose proof (Hx x (or_introl eq_refl)). lia.
Qed.

Lemma avoids_raise M X mu :
  (forall x, In x X -> x < M) ->
  avoids X (orig mu) = true -> avoids X (map (raise M) mu) = true.
Proof.
  intro Hx. induction mu as [|ce mu IH]; intro H.
  - destruct X; [discriminate H | reflexivity].
  - change (orig (ce :: mu)) with (fst ce :: orig mu) in H.
    change (map (raise M) (ce :: mu)) with (raise M ce :: map (raise M) mu).
    cbn [avoids] in *. apply andb_true_iff in H. destruct H as [H1 H2].
    rewrite (IH H2), andb_true_r.
    apply negb_true_iff. apply negb_true_iff in H1.
    destruct (prefixb X (raise M ce :: map (raise M) mu)) eqn:E; [|reflexivity].
    rewrite <- H1. symmetry.
    exact (prefixb_raise M X (ce :: mu) Hx E).
Qed.

(** The decoder gives back a text some of whose brackets are encoded, when
    the text does not spell the sentinel body. *)
Lemma unset_attr_capture_encd mu :
  well_marked mu = true -> avoids ATTR_BODY (orig mu) = true ->
  unset_attr_capture (encd mu) = orig mu.
Proof.
  intros Hw Ha. destruct (fresh_base_bound mu) as [HM Hb].
  set (M := fresh_base mu) in *.
  rewrite (unset_attr_capture_decode M), (encd_stage M mu Hw Hb).
  rewrite (decode_from_stage BANG ATTR_BODY (bracket_code M) (bracket_code_ok M) 2 0);
    [exact (stage_decoded M mu Hw Hb) | reflexivity|].
  apply avoids_raise; [|exact Ha].
  intros x Hx.
  assert (Hs : forallb (fun y => y <? 65536) ATTR_BODY = true) by (vm_compute; reflexivity).
  pose proof (proj1 (forallb_forall _ _) Hs x Hx) as Hlt. apply N.ltb_lt in Hlt. lia.
Qed.

(** ** Marked texts *)

Lemma orig_app mu nu : orig (mu ++ nu) = orig mu ++ orig nu.
Proof. unfold orig. apply map_app. Qed.

Lemma encd_app mu nu : encd (mu ++ nu) = encd mu ++ encd nu.
Proof. unfold encd. apply flat_map_app. Qed.

Lemma well_marked_app mu nu :
  well_marked (mu ++ nu) = well_marked mu && well_marked nu.
Proof. unfold well_marked. apply forallb_app. Qed.

Lemma orig_plain x : orig (plain_marks x) = x.
Proof.
  unfold orig, plain_marks. rewrite map_map. cbn [fst]. apply map_id.
Qed.

Lemma encd_plain x : encd (plain_marks x) = x.
Proof.
  unfold encd, plain_marks. induction x as [|a x IH]; [reflexivity|].
  cbn [map flat_map snd fst app]. rewrite IH. reflexivity.
Qed.

Lemma well_marked_plain x :
  forallb (is_not GT) x = true -> well_marked (plain_marks x) = true.
Proof.
  unfold well_marked, plain_marks. induction x as [|a x IH]; intro H; [reflexivity|].
  cbn [forallb map snd fst] in *. apply andb_true_iff in H. destruct H as [Ha H].
  rewrite Ha, (IH H). reflexivity.
Qed.

Lemma orig_bracket x : orig (bracket_marks x) = x.
Proof.
  unfold orig, bracket_marks. rewrite map_map. cbn [fst]. apply map_id.
Qed.

Lemma encd_bracket x : encd (bracket_marks x) = set_attr_capture x.
Proof.
  rewrite set_attr_capture_flat. unfold encd, bracket_marks.
  induction x as [|a x IH]; [reflexivity|].
  cbn [map flat_map snd fst]. rewrite flat_map_app, IH. f_equal.
  unfold is_bracket, bracket_token.
  destruct (a =? LT) eqn:E1.
  - reflexivity.
  - cbn [orb flat_map app]. destruct (a =? GT); [|reflexivity].
    rewrite app_nil_r. reflexivity.
Qed.

Lemma well_marked_bracket x : well_marked (bracket_marks x) = true.
Proof.
  unfold well_marked, bracket_marks. induction x as [|a x IH]; [reflexivity|].
  cbn [forallb map snd fst]. rewrite IH, andb_true_r.
  destruct (is_bracket a) eqn:E; [reflexivity|].
  unfold is_bracket in E. apply orb_false_iff in E. destruct E as [_ E].
  unfold is_not. rewrite E. reflexivity.
Qed.

Lemma bracket_token_no_gt c : forallb (is_not GT) (bracket_token c) = true.
Proof. unfold bracket_token. destruct (c =? LT); reflexivity. Qed.

Lemma encd_no_gt mu : well_marked mu = true -> forallb (is_not GT) (encd mu) = true.
Proof.
  induction mu as [|[c e] mu IH]; intro H; [reflexivity|].
  cbn [well_marked forallb] in H. apply andb_true_iff in H. destruct H as [Hc H].
  change (encd ((c, e) :: mu))
    with ((if e then bracket_token c else [c]) ++ encd mu).
  rewrite forallb_app, (IH H), andb_true_r. cbn [snd fst] in Hc.
  destruct e; [apply bracket_token_no_gt|]. cbn [forallb]. rewrite Hc. reflexivity.
Qed.

(** The run of name characters an encoding starts with is a run of
    characters left as they are. *)
Lemma span_encd mu :
  exists mu',
    mu = plain_marks (fst (span is_name_char (encd mu))) ++ mu'
    /\ encd mu' = snd (span is_name_char (encd mu)).
Proof.
  induction mu as [|[c e] mu IH].
  - exists []. split; reflexivity.
  - change (encd ((c, e) :: mu))
      with ((if e then bracket_token c else [c]) ++ encd mu).
    destruct e.
    + exists ((c, true) :: mu).
      change (encd ((c, true) :: mu)) with (bracket_token c ++ encd mu).
      unfold bracket_token. destruct (c =? LT); split; reflexivity.
    + cbn [app span]. destruct (is_name_char c) eqn:E.
      * destruct IH as (mu' & H1 & H2).
        destruct (span is_name_char (encd mu)) as [u w]. cbn [fst snd] in *.
        exists mu'. split; [|exact H2]. cbn [plain_marks map app].
        fold (plain_marks u). rewrite <- H1. reflexivity.
      * exists ((c, false) :: mu). split; reflexivity.
Qed.

Lemma avoids_app_l X a b : avoids X (a ++ b) = true -> avoids X a = true.
Proof.
  induction a as [|c a IH]; intro H.
  - destruct X; [destruct b; discriminate H | reflexivity].
  - cbn [app avoids] in *. apply andb_true_iff in H. destruct H as [H1 H2].
    rewrite (IH H2), andb_true_r. apply negb_true_iff. apply negb_true_iff in H1.
    destruct (prefixb X (c :: a)) eqn:E; [|reflexivity].
    rewrite <- H1. symmetry.
    exact (prefixb_app_r X (c :: a) b E).
Qed.

Lemma avoids_app_r X a b : avoids X (a ++ b) = true -> avoids X b = true.
Proof.
  induction a as [|c a IH]; intro H; [exact H|].
  apply IH. exact (avoids_tail X c (a ++ b) H).
Qed.

(** ** One tag of [unsetIgnoreAttribute] *)

Lemma unsetIgnoreAttribute_replaced html :
  unsetIgnoreAttribute html
  = replaced unset_attr_re
      (fun _ h => replace_first (group 1 h) unset_attr_capture (matched h)) html.
Proof. reflexivity. Qed.

Lemma name_char_not_bang a : is_name_char a = true -> negb (a =? BANG) = true.
Proof.
  intro H. apply name_char_cases in H. apply negb_true_iff, N.eqb_neq.
  unfold BANG. lia.
Qed.

Lemma no_bang_unmarked b :
  existsb (fun c => c =? BANG) b = false -> contains ATTRIBUTE_IGNORE_STRING b = false.
Proof.
  induction b as [|a b IH]; intro H; [reflexivity|].
  cbn [existsb] in H. apply orb_false_iff in H. destruct H as [Ha H].
  cbn [contains]. rewrite (IH H), orb_false_r.
  change ATTRIBUTE_IGNORE_STRING with (BANG :: ATTR_BODY). cbn [prefixb].
  rewrite N.eqb_sym, Ha. reflexivity.
Qed.

(** The replacement of the captured text lands on it, or changes nothing. *)
Lemma unset_attr_callback n b :
  forallb is_name_char n = true ->
  replace_first b unset_attr_capture (LT :: n ++ b ++ [GT])
  = LT :: n ++ unset_attr_capture b ++ [GT].
Proof.
  intro Hn. destruct (existsb (fun c => c =? BANG) b) eqn:E.
  - change (LT :: n ++ b ++ [GT]) with ((LT :: n) ++ b ++ [GT]).
    rewrite (replace_first_at (fun c => c =? BANG)); [reflexivity| |exact E].
    cbn [forallb]. change (negb (LT =? BANG)) with true. cbn [andb].
    exact (forallb_impl _ _ _ name_char_not_bang Hn).
  - pose proof (unset_attr_capture_unmarked b (no_bang_unmarked b E)) as Hp.
    rewrite replace_first_id by exact Hp. rewrite Hp. reflexivity.
Qed.

Lemma unset_miss c s :
  exec unset_attr_re (c :: s) = None ->
  unsetIgnoreAttribute (c :: s) = c :: unsetIgnoreAttribute s.
Proof.
  intro E. rewrite !unsetIgnoreAttribute_replaced.
  apply replaced_miss; [reflexivity | exact E].
Qed.

Lemma unset_no_gt s :
  forallb (is_not GT) s = true -> unsetIgnoreAttribute s = s.
Proof.
  induction s as [|c s IH]; intro H; [reflexivity|].
  rewrite unset_miss by (apply exec_unset_no_gt; exact H).
  cbn [forallb] in H. apply andb_true_iff in H. rewrite (IH (proj2 H)). reflexivity.
Qed.

(** A tag whose text is an encoding is read back. *)
Lemma unset_tag_encd mu w :
  well_marked mu = true -> avoids ATTR_BODY (orig mu) = true ->
  starts_name (encd mu) = true ->
  unsetIgnoreAttribute (LT :: encd mu ++ GT :: w)
  = LT :: orig mu ++ GT :: unsetIgnoreAttribute w.
Proof.
  intros Hw Ha Hs. destruct (span_encd mu) as (mu' & Hmu & Hb).
  pose proof (span_app is_name_char (encd mu)) as Hsp.
  pose proof (span_all is_name_char (encd mu)) as Hn.
  pose proof (span_stops is_name_char (encd mu)) as Hstop.
  pose proof (encd_no_gt mu Hw) as Hg.
  destruct (span is_name_char (encd mu)) as [n b] eqn:Esp. cbn [fst snd] in *.
  assert (Hne : n <> []).
  { intros ->. cbn [app] in Hsp. rewrite <- Hsp in Hs.
    destruct b as [|a x]; [discriminate Hs|].
    cbn [starts_name] in Hs. rewrite Hs in Hstop. discriminate Hstop. }
  assert (Hgb : forallb (is_not GT) b = true).
  { rewrite <- Hsp, forallb_app in Hg. apply andb_true_iff in Hg. exact (proj2 Hg). }
  assert (Hw' : well_marked mu' = true).
  { rewrite Hmu, well_marked_app in Hw. apply andb_true_iff in Hw. exact (proj2 Hw). }
  assert (Ha' : avoids ATTR_BODY (orig mu') = true).
  { rewrite Hmu, orig_app in Ha. exact (avoids_app_r _ _ _ Ha). }
  assert (Ho : orig mu = n ++ orig mu').
  { rewrite Hmu at 1. rewrite orig_app, orig_plain. reflexivity. }
  pose proof (exec_unset_hit n b w Hne Hn Hgb Hstop) as E.
  rewrite <- Hsp, <- app_assoc.
  rewrite unsetIgnoreAttribute_replaced.
  rewrite (replaced_hit unset_attr_re
             (fun _ h => replace_first (group 1 h) unset_attr_capture (matched h))
             (fun _ _ _ => eq_refl)
             (LT :: n ++ b ++ GT :: w) _ (LT :: n ++ b ++ [GT]) w E eq_refl).
  - cbn [matched]. change (group 1 (Hit (LT :: n ++ b ++ [GT]) [(1%nat, b)] w)) with b.
    rewrite (unset_attr_callback n b Hn), <- Hb, (unset_attr_capture_encd mu' Hw' Ha'), Ho.
    cbn [app]. rewrite <- !app_assoc. reflexivity.
  - discriminate.
  - cbn [app]. rewrite <- !app_assoc. reflexivity.
Qed.

(** An encoding whose encoded brackets all lie in tags is read back, up to
    the [>] that follows it. *)
Lemma unset_encd : forall mu w,
  well_marked mu = true -> guarded mu = true -> avoids ATTR_BODY (orig mu) = true ->
  unsetIgnoreAttribute (encd mu ++ GT :: w) = orig mu ++ GT :: unsetIgnoreAttribute w.
Proof.
  induction mu as [|[c e] mu IH]; intros w Hw Hg Ha.
  - cbn [encd orig flat_map map app].
    apply unset_miss. apply exec_unset_not_lt. reflexivity.
  - cbn [guarded snd fst] in Hg. apply andb_true_iff in Hg. destruct Hg as [He Hg].
    destruct e; [discriminate He|]. clear He.
    pose proof Hw as Hw0. cbn [well_marked forallb] in Hw.
    apply andb_true_iff in Hw. destruct Hw as [Hc Hw]. fold (well_marked mu) in Hw.
    change (orig ((c, false) :: mu)) with (c :: orig mu) in *.
    change (encd ((c, false) :: mu)) with (c :: encd mu).
    pose proof (avoids_tail _ _ _ Ha) as Ha'. cbn [app].
    destruct ((c =? LT) && starts_name (encd mu)) eqn:E.
    + apply andb_true_iff in E. destruct E as [E1 E2]. apply N.eqb_eq in E1. subst c.
      exact (unset_tag_encd mu w Hw Ha' E2).
    + cbn [orb] in Hg. rewrite unset_miss, (IH w Hw Hg Ha'); [reflexivity|].
      destruct (c =? LT) eqn:E1.
      * apply N.eqb_eq in E1. subst c. cbn [andb] in E.
        apply exec_unset_no_name. destruct (encd mu) as [|a x]; [reflexivity | exact E].
      * apply exec_unset_not_lt. exact E1.
Qed.

(** ** What [setIgnoreAttribute] writes, up to the first [>] *)

Lemma set_miss c s :
  exec set_attr_re (c :: s) = None ->
  setIgnoreAttribute (c :: s) = c :: setIgnoreAttribute s.
Proof.
  intro E. rewrite !setIgnoreAttribute_replaced.
  apply replaced_miss; [reflexivity | exact E].
Qed.

Lemma set_attr_name_head s h :
  exec set_attr_re s = Some h ->
  exists a t, group 1 h = a :: t /\ is_name_char a = true.
Proof.
  intro E. destruct (exec_sound _ _ _ E) as [_ P]. unfold set_attr_re in P.
  apply parse_seq_inv in P. destruct P as (w1 & w2 & cs1 & Hm & P1 & P).
  apply parse_chr_inv in P1. destruct P1 as [-> ->].
  apply parse_seq_inv in P. destruct P as (p1 & w3 & cs1 & -> & P2 & P).
  apply parse_group_inv in P2. destruct P2 as (cs2 & -> & P2).
  apply parse_seq_inv in P. destruct P as (p2 & w4 & cs3 & -> & P3 & P4).
  apply parse_group_inv in P3. destruct P3 as (cs4 & -> & P3).
  apply parse_chr_inv in P4. destruct P4 as [-> Hg].
  pose proof (parse_group_free _ _ _ _ P3 eq_refl) as Hc. subst cs4.
  unfold group. rewrite Hg. cbn [cap_get Nat.eqb].
  assert (Hal : forall a, is_alpha a = true -> is_name_char a = true).
  { intros a Ha. unfold is_name_char, is_word. unfold is_alpha in Ha.
    apply orb_true_iff in Ha. destruct Ha as [-> | ->]; [reflexivity|].
    rewrite orb_true_r. reflexivity. }
  apply parse_alt_inv in P2. destruct P2 as [P2|P2].
  - apply parse_seq_inv in P2. destruct P2 as (x & y & c0 & -> & Px & Py).
    apply parse_cls_inv in Px. destruct Px as (a & -> & Ha & _).
    exists a, y. split; [reflexivity | exact (Hal a Ha)].
  - apply parse_custom_name in P2. destruct P2 as [(a & u & t & -> & Ha & _) _].
    exists a, (u ++ DASH :: t). split; [reflexivity|].
    exact (Hal a (lower_alpha a Ha)).
Qed.

Lemma set_hit s h :
  exec set_attr_re s = Some h ->
  s = LT :: group 1 h ++ group 2 h ++ GT :: after h
  /\ setIgnoreAttribute s
     = LT :: group 1 h ++ set_attr_capture (group 2 h) ++ GT :: setIgnoreAttribute (after h).
Proof.
  intro E. destruct (exec_sound _ _ _ E) as [Hs _].
  destruct (set_attr_groups s h E) as (Hm & _).
  assert (Hs' : s = LT :: group 1 h ++ group 2 h ++ GT :: after h).
  { rewrite Hs at 1. rewrite Hm. cbn [app]. rewrite <- !app_assoc. reflexivity. }
  split; [exact Hs'|].
  rewrite !setIgnoreAttribute_replaced.
  rewrite (replaced_hit set_attr_re (fun _ h => set_attr_tag h) (fun _ _ _ => eq_refl)
             s h (matched h) (after h) E eq_refl).
  - unfold set_attr_tag. cbn [app]. rewrite <- !app_assoc. reflexivity.
  - rewrite Hm. discriminate.
  - exact Hs.
Qed.

(** Either nothing is rewritten and the text holds no [>], or the text up
    to its first [>] is rewritten into an encoding whose encoded brackets
    lie in a tag. *)
Lemma set_first_gt : forall s,
  (setIgnoreAttribute s = s /\ forallb (is_not GT) s = true)
  \/ exists mu s',
       s = orig mu ++ GT :: s'
       /\ setIgnoreAttribute s = encd mu ++ GT :: setIgnoreAttribute s'
       /\ well_marked mu = true /\ guarded mu = true.
Proof.
  induction s as [|c s IH]; [left; split; reflexivity|].
  destruct (exec set_attr_re (c :: s)) as [h|] eqn:E.
  - right. destruct (set_hit _ _ E) as [Hs HS].
    destruct (set_attr_groups _ _ E) as (_ & Hn & _).
    destruct (set_attr_name_head _ _ E) as (a & t & Hp & Ha).
    exists ((LT, false) :: plain_marks (group 1 h) ++ bracket_marks (group 2 h)), (after h).
    change (orig ((LT, false) :: plain_marks (group 1 h) ++ bracket_marks (group 2 h)))
      with (LT :: orig (plain_marks (group 1 h) ++ bracket_marks (group 2 h))).
    change (encd ((LT, false) :: plain_marks (group 1 h) ++ bracket_marks (group 2 h)))
      with (LT :: encd (plain_marks (group 1 h) ++ bracket_marks (group 2 h))).
    rewrite orig_app, encd_app, orig_plain, encd_plain, orig_bracket, encd_bracket.
    split; [|split; [|split]].
    + rewrite Hs at 1. cbn [app]. rewrite <- !app_assoc. reflexivity.
    + rewrite HS. cbn [app]. rewrite <- !app_assoc. reflexivity.
    + cbn [well_marked forallb snd fst].
      change (forallb _ (plain_marks (group 1 h) ++ bracket_marks (group 2 h)))
        with (well_marked (plain_marks (group 1 h) ++ bracket_marks (group 2 h))).
      rewrite well_marked_app, well_marked_bracket, andb_true_r.
      change (is_not GT LT) with true. cbn [andb].
      apply well_marked_plain. apply (forallb_impl is_tag_name_char); [|exact Hn].
      intros b Hb. apply tag_name_no_bracket in Hb. unfold no_bracket in Hb.
      apply andb_true_iff in Hb. exact (proj2 Hb).
    + cbn [guarded snd fst negb andb]. rewrite encd_app, encd_plain, Hp.
      cbn [app starts_name]. rewrite Ha. reflexivity.
  - rewrite (set_miss c s E). destruct (c =? GT) eqn:Ec.
    + right. apply N.eqb_eq in Ec. subst c. exists [], s.
      repeat split; reflexivity.
    + destruct IH as [[H1 H2]|(mu & s' & Hs & HS & Hw & Hg)].
      * left. rewrite H1. split; [reflexivity|]. cbn [forallb].
        unfold is_not at 1. rewrite Ec, H2. reflexivity.
      * right. exists ((c, false) :: mu), s'.
        change (orig ((c, false) :: mu)) with (c :: orig mu).
        change (encd ((c, false) :: mu)) with (c :: encd mu).
        split; [|split; [|split]].
        -- rewrite Hs at 1. reflexivity.
        -- rewrite HS. reflexivity.
        -- cbn [well_marked forallb snd fst]. unfold is_not at 1. rewrite Ec.
           exact Hw.
        -- cbn [guarded snd fst negb andb]. rewrite Hg. apply orb_true_r.
Qed.

(** ** The round trip *)

Lemma unset_set_bounded : forall n html,
  (List.length html <= n)%nat -> avoids ATTR_BODY html = true ->
  unsetIgnoreAttribute (setIgnoreAttribute html) = html.
Proof.
  induction n as [|n IH]; intros html Hn Ha.
  - destruct html; [reflexivity | simpl in Hn; lia].
  - destruct (set_first_gt html) as [[H1 H2]|(mu & s' & Hs & HS & Hw & Hg)].
    + rewrite H1. exact (unset_no_gt html H2).
    + rewrite HS. rewrite Hs in Ha.
      rewrite (unset_encd mu _ Hw Hg (avoids_app_l _ _ _ Ha)).
      rewrite IH.
      * symmetry. exact Hs.
      * rewrite Hs, length_app in Hn. cbn [List.length] in Hn. lia.
      * exact (avoids_tail _ _ _ (avoids_app_r _ _ _ Ha)).
Qed.

(** [unsetIgnoreAttribute] reads back what [setIgnoreAttribute] has
    written: on a document that does not hold the text of the sentinel
    after its leading [!], encoding the brackets of the quoted attribute
    values and decoding them again gives the document back. *)
Theorem unsetIgnoreAttribute_reads_back_setIgnoreAttribute :
  forall html,
    avoids ATTR_BODY html = true ->
    unsetIgnoreAttribute (setIgnoreAttribute html) = html.
Proof.
  intros html Ha. exact (unset_set_bounded (List.length html) html (le_n _) Ha).
Qed.

Lemma unsetIgnoreAttribute_reads_back_setIgnoreAttribute_witness :
  unsetIgnoreAttribute (setIgnoreAttribute doc_quoted) = doc_quoted.
Proof.
  apply (unsetIgnoreAttribute_reads_back_setIgnoreAttribute doc_quoted).
  vm_compute. reflexivity.
Defined.
